(** * Face Studio: image transforms and face-region detection

    A shallow embedding of the pixel pipeline and the heuristic face
    detector of [script.js] ([ImageProcessor], [FaceProcessor],
    [processFaceDetection], [UIController.captureImage]), of the drivers
    around them ([processImages], the periodic tracker), and of the
    fuzzy matching of voice commands ([VoiceController.fuzzyMatch]).

    Conventions.
    - JavaScript numbers are IEEE-754 binary64 values.  They are embedded
      in [Q]: every finite double is a rational, and every arithmetic
      operation of the source is the exact operation followed by [fl],
      rounding to the nearest double (ties to even).  The quantities of
      this program stay far away from overflow and from the subnormal
      range, so exponents are left unbounded.  NaN and the infinities occur
      in one place, the boxes reported by the external face detector;
      those are numbers of [Num.t].
    - Quantities that the source keeps integral (pixel indices, loop
      counters, pixel counts, box coordinates) are in [Z]; integer
      arithmetic on doubles is exact below 2^53.
    - A [Uint8ClampedArray] is a [list Z] of bytes; a store converts with
      [toUint8Clamped] and is dropped when the index is out of range, as
      for a typed array. *)

From Stdlib Require Import ZArith QArith Qround Qabs Qminmax Qpower Qreduction Lia Lqa Bool.
From stdpp Require Import base option list gmap.

Local Open Scope Z_scope.

(** ** JavaScript numbers *)

Module JS.

(** Round half to even, to an integer. *)
Definition round_half_even (x : Q) : Z :=
  let f := Qfloor x in
  match (x - inject_Z f ?= 1 # 2)%Q with
  | Lt => f
  | Gt => f + 1
  | Eq => if Z.even f then f else f + 1
  end.

(** [binade x] is the exponent [e] with [2^e <= |x| < 2^(e+1)]. *)
Definition binade (x : Q) : Z :=
  let e0 := Z.log2 (Z.abs (Qnum x)) - Z.log2 (Zpos (Qden x)) in
  if Qle_bool (2 ^ e0) (Qabs x) then e0 else e0 - 1.

(** Rounding to binary64: 53 significant bits, ties to even. *)
Definition fl_red (x : Q) : Q :=
  if Qeq_bool x 0 then 0%Q
  else let e := binade x - 52 in
       (inject_Z (round_half_even (x / 2 ^ e)) * 2 ^ e)%Q.

Definition fl (x : Q) : Q := Qred (fl_red (Qred x)).

(** The four arithmetic operators on doubles. *)
Definition fadd (x y : Q) : Q := fl (x + y).
Definition fsub (x y : Q) : Q := fl (x - y).
Definition fmul (x y : Q) : Q := fl (x * y).
Definition fdiv (x y : Q) : Q := fl (x / y).

(** [x % y] on doubles is exact (C's fmod): the remainder has the sign
    of the dividend. *)
Definition Qtrunc (x : Q) : Z := if Qle_bool 0 x then Qfloor x else Qceiling x.
Definition fmod (x y : Q) : Q := (x - inject_Z (Qtrunc (x / y)) * y)%Q.

(** Comparisons. *)
Definition ltb (x y : Q) : bool := negb (Qle_bool y x).
Definition gtb (x y : Q) : bool := negb (Qle_bool x y).
Definition leb (x y : Q) : bool := Qle_bool x y.
Definition eqb (x y : Q) : bool := Qeq_bool x y.

(** [Math.round]: nearest integer, ties towards +infinity.  On a double
    the result is exact. *)
Definition Math_round (x : Q) : Z := Qfloor (x + (1 # 2)).
Definition Math_max (x y : Q) : Q := if Qle_bool x y then y else x.
Definition Math_min (x y : Q) : Q := if Qle_bool x y then x else y.
Definition Math_abs (x : Q) : Q := Qabs x.

(** Conversion of a number stored into a [Uint8ClampedArray]. *)
Definition toUint8Clamped (x : Q) : Z :=
  Z.max 0 (Z.min 255 (round_half_even x)).

End JS.

Declare Scope js_scope.
Delimit Scope js_scope with js.
Notation "x +. y" := (JS.fadd x y) (at level 50, left associativity) : js_scope.
Notation "x -. y" := (JS.fsub x y) (at level 50, left associativity) : js_scope.
Notation "x *. y" := (JS.fmul x y) (at level 40, left associativity) : js_scope.
Notation "x /. y" := (JS.fdiv x y) (at level 40, left associativity) : js_scope.
Notation "x >. y" := (JS.gtb x y) (at level 70, no associativity) : js_scope.
Notation "x <. y" := (JS.ltb x y) (at level 70, no associativity) : js_scope.
Notation "x <=. y" := (JS.leb x y) (at level 70, no associativity) : js_scope.
Local Open Scope js_scope.

(** Integers are read as numbers where the source does. *)
#[local] Coercion inject_Z : Z >-> Q.

(** A decimal literal of the source denotes the nearest double. *)
Definition lit (x : Q) : Q := JS.fl x.
Arguments lit x%_Q.

(** ** Loops

    [for (let i = start; i < stop; i += step)] with a body that changes
    neither [i] nor the bounds: [for_range] lists the values [i] takes.
    With [step >= 1] the loop runs at most [stop - start] times, which is
    the fuel given. *)

Fixpoint for_from (fuel : nat) (i stop step : Z) : list Z :=
  match fuel with
  | O => []
  | S fuel' => if i <? stop then i :: for_from fuel' (i + step) stop step else []
  end.

Definition for_range (start stop step : Z) : list Z :=
  for_from (Z.to_nat (stop - start)) start stop step.

Definition for_loop {S : Type} (start stop step : Z) (body : Z -> S -> S) (s : S) : S :=
  fold_left (fun s i => body i s) (for_range start stop step) s.

(** ** Rasters

    A p5 graphics buffer at pixel density 1: [pixels] is the RGBA byte
    array that [loadPixels] exposes and [updatePixels] writes back. *)

Record Raster := mkRaster { width : Z; height : Z; pixels : list Z }.

Definition wf_raster (img : Raster) : Prop :=
  0 <= width img /\ 0 <= height img /\
  Z.of_nat (length (pixels img)) = 4 * (width img * height img) /\
  Forall (fun v => 0 <= v <= 255) (pixels img).

(** [a[i]] for an index inside the array (all reads of the source are,
    on a well-formed raster). *)
Definition rd (a : list Z) (i : Z) : Z :=
  if i <? 0 then 0 else default 0 (a !! Z.to_nat i).

(** [a[i] = v] on a [Uint8ClampedArray]. *)
Definition wr (a : list Z) (i : Z) (v : Q) : list Z :=
  if i <? 0 then a else <[Z.to_nat i := JS.toUint8Clamped v]> a.

Definition len (a : list Z) : Z := Z.of_nat (length a).

(** The four stores of one iteration of a pixel loop, in the order of
    the source. *)
Definition wr4 (out : list Z) (i : Z) (a b c d : Q) : list Z :=
  wr (wr (wr (wr out i a) (i + 1) b) (i + 2) c) (i + 3) d.

(** The pixel that starts at byte [t] holds the gray level [c], opaque. *)
Definition gray_at (c : Z) (s : list Z) (t : Z) : Prop :=
  rd s t = c /\ rd s (t + 1) = c /\ rd s (t + 2) = c /\ rd s (t + 3) = 255.

(** Every pixel of [img] is [(r, g, b, a)]. *)
Definition uniform (img : Raster) (r g b a : Z) : Prop :=
  forall p, 0 <= p < width img * height img ->
    rd (pixels img) (p * 4) = r /\ rd (pixels img) (p * 4 + 1) = g /\
    rd (pixels img) (p * 4 + 2) = b /\ rd (pixels img) (p * 4 + 3) = a.

(** A buffer fresh from [createGraphics]: transparent black. *)
Definition blank (w h : Z) : Raster :=
  mkRaster w h (replicate (Z.to_nat (4 * (w * h))) 0).

(** ** Bounding boxes and detector results *)

Module Box.
Record t := mk { x : Z; y : Z; width : Z; height : Z }.
End Box.

(** A box lies in a [W] x [H] frame. *)
Definition in_frame (W H : Z) (b : Box.t) : Prop :=
  0 <= Box.x b /\ 0 <= Box.y b /\
  Box.x b + Box.width b <= W /\ Box.y b + Box.height b <= H.

(** ** Numbers of the external detector

    The boxes that the program builds itself have integer coordinates.
    A box reported by the external detector need not: each field of it
    holds whatever number the detector wrote, NaN and the infinities
    included, or is missing and reads as [undefined].  [Num.t] is a
    JavaScript number with these values.  A finite one is the rational
    it denotes, and sums and differences round with [JS.fl] as
    everywhere; the sums of this code add at most the frame size to a
    double, so none overflows. *)

Module Num.

Inductive t := Fin (q : Q) | NaN | Infinity | NegInfinity.

(** What reading a field of a reported box gives: a number, or
    [undefined] when the box has no such field.  [Math.round] converts
    its argument to a number first, and [undefined] converts to NaN. *)
Inductive value := Number (n : t) | Undefined.

Definition ToNumber (v : value) : t :=
  match v with
  | Number n => n
  | Undefined => NaN
  end.

Definition isNaN (v : value) : bool :=
  match ToNumber v with
  | NaN => true
  | _ => false
  end.

(** [Math.round] converts its argument to a number; NaN and the
    infinities are returned as they are. *)
Definition Math_round (v : value) : t :=
  match ToNumber v with
  | Fin q => Fin (inject_Z (JS.Math_round q))
  | n => n
  end.

(** [Math.max] and [Math.min]: NaN if an argument is NaN. *)
Definition Math_max (a b : t) : t :=
  match a, b with
  | NaN, _ | _, NaN => NaN
  | Infinity, _ | _, Infinity => Infinity
  | NegInfinity, n | n, NegInfinity => n
  | Fin p, Fin q => Fin (JS.Math_max p q)
  end.

Definition Math_min (a b : t) : t :=
  match a, b with
  | NaN, _ | _, NaN => NaN
  | NegInfinity, _ | _, NegInfinity => NegInfinity
  | Infinity, n | n, Infinity => n
  | Fin p, Fin q => Fin (JS.Math_min p q)
  end.

Definition add (a b : t) : t :=
  match a, b with
  | NaN, _ | _, NaN => NaN
  | Infinity, NegInfinity | NegInfinity, Infinity => NaN
  | Infinity, _ | _, Infinity => Infinity
  | NegInfinity, _ | _, NegInfinity => NegInfinity
  | Fin p, Fin q => Fin (JS.fadd p q)
  end.

Definition sub (a b : t) : t :=
  match a, b with
  | NaN, _ | _, NaN => NaN
  | Infinity, Infinity | NegInfinity, NegInfinity => NaN
  | Infinity, _ | _, NegInfinity => Infinity
  | NegInfinity, _ | _, Infinity => NegInfinity
  | Fin p, Fin q => Fin (JS.fsub p q)
  end.

(** Comparisons: false whenever an operand is NaN. *)
Definition gtb (a b : t) : bool :=
  match a, b with
  | NaN, _ | _, NaN => false
  | Fin p, Fin q => JS.gtb p q
  | _, Infinity => false
  | Infinity, _ => true
  | NegInfinity, _ => false
  | Fin _, NegInfinity => true
  end.

Definition leb (a b : t) : bool :=
  match a, b with
  | NaN, _ | _, NaN => false
  | Fin p, Fin q => JS.leb p q
  | _, Infinity => true
  | Infinity, _ => false
  | NegInfinity, _ => true
  | Fin _, NegInfinity => false
  end.

Definition geb (a b : t) : bool := leb b a.

(** An integer of the program, as a number, and as the value of a
    property. *)
Definition of_Z (z : Z) : t := Fin (inject_Z z).
Definition int (z : Z) : value := Number (of_Z z).

End Num.

(** A box whose fields are such numbers: the object literal that
    [processFaceDetection] and [enableRealTimeFaceTracking] build from a
    report.  [of_box] reads a box of the program as one. *)
Module NumBox.
Record t := mk { x : Num.t; y : Num.t; width : Num.t; height : Num.t }.

Definition of_box (b : Box.t) : t :=
  mk (Num.of_Z (Box.x b)) (Num.of_Z (Box.y b))
     (Num.of_Z (Box.width b)) (Num.of_Z (Box.height b)).
End NumBox.

(** The first result of [faceMesh.detect].  It carries the box in one
    of two layouts, [face.box] with [xMin], [yMin], [width], [height],
    or [face.boundingBox] with [topLeft], [width], [height], where
    [topLeft] is an object with [x] and [y], or is missing; [NoBox] is a
    result with neither field. *)
Inductive DetectionResult :=
| BoxForm (xMin yMin width height : Num.value)
| BoundingBoxForm (topLeft : option (Num.value * Num.value)) (width height : Num.value)
| NoBox.

(** ** Results of calls that may raise *)

Inductive Res (A : Type) := Ret (a : A) | Throw.
Arguments Ret {A} a.
Arguments Throw {A}.

Definition res_bind {A B} (m : Res A) (k : A -> Res B) : Res B :=
  match m with Ret a => k a | Throw => Throw end.

(** ** The store of graphics buffers

    Buffers are objects: the heap maps references to rasters.  [gfx]
    scripts the outcomes of the coming [createGraphics] calls ([false]: the
    call raises, as when the backing context is unavailable); past its
    end every call succeeds. *)

Definition ref := nat.

Record World := mkWorld { heap : gmap ref Raster; gfx : list bool }.

Definition M (A : Type) : Type := World -> World * Res A.

Definition ret {A} (a : A) : M A := fun w => (w, Ret a).
Definition throw {A} : M A := fun w => (w, Throw).
Definition bind {A B} (m : M A) (k : A -> M B) : M B :=
  fun w => match m w with
           | (w', Ret a) => k a w'
           | (w', Throw) => (w', Throw)
           end.
Definition try_catch {A} (m : M A) (handler : M A) : M A :=
  fun w => match m w with
           | (w', Ret a) => (w', Ret a)
           | (w', Throw) => handler w'
           end.

Notation "'let*' x ':=' m 'in' k" := (bind m (fun x => k))
  (at level 10, x name, m at level 200, k at level 200).

(** Every buffer of [σ0] is still there in [σ], with the same
    dimensions and pixels. *)
Definition unchanged (σ0 σ : World) : Prop :=
  forall l r, heap σ0 !! l = Some r -> heap σ !! l = Some r.

(** [m] touches no buffer of [σ0], and its result satisfies [Q]. *)
Definition keeps {A} (σ0 : World) (m : M A) (Q : A -> Prop) : Prop :=
  forall σ, unchanged σ0 σ ->
    unchanged σ0 (fst (m σ)) /\
    match snd (m σ) with Ret a => Q a | Throw => True end.

(** [createGraphics(w, h)]. *)
Definition createGraphics (w h : Z) : M ref := fun σ =>
  match gfx σ with
  | false :: rest => (mkWorld (heap σ) rest, Throw)
  | _ => let o := fresh (dom (heap σ)) in
         (mkWorld (<[o := blank w h]> (heap σ)) (tail (gfx σ)), Ret o)
  end.

(** [safeCreateGraphics]: null instead of an exception. *)
Definition safeCreateGraphics (w h : Z) : M (option ref) :=
  try_catch (let* o := createGraphics w h in ret (Some o)) (ret None).

(** Access to a property of [img]: a TypeError when [img] is null. *)
Definition deref (img : option ref) : M Raster := fun σ =>
  match img with
  | Some l => match heap σ !! l with
              | Some r => (σ, Ret r)
              | None => (σ, Throw)
              end
  | None => (σ, Throw)
  end.

(** [output.loadPixels(); ...; output.updatePixels()] around a loop that
    writes [output.pixels]. *)
Definition update_pixels (o : ref) (f : list Z -> list Z) : M unit := fun σ =>
  match heap σ !! o with
  | Some r => (mkWorld (<[o := mkRaster (width r) (height r) (f (pixels r))]> (heap σ)) (gfx σ), Ret tt)
  | None => (σ, Throw)
  end.

(** [output.image(img, 0, 0)] on a fresh buffer of the size of [img]. *)
Definition draw_image (o : ref) (img : Raster) : M unit :=
  update_pixels o (fun _ => pixels img).

Section FaceStudio.

(** Library functions that have no closed form on rationals, and the
    rendering primitives of p5, are parameters of the development. *)
Variable Math_pow : Q -> Q -> Q.
Variable Math_sqrt : Q -> Q.
(** [g.filter(BLUR, radius)] on the contents of a buffer. *)
Variable filter_BLUR : Z -> Raster -> list Z.
(** Whether [img.loadPixels()] raises (a lost drawing context). *)
Variable loadPixels_throws : Raster -> bool.

(** *** ImageProcessor *)

Definition imageProcessor_width : Z := 160.
Definition imageProcessor_height : Z := 120.

Definition rgbToHsv (r g b : Q) : Z * Z * Z :=
  let r := r /. 255 in
  let g := g /. 255 in
  let b := b /. 255 in
  let max := JS.Math_max (JS.Math_max r g) b in
  let min := JS.Math_min (JS.Math_min r g) b in
  let diff := max -. min in
  let h :=
    if negb (JS.eqb diff 0) then
      if JS.eqb max r then JS.fmod ((g -. b) /. diff) 6
      else if JS.eqb max g then (b -. r) /. diff +. 2
      else (r -. g) /. diff +. 4
    else 0%Q in
  let h := JS.Math_round (h *. 60) in
  let h := if h <? 0 then h + 360 else h in
  let s := if JS.eqb max 0 then 0%Q else diff /. max in
  let v := max in
  (h, JS.Math_round (s *. 255), JS.Math_round (v *. 255)).

Definition rgbToLab (r g b : Q) : Q * Q * Q :=
  let r := r /. lit 255.0 in
  let g := g /. lit 255.0 in
  let b := b /. lit 255.0 in
  let gamma c :=
    if c >. lit 0.04045 then Math_pow ((c +. lit 0.055) /. lit 1.055) (lit 2.4)
    else c /. lit 12.92 in
  let r := gamma r in
  let g := gamma g in
  let b := gamma b in
  let x := r *. lit 0.4124564 +. g *. lit 0.3575761 +. b *. lit 0.1804375 in
  let y := r *. lit 0.2126729 +. g *. lit 0.7151522 +. b *. lit 0.0721750 in
  let z := r *. lit 0.0193339 +. g *. lit 0.1191920 +. b *. lit 0.9503041 in
  let x := x /. lit 0.95047 in
  let y := y /. lit 1.00000 in
  let z := z /. lit 1.08883 in
  let f t :=
    if t >. lit 0.008856 then Math_pow t (1 /. 3)
    else lit 7.787 *. t +. 16 /. 116 in
  let fx := f x in
  let fy := f y in
  let fz := f z in
  let L := 116 *. fy -. 16 in
  let a := 500 *. (fx -. fy) in
  let bLab := 200 *. (fy -. fz) in
  (JS.Math_max 0 (JS.Math_min 255 ((L /. 100) *. 255)),
   JS.Math_max 0 (JS.Math_min 255 ((a +. 128) *. 255 /. 256)),
   JS.Math_max 0 (JS.Math_min 255 ((bLab +. 128) *. 255 /. 256))).

(** The pixel loops.  Each takes the source array and the array of the
    output buffer and returns the latter after the loop. *)

Definition grayscale_loop (src out : list Z) : list Z :=
  for_loop 0 (len src) 4 (fun i out =>
    let gray := lit 0.299 *. rd src i +. lit 0.587 *. rd src (i + 1)
                +. lit 0.114 *. rd src (i + 2) in
    let brightenedGray := gray *. lit 1.2 in
    let clampedGray := JS.Math_min 255 brightenedGray in
    let out := wr out i clampedGray in
    let out := wr out (i + 1) clampedGray in
    let out := wr out (i + 2) clampedGray in
    wr out (i + 3) 255) out.

Definition red_loop (src out : list Z) : list Z :=
  for_loop 0 (len src) 4 (fun i out =>
    let out := wr out i (rd src i) in
    let out := wr out (i + 1) 0 in
    let out := wr out (i + 2) 0 in
    wr out (i + 3) 255) out.

Definition green_loop (src out : list Z) : list Z :=
  for_loop 0 (len src) 4 (fun i out =>
    let out := wr out i 0 in
    let out := wr out (i + 1) (rd src (i + 1)) in
    let out := wr out (i + 2) 0 in
    wr out (i + 3) 255) out.

Definition blue_loop (src out : list Z) : list Z :=
  for_loop 0 (len src) 4 (fun i out =>
    let out := wr out i 0 in
    let out := wr out (i + 1) 0 in
    let out := wr out (i + 2) (rd src (i + 2)) in
    wr out (i + 3) 255) out.

Definition channelThreshold_loop (threshold : Q) (channelIndex : Z)
    (src out : list Z) : list Z :=
  for_loop 0 (len src) 4 (fun i out =>
    let value : Z := if rd src (i + channelIndex) >. threshold then 255 else 0 in
    let out := wr out i value in
    let out := wr out (i + 1) value in
    let out := wr out (i + 2) value in
    wr out (i + 3) 255) out.

Definition hsv_loop (src out : list Z) : list Z :=
  for_loop 0 (len src) 4 (fun i out =>
    let '(h, s, v) := rgbToHsv (rd src i) (rd src (i + 1)) (rd src (i + 2)) in
    let out := wr out i ((h /. 360) *. 255) in
    let out := wr out (i + 1) s in
    let out := wr out (i + 2) v in
    wr out (i + 3) 255) out.

Definition lab_loop (src out : list Z) : list Z :=
  for_loop 0 (len src) 4 (fun i out =>
    let '(L, a, b) := rgbToLab (rd src i) (rd src (i + 1)) (rd src (i + 2)) in
    let out := wr out i (JS.Math_max 0 (JS.Math_min 255 L)) in
    let out := wr out (i + 1) (JS.Math_max 0 (JS.Math_min 255 a)) in
    let out := wr out (i + 2) (JS.Math_max 0 (JS.Math_min 255 b)) in
    wr out (i + 3) 255) out.

Definition colorSpaceThreshold_loop (threshold : Q) (src out : list Z) : list Z :=
  for_loop 0 (len src) 4 (fun i out =>
    let intensity := (rd src i + rd src (i + 1) + rd src (i + 2))%Z /. 3 in
    let value : Z := if intensity >. threshold then 255 else 0 in
    let out := wr out i value in
    let out := wr out (i + 1) value in
    let out := wr out (i + 2) value in
    wr out (i + 3) 255) out.

Definition blockSize : Z := 12.

(** The loops [for (by = 0; by < blockSize && y + by < h; by++)] run
    [by] over [0 .. min blockSize (h - y) - 1]. *)
Definition pixelate_loop (w h : Z) (src out : list Z) : list Z :=
  for_loop 0 h blockSize (fun y out =>
    for_loop 0 w blockSize (fun x out =>
      let '(totalIntensity, pixelCount) :=
        for_loop 0 (Z.min blockSize (h - y)) 1 (fun by_ acc =>
          for_loop 0 (Z.min blockSize (w - x)) 1 (fun bx acc =>
            let idx := ((y + by_) * w + (x + bx)) * 4 in
            let intensity := rd src idx in
            (fst acc + intensity, snd acc + 1)) acc) (0, 0) in
      let averageIntensity : Z := JS.Math_round (totalIntensity /. pixelCount) in
      for_loop 0 (Z.min blockSize (h - y)) 1 (fun by_ out =>
        for_loop 0 (Z.min blockSize (w - x)) 1 (fun bx out =>
          let idx := ((y + by_) * w + (x + bx)) * 4 in
          let out := wr out idx averageIntensity in
          let out := wr out (idx + 1) averageIntensity in
          let out := wr out (idx + 2) averageIntensity in
          wr out (idx + 3) 255) out) out) out) out.

(** The methods of [ImageProcessor] on buffers of the store.  [img] may
    be null. *)

Definition createGrayscaleWithBrightness (img : option ref) : M (option ref) :=
  let* i := deref img in
  let* output := safeCreateGraphics (width i) (height i) in
  match output with
  | None => ret None
  | Some o =>
      let* _ := update_pixels o (grayscale_loop (pixels i)) in
      ret (Some o)
  end.

(** The object [{red, green, blue}] that [extractColorChannels] returns. *)
Definition extractColorChannels (img : option ref) : M (ref * ref * ref) :=
  let* i := deref img in
  let* redChannel := createGraphics (width i) (height i) in
  let* _ := update_pixels redChannel (red_loop (pixels i)) in
  let* greenChannel := createGraphics (width i) (height i) in
  let* _ := update_pixels greenChannel (green_loop (pixels i)) in
  let* blueChannel := createGraphics (width i) (height i) in
  let* _ := update_pixels blueChannel (blue_loop (pixels i)) in
  ret (redChannel, greenChannel, blueChannel).

Definition applyChannelThreshold (img : option ref) (threshold : Q)
    (channelIndex : Z) : M ref :=
  let* i := deref img in
  let* output := createGraphics (width i) (height i) in
  let* _ := update_pixels output (channelThreshold_loop threshold channelIndex (pixels i)) in
  ret output.

Definition convertToHSV (img : option ref) : M ref :=
  let* i := deref img in
  let* output := createGraphics (width i) (height i) in
  let* _ := update_pixels output (hsv_loop (pixels i)) in
  ret output.

Definition convertToLab (img : option ref) : M ref :=
  let* i := deref img in
  let* output := createGraphics (width i) (height i) in
  let* _ := update_pixels output (lab_loop (pixels i)) in
  ret output.

Definition applyColorSpaceThreshold (img : option ref) (threshold : Q) : M ref :=
  let* i := deref img in
  let* output := createGraphics (width i) (height i) in
  let* _ := update_pixels output (colorSpaceThreshold_loop threshold (pixels i)) in
  ret output.

Definition pixelateImage (img : option ref) : M (option ref) :=
  let* i := deref img in
  let* output := safeCreateGraphics (width i) (height i) in
  match output with
  | None => ret img
  | Some o =>
      let* _ := update_pixels o (pixelate_loop (width i) (height i) (pixels i)) in
      ret (Some o)
  end.

Definition blurImage (img : option ref) (radius : Z) : M (option ref) :=
  let* i := deref img in
  let* output := safeCreateGraphics (width i) (height i) in
  match output with
  | None => ret img
  | Some o =>
      let* _ := draw_image o i in
      let* _ := update_pixels o (fun px =>
                  filter_BLUR radius (mkRaster (width i) (height i) px)) in
      ret (Some o)
  end.

(** The operations of the transform engine, and the buffers each one
    returns (none when it returns null). *)
Inductive Transform :=
| Grayscale
| ExtractChannels
| ChannelThreshold (threshold : Q) (channelIndex : Z)
| ColorSpaceThreshold (threshold : Q)
| ToHSV
| ToLab
| Pixelate
| Blur (radius : Z).

Definition run_transform (t : Transform) (img : option ref) : M (list ref) :=
  match t with
  | Grayscale =>
      let* o := createGrayscaleWithBrightness img in ret (option_list o)
  | ExtractChannels =>
      let* c := extractColorChannels img in
      ret [fst (fst c); snd (fst c); snd c]
  | ChannelThreshold threshold channelIndex =>
      let* o := applyChannelThreshold img threshold channelIndex in ret [o]
  | ColorSpaceThreshold threshold =>
      let* o := applyColorSpaceThreshold img threshold in ret [o]
  | ToHSV => let* o := convertToHSV img in ret [o]
  | ToLab => let* o := convertToLab img in ret [o]
  | Pixelate => let* o := pixelateImage img in ret (option_list o)
  | Blur radius => let* o := blurImage img radius in ret (option_list o)
  end.

(** *** FaceProcessor.processFace *)

Definition processFace (faceImg : option ref) (filterType : Z) : M (option ref) :=
  match faceImg with
  | None => ret faceImg
  | Some _ =>
      try_catch
        (match filterType with
         | 1 => createGrayscaleWithBrightness faceImg
         | 2 =>
             let* blurredFace := blurImage faceImg 25 in
             ret blurredFace
         | 3 =>
             let* hsv := convertToHSV faceImg in
             ret (Some hsv)
         | 4 =>
             let* grayscaleFace := createGrayscaleWithBrightness faceImg in
             let* pixelatedFace := pixelateImage grayscaleFace in
             ret pixelatedFace
         | _ => ret faceImg
         end)
        (ret faceImg)
  end.

(** *** FaceProcessor: detection state and strategies *)

Record FaceProcessor := mkFaceProcessor {
  lastKnownFacePosition : option Box.t;
  faceTrackingHistory : list Box.t
}.

Definition maxHistoryLength : Z := 5.
Definition minFaceSize : Z := 30.
Definition maxFaceSize : Z := 100.

(** The state the constructor sets up. *)
Definition newFaceProcessor : FaceProcessor := mkFaceProcessor None [].

Definition isValidFaceSize (face : Box.t) : bool :=
  (Box.width face >=? minFaceSize) &&
  (Box.height face >=? minFaceSize) &&
  (Box.width face <=? maxFaceSize) &&
  (Box.height face <=? maxFaceSize).

Definition isSkinTone (r g b : Z) : bool :=
  if (r >? 95) && (g >? 40) && (b >? 20) &&
     (Z.max (Z.max r g) b - Z.min (Z.min r g) b >? 15) &&
     (Z.abs (r - g) >? 15) && (r >? g) && (r >? b)
  then true
  else if (r >? 80) && (g >? 50) && (b >? 30) &&
          (r >? g) && (g >? b) && (r - g >? 10)
  then true
  else if (r >? 50) && (g >? 30) && (b >? 15) &&
          (r >? g) && (g >=? b) && (r - b >? 15)
  then true
  else if (r >? 60) && (g >? 40) && (b >? 20) &&
          (r >? b) && (g >? b) && (r - b >? 10) && (g - b >? 5)
  then true
  else false.

(** The candidate regions of [detectBySkinTone]: [(x, y, w, h)]. *)
Definition skinRegions (img : Raster) : list (Z * Z * Z * Z) :=
  let W : Q := width img in
  let H : Q := height img in
  [ (JS.Math_round (W *. lit 0.1), JS.Math_round (H *. lit 0.1),
     JS.Math_round (W *. lit 0.4), JS.Math_round (H *. lit 0.4));
    (JS.Math_round (W *. lit 0.5), JS.Math_round (H *. lit 0.1),
     JS.Math_round (W *. lit 0.4), JS.Math_round (H *. lit 0.4));
    (JS.Math_round (W *. lit 0.2), JS.Math_round (H *. lit 0.15),
     JS.Math_round (W *. lit 0.6), JS.Math_round (H *. lit 0.6));
    (JS.Math_round (W *. lit 0.25), JS.Math_round (H *. lit 0.2),
     JS.Math_round (W *. lit 0.5), JS.Math_round (H *. lit 0.5));
    (JS.Math_round (W *. lit 0.3), JS.Math_round (H *. lit 0.25),
     JS.Math_round (W *. lit 0.4), JS.Math_round (H *. lit 0.4)) ].

(** One step of the [forEach] over the regions; the state is
    [(bestRegion, maxSkinPixels, maxSkinRatio)]. *)
Definition skinRegion_step (img : Raster)
    (st : option Box.t * Z * Q) (region : Z * Z * Z * Z) : option Box.t * Z * Q :=
  let '(bestRegion, maxSkinPixels, maxSkinRatio) := st in
  let '(rx, ry, rw, rh) := region in
  if (rx + rw >? width img) || (ry + rh >? height img) then st
  else
    let '(skinPixelCount, totalPixels) :=
      for_loop ry (Z.min (ry + rh) (height img)) 1 (fun y acc =>
        for_loop rx (Z.min (rx + rw) (width img)) 1 (fun x acc =>
          let idx := (y * width img + x) * 4 in
          let r := rd (pixels img) idx in
          let g := rd (pixels img) (idx + 1) in
          let b := rd (pixels img) (idx + 2) in
          ((if isSkinTone r g b then fst acc + 1 else fst acc), snd acc + 1)) acc)
        (0, 0) in
    let skinRatio : Q := if totalPixels >? 0 then skinPixelCount /. totalPixels else 0 in
    if (skinPixelCount >? maxSkinPixels) && (skinRatio >. lit 0.12)
       && (skinRatio >. maxSkinRatio)
    then (Some (Box.mk (JS.Math_round rx) (JS.Math_round ry)
                       (JS.Math_round rw) (JS.Math_round rh)),
          skinPixelCount, skinRatio)
    else st.

Definition detectBySkinTone (img : option Raster) : Res (option Box.t) :=
  match img with
  | None => Ret None
  | Some img =>
      if loadPixels_throws img then Throw
      else
        let '(bestRegion, _, maxSkinRatio) :=
          fold_left (skinRegion_step img) (skinRegions img) (None, 0, 0%Q) in
        match bestRegion with
        | Some b => if isValidFaceSize b then Ret (Some b) else Ret None
        | None => Ret None
        end
  end.

Definition calculateSkinDensity (img : Raster) (x y width_ height_ : Z) : Q :=
  let '(skinPixels, totalPixels) :=
    for_loop y (Z.min (y + height_) (height img)) 1 (fun py acc =>
      for_loop x (Z.min (x + width_) (width img)) 1 (fun px acc =>
        let idx := (py * width img + px) * 4 in
        if idx + 2 <? len (pixels img) then
          let r := rd (pixels img) idx in
          let g := rd (pixels img) (idx + 1) in
          let b := rd (pixels img) (idx + 2) in
          ((if isSkinTone r g b then fst acc + 1 else fst acc), snd acc + 1)
        else acc) acc)
      (0, 0) in
  if totalPixels >? 0 then skinPixels /. totalPixels else 0%Q.

Definition trackByMotion (fp : FaceProcessor) (img : option Raster) : Res (option Box.t) :=
  match lastKnownFacePosition fp, img with
  | Some lastPos, Some img =>
      let searchRadius := 25 in
      if loadPixels_throws img then Throw
      else
        let '(maxSkinDensity, bestPosition) :=
          for_loop (- searchRadius) (searchRadius + 1) 8 (fun offsetY acc =>
            for_loop (- searchRadius) (searchRadius + 1) 8 (fun offsetX acc =>
              let testX := Z.max 0 (Box.x lastPos + offsetX) in
              let testY := Z.max 0 (Box.y lastPos + offsetY) in
              if (testX + Box.width lastPos <=? width img) &&
                 (testY + Box.height lastPos <=? height img)
              then
                let skinDensity :=
                  calculateSkinDensity img testX testY
                    (Box.width lastPos) (Box.height lastPos) in
                if (skinDensity >. fst acc) && (skinDensity >. lit 0.1)
                then (skinDensity,
                      Some (Box.mk testX testY (Box.width lastPos) (Box.height lastPos)))
                else acc
              else acc) acc)
            (0%Q, None) in
        match bestPosition with
        | Some b => if isValidFaceSize b then Ret (Some b) else Ret None
        | None => Ret None
        end
  | _, _ => Ret None
  end.

Definition standardDeviation (values : list Z) : Q :=
  if (len values =? 0) then 0%Q
  else
    let mean := (fold_left Z.add values 0 : Z) /. len values in
    let squaredDiffs := map (fun val : Z => Math_pow (val -. mean) 2) values in
    let avgSquaredDiff := fold_left (fun sum val => sum +. val) squaredDiffs 0%Q /. len values in
    Math_sqrt avgSquaredDiff.

Definition calculateColorVariation (img : Raster) (x y width_ height_ : Z) : Q :=
  let stepSize := Z.max 1 (JS.Math_round (width_ /. 10)) in
  let '(rValues, gValues, bValues) :=
    for_loop y (Z.min (y + height_) (height img)) stepSize (fun py acc =>
      for_loop x (Z.min (x + width_) (width img)) stepSize (fun px acc =>
        let idx := (py * width img + px) * 4 in
        if idx + 2 <? len (pixels img) then
          let '(rs, gs, bs) := acc in
          (rs ++ [rd (pixels img) idx],
           gs ++ [rd (pixels img) (idx + 1)],
           bs ++ [rd (pixels img) (idx + 2)])
        else acc) acc)
      ([], [], []) in
  let rVariation := standardDeviation rValues in
  let gVariation := standardDeviation gValues in
  let bVariation := standardDeviation bValues in
  let avgVariation := (rVariation +. gVariation +. bVariation) /. 3 in
  JS.Math_min (lit 1.0) (avgVariation /. 40).

Definition scoreFaceRegion (img : Raster) (x y width_ height_ : Z) : Q :=
  if loadPixels_throws img then 0%Q   (* caught: [return 0] *)
  else
    let skinToneScore := calculateSkinDensity img x y width_ height_ in
    let positionScore :=
      lit 1.0 -. JS.Math_abs ((y +. height_ /. 2) -. height img *. lit 0.35)
                 /. (height img *. lit 0.35) in
    let positionScore := JS.Math_max 0 (JS.Math_min 1 positionScore) in
    let variationScore := calculateColorVariation img x y width_ height_ in
    let sizeScore := lit 1.0 -. JS.Math_abs ((width_ + height_)%Z /. 2 -. 50) /. 50 in
    let sizeScore := JS.Math_max 0 (JS.Math_min 1 sizeScore) in
    let aspectRatio := width_ /. height_ in
    let aspectScore := lit 1.0 -. JS.Math_abs (aspectRatio -. lit 0.8) /. lit 0.8 in
    let aspectScore := JS.Math_max 0 (JS.Math_min 1 aspectScore) in
    let finalScore :=
      (skinToneScore *. lit 0.4) +. (positionScore *. lit 0.25) +.
      (variationScore *. lit 0.15) +. (sizeScore *. lit 0.1) +. (aspectScore *. lit 0.1) in
    finalScore.

(** The values of [scale] in
    [for (let scale = 0.3; scale <= 0.7; scale += 0.1)]. *)
Fixpoint scale_steps (fuel : nat) (scale : Q) : list Q :=
  match fuel with
  | O => []
  | S fuel' =>
      if scale <=. lit 0.7 then scale :: scale_steps fuel' (scale +. lit 0.1) else []
  end.

Definition scan_scales : list Q := scale_steps 8 (lit 0.3).

(** One window of the scan; the state is [(bestPosition, maxScore)]. *)
Definition scan_window (img : Raster) (scanWidth scanHeight x y : Z)
    (st : option Box.t * Q) : option Box.t * Q :=
  let score := scoreFaceRegion img x y scanWidth scanHeight in
  if score >. snd st then (Some (Box.mk x y scanWidth scanHeight), score) else st.

Definition scan_scale (img : Raster) (st : option Box.t * Q) (scale : Q)
    : option Box.t * Q :=
  let minScanWidth := 35 in
  let maxScanWidth := 80 in
  let minScanHeight := 35 in
  let maxScanHeight := 80 in
  let scanWidth :=
    JS.Math_round (JS.Math_max minScanWidth (JS.Math_min maxScanWidth (width img *. scale))) in
  let scanHeight :=
    JS.Math_round (JS.Math_max minScanHeight (JS.Math_min maxScanHeight (height img *. scale))) in
  let stepSize := Z.max 8 (JS.Math_round (scanWidth *. lit 0.2)) in
  for_loop 0 (height img - scanHeight + 1) stepSize (fun y st =>
    for_loop 0 (width img - scanWidth + 1) stepSize (fun x st =>
      scan_window img scanWidth scanHeight x y st) st) st.

(** The windows that the scan scores, in the order of the loops. *)
Definition scan_windows (img : Raster) : list Box.t :=
  flat_map (fun scale : Q =>
    let scanWidth :=
      JS.Math_round (JS.Math_max 35 (JS.Math_min 80 (width img *. scale))) in
    let scanHeight :=
      JS.Math_round (JS.Math_max 35 (JS.Math_min 80 (height img *. scale))) in
    let stepSize := Z.max 8 (JS.Math_round (scanWidth *. lit 0.2)) in
    flat_map (fun y =>
      map (fun x => Box.mk x y scanWidth scanHeight)
          (for_range 0 (width img - scanWidth + 1) stepSize))
      (for_range 0 (height img - scanHeight + 1) stepSize))
    scan_scales.

Definition score_of (img : Raster) (b : Box.t) : Q :=
  scoreFaceRegion img (Box.x b) (Box.y b) (Box.width b) (Box.height b).

Definition scanForFaceRegions (img : option Raster) : Res (option Box.t) :=
  match img with
  | None => Ret None
  | Some img =>
      let '(bestPosition, maxScore) :=
        fold_left (scan_scale img) scan_scales (None, 0%Q) in
      match bestPosition with
      | Some b => if maxScore >. lit 0.15 then Ret (Some b) else Ret None
      | None => Ret None
      end
  end.

Definition getDefaultCenterFace : Box.t :=
  let width_ := JS.Math_round (imageProcessor_width *. lit 0.5) in
  let height_ := JS.Math_round (imageProcessor_height *. lit 0.5) in
  let x := JS.Math_round ((imageProcessor_width - width_)%Z /. 2) in
  let y := JS.Math_round ((imageProcessor_height - height_)%Z /. 2) in
  Box.mk (Z.max 0 x) (Z.max 0 y)
         (Z.min width_ (imageProcessor_width - x))
         (Z.min height_ (imageProcessor_height - y)).

Definition updateFaceHistory (fp : FaceProcessor) (facePosition : option Box.t)
    : FaceProcessor :=
  match facePosition with
  | Some face =>
      if isValidFaceSize face then
        let history := faceTrackingHistory fp ++ [face] in          (* push *)
        let history :=
          if Z.of_nat (length history) >? maxHistoryLength then tail history  (* shift *)
          else history in
        mkFaceProcessor (Some face) history
      else fp
  | None => fp
  end.

(** The boxes of a sequence of [updateFaceHistory] calls that pass
    [isValidFaceSize], in call order. *)
Definition accepted_boxes (calls : list (option Box.t)) : list Box.t :=
  omap (fun c : option Box.t =>
          match c with
          | Some b => if isValidFaceSize b then Some b else None
          | None => None
          end) calls.

(** The annotated frame [faceImage] is only drawn into.
    [applyFaceFilter] returns nothing, catches every error of its own
    and touches nothing but that canvas; it is a parameter here
    (its filter step is [processFace] above). *)
Variable Canvas : Type.
Variable applyFaceFilter : Canvas -> Raster -> Box.t -> Canvas.

(** [a || b] on objects-or-null. *)
Definition or_else {A} (a b : option A) : option A :=
  match a with Some _ => a | None => b end.

(** [detectFaceManually]: the new detector state, the canvas and the
    box returned. *)
Definition detectFaceManually (fp : FaceProcessor)
    (faceImage : option Canvas) (capturedImage : option Raster)
    : FaceProcessor * option Canvas * Box.t :=
  match faceImage, capturedImage with
  | Some fi, Some ci =>
      match
        res_bind (detectBySkinTone capturedImage) (fun skinToneFace =>
        res_bind (trackByMotion fp capturedImage) (fun motionFace =>
        res_bind (scanForFaceRegions capturedImage) (fun scanFace =>
        Ret (skinToneFace, motionFace, scanFace))))
      with
      | Ret (skinToneFace, motionFace, scanFace) =>
          let bestFace := or_else (or_else skinToneFace motionFace) scanFace in
          let bestFace :=
            match bestFace with
            | Some b => b
            | None => getDefaultCenterFace
            end in
          let fp := updateFaceHistory fp (Some bestFace) in
          let fi := applyFaceFilter fi ci bestFace in
          (fp, Some fi, bestFace)
      | Throw =>                                        (* catch (error) *)
          let bestFace := getDefaultCenterFace in
          let fi := applyFaceFilter fi ci bestFace in
          (fp, Some fi, bestFace)
      end
  | _, _ => (fp, faceImage, getDefaultCenterFace)
  end.

(** *** processFaceDetection: the box taken from the external detector

    [ml_bbox] is the [bbox] built from the first result, in either
    layout; reading [topLeft.x] of a missing [topLeft] raises.
    [ml_accept] is the box handed to [updateFaceHistory] and
    [applyFaceFilter], or [None] when the code turns to
    [detectFaceManually]. *)

Definition ml_bbox (face : DetectionResult) : Res (option NumBox.t) :=
  match face with
  | BoxForm xMin yMin w h =>
      Ret (Some (NumBox.mk
                   (Num.Math_max (Num.of_Z 0) (Num.Math_round xMin))
                   (Num.Math_max (Num.of_Z 0) (Num.Math_round yMin))
                   (Num.Math_min (Num.Math_round w) (Num.of_Z imageProcessor_width))
                   (Num.Math_min (Num.Math_round h) (Num.of_Z imageProcessor_height))))
  | BoundingBoxForm (Some (tx, ty)) w h =>
      Ret (Some (NumBox.mk
                   (Num.Math_max (Num.of_Z 0) (Num.Math_round tx))
                   (Num.Math_max (Num.of_Z 0) (Num.Math_round ty))
                   (Num.Math_min (Num.Math_round w) (Num.of_Z imageProcessor_width))
                   (Num.Math_min (Num.Math_round h) (Num.of_Z imageProcessor_height))))
  | BoundingBoxForm None _ _ => Throw                  (* TypeError *)
  | NoBox => Ret None
  end.

Definition ml_accept (face : DetectionResult) : Res (option NumBox.t) :=
  res_bind (ml_bbox face) (fun bbox =>
  match bbox with
  | Some bbox =>
      if Num.gtb (NumBox.width bbox) (Num.of_Z 0) &&
         Num.gtb (NumBox.height bbox) (Num.of_Z 0) then
        (* Final bounds validation *)
        let bbox :=
          if Num.gtb (Num.add (NumBox.x bbox) (NumBox.width bbox))
                     (Num.of_Z imageProcessor_width)
          then NumBox.mk (NumBox.x bbox) (NumBox.y bbox)
                         (Num.sub (Num.of_Z imageProcessor_width) (NumBox.x bbox))
                         (NumBox.height bbox)
          else bbox in
        let bbox :=
          if Num.gtb (Num.add (NumBox.y bbox) (NumBox.height bbox))
                     (Num.of_Z imageProcessor_height)
          then NumBox.mk (NumBox.x bbox) (NumBox.y bbox)
                         (NumBox.width bbox)
                         (Num.sub (Num.of_Z imageProcessor_height) (NumBox.y bbox))
          else bbox in
        Ret (Some bbox)
      else Ret None
  | None => Ret None
  end).

(** *** Capture: the events of the driver

    The globals [capturedImage] and [isCapturing], the callbacks that
    [setTimeout] has queued, and a log of the frames handed to
    [processImages] and of the runs of the periodic tracker. *)

Variable Frame : Type.

Record App := mkApp {
  capturedImage : option Frame;
  isCapturing : bool;
  pendingTimeouts : nat;
  processed : list Frame;
  trackerRuns : nat
}.

Inductive Event :=
| CaptureClick (videoReady : bool) (frame : Frame)   (* captureImage() *)
| CaptureFails                                       (* createGraphics raises in it *)
| TimeoutFires                                       (* the 100 ms callback *)
| TrackingTick (cameraActive videoReady : bool).     (* the 3 s interval *)

Definition processImages (a : App) : App :=
  match capturedImage a with
  | Some f => mkApp (capturedImage a) (isCapturing a) (pendingTimeouts a)
                    (processed a ++ [f]) (trackerRuns a)
  | None => a
  end.

Definition step (a : App) (e : Event) : App :=
  match e with
  | CaptureClick videoReady frame =>
      if videoReady then
        mkApp (Some frame) true (S (pendingTimeouts a)) (processed a) (trackerRuns a)
      else a
  | CaptureFails =>
      mkApp (capturedImage a) false (pendingTimeouts a) (processed a) (trackerRuns a)
  | TimeoutFires =>
      match pendingTimeouts a with
      | O => a
      | S n =>
          let a := mkApp (capturedImage a) (isCapturing a) n (processed a) (trackerRuns a) in
          if isCapturing a then
            let a := processImages a in
            mkApp (capturedImage a) false (pendingTimeouts a) (processed a) (trackerRuns a)
          else a
      end
  | TrackingTick cameraActive videoReady =>
      if cameraActive && videoReady && negb (isCapturing a) then
        mkApp (capturedImage a) (isCapturing a) (pendingTimeouts a) (processed a)
              (S (trackerRuns a))
      else a
  end.

Definition initialApp : App := mkApp None false 0 [] 0.

Definition run (a : App) (es : list Event) : App := fold_left step es a.

End FaceStudio.

(** * HSV round trip: the inverse transform and the error budget *)

(** ** The inverse of [rgbToHsv]

    The repository has no code that turns HSV back into RGB; the round
    trip of the specification is taken over the standard inverse
    formula, which the definitions below spell out for a hue in degrees
    and a saturation and value on the 0..255 scale that [rgbToHsv]
    returns: sector [i = floor (h / 60)], fraction [f = h / 60 - i],
    [p = v (1 - s)], [q = v (1 - s f)], [t = v (1 - s (1 - f))], with
    [s] scaled to the unit interval, and the channels picked by sector.
    It is the mathematical formula, in exact arithmetic, with no
    rounding of its own. *)

(** Modelled from the spec: the repository has no HSV-to-RGB code.
    [p = v (1 - s)] of the standard inverse formula. *)
Definition hsv_p (s v : Z) : Q := (v * (1 - s / 255))%Q.

(** Modelled from the spec: the repository has no HSV-to-RGB code.
    [q = v (1 - s f)] of the standard inverse formula, at [f = k / 60]. *)
Definition hsv_q (k s v : Z) : Q := (v * (1 - s / 255 * (k / 60)))%Q.

(** Modelled from the spec: the repository has no HSV-to-RGB code.
    [t = v (1 - s (1 - f))] of the standard inverse formula, at
    [f = k / 60]. *)
Definition hsv_t (k s v : Z) : Q := (v * (1 - s / 255 * (1 - k / 60)))%Q.

(** Modelled from the spec: the repository has no HSV-to-RGB code.
    The channels that the standard inverse formula picks in sector [i],
    at [f = k / 60]. *)
Definition hsv_sector (i k s v : Z) : Q * Q * Q :=
  let p := hsv_p s v in
  let q := hsv_q k s v in
  let t := hsv_t k s v in
  match i with
  | 0 => (inject_Z v, t, p)
  | 1 => (q, inject_Z v, p)
  | 2 => (p, inject_Z v, t)
  | 3 => (p, q, inject_Z v)
  | 4 => (t, p, inject_Z v)
  | _ => (inject_Z v, p, q)
  end.

(** Modelled from the spec: the repository has no HSV-to-RGB code.
    The standard inverse HSV-to-RGB formula: the red, green and blue
    rebuilt from hue [h], saturation [s] and value [v]. *)
Definition hsvToRgb (h s v : Z) : Q * Q * Q := hsv_sector (h / 60) (h mod 60) s v.

(** Componentwise equality of rational triples. *)
Definition Qeq3 (a b : Q * Q * Q) : Prop :=
  (fst (fst a) == fst (fst b))%Q /\ (snd (fst a) == snd (fst b))%Q /\ (snd a == snd b)%Q.

(** A rebuilt channel [x] lies within two and a half of the original
    channel [c]: not below [c - 2.5], and below [c + 2.5]. *)
Definition within25 (x : Q) (c : Z) : Prop :=
  (inject_Z c - (5 # 2) <= x)%Q /\ (x < inject_Z c + (5 # 2))%Q.

(** ** Quantities of the error analysis *)

(** The unit roundoff of binary64. *)
Definition u53 : Q := 1 # 9007199254740992.

(** The tolerance within which the rounded operations of [rgbToHsv]
    stay from their exact values. *)
Definition tol : Q := 1 # 1073741824.

(** A channel divided by 255, as [rgbToHsv] computes it. *)
Definition unit255 (k : Z) : Q := inject_Z k /. 255.

(** [x] is an integer nearest to [num / den]. *)
Definition nearest (num den x : Z) : Prop :=
  2 * num - den <= 2 * den * x <= 2 * num + den.

Definition nearestb (num den x : Z) : bool :=
  (2 * num - den <=? 2 * den * x) && (2 * den * x <=? 2 * num + den).

(** The numerator over [15300 = 255 * 60] of the middle channel rebuilt
    from value [M], saturation [s] and rising fraction [k / 60], less
    that of the original middle channel [m + n]. *)
Definition mid_error (M m n k s : Z) : Z :=
  M * (15300 - s * (60 - k)) - 15300 * (m + n).

Definition mid_in_range (M m n k s : Z) : bool :=
  (-38250 <=? mid_error M m n k s) && (mid_error M m n k s <? 38250).

(** For a pixel of maximum [M], minimum [m] and middle channel [m + n]:
    every nearest hue fraction and nearest saturation keeps the rebuilt
    middle channel within two and a half of the original.  The nearest
    integers are among the floor of the midpoint quotient and its
    predecessor. *)
Definition mid_check (M m n : Z) : bool :=
  let d := M - m in
  let k0 := (120 * n + d) / (2 * d) in
  let s0 := (510 * d + M) / (2 * M) in
  forallb (fun k =>
    forallb (fun s =>
      implb (nearestb (60 * n) d k && nearestb (255 * d) M s)
            (mid_in_range M m n k s))
      [s0; s0 - 1])
    [k0; k0 - 1].

Definition Zrange (lo : Z) (n : nat) : list Z :=
  map (fun i => lo + Z.of_nat i) (seq 0 n).

(** The pixels whose channel spread [M - m] is at least 240. *)
Definition mid_check_row (M m : Z) : bool :=
  forallb (mid_check M m) (Zrange 0 (Z.to_nat (M - m + 1))).

Definition mid_check_value (M : Z) : bool :=
  forallb (mid_check_row M) (Zrange 0 (Z.to_nat (M - 240 + 1))).

(** * Further operations of the studio *)

(** The pixel number [p] of an array holds [(r, g, b, a)]. *)
Definition pixel_at (s : list Z) (p : Z) (r g b a : Z) : Prop :=
  rd s (4 * p) = r /\ rd s (4 * p + 1) = g /\ rd s (4 * p + 2) = b /\ rd s (4 * p + 3) = a.

(** ** Face regions: extraction and the pixel-copy fallback *)

Section FaceRegion.

(** [dst.copy(src, sx, sy, sw, sh, dx, dy, dw, dh)] of p5 is a parameter:
    the pixels of [dst] after the call, or an exception. *)
Variable p5_copy : Raster -> Raster -> Z * Z * Z * Z -> Z * Z * Z * Z -> Res (list Z).
(** Whether [img.loadPixels()] raises. *)
Variable loadPixels_throws : Raster -> bool.

Definition copy_into (o : ref) (src : Raster) (s d : Z * Z * Z * Z) : M unit := fun σ =>
  match heap σ !! o with
  | Some dst =>
      match p5_copy dst src s d with
      | Ret px =>
          (mkWorld (<[o := mkRaster (width dst) (height dst) px]> (heap σ)) (gfx σ), Ret tt)
      | Throw => (σ, Throw)
      end
  | None => (σ, Throw)
  end.

Definition extractFaceRegion (img : option ref) (face : option Box.t) : M (option ref) :=
  match img, face with
  | Some _, Some face =>
      if (Box.width face <=? 0) || (Box.height face <=? 0) then ret None
      else
        try_catch
          (let* i := deref img in
           (* Ensure face bounds are within image bounds *)
           let x := Z.max 0 (Z.min (Box.x face) (width i - 1)) in
           let y := Z.max 0 (Z.min (Box.y face) (height i - 1)) in
           let width_ := Z.min (Box.width face) (width i - x) in
           let height_ := Z.min (Box.height face) (height i - y) in
           if (width_ <=? 0) || (height_ <=? 0) then ret None
           else
             let* faceImg := safeCreateGraphics width_ height_ in
             match faceImg with
             | None => ret None
             | Some o =>
                 let* _ := copy_into o i (x, y, width_, height_) (0, 0, width_, height_) in
                 ret (Some o)
             end)
          (ret None)
  | _, _ => ret None
  end.

(** The nested loops of [fallbackPixelCopy] on the array of [faceImage]. *)
Definition fallbackPixelCopy_loop (faceImage processedFace : Raster) (faceBbox : Box.t)
    (copyWidth copyHeight : Z) : list Z :=
  for_loop 0 copyHeight 1 (fun y dst =>
    for_loop 0 copyWidth 1 (fun x dst =>
      let srcIdx := (y * width processedFace + x) * 4 in
      let destIdx := ((Box.y faceBbox + y) * width faceImage + (Box.x faceBbox + x)) * 4 in
      if (srcIdx + 3 <? len (pixels processedFace)) &&
         (destIdx + 3 <? len dst) &&
         (Box.x faceBbox + x <? width faceImage) &&
         (Box.y faceBbox + y <? height faceImage)
      then
        let dst := wr dst destIdx (rd (pixels processedFace) srcIdx) in
        let dst := wr dst (destIdx + 1) (rd (pixels processedFace) (srcIdx + 1)) in
        let dst := wr dst (destIdx + 2) (rd (pixels processedFace) (srcIdx + 2)) in
        wr dst (destIdx + 3) (rd (pixels processedFace) (srcIdx + 3))
      else dst) dst) (pixels faceImage).

(** The test and the four stores of one iteration of those loops. *)
Definition copy_guard (faceImage processedFace : Raster) (faceBbox : Box.t)
    (dst : list Z) (x y : Z) : bool :=
  ((y * width processedFace + x) * 4 + 3 <? len (pixels processedFace)) &&
  (((Box.y faceBbox + y) * width faceImage + (Box.x faceBbox + x)) * 4 + 3 <? len dst) &&
  (Box.x faceBbox + x <? width faceImage) &&
  (Box.y faceBbox + y <? height faceImage).

Definition copy_cell (faceImage processedFace : Raster) (faceBbox : Box.t)
    (dst : list Z) (x y : Z) : list Z :=
  let srcIdx := (y * width processedFace + x) * 4 in
  let destIdx := ((Box.y faceBbox + y) * width faceImage + (Box.x faceBbox + x)) * 4 in
  wr4 dst destIdx (rd (pixels processedFace) srcIdx)
                  (rd (pixels processedFace) (srcIdx + 1))
                  (rd (pixels processedFace) (srcIdx + 2))
                  (rd (pixels processedFace) (srcIdx + 3)).

(** [fallbackPixelCopy]: the canvas [faceImage] afterwards.  An exception
    of [loadPixels] is caught and leaves it as it was. *)
Definition fallbackPixelCopy (faceImage processedFace : Raster) (faceBbox : Box.t)
    (copyWidth copyHeight : Z) : Raster :=
  if loadPixels_throws processedFace || loadPixels_throws faceImage then faceImage
  else mkRaster (width faceImage) (height faceImage)
         (fallbackPixelCopy_loop faceImage processedFace faceBbox copyWidth copyHeight).

End FaceRegion.

(** ** Real-time tracking and the detection callback *)

(** The detector state once a box of the external detector may have
    entered it: the history holds boxes of numbers.  [isValidFaceSize]
    and [updateFaceHistory] are the methods of [FaceProcessor] above,
    here on such a box; the comparisons are those of numbers, false on
    NaN. *)
Module Reported.

Record FaceProcessor := mkFaceProcessor {
  lastKnownFacePosition : option NumBox.t;
  faceTrackingHistory : list NumBox.t
}.

Definition isValidFaceSize (face : NumBox.t) : bool :=
  Num.geb (NumBox.width face) (Num.of_Z minFaceSize) &&
  Num.geb (NumBox.height face) (Num.of_Z minFaceSize) &&
  Num.leb (NumBox.width face) (Num.of_Z maxFaceSize) &&
  Num.leb (NumBox.height face) (Num.of_Z maxFaceSize).

Definition updateFaceHistory (fp : FaceProcessor) (facePosition : option NumBox.t)
    : FaceProcessor :=
  match facePosition with
  | Some face =>
      if isValidFaceSize face then
        let history := faceTrackingHistory fp ++ [face] in          (* push *)
        let history :=
          if Z.of_nat (length history) >? maxHistoryLength then tail history  (* shift *)
          else history in
        mkFaceProcessor (Some face) history
      else fp
  | None => fp
  end.

End Reported.

(** A detector state of integer boxes, read as one of boxes of numbers. *)
Definition reported (fp : FaceProcessor) : Reported.FaceProcessor :=
  Reported.mkFaceProcessor
    (option_map NumBox.of_box (lastKnownFacePosition fp))
    (map NumBox.of_box (faceTrackingHistory fp)).

(** The box that [enableRealTimeFaceTracking] hands to
    [updateFaceHistory]: the one built from the first result, if it
    passes the validation. *)
Definition rt_accept (face : DetectionResult) : Res (option NumBox.t) :=
  res_bind (ml_bbox face) (fun faceBbox =>
  match faceBbox with
  | Some faceBbox =>
      if Num.gtb (NumBox.width faceBbox) (Num.of_Z 0) &&
         Num.gtb (NumBox.height faceBbox) (Num.of_Z 0) &&
         Num.leb (Num.add (NumBox.x faceBbox) (NumBox.width faceBbox))
                 (Num.of_Z imageProcessor_width) &&
         Num.leb (Num.add (NumBox.y faceBbox) (NumBox.height faceBbox))
                 (Num.of_Z imageProcessor_height)
      then Ret (Some faceBbox)
      else Ret None
  | None => Ret None
  end).

(** [enableRealTimeFaceTracking] on the detector state.  [ready] stands
    for the checks on the model, the video and the camera; [results] is
    what awaiting [faceMesh.detect] gives: a list, null, or a rejection.
    The rejection and an error raised while the box is built are caught
    and logged. *)
Definition enableRealTimeFaceTracking (ready : bool)
    (results : Res (option (list DetectionResult))) (fp : FaceProcessor)
    : Reported.FaceProcessor :=
  if ready then
    match results with
    | Ret (Some (face :: _)) =>
        match rt_accept face with
        | Ret (Some faceBbox) => Reported.updateFaceHistory (reported fp) (Some faceBbox)
        | Ret None => reported fp
        | Throw => reported fp                          (* catch (error) *)
        end
    | _ => reported fp
    end
  else reported fp.

Section Detection.

Variable Math_pow : Q -> Q -> Q.
Variable Math_sqrt : Q -> Q.
Variable loadPixels_throws : Raster -> bool.
Variable Canvas : Type.

(** [applyFaceFilter] is given the box as it is, also one of the
    external detector. *)
Variable applyFaceFilter : Canvas -> Raster -> NumBox.t -> Canvas.

(** The [onload] callback of [processFaceDetection]: the detector state
    and the annotated canvas after it ran on the results of
    [faceMesh.detect]. *)
Definition detection_onload (fp : FaceProcessor) (faceImage : Canvas)
    (capturedImage : Raster) (results : Res (option (list DetectionResult)))
    : Reported.FaceProcessor * option Canvas :=
  let manual :=
    let '(fp, faceImage, _) :=
      detectFaceManually Math_pow Math_sqrt loadPixels_throws Canvas
        (fun faceImage capturedImage faceBbox =>
           applyFaceFilter faceImage capturedImage (NumBox.of_box faceBbox))
        fp (Some faceImage) (Some capturedImage) in
    (reported fp, faceImage) in
  match results with
  | Ret (Some (face :: _)) =>
      match ml_accept face with
      | Ret (Some bbox) =>
          (Reported.updateFaceHistory (reported fp) (Some bbox),
           Some (applyFaceFilter faceImage capturedImage bbox))
      | Ret None => manual              (* Invalid face bbox, using manual detection *)
      | Throw => manual                 (* catch (detectError) *)
      end
  | Ret _ => manual                     (* No faces detected *)
  | Throw => manual                     (* catch (detectError) *)
  end.

End Detection.

(** Every box that the detector state holds lies in the 160 x 120 frame. *)
Definition history_in_frame (fp : FaceProcessor) : Prop :=
  Forall (in_frame imageProcessor_width imageProcessor_height) (faceTrackingHistory fp) /\
  forall b, lastKnownFacePosition fp = Some b ->
    in_frame imageProcessor_width imageProcessor_height b.

(** The corner of the reported box is given by numbers: neither
    coordinate is NaN or missing. *)
Definition position_is_number (face : DetectionResult) : bool :=
  match face with
  | BoxForm xMin yMin _ _ => negb (Num.isNaN xMin) && negb (Num.isNaN yMin)
  | BoundingBoxForm (Some (x, y)) _ _ => negb (Num.isNaN x) && negb (Num.isNaN y)
  | BoundingBoxForm None _ _ => true
  | NoBox => true
  end.

(** ** The processing pipeline *)

Module Pipeline.
Section Pipeline.

Variable Math_pow : Q -> Q -> Q.
(** [processFaceDetection()], the last step of the pipeline. *)
Variable processFaceDetection : M unit.

(** [processImages] on the store of buffers; the calls of
    [displayImageOnCanvas] draw on the page and leave the store alone. *)
Definition processImages (capturedImage : option ref)
    (redThreshold greenThreshold blueThreshold hsvThreshold labThreshold : Q) : M unit :=
  match capturedImage with
  | None => ret tt
  | Some _ =>
      try_catch
        (let* grayscale := createGrayscaleWithBrightness capturedImage in
         let* channels := extractColorChannels capturedImage in
         let* redThresholdImg := applyChannelThreshold capturedImage redThreshold 0 in
         let* greenThresholdImg := applyChannelThreshold capturedImage greenThreshold 1 in
         let* blueThresholdImg := applyChannelThreshold capturedImage blueThreshold 2 in
         let* hsvImage := convertToHSV capturedImage in
         let* labImage := convertToLab Math_pow capturedImage in
         let* hsvThresholdImg := applyColorSpaceThreshold (Some hsvImage) hsvThreshold in
         let* labThresholdImg := applyColorSpaceThreshold (Some labImage) labThreshold in
         processFaceDetection)
        (ret tt)
  end.

End Pipeline.
End Pipeline.

(** ** The periodic tracker

    [faceTrackingInterval] holds the handle of the interval timer;
    [intervals] lists the interval timers that were set and not cleared,
    [nextTimer] is the handle the next [setInterval] returns, and
    [pendingStarts] counts the start callbacks that [setTimeout] queued. *)

Module Tracker.

Record State := mkState {
  cameraActive : bool;
  faceTrackingInterval : option nat;
  intervals : list nat;
  nextTimer : nat;
  pendingStarts : nat
}.

Definition startPeriodicFaceTracking (s : State) : State :=
  match faceTrackingInterval s with
  | Some _ => s                                       (* Don't start if already running *)
  | None =>
      mkState (cameraActive s) (Some (nextTimer s)) (nextTimer s :: intervals s)
              (S (nextTimer s)) (pendingStarts s)
  end.

Definition stopPeriodicFaceTracking (s : State) : State :=
  match faceTrackingInterval s with
  | Some id =>
      mkState (cameraActive s) None
              (filter (fun t => t <> id) (intervals s))   (* clearInterval *)
              (nextTimer s) (pendingStarts s)
  | None => s
  end.

Definition toggleCamera (s : State) : State :=
  let s := mkState (negb (cameraActive s)) (faceTrackingInterval s) (intervals s)
                   (nextTimer s) (pendingStarts s) in
  if cameraActive s then
    mkState (cameraActive s) (faceTrackingInterval s) (intervals s)
            (nextTimer s) (S (pendingStarts s))
  else stopPeriodicFaceTracking s.

Inductive Event :=
| ToggleCamera
| SetCameraActive (on : bool)               (* videoReady, and the voice commands *)
| StartTimeoutFires (modelReady : bool).    (* typeof ml5 !== 'undefined' && faceMesh *)

Definition step (s : State) (e : Event) : State :=
  match e with
  | ToggleCamera => toggleCamera s
  | SetCameraActive on =>
      mkState on (faceTrackingInterval s) (intervals s) (nextTimer s) (pendingStarts s)
  | StartTimeoutFires modelReady =>
      match pendingStarts s with
      | O => s
      | S n =>
          let s := mkState (cameraActive s) (faceTrackingInterval s) (intervals s)
                           (nextTimer s) n in
          if modelReady then startPeriodicFaceTracking s else s
      end
  end.

(** After [setup]: the camera is off until [videoReady], no interval is
    set, and one start is queued (the 5 s timeout).  Timer handles are
    positive integers. *)
Definition initial : State := mkState false None [] 1 1.

Definition run (s : State) (es : list Event) : State := fold_left step es s.

End Tracker.

(** ** Blocks of [pixelateImage] *)

Definition sumZ (l : list Z) : Z := fold_right Z.add 0 l.

(** The sum of channel 0 over the [bw] x [bh] pixels whose top left
    corner is [(x0, y0)], in a raster of width [w]. *)
Definition block_sum (w : Z) (src : list Z) (x0 y0 bw bh : Z) : Z :=
  sumZ (map (fun by_ =>
         sumZ (map (fun bx => rd src (((y0 + by_) * w + (x0 + bx)) * 4))
                   (Zrange 0 (Z.to_nat bw))))
       (Zrange 0 (Z.to_nat bh))).

(** [total / count] rounded to the nearest integer, halves upwards. *)
Definition rounded_mean (total count : Z) : Z := (2 * total + count) / (2 * count).

(** ** Results of the filter step *)

(** The results [processFace] can give: its argument, null, or a buffer
    that did not exist before. *)
Definition filter_result (σ0 : World) (faceImg res : option ref) : Prop :=
  res = faceImg \/ res = None \/ exists o, res = Some o /\ heap σ0 !! o = None.

(** ** Frames captured during a run *)

(** The frames of the capture requests that found the camera ready, in
    the order of the requests. *)
Definition captured_frames (Frame : Type) (es : list (Event Frame)) : list Frame :=
  omap (fun e => match e with
                 | CaptureClick _ true frame => Some frame
                 | _ => None
                 end) es.

(** What every run keeps: the frame held is the one captured last; the
    processed frames are a subsequence of the captured ones; and while
    [isCapturing] is set a callback is pending and the frame captured
    last is still to be processed. *)
Definition capture_inv (Frame : Type) (es : list (Event Frame)) (a : App Frame) : Prop :=
  capturedImage Frame a = last (captured_frames Frame es) /\
  processed Frame a `sublist_of` captured_frames Frame es /\
  (isCapturing Frame a = true ->
   (0 < pendingTimeouts Frame a)%nat /\
   exists f, capturedImage Frame a = Some f /\
             (processed Frame a ++ [f]) `sublist_of` captured_frames Frame es).


(** ** The gray level of the grayscale transform *)

(** The byte that [createGrayscaleWithBrightness] stores in the three
    colour channels of a pixel [(r, g, b)]. *)
Definition brightened_level (r g b : Z) : Z :=
  let gray := lit 0.299 *. r +. lit 0.587 *. g +. lit 0.114 *. b in
  let brightenedGray := gray *. lit 1.2 in
  let clampedGray := JS.Math_min 255 brightenedGray in
  JS.toUint8Clamped clampedGray.

(** ** Voice commands: fuzzy matching

    Strings are lists of UTF-16 code units.  A number that may be
    [undefined] or [NaN] is an [option Z]; an array is a list of slots,
    [None] for an empty slot (it reads as [undefined]). *)

Module Voice.

Definition str := list N.

Definition space : N := 32.

(** [s.charAt(k)]: the string of the code unit at [k], empty when [k]
    is out of range. *)
Definition charAt (s : str) (k : Z) : str :=
  if k <? 0 then []
  else match s !! Z.to_nat k with Some c => [c] | None => [] end.

(** [a[i] = v] on an array: a store beyond the end leaves empty slots. *)
Definition store {A} (a : list (option A)) (i : Z) (v : option A) : list (option A) :=
  if i <? 0 then a
  else if i <? Z.of_nat (length a) then <[Z.to_nat i := v]> a
  else a ++ replicate (Z.to_nat i - length a) None ++ [v].

(** [a[i]]. *)
Definition load {A} (a : list (option A)) (i : Z) : option A :=
  if i <? 0 then None else mjoin (a !! Z.to_nat i).

Definition Matrix := list (option (list (option Z))).

(** [matrix[i][j]]: a TypeError when [matrix[i]] is undefined. *)
Definition load2 (matrix : Matrix) (i j : Z) : Res (option Z) :=
  match load matrix i with
  | Some row => Ret (load row j)
  | None => Throw
  end.

(** [matrix[i][j] = v]. *)
Definition store2 (matrix : Matrix) (i j : Z) (v : option Z) : Res Matrix :=
  match load matrix i with
  | Some row => Ret (store matrix i (Some (store row j v)))
  | None => Throw
  end.

(** [x + 1] and [Math.min(x, y, z)] on numbers that may be [NaN]. *)
Definition succ_num (x : option Z) : option Z := (fun v => v + 1) <$> x.

Definition min3 (x y z : option Z) : option Z :=
  match x, y, z with
  | Some x, Some y, Some z => Some (Z.min x (Z.min y z))
  | _, _, _ => None
  end.

(** A loop whose body may raise. *)
Definition for_loop_res {S : Type} (start stop step : Z) (body : Z -> S -> Res S)
    (s : S) : Res S :=
  for_loop start stop step (fun i r => res_bind r (body i)) (Ret s).

Definition levenshteinDistance (a b : str) : Res (option Z) :=
  let matrix : Matrix := [] in
  let matrix :=
    for_loop 0 (Z.of_nat (length b) + 1) 1 (fun i matrix => store matrix i (Some [Some i])) matrix in
  res_bind
    (for_loop_res 0 (Z.of_nat (length a) + 1) 1 (fun j matrix =>
       store2 matrix 0 j (Some j)) matrix) (fun matrix =>
  res_bind
    (for_loop_res 1 (Z.of_nat (length b) + 1) 1 (fun i matrix =>
       for_loop_res 1 (Z.of_nat (length a) + 1) 1 (fun j matrix =>
         if decide (charAt b (i - 1) = charAt a (j - 1)) then
           res_bind (load2 matrix (i - 1) (j - 1)) (fun v =>
           store2 matrix i j v)
         else
           res_bind (load2 matrix (i - 1) (j - 1)) (fun d =>
           res_bind (load2 matrix i (j - 1)) (fun l =>
           res_bind (load2 matrix (i - 1) j) (fun u =>
           store2 matrix i j (min3 (succ_num d) (succ_num l) (succ_num u)))))) matrix)
       matrix) (fun matrix =>
  load2 matrix (Z.of_nat (length b)) (Z.of_nat (length a)))).

(** [s.split(' ')]: the pieces between the spaces; an empty piece for
    two spaces in a row, and one empty piece for the empty string. *)
Fixpoint split (s : str) : list str :=
  match s with
  | [] => [[]]
  | c :: s' =>
      if decide (c = space) then [] :: split s'
      else match split s' with
           | w :: ws => (c :: w) :: ws
           | [] => [[c]]
           end
  end.

Fixpoint startsWith (s w : str) : bool :=
  match w, s with
  | [], _ => true
  | _ :: _, [] => false
  | c :: w', d :: s' => bool_decide (c = d) && startsWith s' w'
  end.

(** [s.includes(w)]: [w] occurs in [s] as a run of code units. *)
Fixpoint includes (s w : str) : bool :=
  startsWith s w ||
  match s with
  | [] => false
  | _ :: s' => includes s' w
  end.

(** [x <= 2] on a number that may be [NaN]. *)
Definition le2 (x : option Z) : bool :=
  match x with Some v => v <=? 2 | None => false end.

(** [array.some(f)] with a callback that may raise; it stops at the
    first element for which the callback holds. *)
Fixpoint some {A} (f : A -> Res bool) (l : list A) : Res bool :=
  match l with
  | [] => Ret false
  | x :: l' => res_bind (f x) (fun b => if b then Ret true else some f l')
  end.

(** The callback of [some] in [fuzzyMatch]; the operands of [||] are
    evaluated from the left, as far as needed. *)
Definition word_matches (word inputWord : str) : Res bool :=
  if includes inputWord word then Ret true
  else if includes word inputWord then Ret true
  else res_bind (levenshteinDistance inputWord word) (fun d => Ret (le2 d)).

Definition fuzzyMatch (input command : str) : Res bool :=
  let inputWords := split input in
  let commandWords := split command in
  res_bind
    (fold_left (fun r word =>
       res_bind r (fun matches : Z =>
       res_bind (some (word_matches word) inputWords) (fun found =>
       Ret (if found then matches + 1 else matches))))
       commandWords (Ret 0)) (fun matches =>
  Ret (lit 0.6 <=. (matches /. Z.of_nat (length commandWords)))).

(** An input word matches a command word: one contains the other, or
    their distance is at most 2. *)
Definition close (word inputWord : str) : Prop :=
  includes inputWord word = true \/ includes word inputWord = true \/
  exists d, levenshteinDistance inputWord word = Ret (Some d) /\ d <= 2.

(** The table that [levenshteinDistance] fills, as a recurrence:
    [lev_table a b i j] is the entry in row [i] and column [j]. *)
Fixpoint lev_table (a b : str) (i : nat) {struct i} : nat -> Z :=
  match i with
  | O => fun j => Z.of_nat j
  | S i' =>
      let prev := lev_table a b i' in
      fix row (j : nat) : Z :=
        match j with
        | O => Z.of_nat (S i')
        | S j' =>
            if decide (b !! i' = a !! j') then prev j'
            else Z.min (prev j' + 1) (Z.min (row j' + 1) (prev (S j') + 1))
        end
  end.

(** A row of the table with its first [n] entries, and the table when
    the rows before [i] are complete, row [i] has [n] entries and the
    rows after it their first entry. *)
Definition row_ok (L : nat -> Z) (n : nat) (row : list (option Z)) : Prop :=
  length row = n /\ forall j, (j < n)%nat -> row !! j = Some (Some (L j)).

Definition table_ok (a b : str) (i n : nat) (matrix : Matrix) : Prop :=
  length matrix = S (length b) /\
  forall k, (k <= length b)%nat ->
    exists row, matrix !! k = Some (Some row) /\
      row_ok (lev_table a b k)
             (if decide (k < i)%nat then S (length a)
              else if decide (k = i) then n else 1%nat) row.

(** The callback of [some], as a boolean. *)
Definition word_close (word inputWord : str) : bool :=
  includes inputWord word || includes word inputWord ||
  (lev_table inputWord word (length word) (length inputWord) <=? 2).

(** [edits a b n]: [n] single-character edits turn [a] into [b].  The
    two strings are read from their ends: the last characters are kept
    (when equal), one is substituted for the other, the last character
    of [a] is deleted, or the last character of [b] is inserted. *)
Inductive edits : str -> str -> nat -> Prop :=
| edits_nil : edits [] [] 0
| edits_keep (c : N) (a b : str) (n : nat) :
    edits a b n -> edits (a ++ [c]) (b ++ [c]) n
| edits_substitute (c d : N) (a b : str) (n : nat) :
    edits a b n -> edits (a ++ [c]) (b ++ [d]) (S n)
| edits_delete (c : N) (a b : str) (n : nat) :
    edits a b n -> edits (a ++ [c]) b (S n)
| edits_insert (d : N) (a b : str) (n : nat) :
    edits a b n -> edits a (b ++ [d]) (S n).

End Voice.

(** * Properties *)

(** ** Loops and arrays *)

Lemma for_from_In fuel i stop step v :
  0 < step -> v ∈ for_from fuel i stop step ->
  i <= v < stop /\ ((v - i) mod step = 0).
Proof.
  intros Hs. revert i. induction fuel as [|f IH]; intros i; simpl.
  - intros H. inversion H.
  - destruct (Z.ltb_spec i stop) as [Hlt|Hge]; [|intros H; inversion H].
    intros H. apply elem_of_cons in H as [->|H].
    + split; [lia|]. rewrite Z.sub_diag. apply Z.mod_0_l. lia.
    + apply IH in H as [Hr Hm]. split; [lia|].
      replace (v - i) with ((v - (i + step)) + 1 * step) by lia.
      rewrite Z.mod_add by lia. exact Hm.
Qed.

Lemma for_from_complete fuel i stop step v :
  0 < step -> i <= v < stop -> (v - i) mod step = 0 ->
  (Z.to_nat (stop - i) <= fuel)%nat ->
  v ∈ for_from fuel i stop step.
Proof.
  intros Hs. revert i. induction fuel as [|f IH]; intros i Hr Hm Hf; simpl.
  - lia.
  - destruct (Z.ltb_spec i stop) as [Hlt|Hge]; [|lia].
    destruct (Z.eq_dec v i) as [->|Hne]; [apply list_elem_of_here|].
    apply list_elem_of_further. apply IH.
    + assert (Hd : (step | v - i)) by (apply Z.mod_divide; [lia|exact Hm]).
      destruct Hd as [k Hk]. assert (1 <= k) by nia. nia.
    + replace (v - (i + step)) with ((v - i) + (-1) * step) by lia.
      rewrite Z.mod_add by lia. exact Hm.
    + lia.
Qed.

(** The values of the loop variable. *)
Lemma for_range_spec start stop step v :
  0 < step ->
  v ∈ for_range start stop step <->
  start <= v < stop /\ (v - start) mod step = 0.
Proof.
  intros Hs. unfold for_range. split.
  - apply for_from_In; assumption.
  - intros [Hr Hm]. apply for_from_complete; auto.
Qed.

Lemma for_range_1 start stop v :
  v ∈ for_range start stop 1 <-> start <= v < stop.
Proof.
  rewrite for_range_spec by lia. rewrite Z.mod_1_r. tauto.
Qed.

(** An invariant of a loop. *)
Lemma for_loop_inv {S : Type} (P : S -> Prop) start stop step body (s : S) :
  P s ->
  (forall i s, i ∈ for_range start stop step -> P s -> P (body i s)) ->
  P (for_loop start stop step body s).
Proof.
  unfold for_loop. generalize (for_range start stop step) as l.
  intros l. revert s. induction l as [|x l IH]; intros s Hs Hb; simpl; [exact Hs|].
  apply IH.
  - apply Hb; [apply list_elem_of_here|exact Hs].
  - intros i s' Hi. apply Hb. apply list_elem_of_further. exact Hi.
Qed.

(** A property that one iteration establishes and every iteration keeps
    holds after the loop. *)
Lemma for_loop_establish {S : Type} (I P : S -> Prop) start stop step body (s : S) i :
  i ∈ for_range start stop step ->
  I s ->
  (forall j s, j ∈ for_range start stop step -> I s -> I (body j s)) ->
  (forall s, I s -> P (body i s)) ->
  (forall j s, j ∈ for_range start stop step -> I s -> P s -> P (body j s)) ->
  P (for_loop start stop step body s).
Proof.
  unfold for_loop. generalize (for_range start stop step) as l.
  intros l Hi HI HIb He Hk.
  assert (G : forall l' s', (forall j, j ∈ l' -> j ∈ l) -> I s' ->
            (i ∈ l' \/ P s') -> P (fold_left (fun s i => body i s) l' s')).
  { induction l' as [|x l' IH]; intros s' Hsub HI' Hor; simpl.
    - destruct Hor as [H|H]; [inversion H|exact H].
    - apply IH.
      + intros j Hj. apply Hsub. apply list_elem_of_further. exact Hj.
      + apply HIb; [apply Hsub; apply list_elem_of_here|exact HI'].
      + destruct Hor as [H|H].
        * apply elem_of_cons in H as [->|H]; [right; apply He; exact HI'|left; exact H].
        * right. apply Hk; [apply Hsub; apply list_elem_of_here|exact HI'|exact H]. }
  apply G; auto.
Qed.

Lemma len_wr a i v : len (wr a i v) = len a.
Proof.
  unfold wr, len. destruct (i <? 0); [reflexivity|]. rewrite length_insert. reflexivity.
Qed.

Lemma rd_wr_eq a i v :
  0 <= i < len a -> rd (wr a i v) i = JS.toUint8Clamped v.
Proof.
  unfold rd, wr, len. intros H.
  destruct (Z.ltb_spec i 0); [lia|].
  rewrite list_lookup_insert_eq by lia. reflexivity.
Qed.

Lemma rd_wr_ne a i j v :
  i <> j -> rd (wr a i v) j = rd a j.
Proof.
  unfold rd, wr. intros H.
  destruct (Z.ltb_spec j 0); [reflexivity|].
  destruct (Z.ltb_spec i 0); [reflexivity|].
  rewrite list_lookup_insert_ne by lia. reflexivity.
Qed.

Lemma toUint8Clamped_range v : 0 <= JS.toUint8Clamped v <= 255.
Proof. unfold JS.toUint8Clamped. lia. Qed.

Lemma round_half_even_Z (z : Z) : JS.round_half_even z = z.
Proof.
  unfold JS.round_half_even. rewrite Qfloor_Z.
  assert (H : (inject_Z z - inject_Z z ?= 1 # 2)%Q = Lt).
  { rewrite <- Qlt_alt. ring_simplify. reflexivity. }
  rewrite H. reflexivity.
Qed.

Lemma toUint8Clamped_byte (z : Z) : 0 <= z <= 255 -> JS.toUint8Clamped z = z.
Proof. intros H. unfold JS.toUint8Clamped. rewrite round_half_even_Z. lia. Qed.

Lemma len_wr4 out i a b c d : len (wr4 out i a b c d) = len out.
Proof. unfold wr4. rewrite !len_wr. reflexivity. Qed.

Lemma rd_wr4_inside out i a b c d :
  0 <= i -> i + 3 < len out ->
  rd (wr4 out i a b c d) i = JS.toUint8Clamped a /\
  rd (wr4 out i a b c d) (i + 1) = JS.toUint8Clamped b /\
  rd (wr4 out i a b c d) (i + 2) = JS.toUint8Clamped c /\
  rd (wr4 out i a b c d) (i + 3) = JS.toUint8Clamped d.
Proof.
  intros H0 H3. unfold wr4. repeat split.
  - rewrite !rd_wr_ne by lia. apply rd_wr_eq. lia.
  - rewrite !rd_wr_ne by lia. apply rd_wr_eq. rewrite len_wr. lia.
  - rewrite !rd_wr_ne by lia. apply rd_wr_eq. rewrite !len_wr. lia.
  - apply rd_wr_eq. rewrite !len_wr. lia.
Qed.

Lemma rd_wr4_outside out i a b c d j :
  (j < i \/ i + 3 < j) -> rd (wr4 out i a b c d) j = rd out j.
Proof. intros H. unfold wr4. rewrite !rd_wr_ne by lia. reflexivity. Qed.

(** What a pixel loop leaves at the pixel that starts at byte [i]. *)
Lemma pixel_loop_at (a b c d : Z -> Q) n out i :
  len out = n -> 0 <= i -> i mod 4 = 0 -> i + 3 < n ->
  let out' := for_loop 0 n 4 (fun i out => wr4 out i (a i) (b i) (c i) (d i)) out in
  rd out' i = JS.toUint8Clamped (a i) /\
  rd out' (i + 1) = JS.toUint8Clamped (b i) /\
  rd out' (i + 2) = JS.toUint8Clamped (c i) /\
  rd out' (i + 3) = JS.toUint8Clamped (d i).
Proof.
  intros Hlen H0 Hm H3. cbv zeta.
  apply (for_loop_establish (fun s => len s = n)
           (fun s => rd s i = JS.toUint8Clamped (a i) /\
                     rd s (i + 1) = JS.toUint8Clamped (b i) /\
                     rd s (i + 2) = JS.toUint8Clamped (c i) /\
                     rd s (i + 3) = JS.toUint8Clamped (d i))
           0 n 4 _ out i).
  - apply for_range_spec; [lia|]. rewrite Z.sub_0_r. split; [lia|exact Hm].
  - exact Hlen.
  - intros j s _ Hs. rewrite len_wr4. exact Hs.
  - intros s Hs. apply rd_wr4_inside; lia.
  - intros j s Hj Hs HP. apply for_range_spec in Hj; [|lia].
    rewrite Z.sub_0_r in Hj. destruct Hj as [Hj Hjm].
    destruct (Z.eq_dec j i) as [->|Hne].
    + apply rd_wr4_inside; lia.
    + assert (Hsep : j + 3 < i \/ i + 3 < j).
      { apply Z.mod_divide in Hjm; [|lia]. apply Z.mod_divide in Hm; [|lia].
        destruct Hjm as [kj ->]. destruct Hm as [ki ->]. lia. }
      rewrite !rd_wr4_outside by lia. exact HP.
Qed.

Lemma pixel_loop_len (a b c d : Z -> Q) n out :
  len (for_loop 0 n 4 (fun i out => wr4 out i (a i) (b i) (c i) (d i)) out) = len out.
Proof.
  apply (for_loop_inv (fun s => len s = len out)); [reflexivity|].
  intros i s _ Hs. rewrite len_wr4. exact Hs.
Qed.

(** ** The store *)

Lemma createGraphics_ok w h σ :
  head (gfx σ) <> Some false ->
  createGraphics w h σ =
    (mkWorld (<[fresh (dom (heap σ)) := blank w h]> (heap σ)) (tail (gfx σ)),
     Ret (fresh (dom (heap σ)))).
Proof.
  unfold createGraphics. destruct (gfx σ) as [|[|] rest]; simpl; congruence.
Qed.

Lemma createGraphics_fail w h σ rest :
  gfx σ = false :: rest ->
  createGraphics w h σ = (mkWorld (heap σ) rest, Throw).
Proof. unfold createGraphics. intros ->. reflexivity. Qed.

Lemma safeCreateGraphics_ok w h σ :
  head (gfx σ) <> Some false ->
  safeCreateGraphics w h σ =
    (mkWorld (<[fresh (dom (heap σ)) := blank w h]> (heap σ)) (tail (gfx σ)),
     Ret (Some (fresh (dom (heap σ))))).
Proof.
  intros H. unfold safeCreateGraphics, try_catch, bind.
  rewrite createGraphics_ok by exact H. reflexivity.
Qed.

Lemma safeCreateGraphics_fail w h σ rest :
  gfx σ = false :: rest ->
  safeCreateGraphics w h σ = (mkWorld (heap σ) rest, Ret None).
Proof.
  intros H. unfold safeCreateGraphics, try_catch, bind.
  rewrite (createGraphics_fail _ _ _ _ H). reflexivity.
Qed.

Lemma fresh_not_in_heap (h : gmap ref Raster) : h !! fresh (dom h) = None.
Proof. apply not_elem_of_dom. apply is_fresh. Qed.

Lemma len_blank w h : 0 <= w -> 0 <= h -> len (pixels (blank w h)) = 4 * (w * h).
Proof.
  intros Hw Hh. unfold len, blank. simpl. rewrite length_replicate. nia.
Qed.

(** ** Grayscale with brightness *)

Lemma grayscale_loop_at src out p :
  len out = len src -> 0 <= p -> 4 * p + 3 < len src ->
  let R := rd src (4 * p) in
  let G := rd src (4 * p + 1) in
  let B := rd src (4 * p + 2) in
  let clampedGray :=
    JS.Math_min 255 ((lit 0.299 *. R +. lit 0.587 *. G +. lit 0.114 *. B) *. lit 1.2) in
  rd (grayscale_loop src out) (4 * p) = JS.toUint8Clamped clampedGray /\
  rd (grayscale_loop src out) (4 * p + 1) = JS.toUint8Clamped clampedGray /\
  rd (grayscale_loop src out) (4 * p + 2) = JS.toUint8Clamped clampedGray /\
  rd (grayscale_loop src out) (4 * p + 3) = 255.
Proof.
  intros Hlen Hp Hin. cbv zeta.
  pose (c := fun i : Z =>
    JS.Math_min 255 ((lit 0.299 *. rd src i +. lit 0.587 *. rd src (i + 1)
                      +. lit 0.114 *. rd src (i + 2)) *. lit 1.2)).
  change (grayscale_loop src out)
    with (for_loop 0 (len src) 4
            (fun i out => wr4 out i (c i) (c i) (c i) (inject_Z 255)) out).
  destruct (pixel_loop_at c c c (fun _ => inject_Z 255) (len src) out (4 * p))
    as (H0 & H1 & H2 & H3); try lia.
  { rewrite Z.mul_comm. apply Z.mod_mul. lia. }
  cbv zeta in H0, H1, H2, H3.
  rewrite H0, H1, H2, H3. unfold c.
  split; [reflexivity|]. split; [reflexivity|]. split; [reflexivity|].
  apply toUint8Clamped_byte. lia.
Qed.

Lemma Math_min_le_l x y : (JS.Math_min x y <= x)%Q.
Proof.
  unfold JS.Math_min. destruct (Qle_bool x y) eqn:E.
  - apply Qle_refl.
  - apply Qlt_le_weak. apply Qnot_le_lt. intros H.
    apply Qle_bool_iff in H. congruence.
Qed.

(** C4.  [createGrayscaleWithBrightness], when the output buffer can be
    allocated, returns a new buffer of the size of the input in which, for
    every pixel, the three colour channels hold
    [min(255, 1.2 * (0.299 R + 0.587 G + 0.114 B))] of the input pixel
    (as stored in a byte array) and alpha is 255.  The value stored is at
    most 255, every channel lies in [0, 255], and a white pixel stays
    white. *)
Theorem createGrayscaleWithBrightness_postcondition
    (σ : World) (l : ref) (img : Raster) :
  heap σ !! l = Some img -> wf_raster img -> head (gfx σ) <> Some false ->
  exists σ' o out,
    createGrayscaleWithBrightness (Some l) σ = (σ', Ret (Some o)) /\
    heap σ' !! o = Some out /\
    width out = width img /\ height out = height img /\
    (forall p, 0 <= p < width img * height img ->
       let R := rd (pixels img) (4 * p) in
       let G := rd (pixels img) (4 * p + 1) in
       let B := rd (pixels img) (4 * p + 2) in
       let clampedGray :=
         JS.Math_min 255 ((lit 0.299 *. R +. lit 0.587 *. G +. lit 0.114 *. B) *. lit 1.2) in
       rd (pixels out) (4 * p) = JS.toUint8Clamped clampedGray /\
       rd (pixels out) (4 * p + 1) = JS.toUint8Clamped clampedGray /\
       rd (pixels out) (4 * p + 2) = JS.toUint8Clamped clampedGray /\
       rd (pixels out) (4 * p + 3) = 255 /\
       (clampedGray <= 255)%Q /\
       0 <= JS.toUint8Clamped clampedGray <= 255) /\
    JS.toUint8Clamped
      (JS.Math_min 255 ((lit 0.299 *. 255 +. lit 0.587 *. 255 +. lit 0.114 *. 255) *. lit 1.2))
    = 255.
Proof.
  intros Hl (Hw & Hh & Hlen & _) Hgfx.
  unfold createGrayscaleWithBrightness, bind, deref. rewrite Hl.
  rewrite safeCreateGraphics_ok by exact Hgfx.
  unfold update_pixels, ret. cbn [heap gfx].
  rewrite lookup_insert_eq.
  eexists _, _, _. split; [reflexivity|]. cbn [heap].
  rewrite lookup_insert_eq. split; [reflexivity|].
  cbn [width height pixels blank]. split; [reflexivity|]. split; [reflexivity|].
  split.
  - intros p Hp. cbv zeta.
    destruct (grayscale_loop_at (pixels img)
                (replicate (Z.to_nat (4 * (width img * height img))) 0) p)
      as (H0 & H1 & H2 & H3).
    + pose proof (len_blank (width img) (height img) Hw Hh) as Hb.
      unfold blank in Hb. cbn [pixels] in Hb. unfold len in Hb, Hlen |- * ; lia.
    + lia.
    + unfold len. lia.
    + cbv zeta in H0, H1, H2, H3. rewrite H0, H1, H2, H3.
      repeat (split; [reflexivity|]).
      split; [apply Math_min_le_l|apply toUint8Clamped_range].
  - vm_compute. reflexivity.
Qed.

Lemma createGrayscaleWithBrightness_postcondition_witness :
  exists σ' o out,
    createGrayscaleWithBrightness (Some 0%nat)
      (mkWorld {[ 0%nat := mkRaster 1 1 [200; 100; 50; 255] ]} []) = (σ', Ret (Some o)) /\
    heap σ' !! o = Some out /\ rd (pixels out) 0 = 149.
Proof.
  destruct (createGrayscaleWithBrightness_postcondition
              (mkWorld {[ 0%nat := mkRaster 1 1 [200; 100; 50; 255] ]} []) 0%nat
              (mkRaster 1 1 [200; 100; 50; 255]))
    as (σ' & o & out & Hrun & Hout & _ & _ & Hpx & _).
  - reflexivity.
  - repeat split; simpl; try lia. repeat constructor; lia.
  - simpl. discriminate.
  - exists σ', o, out. split; [exact Hrun|]. split; [exact Hout|].
    destruct (Hpx 0) as (H0 & _); [simpl; lia|].
    change (4 * 0) with 0 in H0. rewrite H0. vm_compute. reflexivity.
Defined.

(** ** Rounding facts used by the pixel loops *)

Lemma fl_proper x y : (x == y)%Q -> JS.fl x = JS.fl y.
Proof. intros H. unfold JS.fl. rewrite (Qred_complete _ _ H). reflexivity. Qed.

Lemma forallb_bytes (f : Z -> bool) :
  forallb f (map Z.of_nat (seq 0 256)) = true ->
  forall c, 0 <= c <= 255 -> f c = true.
Proof.
  intros H c Hc. rewrite forallb_forall in H. apply H.
  apply in_map_iff. exists (Z.to_nat c). split; [lia|].
  apply in_seq. lia.
Qed.

(** Bytes are doubles. *)
Lemma fl_byte (c : Z) : 0 <= c <= 255 -> JS.fl c = c.
Proof.
  intros Hc.
  pose (f := fun c : Z => Qeq_bool (JS.fl c) c && (Qden (JS.fl c) =? 1)%positive).
  assert (H : f c = true).
  { apply forallb_bytes; [|exact Hc]. vm_compute. reflexivity. }
  unfold f in H. apply andb_true_iff in H as [H1 H2].
  apply Qeq_bool_iff in H1. apply Pos.eqb_eq in H2.
  destruct (JS.fl c) as [n d] eqn:E. cbn [Qden] in H2. subst d.
  unfold Qeq in H1. cbn [Qnum Qden inject_Z] in H1. unfold inject_Z.
  f_equal. lia.
Qed.

Lemma Math_round_Z (z : Z) : JS.Math_round z = z.
Proof.
  unfold JS.Math_round.
  assert (H1 : (Qfloor (inject_Z z) <= Qfloor (inject_Z z + (1 # 2)))%Z).
  { apply Qfloor_resp_le. rewrite <- (Qplus_0_r (inject_Z z)) at 1.
    apply Qplus_le_r. discriminate. }
  rewrite Qfloor_Z in H1.
  assert (H2 : (inject_Z (Qfloor (inject_Z z + (1 # 2))) <= inject_Z z + (1 # 2))%Q)
    by apply Qfloor_le.
  assert (H3 : (Qfloor (inject_Z z + (1 # 2)) < z + 1)%Z).
  { rewrite Zlt_Qlt. eapply Qle_lt_trans; [exact H2|].
    rewrite inject_Z_plus. apply Qplus_lt_r. reflexivity. }
  lia.
Qed.

(** The mean of [n] copies of a byte. *)
Lemma mean_of_copies (c n : Z) :
  0 <= c <= 255 -> 0 < n -> JS.Math_round ((c * n)%Z /. n) = c.
Proof.
  intros Hc Hn. unfold JS.fdiv.
  rewrite (fl_proper _ (inject_Z c)).
  - rewrite fl_byte by exact Hc. apply Math_round_Z.
  - rewrite inject_Z_mult. field. intros H.
    apply (inject_Z_injective n 0) in H. lia.
Qed.

(** ** Pixelation *)

Lemma wr4_gray_keeps c s n k kt :
  0 <= c <= 255 -> len s = n -> 0 <= k -> 0 <= kt -> kt * 4 + 3 < n ->
  gray_at c s (kt * 4) -> gray_at c (wr4 s (k * 4) c c c 255) (kt * 4).
Proof.
  intros Hc Hn Hk Hkt Hin HP. unfold gray_at in * .
  destruct (Z.eq_dec k kt) as [->|Hne].
  - destruct (rd_wr4_inside s (kt * 4) c c c 255) as (H0 & H1 & H2 & H3); try lia.
    rewrite H0, H1, H2, H3. rewrite !toUint8Clamped_byte by lia. auto.
  - rewrite !rd_wr4_outside by lia. exact HP.
Qed.

Lemma wr4_gray_sets c s n kt :
  0 <= c <= 255 -> len s = n -> 0 <= kt -> kt * 4 + 3 < n ->
  gray_at c (wr4 s (kt * 4) c c c 255) (kt * 4).
Proof.
  intros Hc Hn Hkt Hin. unfold gray_at.
  destruct (rd_wr4_inside s (kt * 4) c c c 255) as (H0 & H1 & H2 & H3); try lia.
  rewrite H0, H1, H2, H3. rewrite !toUint8Clamped_byte by lia. auto.
Qed.

(** The sum and the count over one block of a raster whose channel 0 is
    [c] everywhere. *)
Lemma block_total w h src c x y :
  0 <= c <= 255 -> 0 <= x < w -> 0 <= y < h ->
  (forall p, 0 <= p < w * h -> rd src (p * 4) = c) ->
  let acc :=
    for_loop 0 (Z.min blockSize (h - y)) 1 (fun by_ acc =>
      for_loop 0 (Z.min blockSize (w - x)) 1 (fun bx acc =>
        let idx := ((y + by_) * w + (x + bx)) * 4 in
        let intensity := rd src idx in
        (fst acc + intensity, snd acc + 1)) acc) (0, 0) in
  fst acc = c * snd acc /\ 0 < snd acc.
Proof.
  intros Hc Hx Hy Hu. cbv zeta. unfold blockSize.
  set (inner := fun by_ (acc : Z * Z) =>
    for_loop 0 (Z.min 12 (w - x)) 1 (fun bx acc =>
      (fst acc + rd src (((y + by_) * w + (x + bx)) * 4), snd acc + 1)) acc).
  assert (Hinner_inv : forall by_ acc, 0 <= by_ < Z.min 12 (h - y) ->
            fst acc = c * snd acc /\ 0 <= snd acc ->
            fst (inner by_ acc) = c * snd (inner by_ acc) /\ 0 <= snd (inner by_ acc)).
  { intros by_ acc Hby Hacc. unfold inner.
    apply (for_loop_inv (fun a => fst a = c * snd a /\ 0 <= snd a)); [exact Hacc|].
    intros bx a Hbx [Ha1 Ha2]. apply for_range_1 in Hbx. cbn [fst snd].
    rewrite Hu by nia. lia. }
  assert (Hinner_pos : forall by_ acc, 0 <= by_ < Z.min 12 (h - y) ->
            fst acc = c * snd acc /\ 0 <= snd acc -> 0 < snd (inner by_ acc)).
  { intros by_ acc Hby Hacc. unfold inner.
    apply (for_loop_establish (fun a => fst a = c * snd a /\ 0 <= snd a)
             (fun a => 0 < snd a) _ _ _ _ _ 0).
    - apply for_range_1. lia.
    - exact Hacc.
    - intros bx a Hbx [Ha1 Ha2]. apply for_range_1 in Hbx. cbn [fst snd].
      rewrite Hu by nia. lia.
    - intros a [Ha1 Ha2]. cbn [snd]. lia.
    - intros bx a _ _ Ha. cbn [snd]. lia. }
  split.
  - apply (for_loop_inv (fun a => fst a = c * snd a /\ 0 <= snd a)
             0 (Z.min 12 (h - y)) 1 inner (0, 0)); [cbn; lia|].
    intros by_ a Hby Ha. apply for_range_1 in Hby. apply Hinner_inv; assumption.
  - apply (for_loop_establish (fun a => fst a = c * snd a /\ 0 <= snd a)
             (fun a => 0 < snd a) 0 (Z.min 12 (h - y)) 1 inner (0, 0) 0).
    + apply for_range_1. lia.
    + cbn. lia.
    + intros by_ a Hby Ha. apply for_range_1 in Hby. apply Hinner_inv; assumption.
    + intros a Ha. apply Hinner_pos; [lia|exact Ha].
    + intros by_ a Hby Ha _. apply for_range_1 in Hby. apply Hinner_pos; assumption.
Qed.

(** One block of [pixelate_loop] on a raster of gray level [c]: the
    length is kept, pixels of level [c] stay so, and the pixels of the
    block are set to [c]. *)
Lemma pixelate_block w h src c x0 y0 s :
  0 <= c <= 255 -> 0 <= x0 < w -> 0 <= y0 < h ->
  (forall p, 0 <= p < w * h -> rd src (p * 4) = c) ->
  len s = 4 * (w * h) ->
  let s' :=
    (let '(totalIntensity, pixelCount) :=
       for_loop 0 (Z.min blockSize (h - y0)) 1 (fun by_ acc =>
         for_loop 0 (Z.min blockSize (w - x0)) 1 (fun bx acc =>
           let idx := ((y0 + by_) * w + (x0 + bx)) * 4 in
           let intensity := rd src idx in
           (fst acc + intensity, snd acc + 1)) acc) (0, 0) in
     let averageIntensity : Z := JS.Math_round (totalIntensity /. pixelCount) in
     for_loop 0 (Z.min blockSize (h - y0)) 1 (fun by_ out =>
       for_loop 0 (Z.min blockSize (w - x0)) 1 (fun bx out =>
         let idx := ((y0 + by_) * w + (x0 + bx)) * 4 in
         let out := wr out idx averageIntensity in
         let out := wr out (idx + 1) averageIntensity in
         let out := wr out (idx + 2) averageIntensity in
         wr out (idx + 3) 255) out) s) in
  len s' = 4 * (w * h) /\
  (forall kt, 0 <= kt < w * h -> gray_at c s (kt * 4) -> gray_at c s' (kt * 4)) /\
  (forall x y, x0 <= x < x0 + blockSize -> x < w ->
               y0 <= y < y0 + blockSize -> y < h ->
               gray_at c s' ((y * w + x) * 4)).
Proof.
  intros Hc Hx0 Hy0 Hu Hlen.
  pose proof (block_total w h src c x0 y0 Hc Hx0 Hy0 Hu) as Htot.
  cbv zeta in Htot |- * .
  destruct (for_loop 0 (Z.min blockSize (h - y0)) 1 _ (0, 0)) as [t n].
  cbn [fst snd] in Htot. destruct Htot as [-> Hn].
  rewrite mean_of_copies by assumption.
  unfold blockSize.
  set (wrpx := fun by_ bx (out : list Z) =>
         wr4 out (((y0 + by_) * w + (x0 + bx)) * 4) c c c 255).
  change (for_loop 0 (Z.min 12 (h - y0)) 1 _ s)
    with (for_loop 0 (Z.min 12 (h - y0)) 1 (fun by_ out =>
            for_loop 0 (Z.min 12 (w - x0)) 1 (fun bx out => wrpx by_ bx out) out) s).
  set (I := fun out : list Z => len out = 4 * (w * h)).
  assert (HI : forall by_ bx out, I out -> I (wrpx by_ bx out)).
  { intros by_ bx out Ho. unfold I, wrpx. rewrite len_wr4. exact Ho. }
  assert (Hkeep : forall kt by_ bx out,
            0 <= by_ -> 0 <= bx -> 0 <= kt < w * h -> I out ->
            gray_at c out (kt * 4) -> gray_at c (wrpx by_ bx out) (kt * 4)).
  { intros kt by_ bx out Hby Hbx Hkt Ho HP. unfold wrpx.
    apply (wr4_gray_keeps c out (4 * (w * h))); try assumption; try lia; nia. }
  assert (HIrow : forall by_ out, I out ->
            I (for_loop 0 (Z.min 12 (w - x0)) 1 (fun bx out => wrpx by_ bx out) out)).
  { intros by_ out Ho. apply (for_loop_inv I); [exact Ho|].
    intros bx o _ Hoo. apply HI. exact Hoo. }
  assert (Hkeeprow : forall kt by_ out, 0 <= by_ -> 0 <= kt < w * h -> I out ->
            gray_at c out (kt * 4) ->
            gray_at c (for_loop 0 (Z.min 12 (w - x0)) 1
                         (fun bx out => wrpx by_ bx out) out) (kt * 4)).
  { intros kt by_ out Hby Hkt Ho HP.
    apply (for_loop_inv (fun o => I o /\ gray_at c o (kt * 4))); [split; assumption|].
    intros bx o Hbx [Hoo HPo]. apply for_range_1 in Hbx.
    split; [apply HI; exact Hoo|apply Hkeep; try assumption; lia]. }
  split; [|split].
  - apply (for_loop_inv I); [exact Hlen|]. intros by_ o _ Ho. apply HIrow. exact Ho.
  - intros kt Hkt HP.
    apply (for_loop_inv (fun o => I o /\ gray_at c o (kt * 4))); [split; assumption|].
    intros by_ o Hby [Ho HPo]. apply for_range_1 in Hby.
    split; [apply HIrow; exact Ho|apply Hkeeprow; try assumption; lia].
  - intros x y Hx Hxw Hy Hyh.
    assert (Hkt : 0 <= y * w + x < w * h) by nia.
    apply (for_loop_establish I (fun o => gray_at c o ((y * w + x) * 4))
             0 (Z.min 12 (h - y0)) 1 _ s (y - y0)).
    + apply for_range_1. lia.
    + exact Hlen.
    + intros by_ o _ Ho. apply HIrow. exact Ho.
    + intros o Ho.
      apply (for_loop_establish I (fun o => gray_at c o ((y * w + x) * 4))
               0 (Z.min 12 (w - x0)) 1 _ o (x - x0)).
      * apply for_range_1. lia.
      * exact Ho.
      * intros bx o' _ Ho'. apply HI. exact Ho'.
      * intros o' Ho'. unfold wrpx.
        replace ((y0 + (y - y0)) * w + (x0 + (x - x0))) with (y * w + x) by lia.
        apply (wr4_gray_sets c o' (4 * (w * h))); try assumption; lia.
      * intros bx o' Hbx Ho' HP. apply for_range_1 in Hbx.
        apply Hkeep; try assumption; lia.
    + intros by_ o Hby Ho HP. apply for_range_1 in Hby.
      apply Hkeeprow; try assumption; lia.
Qed.

Lemma pixelate_loop_uniform w h src out c :
  0 <= c <= 255 ->
  (forall p, 0 <= p < w * h -> rd src (p * 4) = c) ->
  len out = 4 * (w * h) ->
  len (pixelate_loop w h src out) = 4 * (w * h) /\
  (forall x y, 0 <= x < w -> 0 <= y < h ->
     gray_at c (pixelate_loop w h src out) ((y * w + x) * 4)).
Proof.
  intros Hc Hu Hlen. unfold pixelate_loop.
  set (I := fun o : list Z => len o = 4 * (w * h)).
  set (block := fun (y x : Z) (out : list Z) =>
    let '(totalIntensity, pixelCount) :=
      for_loop 0 (Z.min blockSize (h - y)) 1 (fun by_ acc =>
        for_loop 0 (Z.min blockSize (w - x)) 1 (fun bx acc =>
          let idx := ((y + by_) * w + (x + bx)) * 4 in
          let intensity := rd src idx in
          (fst acc + intensity, snd acc + 1)) acc) (0, 0) in
    let averageIntensity : Z := JS.Math_round (totalIntensity /. pixelCount) in
    for_loop 0 (Z.min blockSize (h - y)) 1 (fun by_ out =>
      for_loop 0 (Z.min blockSize (w - x)) 1 (fun bx out =>
        let idx := ((y + by_) * w + (x + bx)) * 4 in
        let out := wr out idx averageIntensity in
        let out := wr out (idx + 1) averageIntensity in
        let out := wr out (idx + 2) averageIntensity in
        wr out (idx + 3) 255) out) out).
  change (for_loop 0 h blockSize _ out)
    with (for_loop 0 h blockSize (fun y out =>
            for_loop 0 w blockSize (fun x out => block y x out) out) out).
  assert (Hblock : forall y0 x0 s, y0 ∈ for_range 0 h blockSize ->
            x0 ∈ for_range 0 w blockSize -> I s ->
            I (block y0 x0 s) /\
            (forall kt, 0 <= kt < w * h -> gray_at c s (kt * 4) ->
                        gray_at c (block y0 x0 s) (kt * 4)) /\
            (forall x y, x0 <= x < x0 + blockSize -> x < w ->
                         y0 <= y < y0 + blockSize -> y < h ->
                         gray_at c (block y0 x0 s) ((y * w + x) * 4))).
  { intros y0 x0 s Hy0 Hx0 Hs.
    apply for_range_spec in Hy0 as [Hy0 _]; [|reflexivity].
    apply for_range_spec in Hx0 as [Hx0 _]; [|reflexivity].
    apply (pixelate_block w h src c x0 y0 s); assumption. }
  assert (Hrow_I : forall y0 s, y0 ∈ for_range 0 h blockSize -> I s ->
            I (for_loop 0 w blockSize (fun x out => block y0 x out) s)).
  { intros y0 s Hy0 Hs. apply (for_loop_inv I); [exact Hs|].
    intros x0 o Hx0 Ho. apply Hblock; assumption. }
  assert (Hrow_keep : forall kt y0 s, y0 ∈ for_range 0 h blockSize ->
            0 <= kt < w * h -> I s -> gray_at c s (kt * 4) ->
            gray_at c (for_loop 0 w blockSize (fun x out => block y0 x out) s) (kt * 4)).
  { intros kt y0 s Hy0 Hkt Hs HP.
    apply (for_loop_inv (fun o => I o /\ gray_at c o (kt * 4))); [split; assumption|].
    intros x0 o Hx0 [Ho HPo].
    destruct (Hblock y0 x0 o Hy0 Hx0 Ho) as (H1 & H2 & _).
    split; [exact H1|apply H2; assumption]. }
  split.
  - apply (for_loop_inv I); [exact Hlen|].
    intros y0 o Hy0 Ho. apply Hrow_I; assumption.
  - intros x y Hx Hy.
    assert (Hkt : 0 <= y * w + x < w * h) by nia.
    assert (Hy0 : y - y mod blockSize ∈ for_range 0 h blockSize).
    { apply for_range_spec; [reflexivity|]. unfold blockSize.
      pose proof (Z.mod_pos_bound y 12 ltac:(lia)).
      pose proof (Z.mod_le y 12 ltac:(lia) ltac:(lia)).
      split; [lia|]. rewrite Z.sub_0_r.
      rewrite Zminus_mod, Zmod_mod, Z.sub_diag. reflexivity. }
    assert (Hx0 : x - x mod blockSize ∈ for_range 0 w blockSize).
    { apply for_range_spec; [reflexivity|]. unfold blockSize.
      pose proof (Z.mod_pos_bound x 12 ltac:(lia)).
      pose proof (Z.mod_le x 12 ltac:(lia) ltac:(lia)).
      split; [lia|]. rewrite Z.sub_0_r.
      rewrite Zminus_mod, Zmod_mod, Z.sub_diag. reflexivity. }
    apply (for_loop_establish I (fun o => gray_at c o ((y * w + x) * 4))
             0 h blockSize _ out (y - y mod blockSize)).
    + exact Hy0.
    + exact Hlen.
    + intros y0 o Hy0' Ho. apply Hrow_I; assumption.
    + intros o Ho.
      apply (for_loop_establish I (fun o => gray_at c o ((y * w + x) * 4))
               0 w blockSize _ o (x - x mod blockSize)).
      * exact Hx0.
      * exact Ho.
      * intros x0 o' Hx0' Ho'. apply Hblock; assumption.
      * intros o' Ho'. destruct (Hblock _ _ o' Hy0 Hx0 Ho') as (_ & _ & H3).
        unfold blockSize in H3 |- * .
        pose proof (Z.mod_pos_bound x 12 ltac:(lia)).
        pose proof (Z.mod_pos_bound y 12 ltac:(lia)).
        apply H3; lia.
      * intros x0 o' Hx0' Ho' HP.
        destruct (Hblock _ _ o' Hy0 Hx0' Ho') as (_ & H2 & _). apply H2; assumption.
    + intros y0 o Hy0' Ho HP. apply Hrow_keep; assumption.
Qed.

(** A list of bytes is determined by its length and its reads. *)
Lemma list_eq_rd (a b : list Z) :
  len a = len b -> (forall i, 0 <= i < len a -> rd a i = rd b i) -> a = b.
Proof.
  unfold len. intros Hlen Hrd. apply list_eq. intros i.
  destruct (decide (i < length a)%nat) as [Hi|Hi].
  - specialize (Hrd (Z.of_nat i) ltac:(lia)). unfold rd in Hrd.
    destruct (Z.ltb_spec (Z.of_nat i) 0); [lia|]. rewrite Nat2Z.id in Hrd.
    destruct (lookup_lt_is_Some_2 a i Hi) as [va Ha].
    destruct (lookup_lt_is_Some_2 b i ltac:(lia)) as [vb Hb].
    rewrite Ha, Hb in Hrd |- * . simpl in Hrd. congruence.
  - rewrite !lookup_ge_None_2 by lia. reflexivity.
Qed.

(** C7, as stated, at a colour that is not gray: a 1x1 raster of colour
    (10, 20, 30) is uniform, and [pixelateImage] turns it into
    (10, 10, 10). *)
Lemma pixelateImage_uniform_color_counterexample :
  let img := mkRaster 1 1 [10; 20; 30; 255] in
  let σ := mkWorld {[ 0%nat := img ]} [] in
  wf_raster img /\ uniform img 10 20 30 255 /\
  exists σ' o out,
    pixelateImage (Some 0%nat) σ = (σ', Ret (Some o)) /\
    heap σ' !! o = Some out /\
    pixels out = [10; 10; 10; 255] /\ pixels out <> pixels img.
Proof.
  cbv zeta. split; [|split].
  - repeat split; simpl; try lia. repeat constructor; lia.
  - intros p Hp. simpl in Hp. assert (p = 0) as -> by lia. repeat split.
  - eexists _, _, _. split; [vm_compute; reflexivity|].
    split; [vm_compute; reflexivity|]. split; [reflexivity|]. discriminate.
Qed.

(** C7, amended.  On a raster whose pixels all are the same opaque gray
    level [(c, c, c, 255)], [pixelateImage] returns a raster with the
    same dimensions and the same pixels. *)
Theorem pixelateImage_uniform_gray (σ : World) (l : ref) (img : Raster) (c : Z) :
  heap σ !! l = Some img -> wf_raster img -> 0 <= c <= 255 ->
  uniform img c c c 255 ->
  exists σ' o out,
    pixelateImage (Some l) σ = (σ', Ret (Some o)) /\
    heap σ' !! o = Some out /\
    width out = width img /\ height out = height img /\
    pixels out = pixels img.
Proof.
  intros Hl (Hw & Hh & Hlen & _) Hc Hu.
  unfold pixelateImage, bind, deref. rewrite Hl.
  assert (Hcase : head (gfx σ) <> Some false \/ exists rest, gfx σ = false :: rest).
  { destruct (gfx σ) as [|[|] rest]; simpl; [left|left|right]; try congruence.
    exists rest. reflexivity. }
  destruct Hcase as [Hok|[rest Hg]].
  2: { rewrite (safeCreateGraphics_fail _ _ _ _ Hg). unfold ret.
       eexists _, l, img. cbn [heap]. repeat split; auto. }
  rewrite safeCreateGraphics_ok by exact Hok.
  unfold update_pixels, ret. cbn [heap gfx]. rewrite lookup_insert_eq.
  eexists _, _, _. split; [reflexivity|]. cbn [heap].
  rewrite lookup_insert_eq. split; [reflexivity|].
  cbn [width height pixels blank]. split; [reflexivity|]. split; [reflexivity|].
  destruct (pixelate_loop_uniform (width img) (height img) (pixels img)
              (replicate (Z.to_nat (4 * (width img * height img))) 0) c Hc)
    as [Hlen' Hgray].
  { intros p Hp. apply (Hu p Hp). }
  { unfold len. rewrite length_replicate. nia. }
  apply list_eq_rd; [unfold len in Hlen' |- * ; lia|].
  intros i Hi. rewrite Hlen' in Hi.
  assert (Hwpos : 0 < width img) by nia.
  pose proof (Z.div_mod i 4 ltac:(lia)) as Hdm.
  pose proof (Z.mod_pos_bound i 4 ltac:(lia)) as Hmb.
  set (p := i / 4) in * . set (k := i mod 4) in * .
  assert (Hp : 0 <= p < width img * height img) by lia.
  pose proof (Z.div_mod p (width img) ltac:(lia)) as Hdm2.
  pose proof (Z.mod_pos_bound p (width img) Hwpos) as Hmb2.
  assert (Hy : 0 <= p / width img < height img) by nia.
  specialize (Hgray (p mod width img) (p / width img) Hmb2 Hy).
  replace (p / width img * width img + p mod width img) with p in Hgray by lia.
  destruct Hgray as (G0 & G1 & G2 & G3). destruct (Hu p Hp) as (U0 & U1 & U2 & U3).
  assert (Hk : k = 0 \/ k = 1 \/ k = 2 \/ k = 3) by lia.
  replace i with (p * 4 + k) by lia.
  destruct Hk as [-> | [-> | [-> | ->]]]; rewrite ?Z.add_0_r; congruence.
Qed.

(** ** Transforms leave the buffers of the store alone *)

Lemma keeps_ret {A} σ0 (a : A) (Q : A -> Prop) : Q a -> keeps σ0 (ret a) Q.
Proof. intros HQ σ Hσ. split; [exact Hσ|exact HQ]. Qed.

Lemma keeps_bind {A B} σ0 (m : M A) (k : A -> M B) (P : A -> Prop) (Q : B -> Prop) :
  keeps σ0 m P -> (forall a, P a -> keeps σ0 (k a) Q) -> keeps σ0 (bind m k) Q.
Proof.
  intros Hm Hk σ Hσ. unfold bind. specialize (Hm σ Hσ).
  destruct (m σ) as [σ1 [a|]]; cbn [fst snd] in Hm |- * .
  - destruct Hm as [H1 HP]. apply (Hk a HP σ1 H1).
  - destruct Hm as [H1 _]. split; [exact H1|exact I].
Qed.

Lemma keeps_try_catch {A} σ0 (m h : M A) (Q : A -> Prop) :
  keeps σ0 m Q -> keeps σ0 h Q -> keeps σ0 (try_catch m h) Q.
Proof.
  intros Hm Hh σ Hσ. unfold try_catch. specialize (Hm σ Hσ).
  destruct (m σ) as [σ1 [a|]]; cbn [fst snd] in Hm |- * .
  - exact Hm.
  - destruct Hm as [H1 _]. apply (Hh σ1 H1).
Qed.

Lemma keeps_weaken {A} σ0 (m : M A) (P Q : A -> Prop) :
  keeps σ0 m P -> (forall a, P a -> Q a) -> keeps σ0 m Q.
Proof.
  intros Hm HPQ σ Hσ. destruct (Hm σ Hσ) as [H1 H2]. split; [exact H1|].
  destruct (snd (m σ)); [apply HPQ; exact H2|exact I].
Qed.

Lemma keeps_deref σ0 img : keeps σ0 (deref img) (fun _ => True).
Proof.
  intros σ Hσ. unfold deref. destruct img as [l|]; [|split; [exact Hσ|exact I]].
  destruct (heap σ !! l); split; cbn; auto.
Qed.

Lemma keeps_createGraphics σ0 w h :
  keeps σ0 (createGraphics w h) (fun o => heap σ0 !! o = None).
Proof.
  intros σ Hσ. unfold createGraphics.
  assert (Hfresh : heap σ0 !! fresh (dom (heap σ)) = None).
  { destruct (heap σ0 !! fresh (dom (heap σ))) as [r|] eqn:E; [|reflexivity].
    apply Hσ in E. pose proof (fresh_not_in_heap (heap σ)) as F.
    congruence. }
  assert (Hins : unchanged σ0
            (mkWorld (<[fresh (dom (heap σ)) := blank w h]> (heap σ)) (tail (gfx σ)))).
  { intros l r Hl. cbn [heap]. rewrite lookup_insert_ne; [apply Hσ; exact Hl|].
    intros Heq. rewrite Heq in Hfresh. congruence. }
  destruct (gfx σ) as [|[|] rest]; cbn [fst snd]; split; auto.
Qed.

Lemma keeps_safeCreateGraphics σ0 w h :
  keeps σ0 (safeCreateGraphics w h)
    (fun o => forall o', o = Some o' -> heap σ0 !! o' = None).
Proof.
  unfold safeCreateGraphics. apply keeps_try_catch.
  - eapply keeps_bind; [apply keeps_createGraphics|].
    intros o Ho. apply keeps_ret. intros o' [= <-]. exact Ho.
  - apply keeps_ret. intros o' [=].
Qed.

Lemma keeps_update_pixels σ0 o f :
  heap σ0 !! o = None -> keeps σ0 (update_pixels o f) (fun _ => True).
Proof.
  intros Ho σ Hσ. unfold update_pixels.
  destruct (heap σ !! o) as [r|]; cbn [fst snd]; split; auto.
  intros l r' Hl. cbn [heap]. rewrite lookup_insert_ne; [apply Hσ; exact Hl|].
  intros ->. rewrite Ho in Hl. discriminate.
Qed.

(** A transform that allocates its output with [createGraphics]. *)
Lemma keeps_unsafe_transform σ0 img (loop : Raster -> list Z -> list Z) :
  keeps σ0
    (let* i := deref img in
     let* output := createGraphics (width i) (height i) in
     let* _ := update_pixels output (loop i) in
     ret output)
    (fun o => heap σ0 !! o = None).
Proof.
  eapply keeps_bind; [apply keeps_deref|]. intros i _.
  eapply keeps_bind; [apply keeps_createGraphics|]. intros o Ho.
  eapply keeps_bind; [apply keeps_update_pixels; exact Ho|]. intros _ _.
  apply keeps_ret. exact Ho.
Qed.

(** A transform that allocates with [safeCreateGraphics] and returns
    [dflt] when that fails. *)
Lemma keeps_safe_transform σ0 img dflt (write : ref -> Raster -> M unit) :
  (forall o i, heap σ0 !! o = None -> keeps σ0 (write o i) (fun _ => True)) ->
  keeps σ0
    (let* i := deref img in
     let* output := safeCreateGraphics (width i) (height i) in
     match output with
     | None => ret dflt
     | Some o => let* _ := write o i in ret (Some o)
     end)
    (fun res => res = dflt \/ exists o, res = Some o /\ heap σ0 !! o = None).
Proof.
  intros Hwrite.
  eapply keeps_bind; [apply keeps_deref|]. intros i _.
  eapply keeps_bind; [apply keeps_safeCreateGraphics|]. intros [o|] Ho.
  - eapply keeps_bind; [apply Hwrite; apply Ho; reflexivity|]. intros _ _.
    apply keeps_ret. right. exists o. split; [reflexivity|apply Ho; reflexivity].
  - apply keeps_ret. left. reflexivity.
Qed.








(** ** processFace *)

(** [processFace] never raises. *)
Lemma processFace_never_raises filter_BLUR faceImg filterType σ :
  exists v, snd (processFace filter_BLUR faceImg filterType σ) = Ret v.
Proof.
  unfold processFace. destruct faceImg as [l|]; [|eexists; reflexivity].
  unfold try_catch.
  match goal with |- context [match ?m σ with _ => _ end] => destruct (m σ) as [σ1 [a|]] end;
    eexists; reflexivity.
Qed.

(** C2 at the failing input.  With filter 1 (grayscale) and the output
    buffer not allocatable, [processFace] returns null, not the input
    buffer. *)
Theorem processFace_grayscale_failure_returns_null
    (filter_BLUR : Z -> Raster -> list Z) :
  let img := mkRaster 1 1 [200; 100; 50; 255] in
  let σ := mkWorld {[ 0%nat := img ]} [false] in
  processFace filter_BLUR (Some 0%nat) 1 σ = (mkWorld (heap σ) [], Ret None).
Proof. cbv zeta. vm_compute. reflexivity. Qed.

(** The same defect on any store: filter 1 gives null whenever the
    allocation fails. *)
Lemma processFace_grayscale_failure filter_BLUR σ l r rest :
  heap σ !! l = Some r -> gfx σ = false :: rest ->
  processFace filter_BLUR (Some l) 1 σ = (mkWorld (heap σ) rest, Ret None).
Proof.
  intros Hl Hg. unfold processFace, try_catch, createGrayscaleWithBrightness.
  unfold bind at 1. unfold deref. rewrite Hl.
  unfold bind at 1. rewrite (safeCreateGraphics_fail _ _ _ _ Hg). reflexivity.
Qed.

(** With filter 4 (pixelate), when the grayscale buffer is allocated
    and the pixelation buffer is not, [processFace] returns the
    grayscale buffer: neither the input nor its pixels. *)
Lemma processFace_pixelate_failure_returns_grayscale
    (filter_BLUR : Z -> Raster -> list Z) :
  let img := mkRaster 1 1 [200; 100; 50; 255] in
  let σ := mkWorld {[ 0%nat := img ]} [true; false] in
  exists σ' o out,
    processFace filter_BLUR (Some 0%nat) 4 σ = (σ', Ret (Some o)) /\
    o <> 0%nat /\ heap σ' !! o = Some out /\ pixels out = [149; 149; 149; 255].
Proof.
  cbv zeta. eexists _, _, _. split; [vm_compute; reflexivity|].
  split; [discriminate|]. split; [vm_compute; reflexivity|]. reflexivity.
Qed.

(** For the filters 0, 2 and 3 the claim holds: when the allocation
    fails the input buffer is returned. *)
Lemma processFace_failure_returns_input filter_BLUR σ l r rest filterType :
  heap σ !! l = Some r -> gfx σ = false :: rest ->
  filterType = 0 \/ filterType = 2 \/ filterType = 3 ->
  snd (processFace filter_BLUR (Some l) filterType σ) = Ret (Some l).
Proof.
  intros Hl Hg [-> | [-> | ->]]; unfold processFace, try_catch.
  - reflexivity.
  - unfold blurImage. unfold bind at 1. unfold bind at 1. unfold deref. rewrite Hl.
    unfold bind at 1. rewrite (safeCreateGraphics_fail _ _ _ _ Hg). reflexivity.
  - unfold convertToHSV. unfold bind at 1. unfold bind at 1. unfold deref. rewrite Hl.
    unfold bind at 1. rewrite (createGraphics_fail _ _ _ _ Hg). reflexivity.
Qed.

(** ** Detection history *)

Lemma isValidFaceSize_spec (b : Box.t) :
  isValidFaceSize b = true <->
  30 <= Box.width b <= 100 /\ 30 <= Box.height b <= 100.
Proof.
  unfold isValidFaceSize, minFaceSize, maxFaceSize.
  rewrite !andb_true_iff, !Z.geb_le, !Z.leb_le. lia.
Qed.

Lemma tail_drop_snoc {A} (l : list A) (n : nat) (b : A) :
  (n < length l)%nat -> tail (drop n l ++ [b]) = drop (S n) (l ++ [b]).
Proof.
  revert n. induction l as [|a l IH]; intros n Hn; simpl in Hn; [lia|].
  destruct n as [|n].
  - simpl. reflexivity.
  - simpl. apply IH. lia.
Qed.

Lemma accepted_boxes_snoc calls c :
  accepted_boxes (calls ++ [c]) =
  accepted_boxes calls ++
    match c with
    | Some b => if isValidFaceSize b then [b] else []
    | None => []
    end.
Proof.
  unfold accepted_boxes. rewrite omap_app. f_equal.
  destruct c as [b|]; simpl; [|reflexivity].
  destruct (isValidFaceSize b); reflexivity.
Qed.

(** The state after a sequence of calls: the history is the last (at
    most five) accepted boxes in call order, and the last known position
    is the last accepted box. *)
Lemma updateFaceHistory_state calls :
  let fp := fold_left updateFaceHistory calls newFaceProcessor in
  let acc := accepted_boxes calls in
  faceTrackingHistory fp = drop (length acc - 5) acc /\
  lastKnownFacePosition fp = last acc.
Proof.
  induction calls as [|c calls IH] using rev_ind; [split; reflexivity|].
  cbv zeta in IH |- * . rewrite fold_left_app. cbn [fold_left].
  rewrite accepted_boxes_snoc.
  destruct IH as [IHh IHl].
  set (fp := fold_left updateFaceHistory calls newFaceProcessor) in * .
  set (acc := accepted_boxes calls) in * .
  unfold updateFaceHistory.
  destruct c as [b|]; [|rewrite app_nil_r; split; assumption].
  destruct (isValidFaceSize b); [|rewrite app_nil_r; split; assumption].
  cbn [faceTrackingHistory lastKnownFacePosition]. split.
  - rewrite IHh. rewrite length_app, length_drop, length_app. cbn [length].
    unfold maxHistoryLength.
    destruct (Z.gtb_spec (Z.of_nat (length acc - (length acc - 5) + 1)) 5) as [Hgt|Hle].
    + assert (Hlen : (5 <= length acc)%nat) by lia.
      rewrite tail_drop_snoc by lia. f_equal. lia.
    + assert (Hlen : (length acc < 5)%nat) by lia.
      replace (length acc - 5)%nat with 0%nat by lia.
      replace (length acc + 1 - 5)%nat with 0%nat by lia. reflexivity.
  - rewrite last_snoc. reflexivity.
Qed.

(** C5.  After any sequence of [updateFaceHistory] calls from the
    initial state, the history holds at most 5 boxes, namely the last
    accepted boxes in call order (most recent last); every stored box
    passes [isValidFaceSize], i.e. has width and height in [30, 100];
    [lastKnownFacePosition] is the most recently accepted box; and a call
    with a box that fails [isValidFaceSize] (or with null) changes
    nothing. *)
Theorem updateFaceHistory_invariant (calls : list (option Box.t)) :
  let fp := fold_left updateFaceHistory calls newFaceProcessor in
  let acc := accepted_boxes calls in
  (length (faceTrackingHistory fp) <= 5)%nat /\
  faceTrackingHistory fp = drop (length acc - 5) acc /\
  Forall (fun b => isValidFaceSize b = true /\
                   30 <= Box.width b <= 100 /\ 30 <= Box.height b <= 100)
         (faceTrackingHistory fp) /\
  lastKnownFacePosition fp = last acc /\
  (forall b, isValidFaceSize b = false -> updateFaceHistory fp (Some b) = fp) /\
  updateFaceHistory fp None = fp.
Proof.
  cbv zeta. destruct (updateFaceHistory_state calls) as [Hh Hl]. cbv zeta in Hh, Hl.
  split; [|split; [exact Hh|split; [|split; [exact Hl|split]]]].
  - rewrite Hh, length_drop. lia.
  - rewrite Hh. apply Forall_forall. intros b Hb.
    apply list_elem_of_lookup_1 in Hb as [i Hi]. rewrite lookup_drop in Hi.
    assert (Hin : b ∈ accepted_boxes calls) by (eapply list_elem_of_lookup_2; exact Hi).
    unfold accepted_boxes in Hin. apply list_elem_of_omap in Hin as (c & _ & Hc).
    destruct c as [b'|]; [|discriminate].
    destruct (isValidFaceSize b') eqn:E; [|discriminate].
    injection Hc as <-. split; [exact E|]. apply isValidFaceSize_spec. exact E.
  - intros b Hb. unfold updateFaceHistory. rewrite Hb. reflexivity.
  - reflexivity.
Qed.

(** ** The strategies return boxes inside the frame *)

Lemma Math_max_ge_l x y : (x <= JS.Math_max x y)%Q.
Proof.
  unfold JS.Math_max. destruct (Qle_bool x y) eqn:E.
  - apply Qle_bool_iff. exact E.
  - apply Qle_refl.
Qed.

Lemma Math_max_min_le (lo hi v : Q) :
  (lo <= hi)%Q -> (JS.Math_max lo (JS.Math_min hi v) <= hi)%Q.
Proof.
  intros Hlh. unfold JS.Math_max.
  destruct (Qle_bool lo (JS.Math_min hi v)); [apply Math_min_le_l|exact Hlh].
Qed.

Lemma Math_round_between (lo hi : Z) (v : Q) :
  (inject_Z lo <= v)%Q -> (v <= inject_Z hi)%Q -> lo <= JS.Math_round v <= hi.
Proof.
  intros Hlo Hhi. unfold JS.Math_round. split.
  - rewrite <- (Qfloor_Z lo). apply Qfloor_resp_le.
    eapply Qle_trans; [exact Hlo|].
    rewrite <- (Qplus_0_r v) at 1. apply Qplus_le_r. discriminate.
  - assert (H : (Qfloor (v + (1 # 2)) < hi + 1)%Z); [|lia].
    rewrite Zlt_Qlt. eapply Qle_lt_trans; [apply Qfloor_le|].
    rewrite inject_Z_plus. eapply Qle_lt_trans.
    + apply Qplus_le_l. exact Hhi.
    + apply Qplus_lt_r. reflexivity.
Qed.

(** The window sizes of the scan are between 35 and 80. *)
Lemma scan_size_range (v : Q) :
  35 <= JS.Math_round (JS.Math_max 35 (JS.Math_min 80 v)) <= 80.
Proof.
  apply Math_round_between.
  - apply Math_max_ge_l.
  - apply Math_max_min_le. discriminate.
Qed.

Lemma scan_scale_in_frame Math_pow Math_sqrt lpt img st scale :
  let P := fun st : option Box.t * Q =>
    forall b, fst st = Some b ->
      in_frame (width img) (height img) b /\
      35 <= Box.width b <= 80 /\ 35 <= Box.height b <= 80 in
  P st -> P (scan_scale Math_pow Math_sqrt lpt img st scale).
Proof.
  cbv zeta. intros HP. unfold scan_scale. cbv zeta.
  set (sw := JS.Math_round (JS.Math_max (inject_Z 35)
                              (JS.Math_min (inject_Z 80) (width img *. scale)))).
  set (sh := JS.Math_round (JS.Math_max (inject_Z 35)
                              (JS.Math_min (inject_Z 80) (height img *. scale)))).
  assert (Hsw : 35 <= sw <= 80) by apply scan_size_range.
  assert (Hsh : 35 <= sh <= 80) by apply scan_size_range.
  set (stepSize := Z.max 8 (JS.Math_round (sw *. lit 0.2))).
  assert (Hstep : 0 < stepSize) by (unfold stepSize; lia).
  apply (for_loop_inv (fun st : option Box.t * Q => forall b, fst st = Some b ->
           in_frame (width img) (height img) b /\
           35 <= Box.width b <= 80 /\ 35 <= Box.height b <= 80)); [exact HP|].
  intros y st1 Hy HP1. apply for_range_spec in Hy as [Hy _]; [|exact Hstep].
  apply (for_loop_inv (fun st : option Box.t * Q => forall b, fst st = Some b ->
           in_frame (width img) (height img) b /\
           35 <= Box.width b <= 80 /\ 35 <= Box.height b <= 80)); [exact HP1|].
  intros x st2 Hx HP2. apply for_range_spec in Hx as [Hx _]; [|exact Hstep].
  unfold scan_window.
  destruct (_ >. _); [|exact HP2].
  cbn [fst]. intros b [= <-]. unfold in_frame.
  cbn [Box.x Box.y Box.width Box.height]. lia.
Qed.

Lemma scanForFaceRegions_in_frame Math_pow Math_sqrt lpt img b :
  scanForFaceRegions Math_pow Math_sqrt lpt (Some img) = Ret (Some b) ->
  in_frame (width img) (height img) b /\
  35 <= Box.width b <= 80 /\ 35 <= Box.height b <= 80.
Proof.
  unfold scanForFaceRegions.
  assert (H : forall l st,
            (forall b, fst st = Some b ->
               in_frame (width img) (height img) b /\
               35 <= Box.width b <= 80 /\ 35 <= Box.height b <= 80) ->
            forall b, fst (fold_left (scan_scale Math_pow Math_sqrt lpt img) l st) = Some b ->
               in_frame (width img) (height img) b /\
               35 <= Box.width b <= 80 /\ 35 <= Box.height b <= 80).
  { induction l as [|s l IH]; intros st Hst; simpl; [exact Hst|].
    apply IH. apply (scan_scale_in_frame Math_pow Math_sqrt lpt img st s). exact Hst. }
  specialize (H scan_scales (None, 0%Q)).
  destruct (fold_left (scan_scale Math_pow Math_sqrt lpt img) scan_scales (None, 0%Q))
    as [best maxScore].
  cbn [fst] in H. destruct best as [b'|]; [|discriminate].
  destruct (maxScore >. lit 0.15); [|discriminate].
  intros [= <-]. apply H; [|reflexivity]. intros b0 [=].
Qed.

Lemma trackByMotion_in_frame lpt fp img b :
  trackByMotion lpt fp (Some img) = Ret (Some b) ->
  in_frame (width img) (height img) b /\ isValidFaceSize b = true.
Proof.
  unfold trackByMotion. destruct (lastKnownFacePosition fp) as [lastPos|]; [|discriminate].
  destruct (lpt img); [discriminate|].
  set (P := fun acc : Q * option Box.t =>
         forall b, snd acc = Some b -> in_frame (width img) (height img) b).
  cbv zeta.
  lazymatch goal with
  | |- (match ?e with pair _ _ => _ end) = _ -> _ => assert (H : P e)
  end.
  { apply (for_loop_inv P); [intros b0 [=]|].
    intros oy acc _ Hacc. apply (for_loop_inv P); [exact Hacc|].
    intros ox acc' _ Hacc'. cbv zeta.
    destruct ((Z.max 0 (Box.x lastPos + ox) + Box.width lastPos <=? width img) &&
              (Z.max 0 (Box.y lastPos + oy) + Box.height lastPos <=? height img))
      eqn:Hin; [|exact Hacc'].
    destruct ((_ >. _) && (_ >. _)); [|exact Hacc'].
    apply andb_true_iff in Hin as [H1 H2]. apply Z.leb_le in H1, H2.
    intros b0 [= <-]. unfold in_frame.
    cbn [Box.x Box.y Box.width Box.height]. lia. }
  lazymatch type of H with P ?e => destruct e as [maxD best] end.
  destruct best as [b'|]; [|discriminate].
  destruct (isValidFaceSize b') eqn:E; [|discriminate].
  intros [= <-]. split; [apply H; reflexivity|exact E].
Qed.

Lemma skinRegion_step_best img st region b :
  fst (fst (skinRegion_step img st region)) = Some b ->
  fst (fst st) = Some b \/
  (b = Box.mk (fst (fst (fst region))) (snd (fst (fst region)))
              (snd (fst region)) (snd region) /\
   fst (fst (fst region)) + snd (fst region) <= width img /\
   snd (fst (fst region)) + snd region <= height img).
Proof.
  destruct st as [[bestRegion maxSkinPixels] maxSkinRatio].
  destruct region as [[[rx ry] rw] rh]. unfold skinRegion_step. cbn [fst snd].
  destruct ((rx + rw >? width img) || (ry + rh >? height img)) eqn:Hout;
    [left; assumption|].
  apply orb_false_iff in Hout as [H1 H2].
  destruct (for_loop ry _ 1 _ (0, 0)) as [skinPixelCount totalPixels].
  destruct ((skinPixelCount >? maxSkinPixels) && _ && _); [|left; assumption].
  cbn [fst]. rewrite !Math_round_Z. intros [= <-]. right.
  split; [reflexivity|]. lia.
Qed.

Lemma detectBySkinTone_region lpt img b :
  detectBySkinTone lpt (Some img) = Ret (Some b) ->
  isValidFaceSize b = true /\
  exists region, region ∈ skinRegions img /\
    b = Box.mk (fst (fst (fst region))) (snd (fst (fst region)))
               (snd (fst region)) (snd region) /\
    fst (fst (fst region)) + snd (fst region) <= width img /\
    snd (fst (fst region)) + snd region <= height img.
Proof.
  unfold detectBySkinTone. destruct (lpt img); [discriminate|].
  assert (H : forall l st b,
            fst (fst (fold_left (skinRegion_step img) l st)) = Some b ->
            fst (fst st) = Some b \/
            exists region, region ∈ l /\
              b = Box.mk (fst (fst (fst region))) (snd (fst (fst region)))
                         (snd (fst region)) (snd region) /\
              fst (fst (fst region)) + snd (fst region) <= width img /\
              snd (fst (fst region)) + snd region <= height img).
  { induction l as [|r l IH]; intros st b0 Hb; simpl in Hb; [left; exact Hb|].
    apply IH in Hb as [Hb|(region & Hin & Hrest)].
    - apply skinRegion_step_best in Hb as [Hb|Hb]; [left; exact Hb|].
      right. exists r. split; [apply list_elem_of_here|exact Hb].
    - right. exists region. split; [apply list_elem_of_further; exact Hin|exact Hrest]. }
  specialize (H (skinRegions img) (None, 0, 0%Q)).
  destruct (fold_left (skinRegion_step img) (skinRegions img) (None, 0, 0%Q))
    as [[bestRegion m] maxSkinRatio].
  cbn [fst] in H. destruct bestRegion as [b'|]; [|discriminate].
  destruct (isValidFaceSize b') eqn:E; [|discriminate].
  intros [= <-]. split; [exact E|].
  destruct (H b' eq_refl) as [Hnone|Hex]; [discriminate|exact Hex].
Qed.

Lemma skinRegions_default img :
  width img = 160 -> height img = 120 ->
  skinRegions img =
    [ (16, 12, 64, 48); (80, 12, 64, 48); (32, 18, 96, 72);
      (40, 24, 80, 60); (48, 30, 64, 48) ].
Proof.
  intros Hw Hh. unfold skinRegions. rewrite Hw, Hh. vm_compute. reflexivity.
Qed.

Lemma detectBySkinTone_in_frame_default lpt img b :
  width img = 160 -> height img = 120 ->
  detectBySkinTone lpt (Some img) = Ret (Some b) ->
  in_frame 160 120 b /\ isValidFaceSize b = true.
Proof.
  intros Hw Hh Hd. apply detectBySkinTone_region in Hd as (Hv & region & Hin & -> & Hx & Hy).
  split; [|exact Hv]. rewrite (skinRegions_default img Hw Hh) in Hin.
  rewrite Hw in Hx. rewrite Hh in Hy.
  repeat (apply elem_of_cons in Hin as [->|Hin];
          [unfold in_frame; cbn; lia|]).
  inversion Hin.
Qed.

Lemma getDefaultCenterFace_value : getDefaultCenterFace = Box.mk 40 30 80 60.
Proof. vm_compute. reflexivity. Qed.

(** The loop over [scale] ends by its condition: it runs for the five
    doubles 0.3, 0.4, 0.5, 0.6 and 0.7 (the sums of 0.1 happen to be
    exactly these). *)
Lemma scan_scales_value :
  scan_scales = [lit 0.3; lit 0.4; lit 0.5; lit 0.6; lit 0.7] /\
  (lit 0.7 +. lit 0.1 <=. lit 0.7) = false.
Proof. split; vm_compute; reflexivity. Qed.

(** ** The scan returns the best-scoring window *)



Lemma fold_left_ext {A S} (f g : S -> A -> S) (l : list A) (s : S) :
  (forall s a, f s a = g s a) -> fold_left f l s = fold_left g l s.
Proof.
  intros H. revert s. induction l as [|a l IH]; intros s; simpl; [reflexivity|].
  rewrite H. apply IH.
Qed.


Lemma gtb_false_le x y : (x >. y) = false <-> (x <= y)%Q.
Proof.
  unfold JS.gtb. rewrite negb_false_iff. apply Qle_bool_iff.
Qed.

Lemma gtb_true_lt x y : (x >. y) = true <-> (y < x)%Q.
Proof.
  unfold JS.gtb. rewrite negb_true_iff. split.
  - intros H. apply Qnot_le_lt. intros Hle. apply Qle_bool_iff in Hle. congruence.
  - intros H. destruct (Qle_bool x y) eqn:E; [|reflexivity].
    apply Qle_bool_iff in E. exfalso. apply (Qlt_not_le _ _ H). exact E.
Qed.



(** ** detectFaceManually *)


(** C10.  At the default 160 x 120 frame, whatever the detector state,
    the pixels, and whether the images are null or [loadPixels] raises,
    the box that [detectFaceManually] returns lies inside the frame and
    passes [isValidFaceSize]. *)
Theorem detectFaceManually_default_frame
    (Math_pow : Q -> Q -> Q) (Math_sqrt : Q -> Q) (lpt : Raster -> bool)
    (Canvas : Type) (applyFaceFilter : Canvas -> Raster -> Box.t -> Canvas)
    (fp : FaceProcessor) (faceImage : option Canvas) (capturedImage : option Raster) :
  (forall ci, capturedImage = Some ci -> width ci = 160 /\ height ci = 120) ->
  let b := snd (detectFaceManually Math_pow Math_sqrt lpt Canvas applyFaceFilter
                  fp faceImage capturedImage) in
  in_frame 160 120 b /\ isValidFaceSize b = true /\
  30 <= Box.width b <= 100 /\ 30 <= Box.height b <= 100.
Proof.
  intros Hdim. cbv zeta.
  assert (Hgoal : forall b, in_frame 160 120 b -> isValidFaceSize b = true ->
            in_frame 160 120 b /\ isValidFaceSize b = true /\
            30 <= Box.width b <= 100 /\ 30 <= Box.height b <= 100).
  { intros b H1 H2. split; [exact H1|]. split; [exact H2|].
    apply isValidFaceSize_spec. exact H2. }
  assert (Hcenter : in_frame 160 120 getDefaultCenterFace /\
                    isValidFaceSize getDefaultCenterFace = true).
  { rewrite getDefaultCenterFace_value. split; [unfold in_frame; cbn; lia|reflexivity]. }
  unfold detectFaceManually.
  destruct faceImage as [fi|]; [|apply Hgoal; apply Hcenter].
  destruct capturedImage as [ci|]; [|apply Hgoal; apply Hcenter].
  destruct (Hdim ci eq_refl) as [Hw Hh].
  destruct (detectBySkinTone lpt (Some ci)) as [s|] eqn:Hs;
    [|apply Hgoal; apply Hcenter].
  destruct (trackByMotion lpt fp (Some ci)) as [m|] eqn:Hm;
    [|apply Hgoal; apply Hcenter].
  destruct (scanForFaceRegions Math_pow Math_sqrt lpt (Some ci)) as [c|] eqn:Hc;
    [|apply Hgoal; apply Hcenter].
  cbn [res_bind snd].
  destruct s as [bs|].
  { apply (detectBySkinTone_in_frame_default lpt ci bs Hw Hh) in Hs as [H1 H2].
    apply Hgoal; assumption. }
  destruct m as [bm|].
  { apply trackByMotion_in_frame in Hm as [H1 H2]. rewrite Hw, Hh in H1.
    apply Hgoal; assumption. }
  destruct c as [bc|]; [|apply Hgoal; apply Hcenter].
  apply scanForFaceRegions_in_frame in Hc as (H1 & H2 & H3). rewrite Hw, Hh in H1.
  cbv [or_else]. cbv zeta. cbn [snd].
  apply Hgoal; [exact H1|]. apply isValidFaceSize_spec. lia.
Qed.


Lemma detectFaceManually_default_frame_witness :
  let b := snd (detectFaceManually (fun x _ => x) (fun x => x) (fun _ => false) unit
                  (fun c _ _ => c) newFaceProcessor (Some tt) (Some (blank 160 120))) in
  in_frame 160 120 b /\ isValidFaceSize b = true /\
  30 <= Box.width b <= 100 /\ 30 <= Box.height b <= 100.
Proof.
  apply (detectFaceManually_default_frame
           (fun x _ => x) (fun x => x) (fun _ => false) unit (fun c _ _ => c)
           newFaceProcessor (Some tt) (Some (blank 160 120))).
  intros ci [= <-]. split; reflexivity.
Defined.

(** ** The box of the external detector *)

(** C3 at the failing input.  A detector box that starts at or beyond
    the right edge (xMin = 200 on the 160-wide frame) passes the check
    [width > 0 && height > 0] and is then clamped to width -40: the box
    that is accepted has a negative width.  The same happens with the
    [boundingBox] layout. *)
Theorem ml_accept_negative_width :
  ml_accept (BoxForm (Num.int 200) (Num.int 10) (Num.int 50) (Num.int 50))
    = Ret (Some (NumBox.of_box (Box.mk 200 10 (-40) 50))) /\
  ml_accept (BoundingBoxForm (Some (Num.int 200, Num.int 10)) (Num.int 50) (Num.int 50))
    = Ret (Some (NumBox.of_box (Box.mk 200 10 (-40) 50))).
Proof. split; vm_compute; reflexivity. Qed.

(** ** Capture *)

(** C9, as stated, fails: a second capture request made while the first
    frame still awaits processing ([isCapturing] is true) is not
    rejected; it replaces the captured frame. *)
Lemma capture_while_capturing_counterexample :
  let a1 := step nat (initialApp nat) (CaptureClick nat true 1%nat) in
  let a2 := step nat a1 (CaptureClick nat true 2%nat) in
  isCapturing nat a1 = true /\
  capturedImage nat a1 = Some 1%nat /\
  processed nat a1 = [] /\
  capturedImage nat a2 = Some 2%nat.
Proof. cbv zeta. repeat split. Qed.

(** C9, amended.  [isCapturing] does not gate [captureImage]: with the
    camera ready a capture always starts, replaces the captured frame
    and sets the flag, whatever the flag was.  The flag gates the
    periodic tracking tick, which is skipped while it is set, and the
    deferred callback, which runs [processImages] on the frame captured
    last only if the flag is still set and then clears it; with the flag
    clear the callback processes nothing. *)
Theorem isCapturing_gates_tracking_not_capture (Frame : Type) (a : App Frame) :
  (forall frame,
     step Frame a (CaptureClick Frame true frame) =
       mkApp Frame (Some frame) true (S (pendingTimeouts Frame a))
             (processed Frame a) (trackerRuns Frame a)) /\
  (forall cameraActive videoReady,
     isCapturing Frame a = true ->
     step Frame a (TrackingTick Frame cameraActive videoReady) = a) /\
  (isCapturing Frame a = false ->
     step Frame a (TrackingTick Frame true true) =
       mkApp Frame (capturedImage Frame a) false (pendingTimeouts Frame a)
             (processed Frame a) (S (trackerRuns Frame a))) /\
  (forall n f,
     isCapturing Frame a = true -> pendingTimeouts Frame a = S n ->
     capturedImage Frame a = Some f ->
     step Frame a (TimeoutFires Frame) =
       mkApp Frame (Some f) false n (processed Frame a ++ [f]) (trackerRuns Frame a)) /\
  (isCapturing Frame a = false ->
     capturedImage Frame (step Frame a (TimeoutFires Frame)) = capturedImage Frame a /\
     processed Frame (step Frame a (TimeoutFires Frame)) = processed Frame a /\
     isCapturing Frame (step Frame a (TimeoutFires Frame)) = false).
Proof.
  destruct a as [ci ic pt pr tr]. cbn [isCapturing pendingTimeouts capturedImage
    processed trackerRuns].
  split; [|split; [|split; [|split]]].
  - intros frame. reflexivity.
  - intros c v ->. cbn. rewrite !andb_false_r. reflexivity.
  - intros ->. reflexivity.
  - intros n f -> -> ->. reflexivity.
  - intros ->. destruct pt; repeat split; reflexivity.
Qed.

(** Overlapping captures are coalesced: after two capture requests, the
    first callback processes the second frame and the second callback
    does nothing. *)
Lemma overlapping_captures_coalesce (Frame : Type) (f1 f2 : Frame) :
  run Frame (initialApp Frame)
      [CaptureClick Frame true f1; CaptureClick Frame true f2;
       TimeoutFires Frame; TimeoutFires Frame]
  = mkApp Frame (Some f2) false 0 [f2] 0.
Proof. reflexivity. Qed.

Lemma pixelateImage_uniform_gray_witness :
  exists σ' o out,
    pixelateImage (Some 0%nat)
      (mkWorld {[ 0%nat := mkRaster 2 1 [77; 77; 77; 255; 77; 77; 77; 255] ]} [])
    = (σ', Ret (Some o)) /\
    heap σ' !! o = Some out /\
    width out = 2 /\ height out = 1 /\
    pixels out = [77; 77; 77; 255; 77; 77; 77; 255].
Proof.
  apply (pixelateImage_uniform_gray
           (mkWorld {[ 0%nat := mkRaster 2 1 [77; 77; 77; 255; 77; 77; 77; 255] ]} [])
           0%nat (mkRaster 2 1 [77; 77; 77; 255; 77; 77; 77; 255]) 77).
  - reflexivity.
  - repeat split; simpl; try lia. repeat constructor; lia.
  - lia.
  - intros p Hp. simpl in Hp.
    assert (Hp' : p = 0 \/ p = 1) by lia.
    destruct Hp' as [-> | ->]; repeat split.
Defined.

(** ** HSV round trip: the error of one rounded operation *)

Lemma Qfrac_le (n1 d1 n2 d2 : Z) :
  0 < d1 -> 0 < d2 ->
  (inject_Z n1 / inject_Z d1 <= inject_Z n2 / inject_Z d2)%Q <-> n1 * d2 <= n2 * d1.
Proof.
  intros H1 H2.
  assert (Q1 : (0 < inject_Z d1)%Q) by (rewrite <- (Zlt_Qlt 0); exact H1).
  assert (Q2 : (0 < inject_Z d2)%Q) by (rewrite <- (Zlt_Qlt 0); exact H2).
  rewrite Zle_Qle, !inject_Z_mult. split; intros H.
  - apply (Qmult_le_r _ _ (inject_Z d1 * inject_Z d2)) in H; [|apply Qmult_lt_0_compat; assumption].
    assert (E1 : (inject_Z n1 / inject_Z d1 * (inject_Z d1 * inject_Z d2) == inject_Z n1 * inject_Z d2)%Q)
      by (field; intros E; rewrite E in Q1; discriminate).
    assert (E2 : (inject_Z n2 / inject_Z d2 * (inject_Z d1 * inject_Z d2) == inject_Z n2 * inject_Z d1)%Q)
      by (field; intros E; rewrite E in Q2; discriminate).
    rewrite E1, E2 in H. exact H.
  - apply (Qmult_le_r _ _ (inject_Z d1 * inject_Z d2)); [apply Qmult_lt_0_compat; assumption|].
    assert (E1 : (inject_Z n1 / inject_Z d1 * (inject_Z d1 * inject_Z d2) == inject_Z n1 * inject_Z d2)%Q)
      by (field; intros E; rewrite E in Q1; discriminate).
    assert (E2 : (inject_Z n2 / inject_Z d2 * (inject_Z d1 * inject_Z d2) == inject_Z n2 * inject_Z d1)%Q)
      by (field; intros E; rewrite E in Q2; discriminate).
    rewrite E1, E2. exact H.
Qed.

Lemma Qfrac_lt (n1 d1 n2 d2 : Z) :
  0 < d1 -> 0 < d2 ->
  (inject_Z n1 / inject_Z d1 < inject_Z n2 / inject_Z d2)%Q <-> n1 * d2 < n2 * d1.
Proof.
  intros H1 H2. split; intros H.
  - apply Z.lt_nge. intros Hle. apply (Qfrac_le n2 d2 n1 d1 H2 H1) in Hle.
    apply (Qlt_not_le _ _ H). exact Hle.
  - apply Qnot_le_lt. intros Hle. apply (Qfrac_le n2 d2 n1 d1 H2 H1) in Hle. lia.
Qed.

Lemma Qpower2_nonneg (e : Z) : 0 <= e -> (2 ^ e == inject_Z (2 ^ e))%Q.
Proof. intros He. rewrite Zpower_Qpower by exact He. reflexivity. Qed.

Lemma Qpower2_pos (e : Z) : (0 < 2 ^ e)%Q.
Proof. apply Qpower_0_lt. reflexivity. Qed.

(** [2^(a - b)] as a fraction of integer powers. *)
Lemma Qpower2_minus (a b : Z) :
  0 <= a -> 0 <= b -> (2 ^ (a - b) == inject_Z (2 ^ a) / inject_Z (2 ^ b))%Q.
Proof.
  intros Ha Hb. rewrite Qpower_minus by discriminate.
  rewrite !Qpower2_nonneg by assumption. reflexivity.
Qed.

Lemma binade_spec (x : Q) :
  ~ (x == 0)%Q ->
  (2 ^ JS.binade x <= Qabs x)%Q /\ (Qabs x < 2 ^ (JS.binade x + 1))%Q.
Proof.
  intros Hx. destruct x as [p q]. unfold JS.binade. cbn [Qnum Qden Qabs].
  assert (Hp : p <> 0).
  { intros ->. apply Hx. reflexivity. }
  set (a := Z.abs p). assert (Ha : 0 < a) by (unfold a; lia).
  set (la := Z.log2 a). set (lq := Z.log2 (Z.pos q)).
  assert (Hla : 0 <= la) by apply Z.log2_nonneg.
  assert (Hlq : 0 <= lq) by apply Z.log2_nonneg.
  pose proof (Z.log2_spec a Ha) as [HA1 HA2]. fold la in HA1, HA2.
  pose proof (Z.log2_spec (Z.pos q) ltac:(lia)) as [HB1 HB2]. fold lq in HB1, HB2.
  rewrite Z.pow_succ_r in HA2, HB2 by assumption.
  assert (HA0 : 0 < 2 ^ la) by (apply Z.pow_pos_nonneg; lia).
  assert (HB0 : 0 < 2 ^ lq) by (apply Z.pow_pos_nonneg; lia).
  assert (Eabs : (a # q == inject_Z a / inject_Z (Z.pos q))%Q) by apply Qmake_Qdiv.
  assert (E0 : (2 ^ (la - lq) == inject_Z (2 ^ la) / inject_Z (2 ^ lq))%Q)
    by (apply Qpower2_minus; assumption).
  assert (E1 : (2 ^ (la - lq + 1) == inject_Z (2 * 2 ^ la) / inject_Z (2 ^ lq))%Q).
  { replace (la - lq + 1) with ((la + 1) - lq) by lia.
    rewrite Qpower2_minus by lia.
    replace (2 ^ (la + 1)) with (2 * 2 ^ la) by (rewrite Z.pow_add_r by lia; lia).
    reflexivity. }
  assert (Em : (2 ^ (la - lq - 1) == inject_Z (2 ^ la) / inject_Z (2 * 2 ^ lq))%Q).
  { replace (la - lq - 1) with (la - (lq + 1)) by lia.
    rewrite Qpower2_minus by lia.
    replace (2 ^ (lq + 1)) with (2 * 2 ^ lq) by (rewrite Z.pow_add_r by lia; lia).
    reflexivity. }
  destruct (Qle_bool (2 ^ (la - lq)) (a # q)) eqn:Hcmp.
  - apply Qle_bool_iff in Hcmp. split; [exact Hcmp|].
    rewrite E1, Eabs. apply Qfrac_lt; [lia|lia|]. nia.
  - assert (Hlt : (a # q < 2 ^ (la - lq))%Q).
    { apply Qnot_le_lt. intros H. apply Qle_bool_iff in H. congruence. }
    replace (la - lq - 1 + 1) with (la - lq) by lia. split; [|exact Hlt].
    rewrite Em, Eabs. apply Qfrac_le; [lia|lia|]. nia.
Qed.

Lemma round_half_even_err (y : Q) :
  (y - (1 # 2) <= inject_Z (JS.round_half_even y))%Q /\
  (inject_Z (JS.round_half_even y) <= y + (1 # 2))%Q.
Proof.
  unfold JS.round_half_even.
  pose proof (Qfloor_le y) as Hlo. pose proof (Qlt_floor y) as Hhi.
  rewrite inject_Z_plus in Hhi. change (inject_Z 1) with 1%Q in Hhi.
  destruct (y - inject_Z (Qfloor y) ?= 1 # 2)%Q eqn:E.
  - apply Qeq_alt in E.
    destruct (Z.even (Qfloor y));
      [|rewrite inject_Z_plus; change (inject_Z 1) with 1%Q]; split; lra.
  - apply Qlt_alt in E. split; lra.
  - apply Qgt_alt in E. rewrite inject_Z_plus. change (inject_Z 1) with 1%Q.
    split; lra.
Qed.

Lemma fl_red_err (x : Q) : (Qabs (JS.fl_red x - x) <= Qabs x * u53)%Q.
Proof.
  unfold JS.fl_red. destruct (Qeq_bool x 0) eqn:E0.
  - apply Qeq_bool_iff in E0. rewrite E0. apply Qle_bool_iff. reflexivity.
  - assert (Hx : ~ (x == 0)%Q).
    { intros H. apply Qeq_bool_iff in H. congruence. }
    destruct (binade_spec x Hx) as [Hb1 _].
    set (e := JS.binade x) in * .
    pose proof (Qpower2_pos (e - 52)) as Hpos.
    set (p := (2 ^ (e - 52))%Q) in * .
    destruct (round_half_even_err (x / p)) as [R1 R2].
    set (z := inject_Z (JS.round_half_even (x / p))) in * .
    assert (Ex : (x == x / p * p)%Q) by (field; lra).
    assert (Ep : (p * (1 # 2) == 2 ^ e * u53)%Q).
    { unfold p. rewrite Qpower_minus by discriminate. unfold u53.
      assert (H52 : (2 ^ 52 == 4503599627370496)%Q) by reflexivity.
      rewrite H52. field. }
    assert (Hdiff : (z * p - x == (z - x / p) * p)%Q) by (field; lra).
    rewrite Hdiff, Qabs_Qmult, (Qabs_pos p) by lra.
    apply Qle_trans with ((1 # 2) * p)%Q.
    + apply Qmult_le_compat_r; [|lra]. apply Qabs_Qle_condition. split; lra.
    + rewrite (Qmult_comm (1 # 2)), Ep. apply Qmult_le_compat_r; [exact Hb1|].
      unfold u53. discriminate.
Qed.

Lemma fl_err (x : Q) : (Qabs (JS.fl x - x) <= Qabs x * u53)%Q.
Proof.
  unfold JS.fl. rewrite Qred_correct.
  rewrite <- (Qred_correct x) at 2 3. apply fl_red_err.
Qed.

(** The error of one operation on a result of bounded magnitude. *)
Lemma fl_near (x B : Q) :
  (Qabs x <= B)%Q -> (x - B * u53 <= JS.fl x)%Q /\ (JS.fl x <= x + B * u53)%Q.
Proof.
  intros HB. pose proof (fl_err x) as H.
  assert (H' : (Qabs (JS.fl x - x) <= B * u53)%Q).
  { eapply Qle_trans; [exact H|]. apply Qmult_le_compat_r; [exact HB|].
    unfold u53. discriminate. }
  apply Qabs_Qle_condition in H'. split; lra.
Qed.

(** ** What [rgbToHsv] computes, in integers *)

Lemma Qdiv_close (a b A B e : Q) :
  (0 < B)%Q -> (- B <= A)%Q -> (A <= B)%Q ->
  (A - e <= a)%Q -> (a <= A + e)%Q -> (B - e <= b)%Q -> (b <= B + e)%Q ->
  ((1 # 256) <= b)%Q -> (0 <= e)%Q ->
  (A / B - 512 * e <= a / b)%Q /\ (a / b <= A / B + 512 * e)%Q.
Proof.
  intros HB HA1 HA2 Ha1 Ha2 Hb1 Hb2 Hb He.
  set (t := (A / B)%Q).
  assert (Ht : (t * B == A)%Q) by (unfold t; field; lra).
  assert (Ht1 : (-1 <= t)%Q).
  { unfold t. apply Qle_shift_div_l; [exact HB|]. lra. }
  assert (Ht2 : (t <= 1)%Q).
  { unfold t. apply Qle_shift_div_r; [exact HB|]. lra. }
  assert (Hb0 : (0 < b)%Q) by lra.
  assert (Htb1 : (t * (b - B) <= e)%Q) by nra.
  assert (Htb2 : (- e <= t * (b - B))%Q) by nra.
  assert (Heb : (2 * e <= 512 * e * b)%Q) by nra.
  split.
  - apply Qle_shift_div_l; [exact Hb0|]. nra.
  - apply Qle_shift_div_r; [exact Hb0|]. nra.
Qed.

(** [Math.round] of a number close to a fraction with a small
    denominator is a nearest integer of the fraction. *)
Lemma Math_round_nearest (Y : Q) (n d : Z) :
  0 < d <= 255 ->
  (inject_Z n / inject_Z d - tol <= Y)%Q -> (Y <= inject_Z n / inject_Z d + tol)%Q ->
  2 * n - d <= 2 * d * JS.Math_round Y <= 2 * n + d.
Proof.
  intros Hd H1 H2. unfold JS.Math_round.
  pose proof (Qfloor_le (Y + (1 # 2))) as F1.
  pose proof (Qlt_floor (Y + (1 # 2))) as F2.
  set (H := Qfloor (Y + (1 # 2))) in * .
  rewrite inject_Z_plus in F2. change (inject_Z 1) with 1%Q in F2.
  assert (Hd1 : (0 < inject_Z d)%Q) by (rewrite <- (Zlt_Qlt 0); lia).
  assert (Hd2 : (inject_Z d <= 255)%Q).
  { change 255%Q with (inject_Z 255). rewrite <- Zle_Qle. lia. }
  set (t := (inject_Z n / inject_Z d)%Q) in * .
  assert (Ht : (t * inject_Z d == inject_Z n)%Q) by (unfold t; field; lra).
  unfold tol in H1, H2.
  assert (G1 : (inject_Z (2 * d * H) < inject_Z (2 * n + d + 1))%Q).
  { rewrite !inject_Z_plus, !inject_Z_mult. change (inject_Z 2) with 2%Q.
    change (inject_Z 1) with 1%Q. nra. }
  assert (G2 : (inject_Z (2 * n - d - 1) < inject_Z (2 * d * H))%Q).
  { unfold Z.sub. rewrite !inject_Z_plus, !inject_Z_opp, !inject_Z_mult.
    change (inject_Z 2) with 2%Q. change (inject_Z 1) with 1%Q. nra. }
  rewrite <- Zlt_Qlt in G1, G2. lia.
Qed.

Lemma unit255_near (k : Z) :
  0 <= k <= 255 ->
  (inject_Z k / 255 - u53 <= unit255 k)%Q /\ (unit255 k <= inject_Z k / 255 + u53)%Q.
Proof.
  intros Hk. unfold unit255, JS.fdiv.
  assert (H0 : (0 <= inject_Z k)%Q) by (rewrite <- (Zle_Qle 0); lia).
  assert (H1 : (inject_Z k <= 255)%Q).
  { change 255%Q with (inject_Z 255). rewrite <- Zle_Qle. lia. }
  destruct (fl_near (inject_Z k / inject_Z 255) 1) as [A B].
  - apply Qabs_Qle_condition. change (inject_Z 255) with 255%Q.
    split.
    + apply Qle_trans with 0%Q; [discriminate|]. apply Qle_shift_div_l; lra.
    + apply Qle_shift_div_r; lra.
  - change (inject_Z 255) with 255%Q in A, B. lra.
Qed.

Lemma unit255_lt (j k : Z) : 0 <= j -> j < k -> k <= 255 -> (unit255 j < unit255 k)%Q.
Proof.
  intros Hj Hjk Hk.
  destruct (unit255_near j ltac:(lia)) as [_ Bj]. destruct (unit255_near k ltac:(lia)) as [Ak _].
  assert (H : (inject_Z j + 1 <= inject_Z k)%Q).
  { change 1%Q with (inject_Z 1). rewrite <- inject_Z_plus, <- Zle_Qle. lia. }
  unfold u53 in Bj, Ak.
  assert (Hj' : (inject_Z j / 255 == inject_Z j * (1 # 255))%Q) by (field).
  assert (Hk' : (inject_Z k / 255 == inject_Z k * (1 # 255))%Q) by (field).
  lra.
Qed.

Lemma unit255_le (j k : Z) : 0 <= j -> j <= k -> k <= 255 -> (unit255 j <= unit255 k)%Q.
Proof.
  intros Hj Hjk Hk. destruct (Z.eq_dec j k) as [->|Hne]; [apply Qle_refl|].
  apply Qlt_le_weak. apply unit255_lt; lia.
Qed.

Lemma unit255_max (a b : Z) :
  0 <= a <= 255 -> 0 <= b <= 255 -> JS.Math_max (unit255 a) (unit255 b) = unit255 (Z.max a b).
Proof.
  intros Ha Hb. unfold JS.Math_max.
  destruct (Z.le_gt_cases a b) as [Hab|Hab].
  - assert (H : Qle_bool (unit255 a) (unit255 b) = true) by (apply Qle_bool_iff; apply unit255_le; lia).
    rewrite H. f_equal. lia.
  - assert (H : Qle_bool (unit255 a) (unit255 b) = false).
    { destruct (Qle_bool (unit255 a) (unit255 b)) eqn:E; [|reflexivity].
      apply Qle_bool_iff in E. exfalso.
      apply (Qlt_not_le (unit255 b) (unit255 a)); [apply unit255_lt; lia|exact E]. }
    rewrite H. f_equal. lia.
Qed.

Lemma unit255_min (a b : Z) :
  0 <= a <= 255 -> 0 <= b <= 255 -> JS.Math_min (unit255 a) (unit255 b) = unit255 (Z.min a b).
Proof.
  intros Ha Hb. unfold JS.Math_min.
  destruct (Z.le_gt_cases a b) as [Hab|Hab].
  - assert (H : Qle_bool (unit255 a) (unit255 b) = true) by (apply Qle_bool_iff; apply unit255_le; lia).
    rewrite H. f_equal. lia.
  - assert (H : Qle_bool (unit255 a) (unit255 b) = false).
    { destruct (Qle_bool (unit255 a) (unit255 b)) eqn:E; [|reflexivity].
      apply Qle_bool_iff in E. exfalso.
      apply (Qlt_not_le (unit255 b) (unit255 a)); [apply unit255_lt; lia|exact E]. }
    rewrite H. f_equal. lia.
Qed.

Lemma unit255_eqb (a b : Z) :
  0 <= a <= 255 -> 0 <= b <= 255 -> JS.eqb (unit255 a) (unit255 b) = true <-> a = b.
Proof.
  intros Ha Hb. unfold JS.eqb. rewrite Qeq_bool_iff. split.
  - intros E. destruct (Z.lt_trichotomy a b) as [H|[H|H]]; [|exact H|].
    + pose proof (unit255_lt a b ltac:(lia) H ltac:(lia)) as L. rewrite E in L.
      exfalso. apply (Qlt_irrefl _ L).
    + pose proof (unit255_lt b a ltac:(lia) H ltac:(lia)) as L. rewrite E in L.
      exfalso. apply (Qlt_irrefl _ L).
  - intros ->. reflexivity.
Qed.

Lemma inject_Z_bounds (k lo hi : Z) :
  lo <= k <= hi -> (inject_Z lo <= inject_Z k)%Q /\ (inject_Z k <= inject_Z hi)%Q.
Proof. intros [H1 H2]. rewrite <- !Zle_Qle. split; assumption. Qed.

(** The rounded difference of two scaled channels. *)
Lemma Fsub_near (x y : Z) :
  0 <= x <= 255 -> 0 <= y <= 255 ->
  (inject_Z (x - y) / 255 - 4 * u53 <= unit255 x -. unit255 y)%Q /\
  (unit255 x -. unit255 y <= inject_Z (x - y) / 255 + 4 * u53)%Q.
Proof.
  intros Hx Hy.
  destruct (unit255_near x Hx) as [X1 X2]. destruct (unit255_near y Hy) as [Y1 Y2].
  destruct (inject_Z_bounds x 0 255 Hx) as [Bx1 Bx2].
  destruct (inject_Z_bounds y 0 255 Hy) as [By1 By2].
  change (inject_Z 0) with 0%Q in Bx1, By1. change (inject_Z 255) with 255%Q in Bx2, By2.
  assert (Ex : (inject_Z x / 255 == inject_Z x * (1 # 255))%Q) by field.
  assert (Ey : (inject_Z y / 255 == inject_Z y * (1 # 255))%Q) by field.
  assert (Exy : (inject_Z (x - y) / 255 == (inject_Z x - inject_Z y) * (1 # 255))%Q).
  { unfold Z.sub. rewrite inject_Z_plus, inject_Z_opp. field. }
  unfold u53 in * |-.
  unfold JS.fsub. destruct (fl_near (unit255 x - unit255 y) 2) as [A B].
  { apply Qabs_Qle_condition. split; lra. }
  unfold u53 in * . lra.
Qed.

Lemma Qfloor_unique (z : Z) (y : Q) :
  (inject_Z z <= y)%Q -> (y < inject_Z z + 1)%Q -> Qfloor y = z.
Proof.
  intros H1 H2.
  pose proof (Qfloor_le y) as F1. pose proof (Qlt_floor y) as F2.
  rewrite inject_Z_plus in F2. change (inject_Z 1) with 1%Q in F2.
  assert (G1 : (inject_Z (Qfloor y) < inject_Z (z + 1))%Q).
  { rewrite inject_Z_plus. change (inject_Z 1) with 1%Q. lra. }
  assert (G2 : (inject_Z z < inject_Z (Qfloor y + 1))%Q).
  { rewrite inject_Z_plus. change (inject_Z 1) with 1%Q. lra. }
  rewrite <- Zlt_Qlt in G1, G2. lia.
Qed.

Lemma fmod_small (x : Q) : (-2 <= x)%Q -> (x <= 2)%Q -> (JS.fmod x 6 == x)%Q.
Proof.
  intros H1 H2. unfold JS.fmod.
  assert (E6 : (x / 6%Q == x * (1 # 6))%Q) by field.
  assert (Ht : JS.Qtrunc (x / 6%Q) = 0).
  { unfold JS.Qtrunc. destruct (Qle_bool 0 (x / 6%Q)) eqn:E.
    - apply Qle_bool_iff in E. apply Qfloor_unique; change (inject_Z 0) with 0%Q; lra.
    - assert (Hneg : (x / 6%Q < 0)%Q).
      { apply Qnot_le_lt. intros H. apply Qle_bool_iff in H. congruence. }
      unfold Qceiling.
      rewrite (Qfloor_unique 0 (- (x / 6%Q))); [reflexivity| |].
      + change (inject_Z 0) with 0%Q. lra.
      + change (inject_Z 0) with 0%Q. lra. }
  rewrite Ht. change (inject_Z 0) with 0%Q. ring.
Qed.

(** The rounded quotient of two channel differences. *)
Lemma quot_near (x y M m : Z) :
  0 <= x <= 255 -> 0 <= y <= 255 -> 0 <= m -> m < M -> M <= 255 ->
  - (M - m) <= x - y <= M - m ->
  let q := (unit255 x -. unit255 y) /. (unit255 M -. unit255 m) in
  let t := (inject_Z (x - y) / inject_Z (M - m))%Q in
  (t - 2050 * u53 <= q)%Q /\ (q <= t + 2050 * u53)%Q /\ (-1 <= t)%Q /\ (t <= 1)%Q.
Proof.
  intros Hx Hy Hm HmM HM Hxy. cbv zeta.
  destruct (Fsub_near x y Hx Hy) as [N1 N2].
  destruct (Fsub_near M m ltac:(lia) ltac:(lia)) as [D1 D2].
  set (Nn := unit255 x -. unit255 y) in * . set (D := unit255 M -. unit255 m) in * .
  set (d := M - m) in * .
  assert (Hd : (1 <= inject_Z d)%Q).
  { change 1%Q with (inject_Z 1). rewrite <- Zle_Qle. unfold d. lia. }
  assert (Hn1 : (- inject_Z d <= inject_Z (x - y))%Q).
  { rewrite <- inject_Z_opp, <- Zle_Qle. lia. }
  assert (Hn2 : (inject_Z (x - y) <= inject_Z d)%Q).
  { rewrite <- Zle_Qle. lia. }
  set (n := inject_Z (x - y)) in * . set (dq := inject_Z d) in * .
  assert (EA : (n / 255 == n * (1 # 255))%Q) by field.
  assert (EB : (dq / 255 == dq * (1 # 255))%Q) by field.
  unfold u53 in N1, N2, D1, D2.
  destruct (Qdiv_close Nn D (n / 255) (dq / 255) (4 * u53)) as [C1 C2];
    unfold u53; try lra.
  assert (Et : (n / 255 / (dq / 255) == n / dq)%Q) by (field; lra).
  rewrite Et in C1, C2. unfold u53 in C1, C2.
  assert (Ht1 : (-1 <= n / dq)%Q) by (apply Qle_shift_div_l; lra).
  assert (Ht2 : (n / dq <= 1)%Q) by (apply Qle_shift_div_r; lra).
  unfold JS.fdiv. destruct (fl_near (Nn / D) 2) as [A B].
  { apply Qabs_Qle_condition. split; lra. }
  unfold u53 in A, B |- * . repeat split; lra.
Qed.

(** The three branches of the hue: the integer that [Math.round]
    returns is a nearest integer of the exact hue. *)
Lemma hue_near (c : Z) (h0 : Q) (x y M m : Z) :
  0 <= x <= 255 -> 0 <= y <= 255 -> 0 <= m -> m < M -> M <= 255 ->
  - (M - m) <= x - y <= M - m ->
  let q := (unit255 x -. unit255 y) /. (unit255 M -. unit255 m) in
  (c = 0 /\ (h0 == JS.fmod q 6)%Q \/ c = 2 /\ h0 = q +. 2 \/ c = 4 /\ h0 = q +. 4) ->
  let d := M - m in
  let n := 60 * (x - y) + 60 * c * d in
  2 * n - d <= 2 * d * JS.Math_round (h0 *. 60) <= 2 * n + d.
Proof.
  intros Hx Hy Hm HmM HM Hxy q Hc d n.
  destruct (quot_near x y M m Hx Hy Hm HmM HM Hxy) as (Q1 & Q2 & T1 & T2).
  fold q in Q1, Q2. fold d in Q1, Q2, T1, T2.
  set (t := (inject_Z (x - y) / inject_Z d)%Q) in * .
  assert (Hd : (1 <= inject_Z d)%Q).
  { change 1%Q with (inject_Z 1). rewrite <- Zle_Qle. unfold d. lia. }
  assert (ET : (inject_Z n / inject_Z d == 60 * t + 60 * inject_Z c)%Q).
  { unfold n, t. rewrite !inject_Z_plus, !inject_Z_mult.
    change (inject_Z 60) with 60%Q. field. lra. }
  apply Math_round_nearest; [unfold d; lia| |]; rewrite ET; unfold tol;
    unfold u53 in Q1, Q2.
  all: destruct Hc as [[-> Hh] | [[-> ->] | [-> ->]]].
  all: try (assert (Eh : (h0 == q)%Q) by (rewrite Hh; apply fmod_small; lra);
            unfold JS.fmul; rewrite (fl_proper (h0 * 60) (q * 60)) by (rewrite Eh; reflexivity);
            destruct (fl_near (q * 60) 128) as [A B];
            [apply Qabs_Qle_condition; split; lra|];
            unfold u53 in A, B; change (inject_Z 0) with 0%Q; lra).
  all: try (unfold JS.fadd at 1; destruct (fl_near (q + 2) 4) as [A B];
            [apply Qabs_Qle_condition; split; lra|];
            unfold JS.fmul; destruct (fl_near (JS.fl (q + 2) * 60) 256) as [A' B'];
            [apply Qabs_Qle_condition; unfold u53 in A, B; split; lra|];
            unfold u53 in A, B, A', B'; change (inject_Z 2) with 2%Q; lra).
  all: unfold JS.fadd at 1; destruct (fl_near (q + 4) 8) as [A B];
       [apply Qabs_Qle_condition; split; lra|];
       unfold JS.fmul; destruct (fl_near (JS.fl (q + 4) * 60) 512) as [A' B'];
       [apply Qabs_Qle_condition; unfold u53 in A, B; split; lra|];
       unfold u53 in A, B, A', B'; change (inject_Z 4) with 4%Q; lra.
Qed.

Lemma sat_near (M m : Z) :
  0 <= m <= M -> M <= 255 -> 0 < M ->
  let d := M - m in
  2 * (255 * d) - M <= 2 * M * JS.Math_round (((unit255 M -. unit255 m) /. unit255 M) *. 255)
    <= 2 * (255 * d) + M.
Proof.
  intros Hm HM HM0 d.
  destruct (Fsub_near M m ltac:(lia) ltac:(lia)) as [D1 D2].
  destruct (unit255_near M ltac:(lia)) as [M1 M2].
  fold d in D1, D2. set (D := unit255 M -. unit255 m) in * .
  assert (HMq : (1 <= inject_Z M)%Q).
  { change 1%Q with (inject_Z 1). rewrite <- Zle_Qle. lia. }
  assert (Hd1 : (0 <= inject_Z d)%Q).
  { change 0%Q with (inject_Z 0). rewrite <- Zle_Qle. unfold d. lia. }
  assert (Hd2 : (inject_Z d <= inject_Z M)%Q).
  { rewrite <- Zle_Qle. unfold d. lia. }
  assert (HM255 : (inject_Z M <= 255)%Q).
  { change 255%Q with (inject_Z 255). rewrite <- Zle_Qle. lia. }
  set (dq := inject_Z d) in * . set (Mq := inject_Z M) in * .
  assert (EA : (dq / 255 == dq * (1 # 255))%Q) by field.
  assert (EB : (Mq / 255 == Mq * (1 # 255))%Q) by field.
  unfold u53 in D1, D2, M1, M2.
  destruct (Qdiv_close D (unit255 M) (dq / 255) (Mq / 255) (4 * u53)) as [C1 C2];
    unfold u53; try lra.
  assert (Et : (dq / 255 / (Mq / 255) == dq / Mq)%Q) by (field; lra).
  rewrite Et in C1, C2. unfold u53 in C1, C2.
  assert (Ht1 : (0 <= dq / Mq)%Q) by (apply Qle_shift_div_l; lra).
  assert (Ht2 : (dq / Mq <= 1)%Q) by (apply Qle_shift_div_r; lra).
  unfold JS.fdiv, JS.fmul. destruct (fl_near (D / unit255 M) 2) as [A B].
  { apply Qabs_Qle_condition. split; lra. }
  destruct (fl_near (JS.fl (D / unit255 M) * 255) 512) as [A' B'].
  { apply Qabs_Qle_condition. unfold u53 in A, B. split; lra. }
  assert (ET : (inject_Z (255 * d) / inject_Z M == 255 * (dq / Mq))%Q).
  { rewrite inject_Z_mult. change (inject_Z 255) with 255%Q. fold dq Mq. field. lra. }
  apply Math_round_nearest; [lia| |]; rewrite ET; unfold tol;
    unfold u53 in A, B, A', B'; lra.
Qed.

Lemma val_near (M : Z) : 0 <= M <= 255 -> JS.Math_round (unit255 M *. 255) = M.
Proof.
  intros HM. destruct (unit255_near M HM) as [M1 M2].
  destruct (inject_Z_bounds M 0 255 HM) as [B1 B2].
  change (inject_Z 0) with 0%Q in B1. change (inject_Z 255) with 255%Q in B2.
  assert (EB : (inject_Z M / 255 == inject_Z M * (1 # 255))%Q) by field.
  unfold u53 in M1, M2.
  unfold JS.fmul. destruct (fl_near (unit255 M * 255) 256) as [A B].
  { apply Qabs_Qle_condition. split; lra. }
  assert (ET : (inject_Z M / inject_Z 1 == inject_Z M)%Q).
  { change (inject_Z 1) with 1%Q. field. }
  assert (H : 2 * M - 1 <= 2 * 1 * JS.Math_round (JS.fl (unit255 M * 255)) <= 2 * M + 1).
  { apply Math_round_nearest; [lia| |]; rewrite ET; unfold tol; unfold u53 in A, B; lra. }
  lia.
Qed.

Lemma fsub_self (x : Q) : x -. x = 0%Q.
Proof.
  unfold JS.fsub. rewrite (fl_proper (x - x) 0) by ring. reflexivity.
Qed.

Lemma fdiv_zero (x : Q) : 0 /. x = 0%Q.
Proof.
  unfold JS.fdiv. rewrite (fl_proper (0 / x) 0); [reflexivity|].
  unfold Qdiv. ring.
Qed.

(** What [rgbToHsv] returns on a pixel, in integers: the value is the
    maximum, the saturation a nearest integer of [255 d / M], and the hue
    a nearest integer of the exact hue of the branch taken. *)
Lemma rgbToHsv_spec (r g b : Z) :
  0 <= r <= 255 -> 0 <= g <= 255 -> 0 <= b <= 255 ->
  let M := Z.max (Z.max r g) b in
  let m := Z.min (Z.min r g) b in
  let d := M - m in
  exists h s v,
    rgbToHsv r g b = (h, s, v) /\ v = M /\
    ((d = 0 /\ h = 0 /\ s = 0) \/
     (0 < d /\
      2 * (255 * d) - M <= 2 * M * s <= 2 * (255 * d) + M /\
      ((M = r /\ exists H, 2 * (60 * (g - b)) - d <= 2 * d * H <= 2 * (60 * (g - b)) + d /\
                           h = if H <? 0 then H + 360 else H) \/
       (M <> r /\ M = g /\
          exists H, 2 * (60 * (b - r) + 120 * d) - d <= 2 * d * H
                      <= 2 * (60 * (b - r) + 120 * d) + d /\ h = H) \/
       (M <> r /\ M <> g /\ M = b /\
          exists H, 2 * (60 * (r - g) + 240 * d) - d <= 2 * d * H
                      <= 2 * (60 * (r - g) + 240 * d) + d /\ h = H)))).
Proof.
  intros Hr Hg Hb M m d.
  assert (HM : 0 <= M <= 255) by (unfold M; lia).
  assert (Hm : 0 <= m <= M) by (unfold m, M; lia).
  unfold rgbToHsv. cbv zeta. fold (unit255 r) (unit255 g) (unit255 b).
  rewrite (unit255_max r g), (unit255_max (Z.max r g) b) by lia.
  rewrite (unit255_min r g), (unit255_min (Z.min r g) b) by lia.
  fold M m. rewrite (val_near M HM).
  eexists _, _, _. split; [reflexivity|]. split; [reflexivity|].
  destruct (Z.eq_dec d 0) as [Hd0|Hd0].
  - left. split; [exact Hd0|]. assert (Em : m = M) by (unfold d in Hd0; lia).
    rewrite Em, fsub_self. cbn [JS.eqb negb].
    split; [reflexivity|]. rewrite fdiv_zero.
    destruct (JS.eqb (unit255 M) 0); reflexivity.
  - right. assert (Hd : 0 < d) by (unfold d in * ; lia). split; [exact Hd|].
    assert (HM0 : 0 < M) by (unfold d in Hd; lia).
    destruct (Fsub_near M m ltac:(lia) ltac:(lia)) as [D1 _]. fold d in D1.
    assert (Hdq : (1 <= inject_Z d)%Q).
    { change 1%Q with (inject_Z 1). rewrite <- Zle_Qle. lia. }
    assert (ED : (inject_Z d / 255 == inject_Z d * (1 # 255))%Q) by field.
    assert (HDpos : (0 < unit255 M -. unit255 m)%Q) by (unfold u53 in D1; lra).
    assert (HD0 : JS.eqb (unit255 M -. unit255 m) 0 = false).
    { unfold JS.eqb. destruct (Qeq_bool (unit255 M -. unit255 m) 0) eqn:E; [|reflexivity].
      apply Qeq_bool_iff in E. rewrite E in HDpos. discriminate. }
    rewrite HD0. cbn [negb].
    assert (HFM0 : JS.eqb (unit255 M) 0 = false).
    { destruct (JS.eqb (unit255 M) 0) eqn:E; [|reflexivity].
      change 0%Q with (unit255 0) in E. apply unit255_eqb in E; lia. }
    rewrite HFM0. split; [apply (sat_near M m); lia|].
    destruct (JS.eqb (unit255 M) (unit255 r)) eqn:Er.
    + apply unit255_eqb in Er; [|lia|lia]. left. split; [exact Er|].
      eexists. split; [|reflexivity].
      pose proof (hue_near 0 (JS.fmod ((unit255 g -. unit255 b) /. (unit255 M -. unit255 m)) 6)
                    g b M m Hg Hb ltac:(lia) ltac:(lia) ltac:(lia)) as H.
      cbv zeta in H. fold d in H. rewrite Z.mul_0_r, Z.mul_0_l, Z.add_0_r in H.
      apply H; [unfold d, M, m in * ; lia|]. left. split; reflexivity.
    + assert (Hne : M <> r).
      { intros E. rewrite E in Er. rewrite (proj2 (unit255_eqb r r Hr Hr) eq_refl) in Er.
        discriminate. }
      destruct (JS.eqb (unit255 M) (unit255 g)) eqn:Eg.
      * apply unit255_eqb in Eg; [|lia|lia]. right. left. split; [exact Hne|]. split; [exact Eg|].
        pose proof (hue_near 2 ((unit255 b -. unit255 r) /. (unit255 M -. unit255 m) +. 2)
                      b r M m Hb Hr ltac:(lia) ltac:(lia) ltac:(lia)) as H.
        cbv zeta in H. fold d in H.
        specialize (H ltac:(unfold d, M, m in * ; lia) ltac:(right; left; split; reflexivity)).
        replace (60 * (b - r) + 60 * 2 * d) with (60 * (b - r) + 120 * d) in H by lia.
        eexists. split; [exact H|].
        assert (Hpos : 0 <= JS.Math_round (((unit255 b -. unit255 r) /. (unit255 M -. unit255 m) +. 2) *. 60))
          by (unfold d, M, m in * ; nia).
        destruct (Z.ltb_spec (JS.Math_round (((unit255 b -. unit255 r) /. (unit255 M -. unit255 m) +. 2) *. 60)) 0);
          [lia|reflexivity].
      * assert (Hne' : M <> g).
        { intros E. rewrite E in Eg. rewrite (proj2 (unit255_eqb g g Hg Hg) eq_refl) in Eg.
          discriminate. }
        right. right. split; [exact Hne|]. split; [exact Hne'|].
        split; [unfold M in * ; lia|].
        pose proof (hue_near 4 ((unit255 r -. unit255 g) /. (unit255 M -. unit255 m) +. 4)
                      r g M m Hr Hg ltac:(lia) ltac:(lia) ltac:(lia)) as H.
        cbv zeta in H. fold d in H.
        specialize (H ltac:(unfold d, M, m in * ; lia) ltac:(right; right; split; reflexivity)).
        replace (60 * (r - g) + 60 * 4 * d) with (60 * (r - g) + 240 * d) in H by lia.
        eexists. split; [exact H|].
        assert (Hpos : 0 <= JS.Math_round (((unit255 r -. unit255 g) /. (unit255 M -. unit255 m) +. 4) *. 60))
          by (unfold d, M, m in * ; nia).
        destruct (Z.ltb_spec (JS.Math_round (((unit255 r -. unit255 g) /. (unit255 M -. unit255 m) +. 4) *. 60)) 0);
          [lia|reflexivity].
Qed.

(** ** The inverse transform: sectors and numerators *)

Lemma hsv_q_0 s v : (hsv_q 0 s v == inject_Z v)%Q.
Proof. unfold hsv_q. change (inject_Z 0) with 0%Q. field. Qed.
Lemma hsv_q_60 s v : (hsv_q 60 s v == hsv_p s v)%Q.
Proof. unfold hsv_q, hsv_p. change (inject_Z 60) with 60%Q. field. Qed.
Lemma hsv_t_0 s v : (hsv_t 0 s v == hsv_p s v)%Q.
Proof. unfold hsv_t, hsv_p. change (inject_Z 0) with 0%Q. field. Qed.
Lemma hsv_t_60 s v : (hsv_t 60 s v == inject_Z v)%Q.
Proof. unfold hsv_t. change (inject_Z 60) with 60%Q. field. Qed.

(** The sector formulas agree where two sectors meet, so the formula
    of sector [i] also holds at [k = 60]. *)
Lemma hsvToRgb_sector (i k s v : Z) :
  0 <= i <= 5 -> 0 <= k <= 60 ->
  Qeq3 (hsvToRgb ((60 * i + k) mod 360) s v) (hsv_sector i k s v).
Proof.
  intros Hi Hk. unfold hsvToRgb.
  destruct (Z.eq_dec k 60) as [->|Hk60].
  - assert (Hc : i = 0 \/ i = 1 \/ i = 2 \/ i = 3 \/ i = 4 \/ i = 5) by lia.
    destruct Hc as [-> | [-> | [-> | [-> | [-> | ->]]]]];
      (match goal with
       | |- Qeq3 (hsv_sector ?a ?b _ _) _ =>
           let a' := eval vm_compute in a in
           let b' := eval vm_compute in b in
           change a with a'; change b with b'
       end);
      unfold Qeq3, hsv_sector; cbn [fst snd];
      rewrite ?hsv_q_0, ?hsv_q_60, ?hsv_t_0, ?hsv_t_60; repeat split; reflexivity.
  - assert (Hh : 0 <= 60 * i + k < 360) by lia.
    rewrite (Z.mod_small _ _ Hh).
    assert (E1 : (60 * i + k) / 60 = i).
    { symmetry. apply (Z.div_unique _ _ i k); lia. }
    assert (E2 : (60 * i + k) mod 60 = k).
    { symmetry. apply (Z.mod_unique _ _ i k); lia. }
    rewrite E1, E2. unfold Qeq3. repeat split; reflexivity.
Qed.

Lemma hsv_p_num (s v : Z) :
  (hsv_p s v == inject_Z (60 * v * (255 - s)) / 15300)%Q.
Proof.
  unfold hsv_p. rewrite !inject_Z_mult. unfold Zminus. rewrite inject_Z_plus, inject_Z_opp.
  change (inject_Z 60) with 60%Q. change (inject_Z 255) with 255%Q. field.
Qed.

Lemma hsv_q_num (k s v : Z) :
  (hsv_q k s v == inject_Z (v * (15300 - s * k)) / 15300)%Q.
Proof.
  unfold hsv_q. rewrite !inject_Z_mult. unfold Zminus.
  rewrite inject_Z_plus, inject_Z_opp, inject_Z_mult.
  change (inject_Z 15300) with 15300%Q. field.
Qed.

Lemma hsv_t_num (k s v : Z) :
  (hsv_t k s v == inject_Z (v * (15300 - s * (60 - k))) / 15300)%Q.
Proof.
  unfold hsv_t. rewrite !inject_Z_mult. unfold Zminus.
  rewrite !inject_Z_plus, !inject_Z_opp, inject_Z_mult, inject_Z_plus, inject_Z_opp.
  change (inject_Z 15300) with 15300%Q. change (inject_Z 60) with 60%Q. field.
Qed.

(** ** The error budget of the rebuilt channels *)

Lemma Zrange_In (lo : Z) (n : nat) (x : Z) :
  lo <= x < lo + Z.of_nat n -> In x (Zrange lo n).
Proof.
  intros H. unfold Zrange. apply in_map_iff.
  exists (Z.to_nat (x - lo)). split; [lia|]. apply in_seq. lia.
Qed.

Lemma nearestb_spec (num den x : Z) : nearestb num den x = true <-> nearest num den x.
Proof. unfold nearestb, nearest. rewrite andb_true_iff, !Z.leb_le. tauto. Qed.

Lemma nearest_candidates (num den x : Z) :
  0 < den -> nearest num den x ->
  x = (2 * num + den) / (2 * den) \/ x = (2 * num + den) / (2 * den) - 1.
Proof.
  intros Hd [H1 H2].
  pose proof (Z.div_mod (2 * num + den) (2 * den) ltac:(lia)) as E.
  pose proof (Z.mod_pos_bound (2 * num + den) (2 * den) ltac:(lia)) as B.
  set (q := (2 * num + den) / (2 * den)) in * .
  assert (x <= q) by nia.
  assert (q - 1 <= x) by nia.
  lia.
Qed.

Lemma forallb_Zrange (f : Z -> bool) (lo : Z) (n : nat) :
  forallb f (Zrange lo n) = true ->
  forall x, lo <= x < lo + Z.of_nat n -> f x = true.
Proof.
  intros H x Hx. rewrite forallb_forall in H. apply H, Zrange_In, Hx.
Qed.

Lemma mid_check_all_true : forallb mid_check_value (Zrange 240 16) = true.
Proof. vm_compute. reflexivity. Qed.

Lemma mid_channel_large (M m n k s : Z) :
  0 <= m -> M <= 255 -> 240 <= M - m -> 0 <= n <= M - m ->
  nearest (60 * n) (M - m) k -> nearest (255 * (M - m)) M s ->
  -38250 <= mid_error M m n k s < 38250.
Proof.
  intros Hm HM Hd Hn Hk Hs.
  assert (A : mid_check M m n = true).
  { apply (forallb_Zrange (mid_check M m) 0 (Z.to_nat (M - m + 1))); [|lia].
    apply (forallb_Zrange (mid_check_row M) 0 (Z.to_nat (M - 240 + 1))); [|lia].
    apply (forallb_Zrange mid_check_value 240 16 mid_check_all_true). lia. }
  unfold mid_check in A. cbv zeta in A.
  rewrite forallb_forall in A.
  assert (Ck := nearest_candidates (60 * n) (M - m) k ltac:(lia) Hk).
  assert (Cs := nearest_candidates (255 * (M - m)) M s ltac:(lia) Hs).
  replace (2 * (60 * n)) with (120 * n) in Ck by lia.
  replace (2 * (255 * (M - m))) with (510 * (M - m)) in Cs by lia.
  specialize (A k ltac:(cbn [In]; destruct Ck as [Ck|Ck]; rewrite Ck; auto)).
  rewrite forallb_forall in A.
  specialize (A s ltac:(cbn [In]; destruct Cs as [Cs|Cs]; rewrite Cs; auto)).
  apply nearestb_spec in Hk, Hs. rewrite Hk, Hs in A. cbn [andb implb] in A.
  unfold mid_in_range in A. apply andb_true_iff in A as [A1 A2].
  apply Z.leb_le in A1. apply Z.ltb_lt in A2. lia.
Qed.

Lemma mid_channel_small (M m n k s : Z) :
  0 <= m -> M <= 255 -> 0 < M - m < 240 -> 0 <= n <= M - m -> 0 <= k <= 60 ->
  nearest (60 * n) (M - m) k -> nearest (255 * (M - m)) M s ->
  -38250 <= mid_error M m n k s < 38250.
Proof.
  intros Hm HM Hd Hn Hk0 [K1 K2] [S1 S2]. unfold mid_error.
  set (d := M - m) in * .
  assert (E : M * (15300 - s * (60 - k)) - 15300 * (m + n)
              = 255 * (d * k - 60 * n) - (M * s - 255 * d) * (60 - k)).
  { unfold d. ring. }
  rewrite E. clear E.
  set (a := M * s - 255 * d).
  assert (Ha : -127 <= a <= 127) by (unfold a; lia).
  assert (Hp : -127 * (60 - k) <= a * (60 - k) <= 127 * (60 - k)) by nia.
  lia.
Qed.

Lemma mid_channel (M m n k s : Z) :
  0 <= m -> M <= 255 -> 0 < M - m -> 0 <= n <= M - m -> 0 <= k <= 60 ->
  nearest (60 * n) (M - m) k -> nearest (255 * (M - m)) M s ->
  -38250 <= mid_error M m n k s < 38250.
Proof.
  intros. destruct (Z_lt_le_dec (M - m) 240).
  - apply mid_channel_small; auto; lia.
  - apply mid_channel_large; auto.
Qed.

Lemma min_channel (M m s : Z) :
  0 <= m -> M <= 255 -> 0 < M - m -> nearest (255 * (M - m)) M s ->
  15300 * m - 38250 <= 60 * M * (255 - s) < 15300 * m + 38250.
Proof.
  intros Hm HM Hd [S1 S2].
  assert (E : 60 * M * (255 - s) = 15300 * M - 60 * (M * s)) by ring.
  rewrite E. lia.
Qed.

Lemma nearest_range (num d x lo hi : Z) :
  0 < d -> lo * d <= num <= hi * d -> nearest num d x -> lo <= x <= hi.
Proof. intros Hd Hn [H1 H2]. split; nia. Qed.

(** ** The rebuilt channels before any rounding *)

Lemma within25_num (n c : Z) :
  15300 * c - 38250 <= n < 15300 * c + 38250 ->
  within25 (inject_Z n / 15300) c.
Proof.
  intros [H1 H2]. unfold within25.
  rewrite Zle_Qle in H1. rewrite Zlt_Qlt in H2.
  rewrite inject_Z_plus, inject_Z_mult in H2.
  unfold Zminus in H1. rewrite inject_Z_plus, inject_Z_mult, inject_Z_opp in H1.
  change (inject_Z 15300) with 15300%Q in H1, H2.
  change (inject_Z 38250) with 38250%Q in H1, H2.
  assert (E : (inject_Z n / 15300 == inject_Z n * (1 # 15300))%Q) by field.
  rewrite E. split; lra.
Qed.

Lemma within25_comp (x y : Q) (c : Z) : (x == y)%Q -> within25 x c -> within25 y c.
Proof. intros E [H1 H2]. unfold within25. rewrite <- E. split; assumption. Qed.

Lemma within25_eq (x : Q) (c c' : Z) : c = c' -> within25 x c -> within25 x c'.
Proof. intros ->. exact id. Qed.

Lemma within25_Z (v c : Z) : v = c -> within25 (inject_Z v) c.
Proof. intros ->. unfold within25. split; lra. Qed.

(** Rounding a channel that is within two and a half of [c] gives an
    integer within two of [c]. *)
Lemma Math_round_within25 (x : Q) (c : Z) :
  within25 x c -> Z.abs (JS.Math_round x - c) <= 2.
Proof.
  intros [H1 H2]. unfold JS.Math_round.
  pose proof (Qfloor_le (x + (1 # 2))) as F1.
  pose proof (Qlt_floor (x + (1 # 2))) as F2.
  set (f := Qfloor (x + (1 # 2))) in * .
  assert (L : c - 2 < f + 1).
  { rewrite Zlt_Qlt. unfold Z.sub. rewrite !inject_Z_plus, inject_Z_opp.
    change (inject_Z 2) with 2%Q. change (inject_Z 1) with 1%Q.
    rewrite inject_Z_plus in F2. change (inject_Z 1) with 1%Q in F2. lra. }
  assert (U : f < c + 3).
  { rewrite Zlt_Qlt, inject_Z_plus. change (inject_Z 3) with 3%Q. lra. }
  lia.
Qed.

(** The three kinds of rebuilt channel. *)
Lemma exact_hsv_p (M m s : Z) :
  0 <= m -> M <= 255 -> 0 < M - m -> nearest (255 * (M - m)) M s ->
  within25 (hsv_p s M) m.
Proof.
  intros. apply (within25_comp _ _ _ (Qeq_sym _ _ (hsv_p_num s M))).
  apply within25_num, min_channel; auto.
Qed.

Lemma exact_hsv_t (M m n k s : Z) :
  0 <= m -> M <= 255 -> 0 < M - m -> 0 <= n <= M - m -> 0 <= k <= 60 ->
  nearest (60 * n) (M - m) k -> nearest (255 * (M - m)) M s ->
  within25 (hsv_t k s M) (m + n).
Proof.
  intros H1 H2 H3 H4 H5 H6 H7.
  apply (within25_comp _ _ _ (Qeq_sym _ _ (hsv_t_num k s M))).
  apply within25_num.
  pose proof (mid_channel M m n k s H1 H2 H3 H4 H5 H6 H7) as B.
  unfold mid_error in B. lia.
Qed.

Lemma exact_hsv_q (M m n k s : Z) :
  0 <= m -> M <= 255 -> 0 < M - m -> 0 <= n <= M - m -> 0 <= k <= 60 ->
  nearest (60 * n) (M - m) (60 - k) -> nearest (255 * (M - m)) M s ->
  within25 (hsv_q k s M) (m + n).
Proof.
  intros H1 H2 H3 H4 H5 H6 H7.
  apply (within25_comp _ _ _ (Qeq_sym _ _ (hsv_q_num k s M))).
  apply within25_num.
  pose proof (mid_channel M m n (60 - k) s H1 H2 H3 H4 ltac:(lia) H6 H7) as B.
  unfold mid_error in B. replace (60 - (60 - k)) with k in B by lia. lia.
Qed.

(** The rebuilt pixel, by the sector of the hue. *)
Lemma hsvToRgb_within25 (i k s v h r g b : Z) :
  0 <= i <= 5 -> 0 <= k <= 60 -> h = (60 * i + k) mod 360 ->
  within25 (fst (fst (hsv_sector i k s v))) r ->
  within25 (snd (fst (hsv_sector i k s v))) g ->
  within25 (snd (hsv_sector i k s v)) b ->
  let '(r', g', b') := hsvToRgb h s v in
  within25 r' r /\ within25 g' g /\ within25 b' b.
Proof.
  intros Hi Hk -> Hr Hg Hb.
  pose proof (hsvToRgb_sector i k s v Hi Hk) as E.
  destruct (hsvToRgb _ s v) as [[x y] z].
  destruct E as (E1 & E2 & E3). cbn [fst snd] in E1, E2, E3.
  split; [|split]; eapply within25_comp; try eassumption; symmetry; assumption.
Qed.

(** ** The round trip *)

Lemma hsvToRgb_gray (v r g b : Z) :
  v = r -> v = g -> v = b ->
  let '(r', g', b') := hsvToRgb 0 0 v in
  within25 r' r /\ within25 g' g /\ within25 b' b.
Proof.
  intros Hr Hg Hb.
  apply (hsvToRgb_within25 0 0 0 v 0 r g b); [lia|lia|reflexivity| | |];
    unfold hsv_sector; cbn [fst snd].
  - apply within25_Z, Hr.
  - apply (within25_comp (inject_Z v)); [|apply within25_Z, Hg].
    unfold hsv_t. change (inject_Z 0) with 0%Q. field.
  - apply (within25_comp (inject_Z v)); [|apply within25_Z, Hb].
    unfold hsv_p. change (inject_Z 0) with 0%Q. field.
Qed.

(** Closes a channel goal from the bounds in the context. *)
Ltac channel :=
  first [ apply within25_Z; lia
        | eapply within25_eq; [|eassumption]; lia ].

Lemma round_trip_exact (r g b : Z) :
  0 <= r <= 255 -> 0 <= g <= 255 -> 0 <= b <= 255 ->
  let '(h, s, v) := rgbToHsv r g b in
  let '(r', g', b') := hsvToRgb h s v in
  within25 r' r /\ within25 g' g /\ within25 b' b.
Proof.
  intros Hr Hg Hb.
  destruct (rgbToHsv_spec r g b Hr Hg Hb) as (h & s & v & E & Hv & Hcase).
  rewrite E. clear E.
  remember (Z.max (Z.max r g) b) as M eqn:HM.
  remember (Z.min (Z.min r g) b) as m eqn:Hm.
  subst v.
  assert (HM' : r <= M /\ g <= M /\ b <= M /\ (M = r \/ M = g \/ M = b)) by (subst M; lia).
  assert (Hm' : m <= r /\ m <= g /\ m <= b /\ (m = r \/ m = g \/ m = b)) by (subst m; lia).
  assert (Hm0 : 0 <= m) by lia.
  assert (HM255 : M <= 255) by lia.
  clear HM Hm Hr Hg Hb.
  destruct Hcase as [(Hd & -> & ->) | (Hd & Hs & Hbr)].
  - apply hsvToRgb_gray; lia.
  - fold (nearest (255 * (M - m)) M s) in Hs.
    destruct Hbr as [(HMr & H & HH & Hh) | [(HMr & HMg & H & HH & Hh) | (HMr & HMg & HMb & H & HH & Hh)]].
    + fold (nearest (60 * (g - b)) (M - m) H) in HH.
      destruct (Z_le_gt_dec 0 (g - b)) as [Hn | Hn].
      * pose proof (nearest_range (60 * (g - b)) (M - m) H 0 60 Hd ltac:(lia) HH) as HR.
        pose proof (exact_hsv_t M m (g - b) H s ltac:(lia) ltac:(lia) Hd ltac:(lia) HR HH Hs).
        pose proof (exact_hsv_p M m s ltac:(lia) ltac:(lia) Hd Hs).
        apply (hsvToRgb_within25 0 H); [lia|lia| | | |];
          unfold hsv_sector; cbn [fst snd]; try channel.
        subst h. rewrite Z.mod_small by lia.
        destruct (H <? 0) eqn:EH; [apply Z.ltb_lt in EH|]; lia.
      * pose proof (nearest_range (60 * (g - b)) (M - m) H (-60) 0 Hd ltac:(lia) HH) as HR.
        assert (HQ : nearest (60 * (b - g)) (M - m) (60 - (60 + H))).
        { unfold nearest in * . lia. }
        pose proof (exact_hsv_q M m (b - g) (60 + H) s ltac:(lia) ltac:(lia) Hd ltac:(lia) ltac:(lia) HQ Hs).
        pose proof (exact_hsv_p M m s ltac:(lia) ltac:(lia) Hd Hs).
        apply (hsvToRgb_within25 5 (60 + H)); [lia|lia| | | |];
          unfold hsv_sector; cbn [fst snd]; try channel.
        subst h. destruct (H <? 0) eqn:EH.
        -- apply Z.ltb_lt in EH. rewrite Z.mod_small by lia. lia.
        -- apply Z.ltb_ge in EH. replace H with 0 by lia. reflexivity.
    + assert (HH0 : nearest (60 * (b - r)) (M - m) (H - 120)).
      { unfold nearest. lia. }
      subst h.
      destruct (Z_le_gt_dec 0 (b - r)) as [Hn | Hn].
      * pose proof (nearest_range (60 * (b - r)) (M - m) (H - 120) 0 60 Hd ltac:(lia) HH0) as HR.
        pose proof (exact_hsv_t M m (b - r) (H - 120) s ltac:(lia) ltac:(lia) Hd ltac:(lia) HR HH0 Hs).
        pose proof (exact_hsv_p M m s ltac:(lia) ltac:(lia) Hd Hs).
        apply (hsvToRgb_within25 2 (H - 120)); [lia|lia| | | |];
          unfold hsv_sector; cbn [fst snd]; try channel.
        rewrite Z.mod_small by lia. lia.
      * pose proof (nearest_range (60 * (b - r)) (M - m) (H - 120) (-60) 0 Hd ltac:(lia) HH0) as HR.
        assert (HQ : nearest (60 * (r - b)) (M - m) (60 - (H - 60))).
        { unfold nearest in * . lia. }
        pose proof (exact_hsv_q M m (r - b) (H - 60) s ltac:(lia) ltac:(lia) Hd ltac:(lia) ltac:(lia) HQ Hs).
        pose proof (exact_hsv_p M m s ltac:(lia) ltac:(lia) Hd Hs).
        apply (hsvToRgb_within25 1 (H - 60)); [lia|lia| | | |];
          unfold hsv_sector; cbn [fst snd]; try channel.
        rewrite Z.mod_small by lia. lia.
    + assert (HH0 : nearest (60 * (r - g)) (M - m) (H - 240)).
      { unfold nearest. lia. }
      subst h.
      destruct (Z_le_gt_dec 0 (r - g)) as [Hn | Hn].
      * pose proof (nearest_range (60 * (r - g)) (M - m) (H - 240) 0 60 Hd ltac:(lia) HH0) as HR.
        pose proof (exact_hsv_t M m (r - g) (H - 240) s ltac:(lia) ltac:(lia) Hd ltac:(lia) HR HH0 Hs).
        pose proof (exact_hsv_p M m s ltac:(lia) ltac:(lia) Hd Hs).
        apply (hsvToRgb_within25 4 (H - 240)); [lia|lia| | | |];
          unfold hsv_sector; cbn [fst snd]; try channel.
        rewrite Z.mod_small by lia. lia.
      * pose proof (nearest_range (60 * (r - g)) (M - m) (H - 240) (-60) 0 Hd ltac:(lia) HH0) as HR.
        assert (HQ : nearest (60 * (g - r)) (M - m) (60 - (H - 180))).
        { unfold nearest in * . lia. }
        pose proof (exact_hsv_q M m (g - r) (H - 180) s ltac:(lia) ltac:(lia) Hd ltac:(lia) ltac:(lia) HQ Hs).
        pose proof (exact_hsv_p M m s ltac:(lia) ltac:(lia) Hd Hs).
        apply (hsvToRgb_within25 3 (H - 180)); [lia|lia| | | |];
          unfold hsv_sector; cbn [fst snd]; try channel.
        rewrite Z.mod_small by lia. lia.
Qed.

(** C8, as stated, fails.  The pixel (8, 37, 240) has hue 233,
    saturation 247 and value 240, and the standard inverse formula
    rebuilds its green channel as 530160 / 15300, about 34.65: further
    than 2 from 37. *)
Lemma rgbToHsv_round_trip_counterexample :
  let '(h, s, v) := rgbToHsv (inject_Z 8) (inject_Z 37) (inject_Z 240) in
  let '(r', g', b') := hsvToRgb h s v in
  (h, s, v) = (233, 247, 240) /\
  (g' == 530160 # 15300)%Q /\
  ~ ((Qabs (r' - 8) <= 2)%Q /\ (Qabs (g' - 37) <= 2)%Q /\ (Qabs (b' - 240) <= 2)%Q).
Proof.
  assert (E : rgbToHsv (inject_Z 8) (inject_Z 37) (inject_Z 240) = (233, 247, 240)).
  { vm_compute. reflexivity. }
  rewrite E.
  assert (E' : hsvToRgb 233 247 240 = (1920 # 255, 530160 # 15300, inject_Z 240)%Q).
  { vm_compute. reflexivity. }
  rewrite E'. split; [reflexivity|]. split; [reflexivity|].
  intros (_ & H & _). vm_compute in H. apply H. reflexivity.
Qed.

(** Claim C8 (HSV round trip), amended.  For every pixel with channels
    in 0..255, converting it with [rgbToHsv] and rebuilding it from the
    returned hue, saturation and value by the standard inverse formula
    gives back every channel within two and a half of the original (not
    below the original less 2.5, and below the original plus 2.5);
    rounded to the nearest integer, every rebuilt channel is within 2 of
    the original. *)
Theorem rgbToHsv_round_trip (r g b : Z) :
  0 <= r <= 255 -> 0 <= g <= 255 -> 0 <= b <= 255 ->
  let '(h, s, v) := rgbToHsv r g b in
  let '(r', g', b') := hsvToRgb h s v in
  (within25 r' r /\ within25 g' g /\ within25 b' b) /\
  Z.abs (JS.Math_round r' - r) <= 2 /\
  Z.abs (JS.Math_round g' - g) <= 2 /\
  Z.abs (JS.Math_round b' - b) <= 2.
Proof.
  intros Hr Hg Hb. pose proof (round_trip_exact r g b Hr Hg Hb) as H.
  destruct (rgbToHsv r g b) as [[h s] v].
  destruct (hsvToRgb h s v) as [[r' g'] b'].
  destruct H as (H1 & H2 & H3).
  split; [auto|]. split; [|split]; apply Math_round_within25; assumption.
Qed.

Lemma rgbToHsv_round_trip_witness :
  (0 <= 8 <= 255 /\ 0 <= 37 <= 255 /\ 0 <= 240 <= 255) /\
  let '(h, s, v) := rgbToHsv (inject_Z 8) (inject_Z 37) (inject_Z 240) in
  let '(r', g', b') := hsvToRgb h s v in
  (within25 r' 8 /\ within25 g' 37 /\ within25 b' 240) /\
  Z.abs (JS.Math_round r' - 8) <= 2 /\
  Z.abs (JS.Math_round g' - 37) <= 2 /\
  Z.abs (JS.Math_round b' - 240) <= 2.
Proof.
  split; [lia | apply (rgbToHsv_round_trip 8 37 240); lia].
Defined.

(** * Further properties of the code *)

(** ** Running a transform that allocates its output *)

(** A transform that allocates with [createGraphics] and then fills the
    new buffer: with no allocation failure pending it returns the fresh
    reference, the new buffer holds the result of the loop on a blank
    array, and every other buffer is as before. *)
Lemma unsafe_transform_run σ l img (loop : Raster -> list Z -> list Z) :
  heap σ !! l = Some img -> head (gfx σ) <> Some false ->
  let o := fresh (dom (heap σ)) in
  exists σ',
    (let* i := deref (Some l) in
     let* output := createGraphics (width i) (height i) in
     let* _ := update_pixels output (loop i) in
     ret output) σ = (σ', Ret o) /\
    heap σ !! o = None /\
    heap σ' !! o = Some (mkRaster (width img) (height img)
                           (loop img (pixels (blank (width img) (height img))))) /\
    (forall l', l' <> o -> heap σ' !! l' = heap σ !! l') /\
    gfx σ' = tail (gfx σ).
Proof.
  intros Hl Hg o. unfold bind at 1. unfold deref. rewrite Hl.
  unfold bind at 1. rewrite createGraphics_ok by exact Hg. fold o.
  unfold bind at 1. unfold update_pixels. cbn [heap gfx].
  rewrite lookup_insert_eq. unfold ret. cbn [heap gfx].
  eexists. split; [reflexivity|]. cbn [heap gfx].
  split; [apply fresh_not_in_heap|].
  split; [rewrite lookup_insert_eq; reflexivity|].
  split; [|reflexivity].
  intros l' Hne. rewrite !lookup_insert_ne by congruence. reflexivity.
Qed.

Lemma len_blank_pixels img :
  wf_raster img -> len (pixels (blank (width img) (height img))) = len (pixels img).
Proof.
  intros (Hw & Hh & Hlen & _). rewrite len_blank by assumption. unfold len. lia.
Qed.

Lemma wf_raster_byte img i :
  wf_raster img -> 0 <= rd (pixels img) i <= 255.
Proof.
  intros (_ & _ & _ & Hb). unfold rd. destruct (i <? 0); [lia|].
  destruct (pixels img !! Z.to_nat i) as [v|] eqn:E; cbn [default]; [|lia].
  rewrite Forall_forall in Hb. apply Hb. eapply list_elem_of_lookup_2. exact E.
Qed.

Lemma wf_raster_pixel img p :
  wf_raster img -> 0 <= p < width img * height img -> 0 <= 4 * p /\ 4 * p + 3 < len (pixels img).
Proof. intros (_ & _ & Hlen & _) Hp. unfold len. lia. Qed.

(** ** Colour channels *)

Lemma red_loop_at src out p :
  len out = len src -> 0 <= p -> 4 * p + 3 < len src ->
  rd (red_loop src out) (4 * p) = JS.toUint8Clamped (rd src (4 * p)) /\
  rd (red_loop src out) (4 * p + 1) = 0 /\
  rd (red_loop src out) (4 * p + 2) = 0 /\
  rd (red_loop src out) (4 * p + 3) = 255.
Proof.
  intros Hlen Hp Hin.
  change (red_loop src out)
    with (for_loop 0 (len src) 4
            (fun i out => wr4 out i (inject_Z (rd src i)) 0 0 255) out).
  destruct (pixel_loop_at (fun i => inject_Z (rd src i)) (fun _ => 0%Q) (fun _ => 0%Q)
              (fun _ => 255%Q) (len src) out (4 * p))
    as (H0 & H1 & H2 & H3); try lia.
  { rewrite Z.mul_comm. apply Z.mod_mul. lia. }
  cbv zeta in H0, H1, H2, H3. rewrite H0, H1, H2, H3.
  repeat split; vm_compute; reflexivity.
Qed.

Lemma green_loop_at src out p :
  len out = len src -> 0 <= p -> 4 * p + 3 < len src ->
  rd (green_loop src out) (4 * p) = 0 /\
  rd (green_loop src out) (4 * p + 1) = JS.toUint8Clamped (rd src (4 * p + 1)) /\
  rd (green_loop src out) (4 * p + 2) = 0 /\
  rd (green_loop src out) (4 * p + 3) = 255.
Proof.
  intros Hlen Hp Hin.
  change (green_loop src out)
    with (for_loop 0 (len src) 4
            (fun i out => wr4 out i 0 (inject_Z (rd src (i + 1))) 0 255) out).
  destruct (pixel_loop_at (fun _ => 0%Q) (fun i => inject_Z (rd src (i + 1))) (fun _ => 0%Q)
              (fun _ => 255%Q) (len src) out (4 * p))
    as (H0 & H1 & H2 & H3); try lia.
  { rewrite Z.mul_comm. apply Z.mod_mul. lia. }
  cbv zeta in H0, H1, H2, H3. rewrite H0, H1, H2, H3.
  repeat split; vm_compute; reflexivity.
Qed.

Lemma blue_loop_at src out p :
  len out = len src -> 0 <= p -> 4 * p + 3 < len src ->
  rd (blue_loop src out) (4 * p) = 0 /\
  rd (blue_loop src out) (4 * p + 1) = 0 /\
  rd (blue_loop src out) (4 * p + 2) = JS.toUint8Clamped (rd src (4 * p + 2)) /\
  rd (blue_loop src out) (4 * p + 3) = 255.
Proof.
  intros Hlen Hp Hin.
  change (blue_loop src out)
    with (for_loop 0 (len src) 4
            (fun i out => wr4 out i 0 0 (inject_Z (rd src (i + 2))) 255) out).
  destruct (pixel_loop_at (fun _ => 0%Q) (fun _ => 0%Q) (fun i => inject_Z (rd src (i + 2)))
              (fun _ => 255%Q) (len src) out (4 * p))
    as (H0 & H1 & H2 & H3); try lia.
  { rewrite Z.mul_comm. apply Z.mod_mul. lia. }
  cbv zeta in H0, H1, H2, H3. rewrite H0, H1, H2, H3.
  repeat split; vm_compute; reflexivity.
Qed.

(** One allocation followed by the loop that fills the new buffer. *)
Lemma alloc_fill_step {A} σ w h (f : list Z -> list Z) (k : ref -> M A) :
  head (gfx σ) <> Some false ->
  (let* o := createGraphics w h in let* _ := update_pixels o f in k o) σ =
  k (fresh (dom (heap σ)))
    (mkWorld (<[fresh (dom (heap σ)) := mkRaster w h (f (pixels (blank w h)))]> (heap σ))
             (tail (gfx σ))).
Proof.
  intros Hg. unfold bind at 1. rewrite createGraphics_ok by exact Hg.
  unfold bind at 1. unfold update_pixels. cbn [heap gfx].
  rewrite lookup_insert_eq. rewrite insert_insert_eq. reflexivity.
Qed.

Lemma fresh_insert_ne (h : gmap ref Raster) o r :
  fresh (dom (<[o := r]> h)) <> o.
Proof.
  intros E. pose proof (fresh_not_in_heap (<[o := r]> h)) as F.
  rewrite E in F. rewrite lookup_insert_eq in F. discriminate.
Qed.

Lemma fresh_insert_None (h : gmap ref Raster) o r :
  h !! fresh (dom (<[o := r]> h)) = None.
Proof.
  pose proof (fresh_not_in_heap (<[o := r]> h)) as F.
  pose proof (fresh_insert_ne h o r) as N.
  rewrite lookup_insert_ne in F by congruence. exact F.
Qed.

(** X1.  [extractColorChannels] on a well-formed buffer, with no
    allocation failure pending, returns three new, distinct buffers of
    the size of the input; the input is untouched; and for every pixel
    the red buffer holds [(R, 0, 0, 255)], the green buffer
    [(0, G, 0, 255)] and the blue buffer [(0, 0, B, 255)] of the input
    pixel [(R, G, B, _)]. *)
Theorem extractColorChannels_postcondition (σ : World) (l : ref) (img : Raster) :
  heap σ !! l = Some img -> wf_raster img -> gfx σ = [] ->
  exists σ' r g b red green blue,
    extractColorChannels (Some l) σ = (σ', Ret (r, g, b)) /\
    (heap σ !! r = None /\ heap σ !! g = None /\ heap σ !! b = None) /\
    (r <> g /\ g <> b /\ r <> b) /\
    heap σ' !! l = Some img /\
    heap σ' !! r = Some red /\ heap σ' !! g = Some green /\ heap σ' !! b = Some blue /\
    (width red = width img /\ height red = height img) /\
    (width green = width img /\ height green = height img) /\
    (width blue = width img /\ height blue = height img) /\
    forall p, 0 <= p < width img * height img ->
      pixel_at (pixels red) p (rd (pixels img) (4 * p)) 0 0 255 /\
      pixel_at (pixels green) p 0 (rd (pixels img) (4 * p + 1)) 0 255 /\
      pixel_at (pixels blue) p 0 0 (rd (pixels img) (4 * p + 2)) 255.
Proof.
  intros Hl Hwf Hg.
  unfold extractColorChannels. unfold bind at 1. unfold deref. rewrite Hl.
  rewrite alloc_fill_step by (rewrite Hg; discriminate).
  set (o1 := fresh (dom (heap σ))).
  set (R := mkRaster (width img) (height img)
              (red_loop (pixels img) (pixels (blank (width img) (height img))))).
  rewrite alloc_fill_step by (cbn [gfx]; rewrite Hg; discriminate). cbn [heap gfx].
  set (o2 := fresh (dom (<[o1 := R]> (heap σ)))).
  set (G := mkRaster (width img) (height img)
              (green_loop (pixels img) (pixels (blank (width img) (height img))))).
  rewrite alloc_fill_step by (cbn [gfx]; rewrite Hg; discriminate). cbn [heap gfx].
  set (o3 := fresh (dom (<[o2 := G]> (<[o1 := R]> (heap σ))))).
  set (B := mkRaster (width img) (height img)
              (blue_loop (pixels img) (pixels (blank (width img) (height img))))).
  unfold ret.
  assert (H1 : heap σ !! o1 = None) by apply fresh_not_in_heap.
  assert (H2 : heap σ !! o2 = None) by apply fresh_insert_None.
  assert (N21 : o2 <> o1) by apply fresh_insert_ne.
  assert (N32 : o3 <> o2) by apply fresh_insert_ne.
  assert (H3' : (<[o1 := R]> (heap σ)) !! o3 = None) by apply fresh_insert_None.
  assert (N31 : o3 <> o1).
  { intros E. rewrite E, lookup_insert_eq in H3'. discriminate. }
  assert (H3 : heap σ !! o3 = None).
  { rewrite lookup_insert_ne in H3' by congruence. exact H3'. }
  assert (Nl1 : l <> o1) by congruence.
  assert (Nl2 : l <> o2) by congruence.
  assert (Nl3 : l <> o3) by congruence.
  exists (mkWorld (<[o3 := B]> (<[o2 := G]> (<[o1 := R]> (heap σ)))) (tail (tail (tail (gfx σ))))),
         o1, o2, o3, R, G, B.
  split; [reflexivity|]. cbn [heap].
  split; [auto|]. split; [repeat split; congruence|].
  split; [rewrite !lookup_insert_ne by congruence; exact Hl|].
  split; [rewrite !lookup_insert_ne by congruence; apply lookup_insert_eq|].
  split; [rewrite lookup_insert_ne by congruence; apply lookup_insert_eq|].
  split; [apply lookup_insert_eq|].
  split; [split; reflexivity|]. split; [split; reflexivity|]. split; [split; reflexivity|].
  intros p Hp. unfold pixel_at, R, G, B. cbn [pixels].
  pose proof (len_blank_pixels img Hwf) as Hlen.
  destruct (wf_raster_pixel img p Hwf Hp) as [Hp0 Hp3].
  destruct (red_loop_at (pixels img) (pixels (blank (width img) (height img))) p)
    as (A0 & A1 & A2 & A3); [exact Hlen|lia|exact Hp3|].
  destruct (green_loop_at (pixels img) (pixels (blank (width img) (height img))) p)
    as (B0 & B1 & B2 & B3); [exact Hlen|lia|exact Hp3|].
  destruct (blue_loop_at (pixels img) (pixels (blank (width img) (height img))) p)
    as (C0 & C1 & C2 & C3); [exact Hlen|lia|exact Hp3|].
  rewrite A0, A1, A2, A3, B0, B1, B2, B3, C0, C1, C2, C3.
  rewrite !toUint8Clamped_byte by (apply wf_raster_byte; exact Hwf).
  repeat split; reflexivity.
Qed.

Lemma extractColorChannels_postcondition_witness :
  exists σ' r g b red green blue,
    extractColorChannels (Some 0%nat)
      (mkWorld {[ 0%nat := mkRaster 1 1 [200; 100; 50; 255] ]} []) = (σ', Ret (r, g, b)) /\
    heap σ' !! r = Some red /\ heap σ' !! g = Some green /\ heap σ' !! b = Some blue /\
    pixel_at (pixels red) 0 200 0 0 255 /\
    pixel_at (pixels green) 0 0 100 0 255 /\
    pixel_at (pixels blue) 0 0 0 50 255.
Proof.
  destruct (extractColorChannels_postcondition
              (mkWorld {[ 0%nat := mkRaster 1 1 [200; 100; 50; 255] ]} []) 0%nat
              (mkRaster 1 1 [200; 100; 50; 255]))
    as (σ' & r & g & b & red & green & blue & Hrun & _ & _ & _ & Hr & Hg & Hb & _ & _ & _ & Hpx).
  - reflexivity.
  - repeat split; simpl; try lia. repeat constructor; lia.
  - reflexivity.
  - exists σ', r, g, b, red, green, blue.
    split; [exact Hrun|]. split; [exact Hr|]. split; [exact Hg|]. split; [exact Hb|].
    apply (Hpx 0). simpl. lia.
Defined.

(** ** Thresholds *)

Lemma list_eq_pixels (a b : list Z) (n : Z) :
  len a = 4 * n -> len b = 4 * n ->
  (forall p, 0 <= p < n ->
     rd a (4 * p) = rd b (4 * p) /\ rd a (4 * p + 1) = rd b (4 * p + 1) /\
     rd a (4 * p + 2) = rd b (4 * p + 2) /\ rd a (4 * p + 3) = rd b (4 * p + 3)) ->
  a = b.
Proof.
  intros Ha Hb H. apply list_eq_rd; [lia|].
  intros i Hi.
  pose proof (Z.div_mod i 4 ltac:(lia)) as Hdm.
  pose proof (Z.mod_pos_bound i 4 ltac:(lia)) as Hmb.
  destruct (H (i / 4) ltac:(lia)) as (H0 & H1 & H2 & H3).
  assert (Hk : i mod 4 = 0 \/ i mod 4 = 1 \/ i mod 4 = 2 \/ i mod 4 = 3) by lia.
  destruct Hk as [Hk | [Hk | [Hk | Hk]]]; rewrite Hk in Hdm.
  - replace i with (4 * (i / 4)) by lia. exact H0.
  - replace i with (4 * (i / 4) + 1) by lia. exact H1.
  - replace i with (4 * (i / 4) + 2) by lia. exact H2.
  - replace i with (4 * (i / 4) + 3) by lia. exact H3.
Qed.

Lemma toUint8Clamped_binary (b : bool) :
  JS.toUint8Clamped (inject_Z (if b then 255 else 0)) = if b then 255 else 0.
Proof. destruct b; vm_compute; reflexivity. Qed.

Lemma channelThreshold_loop_at threshold channelIndex src out p :
  len out = len src -> 0 <= p -> 4 * p + 3 < len src ->
  let v := if rd src (4 * p + channelIndex) >. threshold then 255 else 0 in
  pixel_at (channelThreshold_loop threshold channelIndex src out) p v v v 255.
Proof.
  intros Hlen Hp Hin. cbv zeta.
  pose (c := fun i : Z =>
    inject_Z (if rd src (i + channelIndex) >. threshold then 255 else 0)).
  change (channelThreshold_loop threshold channelIndex src out)
    with (for_loop 0 (len src) 4
            (fun i out => wr4 out i (c i) (c i) (c i) 255) out).
  destruct (pixel_loop_at c c c (fun _ => 255%Q) (len src) out (4 * p))
    as (H0 & H1 & H2 & H3); try lia.
  { rewrite Z.mul_comm. apply Z.mod_mul. lia. }
  cbv zeta in H0, H1, H2, H3. unfold pixel_at. rewrite H0, H1, H2, H3.
  unfold c. rewrite toUint8Clamped_binary.
  repeat split; vm_compute; reflexivity.
Qed.

Lemma channelThreshold_loop_len threshold channelIndex src out :
  len (channelThreshold_loop threshold channelIndex src out) = len out.
Proof.
  pose (c := fun i : Z =>
    inject_Z (if rd src (i + channelIndex) >. threshold then 255 else 0)).
  change (channelThreshold_loop threshold channelIndex src out)
    with (for_loop 0 (len src) 4
            (fun i out => wr4 out i (c i) (c i) (c i) 255) out).
  apply pixel_loop_len.
Qed.

(** What [applyChannelThreshold] returns, for a channel of the pixel. *)
Lemma applyChannelThreshold_run σ l img threshold channelIndex :
  heap σ !! l = Some img -> wf_raster img -> head (gfx σ) <> Some false ->
  exists σ' o out,
    applyChannelThreshold (Some l) threshold channelIndex σ = (σ', Ret o) /\
    heap σ !! o = None /\
    heap σ' !! o = Some out /\
    (forall l', l' <> o -> heap σ' !! l' = heap σ !! l') /\
    gfx σ' = tail (gfx σ) /\
    width out = width img /\ height out = height img /\
    len (pixels out) = len (pixels img) /\
    forall p, 0 <= p < width img * height img ->
      let v := if rd (pixels img) (4 * p + channelIndex) >. threshold then 255 else 0 in
      pixel_at (pixels out) p v v v 255.
Proof.
  intros Hl Hwf Hg.
  destruct (unsafe_transform_run σ l img
              (fun i => channelThreshold_loop threshold channelIndex (pixels i)) Hl Hg)
    as (σ' & Hrun & Hfresh & Hout & Hother & Hgfx).
  eexists _, _, _.
  split; [exact Hrun|]. split; [exact Hfresh|]. split; [exact Hout|].
  split; [exact Hother|]. split; [exact Hgfx|]. cbn [width height pixels].
  split; [reflexivity|]. split; [reflexivity|].
  split; [rewrite channelThreshold_loop_len; apply len_blank_pixels; exact Hwf|].
  intros p Hp. destruct (wf_raster_pixel img p Hwf Hp) as [Hp0 Hp3].
  apply channelThreshold_loop_at; [apply len_blank_pixels; exact Hwf|lia|exact Hp3].
Qed.

(** X2.  [applyChannelThreshold] on a well-formed buffer returns a new
    buffer of the same size that is black and white: a pixel is opaque
    white where the chosen channel of the input exceeds the threshold and
    opaque black elsewhere.  The input is untouched. *)
Theorem applyChannelThreshold_binary
    (σ : World) (l : ref) (img : Raster) (threshold : Q) (channelIndex : Z) :
  heap σ !! l = Some img -> wf_raster img -> head (gfx σ) <> Some false ->
  0 <= channelIndex <= 2 ->
  exists σ' o out,
    applyChannelThreshold (Some l) threshold channelIndex σ = (σ', Ret o) /\
    heap σ !! o = None /\
    heap σ' !! o = Some out /\ heap σ' !! l = Some img /\
    width out = width img /\ height out = height img /\
    forall p, 0 <= p < width img * height img ->
      ((threshold < inject_Z (rd (pixels img) (4 * p + channelIndex)))%Q ->
         pixel_at (pixels out) p 255 255 255 255) /\
      ((inject_Z (rd (pixels img) (4 * p + channelIndex)) <= threshold)%Q ->
         pixel_at (pixels out) p 0 0 0 255).
Proof.
  intros Hl Hwf Hg Hc.
  destruct (applyChannelThreshold_run σ l img threshold channelIndex Hl Hwf Hg)
    as (σ' & o & out & Hrun & Hfresh & Hout & Hother & _ & Hw & Hh & _ & Hpx).
  exists σ', o, out. split; [exact Hrun|]. split; [exact Hfresh|]. split; [exact Hout|].
  split; [rewrite Hother by congruence; exact Hl|].
  split; [exact Hw|]. split; [exact Hh|].
  intros p Hp. specialize (Hpx p Hp). cbv zeta in Hpx. split; intros Hcmp.
  - apply gtb_true_lt in Hcmp. rewrite Hcmp in Hpx. exact Hpx.
  - apply gtb_false_le in Hcmp. rewrite Hcmp in Hpx. exact Hpx.
Qed.

Lemma applyChannelThreshold_binary_witness :
  exists σ' o out,
    applyChannelThreshold (Some 0%nat) 128 1
      (mkWorld {[ 0%nat := mkRaster 2 1 [200; 100; 50; 255; 10; 129; 0; 255] ]} [])
      = (σ', Ret o) /\
    heap σ' !! o = Some out /\
    pixel_at (pixels out) 0 0 0 0 255 /\ pixel_at (pixels out) 1 255 255 255 255.
Proof.
  destruct (applyChannelThreshold_binary
              (mkWorld {[ 0%nat := mkRaster 2 1 [200; 100; 50; 255; 10; 129; 0; 255] ]} [])
              0%nat (mkRaster 2 1 [200; 100; 50; 255; 10; 129; 0; 255]) 128 1)
    as (σ' & o & out & Hrun & _ & Hout & _ & _ & _ & Hpx).
  - reflexivity.
  - repeat split; simpl; try lia. repeat constructor; lia.
  - simpl. discriminate.
  - lia.
  - exists σ', o, out. split; [exact Hrun|]. split; [exact Hout|]. split.
    + apply (Hpx 0); [simpl; lia|]. vm_compute. discriminate.
    + apply (Hpx 1); [simpl; lia|]. vm_compute. reflexivity.
Defined.

Lemma Forall_rd (P : Z -> Prop) (a : list Z) :
  (forall i, 0 <= i < len a -> P (rd a i)) -> Forall P a.
Proof.
  intros H. apply Forall_lookup. intros i v Hv.
  pose proof (lookup_lt_Some _ _ _ Hv) as Hi.
  specialize (H (Z.of_nat i) ltac:(unfold len; lia)).
  unfold rd in H. destruct (Z.ltb_spec (Z.of_nat i) 0); [lia|].
  rewrite Nat2Z.id, Hv in H. exact H.
Qed.

(** A raster whose pixels are all known is well formed when the known
    channels are bytes. *)
Lemma wf_raster_of_pixels (r : Raster) (f : Z -> Z) :
  0 <= width r -> 0 <= height r -> len (pixels r) = 4 * (width r * height r) ->
  (forall p, 0 <= p < width r * height r -> pixel_at (pixels r) p (f p) (f p) (f p) 255) ->
  (forall p, 0 <= f p <= 255) ->
  wf_raster r.
Proof.
  intros Hw Hh Hlen Hpx Hf. repeat split; try assumption.
  apply Forall_rd. intros i Hi.
  pose proof (Z.div_mod i 4 ltac:(lia)) as Hdm.
  pose proof (Z.mod_pos_bound i 4 ltac:(lia)) as Hmb.
  destruct (Hpx (i / 4) ltac:(lia)) as (H0 & H1 & H2 & H3).
  pose proof (Hf (i / 4)) as Hb.
  assert (Hk : i mod 4 = 0 \/ i mod 4 = 1 \/ i mod 4 = 2 \/ i mod 4 = 3) by lia.
  destruct Hk as [Hk | [Hk | [Hk | Hk]]]; rewrite Hk in Hdm.
  - replace i with (4 * (i / 4)) by lia. rewrite H0. exact Hb.
  - replace i with (4 * (i / 4) + 1) by lia. rewrite H1. exact Hb.
  - replace i with (4 * (i / 4) + 2) by lia. rewrite H2. exact Hb.
  - replace i with (4 * (i / 4) + 3) by lia. rewrite H3. lia.
Qed.

(** X3.  Thresholding is idempotent: applying [applyChannelThreshold] to
    its own output, on any colour channel and with any threshold from 0
    up to (not including) 255, gives a new buffer with the same pixels. *)
Theorem applyChannelThreshold_idempotent
    (σ : World) (l : ref) (img : Raster) (t t' : Q) (c c' : Z) :
  heap σ !! l = Some img -> wf_raster img -> gfx σ = [] ->
  0 <= c <= 2 -> 0 <= c' <= 2 -> (0 <= t')%Q -> (t' < 255)%Q ->
  exists σ1 o1 out1 σ2 o2 out2,
    applyChannelThreshold (Some l) t c σ = (σ1, Ret o1) /\
    heap σ1 !! o1 = Some out1 /\
    applyChannelThreshold (Some o1) t' c' σ1 = (σ2, Ret o2) /\
    heap σ2 !! o2 = Some out2 /\
    o2 <> o1 /\
    width out2 = width out1 /\ height out2 = height out1 /\
    pixels out2 = pixels out1.
Proof.
  intros Hl Hwf Hg Hc Hc' Ht0 Ht255.
  destruct (applyChannelThreshold_run σ l img t c Hl Hwf ltac:(rewrite Hg; discriminate))
    as (σ1 & o1 & out1 & Hrun1 & Hfresh1 & Hout1 & _ & Hgfx1 & Hw1 & Hh1 & Hlen1 & Hpx1).
  pose (f := fun p => if rd (pixels img) (4 * p + c) >. t then 255 else 0).
  destruct Hwf as (Hw & Hh & Hlen & Hbytes).
  assert (Hwf1 : wf_raster out1).
  { apply (wf_raster_of_pixels out1 f).
    - lia.
    - lia.
    - rewrite Hlen1, Hw1, Hh1. unfold len. exact Hlen.
    - intros p Hp. rewrite Hw1, Hh1 in Hp. apply (Hpx1 p Hp).
    - intros p. unfold f. destruct (_ >. _); lia. }
  destruct (applyChannelThreshold_run σ1 o1 out1 t' c' Hout1 Hwf1
              ltac:(rewrite Hgfx1, Hg; discriminate))
    as (σ2 & o2 & out2 & Hrun2 & Hfresh2 & Hout2 & _ & _ & Hw2 & Hh2 & Hlen2 & Hpx2).
  exists σ1, o1, out1, σ2, o2, out2.
  split; [exact Hrun1|]. split; [exact Hout1|]. split; [exact Hrun2|].
  split; [exact Hout2|]. split; [congruence|]. split; [exact Hw2|]. split; [exact Hh2|].
  apply (list_eq_pixels _ _ (width img * height img)).
  - rewrite Hlen2, Hlen1. unfold len. exact Hlen.
  - rewrite Hlen1. unfold len. exact Hlen.
  - intros p Hp.
    pose proof (Hpx1 p Hp) as P1. cbv zeta in P1. fold (f p) in P1.
    pose proof (Hpx2 p ltac:(rewrite Hw1, Hh1; exact Hp)) as P2. cbv zeta in P2.
    assert (E : (if rd (pixels out1) (4 * p + c') >. t' then 255 else 0) = f p).
    { destruct P1 as (A0 & A1 & A2 & _).
      assert (Hv : rd (pixels out1) (4 * p + c') = f p).
      { assert (Hk : c' = 0 \/ c' = 1 \/ c' = 2) by lia.
        destruct Hk as [-> | [-> | ->]]; rewrite ?Z.add_0_r; assumption. }
      rewrite Hv. unfold f. destruct (rd (pixels img) (4 * p + c) >. t).
      - assert (G : (inject_Z 255 >. t') = true) by (apply gtb_true_lt; exact Ht255).
        rewrite G. reflexivity.
      - assert (G : (inject_Z 0 >. t') = false) by (apply gtb_false_le; exact Ht0).
        rewrite G. reflexivity. }
    rewrite E in P2. unfold pixel_at in P1, P2.
    destruct P1 as (A0 & A1 & A2 & A3), P2 as (B0 & B1 & B2 & B3).
    repeat split; congruence.
Qed.

Lemma applyChannelThreshold_idempotent_witness :
  exists σ1 o1 out1 σ2 o2 out2,
    applyChannelThreshold (Some 0%nat) 128 0
      (mkWorld {[ 0%nat := mkRaster 2 1 [200; 100; 50; 255; 10; 129; 0; 255] ]} [])
      = (σ1, Ret o1) /\
    heap σ1 !! o1 = Some out1 /\
    applyChannelThreshold (Some o1) 7 2 σ1 = (σ2, Ret o2) /\
    heap σ2 !! o2 = Some out2 /\
    pixels out2 = pixels out1.
Proof.
  destruct (applyChannelThreshold_idempotent
              (mkWorld {[ 0%nat := mkRaster 2 1 [200; 100; 50; 255; 10; 129; 0; 255] ]} [])
              0%nat (mkRaster 2 1 [200; 100; 50; 255; 10; 129; 0; 255]) 128 7 0 2)
    as (σ1 & o1 & out1 & σ2 & o2 & out2 & H1 & H2 & H3 & H4 & _ & _ & _ & H5).
  - reflexivity.
  - repeat split; simpl; try lia. repeat constructor; lia.
  - reflexivity.
  - lia.
  - lia.
  - discriminate.
  - reflexivity.
  - exists σ1, o1, out1, σ2, o2, out2. auto.
Defined.

(** The mean of three bytes, as a double, against an integer. *)
Lemma intensity_gtb (n t : Z) :
  0 <= n <= 765 -> ((inject_Z n /. 3) >. inject_Z t) = (n >? 3 * t).
Proof.
  intros Hn.
  pose (f := fun n : Z =>
    let q := inject_Z n /. 3 in
    (Qfloor q =? n / 3) &&
    (if n mod 3 =? 0 then Qeq_bool q (inject_Z (n / 3))
     else negb (Qeq_bool q (inject_Z (Qfloor q))))).
  assert (H : f n = true).
  { apply (forallb_Zrange f 0 766); [vm_compute; reflexivity|lia]. }
  unfold f in H. cbv zeta in H. apply andb_true_iff in H as [Hfl Hex].
  apply Z.eqb_eq in Hfl.
  set (q := inject_Z n /. 3) in * .
  pose proof (Z.div_mod n 3 ltac:(lia)) as Hdm.
  pose proof (Z.mod_pos_bound n 3 ltac:(lia)) as Hmb.
  pose proof (Qfloor_le q) as F1. pose proof (Qlt_floor q) as F2.
  rewrite Hfl in F1, F2.
  destruct (Z.eqb_spec (n mod 3) 0) as [Hz|Hnz].
  - apply Qeq_bool_iff in Hex.
    destruct (Z.gtb_spec n (3 * t)) as [Hgt|Hle].
    + apply gtb_true_lt. rewrite Hex. rewrite <- Zlt_Qlt. lia.
    + apply gtb_false_le. rewrite Hex. rewrite <- Zle_Qle. lia.
  - assert (Hne : ~ (q == inject_Z (n / 3))%Q).
    { intros E. rewrite <- Hfl in E. apply Qeq_bool_iff in E. rewrite E in Hex. discriminate. }
    assert (Hlt : (inject_Z (n / 3) < q)%Q).
    { apply Qle_lt_or_eq in F1. destruct F1 as [F1|F1]; [exact F1|]. symmetry in F1. tauto. }
    destruct (Z.gtb_spec n (3 * t)) as [Hgt|Hle].
    + apply gtb_true_lt. eapply Qle_lt_trans; [|exact Hlt]. rewrite <- Zle_Qle. lia.
    + apply gtb_false_le. apply Qlt_le_weak. eapply Qlt_le_trans; [exact F2|].
      rewrite <- Zle_Qle. lia.
Qed.

Lemma colorSpaceThreshold_loop_at threshold src out p :
  len out = len src -> 0 <= p -> 4 * p + 3 < len src ->
  let intensity :=
    (rd src (4 * p) + rd src (4 * p + 1) + rd src (4 * p + 2))%Z /. 3 in
  let v := if intensity >. threshold then 255 else 0 in
  pixel_at (colorSpaceThreshold_loop threshold src out) p v v v 255.
Proof.
  intros Hlen Hp Hin. cbv zeta.
  pose (c := fun i : Z =>
    inject_Z (if (rd src i + rd src (i + 1) + rd src (i + 2))%Z /. 3 >. threshold
              then 255 else 0)).
  change (colorSpaceThreshold_loop threshold src out)
    with (for_loop 0 (len src) 4
            (fun i out => wr4 out i (c i) (c i) (c i) 255) out).
  destruct (pixel_loop_at c c c (fun _ => 255%Q) (len src) out (4 * p))
    as (H0 & H1 & H2 & H3); try lia.
  { rewrite Z.mul_comm. apply Z.mod_mul. lia. }
  cbv zeta in H0, H1, H2, H3. unfold pixel_at. rewrite H0, H1, H2, H3.
  unfold c. rewrite toUint8Clamped_binary.
  repeat split; vm_compute; reflexivity.
Qed.

(** X4.  [applyColorSpaceThreshold] with an integer threshold [t] (the
    value of a slider) returns a new black-and-white buffer of the same
    size: a pixel is opaque white exactly where the sum of the three
    channels of the input exceeds [3 t], opaque black elsewhere; the
    division by 3 in floating point never moves a pixel across the
    threshold. *)
Theorem applyColorSpaceThreshold_sum
    (σ : World) (l : ref) (img : Raster) (t : Z) :
  heap σ !! l = Some img -> wf_raster img -> head (gfx σ) <> Some false ->
  exists σ' o out,
    applyColorSpaceThreshold (Some l) (inject_Z t) σ = (σ', Ret o) /\
    heap σ !! o = None /\
    heap σ' !! o = Some out /\ heap σ' !! l = Some img /\
    width out = width img /\ height out = height img /\
    forall p, 0 <= p < width img * height img ->
      let sum := rd (pixels img) (4 * p) + rd (pixels img) (4 * p + 1)
                 + rd (pixels img) (4 * p + 2) in
      (3 * t < sum -> pixel_at (pixels out) p 255 255 255 255) /\
      (sum <= 3 * t -> pixel_at (pixels out) p 0 0 0 255).
Proof.
  intros Hl Hwf Hg.
  destruct (unsafe_transform_run σ l img
              (fun i => colorSpaceThreshold_loop (inject_Z t) (pixels i)) Hl Hg)
    as (σ' & Hrun & Hfresh & Hout & Hother & _).
  eexists _, _, _.
  split; [exact Hrun|]. split; [exact Hfresh|]. split; [exact Hout|].
  split; [rewrite Hother by congruence; exact Hl|]. cbn [width height pixels].
  split; [reflexivity|]. split; [reflexivity|].
  intros p Hp. destruct (wf_raster_pixel img p Hwf Hp) as [Hp0 Hp3].
  pose proof (colorSpaceThreshold_loop_at (inject_Z t) (pixels img)
                (pixels (blank (width img) (height img))) p
                (len_blank_pixels img Hwf) ltac:(lia) Hp3) as P.
  cbv zeta in P |- * .
  pose proof (wf_raster_byte img (4 * p) Hwf).
  pose proof (wf_raster_byte img (4 * p + 1) Hwf).
  pose proof (wf_raster_byte img (4 * p + 2) Hwf).
  rewrite intensity_gtb in P by lia.
  split; intros Hcmp.
  - destruct (Z.gtb_spec (rd (pixels img) (4 * p) + rd (pixels img) (4 * p + 1)
                          + rd (pixels img) (4 * p + 2)) (3 * t)); [exact P|lia].
  - destruct (Z.gtb_spec (rd (pixels img) (4 * p) + rd (pixels img) (4 * p + 1)
                          + rd (pixels img) (4 * p + 2)) (3 * t)); [lia|exact P].
Qed.

Lemma applyColorSpaceThreshold_sum_witness :
  exists σ' o out,
    applyColorSpaceThreshold (Some 0%nat) (inject_Z 100)
      (mkWorld {[ 0%nat := mkRaster 2 1 [100; 100; 100; 255; 100; 101; 100; 255] ]} [])
      = (σ', Ret o) /\
    heap σ' !! o = Some out /\
    pixel_at (pixels out) 0 0 0 0 255 /\ pixel_at (pixels out) 1 255 255 255 255.
Proof.
  destruct (applyColorSpaceThreshold_sum
              (mkWorld {[ 0%nat := mkRaster 2 1 [100; 100; 100; 255; 100; 101; 100; 255] ]} [])
              0%nat (mkRaster 2 1 [100; 100; 100; 255; 100; 101; 100; 255]) 100)
    as (σ' & o & out & Hrun & _ & Hout & _ & _ & _ & Hpx).
  - reflexivity.
  - repeat split; simpl; try lia. repeat constructor; lia.
  - simpl. discriminate.
  - exists σ', o, out. split; [exact Hrun|]. split; [exact Hout|]. split.
    + apply (Hpx 0); [simpl; lia|]. vm_compute. discriminate.
    + apply (Hpx 1); [simpl; lia|]. vm_compute. reflexivity.
Defined.

(** ** HSV: ranges, anchors and the converted image *)

Lemma rgbToHsv_cases (r g b : Z) :
  0 <= r <= 255 -> 0 <= g <= 255 -> 0 <= b <= 255 ->
  let M := Z.max (Z.max r g) b in
  let m := Z.min (Z.min r g) b in
  exists h s,
    rgbToHsv r g b = (h, s, M) /\
    ((M = m /\ h = 0 /\ s = 0) \/
     (m < M /\ 1 <= s <= 255 /\
      ((M = r /\ (0 <= h <= 60 \/ 300 <= h < 360)) \/
       (M <> r /\ M = g /\ 60 <= h <= 180) \/
       (M <> r /\ M <> g /\ M = b /\ 180 <= h <= 300)))).
Proof.
  intros Hr Hg Hb M m.
  destruct (rgbToHsv_spec r g b Hr Hg Hb) as (h & s & v & E & Hv & Hcase).
  fold M m in Hv, Hcase. subst v. exists h, s. split; [exact E|].
  assert (HM : r <= M /\ g <= M /\ b <= M /\ (M = r \/ M = g \/ M = b)) by (unfold M; lia).
  assert (Hm : m <= r /\ m <= g /\ m <= b /\ (m = r \/ m = g \/ m = b)) by (unfold m; lia).
  assert (HM255 : M <= 255) by lia. assert (Hm0 : 0 <= m) by lia.
  clearbody M m. clear Hr Hg Hb E.
  destruct Hcase as [(Hd & -> & ->) | (Hd & Hs & Hbr)]; [left; repeat split; lia|].
  right. split; [lia|].
  fold (nearest (255 * (M - m)) M s) in Hs.
  destruct HM as (HM1 & HM2 & HM3 & _), Hm as (Hm1 & Hm2 & Hm3 & _).
  split.
  { apply (nearest_range (255 * (M - m)) M s 1 255 ltac:(lia)); [nia|exact Hs]. }
  destruct Hbr as [(HMr & H & HH & Hh) | [(HMr & HMg & H & HH & Hh) | (HMr & HMg & HMb & H & HH & Hh)]].
  - fold (nearest (60 * (g - b)) (M - m) H) in HH. left. split; [exact HMr|].
    pose proof (nearest_range (60 * (g - b)) (M - m) H (-60) 60 Hd ltac:(nia) HH) as HR.
    rewrite Hh. destruct (Z.ltb_spec H 0); lia.
  - right; left. subst h.
    assert (HH0 : nearest (60 * (b - r)) (M - m) (H - 120)) by (unfold nearest; lia).
    pose proof (nearest_range (60 * (b - r)) (M - m) (H - 120) (-60) 60 Hd ltac:(nia) HH0).
    split; [exact HMr|]. split; [exact HMg|lia].
  - right; right. subst h.
    assert (HH0 : nearest (60 * (r - g)) (M - m) (H - 240)) by (unfold nearest; lia).
    pose proof (nearest_range (60 * (r - g)) (M - m) (H - 240) (-60) 60 Hd ltac:(nia) HH0).
    split; [exact HMr|]. split; [exact HMg|]. split; [exact HMb|lia].
Qed.

(** X5.  On a pixel of bytes [rgbToHsv] returns a hue in [0, 360), a
    saturation in [0, 255] and, as value, exactly the largest channel.
    The saturation is 0 exactly on gray pixels (where the hue is 0 too);
    where red is a largest channel the hue lies within 60 degrees of 0,
    where green is the largest it lies in [60, 180], and where blue is
    it lies in [180, 300]. *)
Theorem rgbToHsv_range (r g b : Z) :
  0 <= r <= 255 -> 0 <= g <= 255 -> 0 <= b <= 255 ->
  let '(h, s, v) := rgbToHsv r g b in
  0 <= h < 360 /\ 0 <= s <= 255 /\ v = Z.max (Z.max r g) b /\
  (s = 0 <-> r = g /\ g = b) /\
  (r = g /\ g = b -> h = 0) /\
  (g <= r /\ b <= r -> 0 <= h <= 60 \/ 300 <= h < 360) /\
  (r < g /\ b <= g -> 60 <= h <= 180) /\
  (r < b /\ g < b -> 180 <= h <= 300).
Proof.
  intros Hr Hg Hb.
  destruct (rgbToHsv_cases r g b Hr Hg Hb) as (h & s & E & Hcase).
  rewrite E. clear E.
  destruct Hcase as [(Hd & -> & ->) | (Hd & Hs & Hbr)].
  - split; [lia|]. split; [lia|]. split; [reflexivity|].
    split; [split; [intros _|reflexivity]|]; lia.
  - split; [lia|]. split; [lia|]. split; [reflexivity|].
    split; [split; intros; lia|].
    split; [intros; lia|].
    destruct Hbr as [(HMr & Hh) | [(HMr & HMg & Hh) | (HMr & HMg & HMb & Hh)]];
      (split; [intros; lia|]); (split; intros; lia).
Qed.

Lemma rgbToHsv_range_witness :
  (0 <= 8 <= 255 /\ 0 <= 37 <= 255 /\ 0 <= 240 <= 255) /\
  let '(h, s, v) := rgbToHsv (inject_Z 8) (inject_Z 37) (inject_Z 240) in
  0 <= h < 360 /\ 0 <= s <= 255 /\ v = 240 /\ 180 <= h <= 300.
Proof.
  split; [lia|].
  pose proof (rgbToHsv_range 8 37 240 ltac:(lia) ltac:(lia) ltac:(lia)) as H.
  destruct (rgbToHsv (inject_Z 8) (inject_Z 37) (inject_Z 240)) as [[h s] v].
  destruct H as (H1 & H2 & H3 & _ & _ & _ & _ & H8).
  split; [exact H1|]. split; [exact H2|]. split; [exact H3|].
  apply H8. lia.
Defined.

Ltac hsv_anchor r g b :=
  let h := fresh "h" in let s := fresh "s" in let v := fresh "v" in
  let E := fresh "E" in let Hv := fresh "Hv" in let Hcase := fresh "Hcase" in
  destruct (rgbToHsv_spec r g b ltac:(lia) ltac:(lia) ltac:(lia))
    as (h & s & v & E & Hv & Hcase);
  rewrite E; clear E;
  destruct Hcase as [(Hd & _) | (Hd & Hs & Hbr)]; [exfalso; lia|];
  assert (Hs255 : s = 255) by nia;
  assert (Hvmax : v = Z.max (Z.max r g) b) by exact Hv;
  destruct Hbr as [(HMr & H & HH & Hh) | [(HMr & HMg & H & HH & Hh) | (HMr & HMg & HMb & H & HH & Hh)]];
  try (exfalso; lia);
  repeat f_equal; try lia.

(** X6.  The six anchors of the hue circle: for every level [c] from 1
    to 255, [rgbToHsv] maps pure red, yellow, green, cyan, blue and
    magenta of that level to the hues 0, 60, 120, 180, 240 and 300, with
    full saturation 255 and value [c]. *)
Theorem rgbToHsv_anchors (c : Z) :
  1 <= c <= 255 ->
  rgbToHsv c 0 0 = (0, 255, c) /\
  rgbToHsv c c 0 = (60, 255, c) /\
  rgbToHsv 0 c 0 = (120, 255, c) /\
  rgbToHsv 0 c c = (180, 255, c) /\
  rgbToHsv 0 0 c = (240, 255, c) /\
  rgbToHsv c 0 c = (300, 255, c).
Proof.
  intros Hc.
  split; [|split; [|split; [|split; [|split]]]].
  - change (rgbToHsv c 0 0) with (rgbToHsv (inject_Z c) (inject_Z 0) (inject_Z 0)).
    hsv_anchor c 0 0.
    assert (H = 0) by nia. subst H. rewrite Hh. reflexivity.
  - change (rgbToHsv c c 0) with (rgbToHsv (inject_Z c) (inject_Z c) (inject_Z 0)).
    hsv_anchor c c 0.
    assert (H = 60) by nia. subst H. rewrite Hh. reflexivity.
  - change (rgbToHsv 0 c 0) with (rgbToHsv (inject_Z 0) (inject_Z c) (inject_Z 0)).
    hsv_anchor 0 c 0. nia.
  - change (rgbToHsv 0 c c) with (rgbToHsv (inject_Z 0) (inject_Z c) (inject_Z c)).
    hsv_anchor 0 c c. nia.
  - change (rgbToHsv 0 0 c) with (rgbToHsv (inject_Z 0) (inject_Z 0) (inject_Z c)).
    hsv_anchor 0 0 c. nia.
  - change (rgbToHsv c 0 c) with (rgbToHsv (inject_Z c) (inject_Z 0) (inject_Z c)).
    hsv_anchor c 0 c.
    assert (H = -60) by nia. subst H. rewrite Hh. reflexivity.
Qed.

Lemma rgbToHsv_anchors_witness :
  1 <= 200 <= 255 /\
  rgbToHsv (inject_Z 200) 0 0 = (0, 255, 200) /\
  rgbToHsv 0 (inject_Z 200) (inject_Z 200) = (180, 255, 200).
Proof.
  split; [lia|].
  destruct (rgbToHsv_anchors 200 ltac:(lia)) as (H1 & _ & _ & H4 & _).
  split; [exact H1|exact H4].
Defined.

Lemma for_loop_ext {S : Type} start stop step (f g : Z -> S -> S) (s : S) :
  (forall i s, f i s = g i s) ->
  for_loop start stop step f s = for_loop start stop step g s.
Proof.
  intros H. unfold for_loop. apply fold_left_ext. intros s' i. apply H.
Qed.

Lemma hsv_loop_at src out p :
  len out = len src -> 0 <= p -> 4 * p + 3 < len src ->
  let hsv := rgbToHsv (rd src (4 * p)) (rd src (4 * p + 1)) (rd src (4 * p + 2)) in
  pixel_at (hsv_loop src out) p
    (JS.toUint8Clamped ((fst (fst hsv) /. 360) *. 255))
    (JS.toUint8Clamped (snd (fst hsv)))
    (JS.toUint8Clamped (snd hsv)) 255.
Proof.
  intros Hlen Hp Hin. cbv zeta.
  pose (t := fun i : Z => rgbToHsv (rd src i) (rd src (i + 1)) (rd src (i + 2))).
  assert (E : hsv_loop src out =
    for_loop 0 (len src) 4
      (fun i out => wr4 out i ((fst (fst (t i)) /. 360) *. 255)
                        (inject_Z (snd (fst (t i)))) (inject_Z (snd (t i))) 255) out).
  { unfold hsv_loop. apply for_loop_ext. intros i s. unfold t.
    destruct (rgbToHsv _ _ _) as [[h s'] v]. reflexivity. }
  rewrite E.
  destruct (pixel_loop_at (fun i => (fst (fst (t i)) /. 360) *. 255)
              (fun i => inject_Z (snd (fst (t i)))) (fun i => inject_Z (snd (t i)))
              (fun _ => 255%Q) (len src) out (4 * p))
    as (H0 & H1 & H2 & H3); try lia.
  { rewrite Z.mul_comm. apply Z.mod_mul. lia. }
  cbv zeta in H0, H1, H2, H3. unfold pixel_at. rewrite H0, H1, H2, H3.
  unfold t. repeat split.
Qed.

(** X7.  [convertToHSV] on a well-formed buffer returns a new buffer of
    the same size whose pixels are [(H, s, v, 255)]: [s] and [v] are the
    saturation and value of [rgbToHsv] on the input pixel, stored as
    they are, so the third channel is the largest channel of the input,
    and [H] is the hue rescaled from degrees to a byte.  A gray pixel
    [(c, c, c)] becomes [(0, 0, c, 255)].  The input is untouched. *)
Theorem convertToHSV_postcondition (σ : World) (l : ref) (img : Raster) :
  heap σ !! l = Some img -> wf_raster img -> head (gfx σ) <> Some false ->
  exists σ' o out,
    convertToHSV (Some l) σ = (σ', Ret o) /\
    heap σ !! o = None /\
    heap σ' !! o = Some out /\ heap σ' !! l = Some img /\
    width out = width img /\ height out = height img /\
    forall p, 0 <= p < width img * height img ->
      let R := rd (pixels img) (4 * p) in
      let G := rd (pixels img) (4 * p + 1) in
      let B := rd (pixels img) (4 * p + 2) in
      let '(h, s, v) := rgbToHsv R G B in
      pixel_at (pixels out) p (JS.toUint8Clamped ((h /. 360) *. 255)) s v 255 /\
      v = Z.max (Z.max R G) B /\
      (R = G /\ G = B -> pixel_at (pixels out) p 0 0 R 255).
Proof.
  intros Hl Hwf Hg.
  destruct (unsafe_transform_run σ l img (fun i => hsv_loop (pixels i)) Hl Hg)
    as (σ' & Hrun & Hfresh & Hout & Hother & _).
  eexists _, _, _.
  split; [exact Hrun|]. split; [exact Hfresh|]. split; [exact Hout|].
  split; [rewrite Hother by congruence; exact Hl|]. cbn [width height pixels].
  split; [reflexivity|]. split; [reflexivity|].
  intros p Hp. destruct (wf_raster_pixel img p Hwf Hp) as [Hp0 Hp3].
  pose proof (hsv_loop_at (pixels img) (pixels (blank (width img) (height img))) p
                (len_blank_pixels img Hwf) ltac:(lia) Hp3) as P.
  cbv zeta in P |- * .
  pose proof (wf_raster_byte img (4 * p) Hwf) as HR.
  pose proof (wf_raster_byte img (4 * p + 1) Hwf) as HG.
  pose proof (wf_raster_byte img (4 * p + 2) Hwf) as HB.
  pose proof (rgbToHsv_cases _ _ _ HR HG HB) as (h & s & E & Hcase).
  rewrite E in P |- * . cbn [fst snd] in P.
  assert (Hs : 0 <= s <= 255) by (destruct Hcase as [(_ & _ & ->)|(_ & Hs & _)]; lia).
  rewrite (toUint8Clamped_byte s) in P by exact Hs.
  rewrite (toUint8Clamped_byte (Z.max _ _)) in P by lia.
  split; [exact P|]. split; [reflexivity|].
  intros [E1 E2].
  destruct Hcase as [(_ & -> & ->)|(Hlt & _)]; [|exfalso; lia].
  replace (Z.max (Z.max (rd (pixels img) (4 * p)) (rd (pixels img) (4 * p + 1)))
             (rd (pixels img) (4 * p + 2))) with (rd (pixels img) (4 * p)) in P by lia.
  exact P.
Qed.

Lemma convertToHSV_postcondition_witness :
  exists σ' o out,
    convertToHSV (Some 0%nat)
      (mkWorld {[ 0%nat := mkRaster 2 1 [90; 90; 90; 255; 0; 200; 0; 255] ]} [])
      = (σ', Ret o) /\
    heap σ' !! o = Some out /\
    pixel_at (pixels out) 0 0 0 90 255 /\ pixel_at (pixels out) 1 85 255 200 255.
Proof.
  destruct (convertToHSV_postcondition
              (mkWorld {[ 0%nat := mkRaster 2 1 [90; 90; 90; 255; 0; 200; 0; 255] ]} [])
              0%nat (mkRaster 2 1 [90; 90; 90; 255; 0; 200; 0; 255]))
    as (σ' & o & out & Hrun & _ & Hout & _ & _ & _ & Hpx).
  - reflexivity.
  - repeat split; simpl; try lia. repeat constructor; lia.
  - simpl. discriminate.
  - exists σ', o, out. split; [exact Hrun|]. split; [exact Hout|]. split.
    + pose proof (Hpx 0 ltac:(simpl; lia)) as H. cbv zeta in H.
      cbn [pixels] in H.
      change (rd [90; 90; 90; 255; 0; 200; 0; 255] (4 * 0)) with 90 in H.
      change (rd [90; 90; 90; 255; 0; 200; 0; 255] (4 * 0 + 1)) with 90 in H.
      change (rd [90; 90; 90; 255; 0; 200; 0; 255] (4 * 0 + 2)) with 90 in H.
      destruct (rgbToHsv 90 90 90) as [[h s] v].
      destruct H as (_ & _ & H). apply H. split; reflexivity.
    + pose proof (Hpx 1 ltac:(simpl; lia)) as H. cbv zeta in H.
      cbn [pixels] in H.
      change (rd [90; 90; 90; 255; 0; 200; 0; 255] (4 * 1)) with 0 in H.
      change (rd [90; 90; 90; 255; 0; 200; 0; 255] (4 * 1 + 1)) with 200 in H.
      change (rd [90; 90; 90; 255; 0; 200; 0; 255] (4 * 1 + 2)) with 0 in H.
      change (rgbToHsv 0 200 0) with (120, 255, 200) in H.
      destruct H as (H & _). exact H.
Defined.

(** ** Doubles in the unit interval *)

Lemma Qpower2_le (a b : Z) : a <= b -> (2 ^ a <= 2 ^ b)%Q.
Proof.
  intros H. replace b with (a + (b - a)) by lia.
  rewrite Qpower_plus by discriminate.
  pose proof (Qpower2_pos a) as Ha.
  assert (H1 : (1 <= 2 ^ (b - a))%Q).
  { rewrite Qpower2_nonneg by lia. change 1%Q with (inject_Z 1).
    rewrite <- Zle_Qle. pose proof (Z.pow_pos_nonneg 2 (b - a) ltac:(lia) ltac:(lia)). lia. }
  rewrite <- (Qmult_1_r (2 ^ a)) at 1.
  apply Qmult_le_l; [exact Ha|exact H1].
Qed.

Lemma Qlt_succ_le (z n : Z) : (inject_Z z < inject_Z n + 1)%Q -> z <= n.
Proof.
  intros H. change 1%Q with (inject_Z 1) in H.
  rewrite <- inject_Z_plus, <- Zlt_Qlt in H. lia.
Qed.

(** Rounding to a double never crosses 1. *)
Lemma fl_red_le_1 (x : Q) : (0 <= x)%Q -> (x <= 1)%Q -> (JS.fl_red x <= 1)%Q.
Proof.
  intros H0 H1. unfold JS.fl_red. destruct (Qeq_bool x 0) eqn:E0; [discriminate|].
  assert (Hx : ~ (x == 0)%Q).
  { intros H. apply Qeq_bool_iff in H. congruence. }
  destruct (binade_spec x Hx) as [Hb1 Hb2].
  rewrite (Qabs_pos x H0) in Hb1, Hb2.
  set (e := JS.binade x) in * .
  assert (He : e <= 0).
  { destruct (Z_le_gt_dec e 0) as [H|H]; [exact H|exfalso].
    pose proof (Qpower2_le 1 e ltac:(lia)) as P.
    change (2 ^ 1)%Q with 2%Q in P. lra. }
  pose proof (Qpower2_pos (e - 52)) as Hpos.
  set (p := (2 ^ (e - 52))%Q) in * .
  destruct (round_half_even_err (x / p)) as [_ R2].
  set (z := JS.round_half_even (x / p)) in * .
  destruct (Z.eq_dec e 0) as [E|E].
  - (* 1/2 < x <= 1 is not the case here: [x] is 1 *)
    assert (Ep : (p == 1 # 4503599627370496)%Q).
    { unfold p. rewrite E. reflexivity. }
    assert (Hy : (x / p <= 4503599627370496)%Q).
    { apply Qle_shift_div_r; [exact Hpos|]. rewrite Ep. lra. }
    assert (Hz : z <= 4503599627370496).
    { apply (Qlt_succ_le z 4503599627370496).
      change (inject_Z 4503599627370496) with 4503599627370496%Q. lra. }
    apply Qle_trans with (4503599627370496 * p)%Q.
    + apply Qmult_le_compat_r; [|lra].
      change 4503599627370496%Q with (inject_Z 4503599627370496).
      rewrite <- Zle_Qle. exact Hz.
    + rewrite Ep. lra.
  - assert (E53 : (2 ^ (e + 1) == 9007199254740992 * p)%Q).
    { unfold p. replace (e + 1) with (53 + (e - 52)) by lia.
      rewrite Qpower_plus by discriminate. reflexivity. }
    assert (Hy : (x / p < 9007199254740992)%Q).
    { apply Qlt_shift_div_r; [exact Hpos|]. rewrite <- E53. exact Hb2. }
    assert (Hz : z <= 9007199254740992).
    { apply (Qlt_succ_le z 9007199254740992).
      change (inject_Z 9007199254740992) with 9007199254740992%Q. lra. }
    apply Qle_trans with (9007199254740992 * p)%Q.
    + apply Qmult_le_compat_r; [|lra].
      change 9007199254740992%Q with (inject_Z 9007199254740992).
      rewrite <- Zle_Qle. exact Hz.
    + rewrite <- E53. change 1%Q with (2 ^ 0)%Q. apply Qpower2_le. lia.
Qed.

Lemma fl_le_1 (x : Q) : (0 <= x)%Q -> (x <= 1)%Q -> (JS.fl x <= 1)%Q.
Proof.
  intros H0 H1. unfold JS.fl. rewrite Qred_correct.
  apply fl_red_le_1; rewrite Qred_correct; assumption.
Qed.

Lemma fl_nonneg (x : Q) : (0 <= x)%Q -> (0 <= JS.fl x)%Q.
Proof.
  intros H0. pose proof (fl_err x) as E. rewrite (Qabs_pos x H0) in E.
  apply Qabs_Qle_condition in E. destruct E as [E _].
  unfold u53 in E. lra.
Qed.

(** A proportion [a / b] of counts, as a double, is between 0 and 1. *)
Lemma fdiv_proportion (a b : Z) :
  0 <= a <= b -> 0 < b -> (0 <= inject_Z a /. inject_Z b)%Q /\ (inject_Z a /. inject_Z b <= 1)%Q.
Proof.
  intros Ha Hb. unfold JS.fdiv.
  assert (Hbq : (0 < inject_Z b)%Q) by (change 0%Q with (inject_Z 0); rewrite <- Zlt_Qlt; lia).
  assert (H0 : (0 <= inject_Z a / inject_Z b)%Q).
  { apply Qle_shift_div_l; [exact Hbq|]. rewrite Qmult_0_l.
    change 0%Q with (inject_Z 0). rewrite <- Zle_Qle. lia. }
  assert (H1 : (inject_Z a / inject_Z b <= 1)%Q).
  { apply Qle_shift_div_r; [exact Hbq|]. rewrite Qmult_1_l. rewrite <- Zle_Qle. lia. }
  split; [apply fl_nonneg; exact H0|apply fl_le_1; assumption].
Qed.

(** ** Skin tone *)

(** X8.  Whatever range of [isSkinTone] accepts a pixel, its red
    channel exceeds 50, its green channel 30, its blue channel 15, and
    red is strictly above blue: no gray pixel and no pixel with a dark
    channel counts as skin. *)
Theorem isSkinTone_necessary (r g b : Z) :
  isSkinTone r g b = true -> 50 < r /\ 30 < g /\ 15 < b /\ b < r.
Proof.
  unfold isSkinTone. intros H.
  repeat match type of H with
  | (if ?c then _ else _) = true =>
      let E := fresh "E" in destruct c eqn:E;
      [ clear H; repeat (apply andb_true_iff in E; destruct E as [E ?]) | ]
  end; try discriminate;
  repeat match goal with
  | H : (_ >? _) = true |- _ => apply Z.gtb_lt in H
  | H : (_ >=? _) = true |- _ => apply Z.geb_le in H
  end; lia.
Qed.

Lemma isSkinTone_necessary_witness :
  isSkinTone 200 150 120 = true /\ 50 < 200 /\ 30 < 150 /\ 15 < 120 /\ 120 < 200.
Proof.
  split; [reflexivity|]. apply (isSkinTone_necessary 200 150 120). reflexivity.
Defined.

(** The counting loops of [calculateSkinDensity]. *)
Lemma skin_count_inv (img : Raster) (x y width_ height_ : Z) (P : Z * Z -> Prop) :
  P (0, 0) ->
  (forall acc px py, P acc ->
     let idx := (py * width img + px) * 4 in
     (idx + 2 <? len (pixels img)) = true ->
     P ((if isSkinTone (rd (pixels img) idx) (rd (pixels img) (idx + 1))
                       (rd (pixels img) (idx + 2))
         then fst acc + 1 else fst acc), snd acc + 1)) ->
  P (for_loop y (Z.min (y + height_) (height img)) 1 (fun py acc =>
       for_loop x (Z.min (x + width_) (width img)) 1 (fun px acc =>
         let idx := (py * width img + px) * 4 in
         if idx + 2 <? len (pixels img) then
           let r := rd (pixels img) idx in
           let g := rd (pixels img) (idx + 1) in
           let b := rd (pixels img) (idx + 2) in
           ((if isSkinTone r g b then fst acc + 1 else fst acc), snd acc + 1)
         else acc) acc)
       (0, 0)).
Proof.
  intros H0 Hstep.
  apply for_loop_inv; [exact H0|]. intros py acc _ Hacc.
  apply for_loop_inv; [exact Hacc|]. intros px acc' _ Hacc'. cbv zeta.
  destruct (_ <? _) eqn:E; [|exact Hacc'].
  apply (Hstep acc' px py Hacc'). exact E.
Qed.

(** X9.  [calculateSkinDensity] returns a number between 0 and 1 for
    every image and every rectangle, also one that leaves the image or
    is empty; and it returns 0 when no pixel of the image is skin-toned. *)
Theorem calculateSkinDensity_range (img : Raster) (x y width_ height_ : Z) :
  (0 <= calculateSkinDensity img x y width_ height_)%Q /\
  (calculateSkinDensity img x y width_ height_ <= 1)%Q /\
  ((forall p, isSkinTone (rd (pixels img) (4 * p)) (rd (pixels img) (4 * p + 1))
                         (rd (pixels img) (4 * p + 2)) = false) ->
   calculateSkinDensity img x y width_ height_ = 0%Q).
Proof.
  unfold calculateSkinDensity.
  match goal with
  | |- context [let '(a, b) := ?e in _] => set (acc := e)
  end.
  assert (Hinv : 0 <= fst acc <= snd acc).
  { unfold acc. apply (skin_count_inv img x y width_ height_
                         (fun acc => 0 <= fst acc <= snd acc)).
    - cbn. lia.
    - intros a px py Ha idx _. cbn [fst snd]. destruct (isSkinTone _ _ _); lia. }
  assert (Hzero : (forall p, isSkinTone (rd (pixels img) (4 * p)) (rd (pixels img) (4 * p + 1))
                           (rd (pixels img) (4 * p + 2)) = false) -> fst acc = 0).
  { intros Hno. unfold acc. apply (skin_count_inv img x y width_ height_
                                     (fun acc => fst acc = 0)).
    - reflexivity.
    - intros a px py Ha idx _. cbn [fst snd]. unfold idx.
      rewrite (Z.mul_comm _ 4). rewrite Hno. exact Ha. }
  destruct acc as [skinPixels totalPixels]. cbn [fst snd] in Hinv, Hzero.
  destruct (Z.gtb_spec totalPixels 0) as [Hpos|Hle].
  - destruct (fdiv_proportion skinPixels totalPixels Hinv Hpos) as [P0 P1].
    split; [exact P0|]. split; [exact P1|].
    intros Hno. rewrite (Hzero Hno). unfold JS.fdiv.
    rewrite (fl_proper _ 0%Q); [reflexivity|].
    unfold Qdiv. apply Qmult_0_l.
  - split; [apply Qle_refl|]. split; [discriminate|]. reflexivity.
Qed.

(** ** The detection strategies at their edges *)

Lemma rd_blank w h i : rd (pixels (blank w h)) i = 0.
Proof.
  unfold rd, blank. cbn [pixels]. destruct (i <? 0); [reflexivity|].
  destruct (replicate _ 0 !! Z.to_nat i) as [v|] eqn:E; [|reflexivity].
  apply lookup_replicate in E as [-> _]. reflexivity.
Qed.

(** On an image without skin-toned pixels a region never becomes the
    best one. *)
Lemma skinRegion_step_no_skin img region :
  (forall p, isSkinTone (rd (pixels img) (4 * p)) (rd (pixels img) (4 * p + 1))
                        (rd (pixels img) (4 * p + 2)) = false) ->
  skinRegion_step img (None, 0, 0%Q) region = (None, 0, 0%Q).
Proof.
  intros Hno. destruct region as [[[rx ry] rw] rh]. unfold skinRegion_step.
  destruct ((rx + rw >? width img) || (ry + rh >? height img)); [reflexivity|].
  match goal with
  | |- context [let '(a, b) := ?e in _] => set (acc := e)
  end.
  assert (Hz : fst acc = 0).
  { unfold acc. apply (for_loop_inv (fun a : Z * Z => fst a = 0)); [reflexivity|].
    intros y a _ Ha. apply (for_loop_inv (fun a : Z * Z => fst a = 0)); [exact Ha|].
    intros x a' _ Ha'. cbv zeta. cbn [fst].
    rewrite (Z.mul_comm _ 4). rewrite Hno. exact Ha'. }
  destruct acc as [skinPixelCount totalPixels]. cbn [fst] in Hz. subst skinPixelCount.
  reflexivity.
Qed.

(** X10.  On an image none of whose pixels is skin-toned,
    [detectBySkinTone] finds no region: it returns null (or raises, when
    [loadPixels] does). *)
Theorem detectBySkinTone_no_skin (lpt : Raster -> bool) (img : Raster) :
  (forall p, isSkinTone (rd (pixels img) (4 * p)) (rd (pixels img) (4 * p + 1))
                        (rd (pixels img) (4 * p + 2)) = false) ->
  detectBySkinTone lpt (Some img) = if lpt img then Throw else Ret None.
Proof.
  intros Hno. unfold detectBySkinTone. destruct (lpt img); [reflexivity|].
  assert (H : forall l, fold_left (skinRegion_step img) l (None, 0, 0%Q) = (None, 0, 0%Q)).
  { induction l as [|r l IH]; [reflexivity|]. cbn [fold_left].
    rewrite skinRegion_step_no_skin by exact Hno. exact IH. }
  rewrite H. reflexivity.
Qed.

Lemma detectBySkinTone_no_skin_witness :
  detectBySkinTone (fun _ => false) (Some (blank 160 120)) = Ret None.
Proof.
  apply (detectBySkinTone_no_skin (fun _ => false) (blank 160 120)).
  intros p. rewrite !rd_blank. reflexivity.
Defined.

(** X11.  A box returned by [trackByMotion] has the size of the last
    known position, lies at that position moved by one of the sampled
    offsets (-25, -17, -9, -1, 7, 15 or 23 on each axis: the search
    radius of 25 walked in steps of 8; a coordinate that would fall
    left of or above the image is 0), passes [isValidFaceSize], lies
    inside the image, and has a skin density above 0.1. *)
Theorem trackByMotion_result
    (lpt : Raster -> bool) (fp : FaceProcessor) (img : Raster) (b : Box.t) :
  trackByMotion lpt fp (Some img) = Ret (Some b) ->
  exists lastPos dx dy,
    lastKnownFacePosition fp = Some lastPos /\
    In dx [-25; -17; -9; -1; 7; 15; 23] /\
    In dy [-25; -17; -9; -1; 7; 15; 23] /\
    b = Box.mk (Z.max 0 (Box.x lastPos + dx)) (Z.max 0 (Box.y lastPos + dy))
               (Box.width lastPos) (Box.height lastPos) /\
    isValidFaceSize b = true /\
    in_frame (width img) (height img) b /\
    (calculateSkinDensity img (Box.x b) (Box.y b) (Box.width b) (Box.height b)
       >. lit 0.1) = true.
Proof.
  unfold trackByMotion. destruct (lastKnownFacePosition fp) as [lastPos|]; [|discriminate].
  destruct (lpt img); [discriminate|].
  set (P := fun acc : Q * option Box.t =>
         forall b, snd acc = Some b ->
           exists dx dy,
             In dx [-25; -17; -9; -1; 7; 15; 23] /\
             In dy [-25; -17; -9; -1; 7; 15; 23] /\
             b = Box.mk (Z.max 0 (Box.x lastPos + dx)) (Z.max 0 (Box.y lastPos + dy))
                        (Box.width lastPos) (Box.height lastPos) /\
             in_frame (width img) (height img) b /\
             (calculateSkinDensity img (Box.x b) (Box.y b) (Box.width b) (Box.height b)
                >. lit 0.1) = true).
  cbv zeta.
  assert (Hgrid : forall o, o ∈ for_range (- 25) (25 + 1) 8 ->
                            In o [-25; -17; -9; -1; 7; 15; 23]).
  { intros o Ho. apply list_elem_of_In in Ho. exact Ho. }
  lazymatch goal with
  | |- (match ?e with pair _ _ => _ end) = _ -> _ => assert (H : P e)
  end.
  { apply (for_loop_inv P); [intros b0 [=]|].
    intros oy acc Hoy Hacc. apply (for_loop_inv P); [exact Hacc|].
    intros ox acc' Hox Hacc'. cbv zeta.
    destruct ((Z.max 0 (Box.x lastPos + ox) + Box.width lastPos <=? width img) &&
              (Z.max 0 (Box.y lastPos + oy) + Box.height lastPos <=? height img))
      eqn:Hin; [|exact Hacc'].
    destruct ((_ >. _) && (_ >. _)) eqn:Hd; [|exact Hacc'].
    apply andb_true_iff in Hin as [H1 H2]. apply Z.leb_le in H1, H2.
    apply andb_true_iff in Hd as [_ Hd].
    intros b0 [= <-]. exists ox, oy.
    split; [exact (Hgrid ox Hox)|]. split; [exact (Hgrid oy Hoy)|].
    split; [reflexivity|]. split; [|exact Hd].
    unfold in_frame. cbn [Box.x Box.y Box.width Box.height]. lia. }
  lazymatch type of H with P ?e => destruct e as [maxD best] end.
  destruct best as [b'|]; [|discriminate].
  destruct (isValidFaceSize b') eqn:E; [|discriminate].
  intros [= <-]. destruct (H b' eq_refl) as (dx & dy & Hdx & Hdy & Hb & Hin & Hd).
  exists lastPos, dx, dy. split; [reflexivity|]. auto 10.
Qed.

Lemma trackByMotion_result_witness :
  let img := mkRaster 30 30 (concat (replicate 900 [200; 150; 120; 255])) in
  let fp := mkFaceProcessor (Some (Box.mk 25 25 30 30)) [] in
  let b := Box.mk 0 0 30 30 in
  exists lastPos dx dy,
    lastKnownFacePosition fp = Some lastPos /\
    In dx [-25; -17; -9; -1; 7; 15; 23] /\
    In dy [-25; -17; -9; -1; 7; 15; 23] /\
    b = Box.mk (Z.max 0 (Box.x lastPos + dx)) (Z.max 0 (Box.y lastPos + dy))
               (Box.width lastPos) (Box.height lastPos) /\
    isValidFaceSize b = true /\
    in_frame (width img) (height img) b /\
    (calculateSkinDensity img (Box.x b) (Box.y b) (Box.width b) (Box.height b)
       >. lit 0.1) = true.
Proof.
  cbv zeta.
  apply (trackByMotion_result (fun _ => false)
           (mkFaceProcessor (Some (Box.mk 25 25 30 30)) [])
           (mkRaster 30 30 (concat (replicate 900 [200; 150; 120; 255])))
           (Box.mk 0 0 30 30)).
  vm_compute. reflexivity.
Defined.

(** X12.  In an image narrower or lower than 35 pixels no scan window
    fits, and [scanForFaceRegions] returns null. *)
Theorem scanForFaceRegions_small_image
    (Math_pow : Q -> Q -> Q) (Math_sqrt : Q -> Q) (lpt : Raster -> bool) (img : Raster) :
  width img < 35 \/ height img < 35 ->
  scanForFaceRegions Math_pow Math_sqrt lpt (Some img) = Ret None.
Proof.
  intros Hsmall. unfold scanForFaceRegions.
  assert (H : forall l, fold_left (scan_scale Math_pow Math_sqrt lpt img) l (None, 0%Q)
                        = (None, 0%Q)).
  { induction l as [|scale l IH]; [reflexivity|]. cbn [fold_left].
    assert (E : scan_scale Math_pow Math_sqrt lpt img (None, 0%Q) scale = (None, 0%Q)).
    { unfold scan_scale. cbv zeta.
      set (scanWidth :=
             JS.Math_round (JS.Math_max (inject_Z 35)
                              (JS.Math_min (inject_Z 80) (width img *. scale)))).
      set (scanHeight :=
             JS.Math_round (JS.Math_max (inject_Z 35)
                              (JS.Math_min (inject_Z 80) (height img *. scale)))).
      assert (Hw : 35 <= scanWidth <= 80) by apply scan_size_range.
      assert (Hh : 35 <= scanHeight <= 80) by apply scan_size_range.
      destruct Hsmall as [Hs|Hs].
      - apply (for_loop_inv (fun st => st = (None, 0%Q))); [reflexivity|].
        intros y st _ ->.
        unfold for_loop, for_range.
        replace (Z.to_nat (width img - scanWidth + 1 - 0)) with 0%nat by lia.
        reflexivity.
      - unfold for_loop at 1. unfold for_range.
        replace (Z.to_nat (height img - scanHeight + 1 - 0)) with 0%nat by lia.
        reflexivity. }
    rewrite E. exact IH. }
  rewrite H. reflexivity.
Qed.

Lemma scanForFaceRegions_small_image_witness :
  scanForFaceRegions (fun x _ => x) (fun x => x) (fun _ => false)
    (Some (mkRaster 34 120 [])) = Ret None.
Proof.
  apply (scanForFaceRegions_small_image (fun x _ => x) (fun x => x) (fun _ => false)
           (mkRaster 34 120 [])).
  left. simpl. lia.
Defined.

(** ** Face regions *)

Lemma keeps_copy_into p5_copy σ0 o src s d :
  heap σ0 !! o = None -> keeps σ0 (copy_into p5_copy o src s d) (fun _ => True).
Proof.
  intros Ho σ Hσ. unfold copy_into.
  destruct (heap σ !! o) as [dst|]; [|split; cbn; auto].
  destruct (p5_copy dst src s d) as [px|]; cbn [fst snd]; split; auto.
  intros l r' Hl. cbn [heap]. rewrite lookup_insert_ne; [apply Hσ; exact Hl|].
  intros ->. rewrite Ho in Hl. discriminate.
Qed.

(** X13.  [extractFaceRegion] never raises, whatever the copy primitive
    does, and changes no buffer that existed before the call; it returns
    null when the image or the box is missing and when the box has no
    positive width or height. *)
Theorem extractFaceRegion_safe
    (p5_copy : Raster -> Raster -> Z * Z * Z * Z -> Z * Z * Z * Z -> Res (list Z))
    (img : option ref) (face : option Box.t) (σ : World) :
  (exists v, snd (extractFaceRegion p5_copy img face σ) = Ret v) /\
  unchanged σ (fst (extractFaceRegion p5_copy img face σ)) /\
  (img = None \/ face = None \/
   (exists f, face = Some f /\ (Box.width f <= 0 \/ Box.height f <= 0)) ->
   extractFaceRegion p5_copy img face σ = (σ, Ret None)).
Proof.
  assert (Hid : unchanged σ σ) by (intros l r H; exact H).
  split; [|split].
  - unfold extractFaceRegion. destruct img as [l|]; [|eexists; reflexivity].
    destruct face as [f|]; [|eexists; reflexivity].
    destruct (_ || _); [eexists; reflexivity|].
    unfold try_catch.
    match goal with
    | |- context [match ?m σ with _ => _ end] => destruct (m σ) as [σ1 [a|]]
    end; eexists; reflexivity.
  - assert (K : keeps σ (extractFaceRegion p5_copy img face) (fun _ => True)).
    { unfold extractFaceRegion. destruct img as [l|]; [|apply keeps_ret; exact I].
      destruct face as [f|]; [|apply keeps_ret; exact I].
      destruct (_ || _); [apply keeps_ret; exact I|].
      apply keeps_try_catch; [|apply keeps_ret; exact I].
      eapply keeps_bind; [apply keeps_deref|]. intros i _. cbv zeta.
      destruct (_ || _); [apply keeps_ret; exact I|].
      eapply keeps_bind; [apply keeps_safeCreateGraphics|]. intros [o|] Ho.
      - eapply keeps_bind; [apply keeps_copy_into; apply Ho; reflexivity|].
        intros _ _. apply keeps_ret. exact I.
      - apply keeps_ret. exact I. }
    apply (K σ Hid).
  - intros [-> | [-> | (f & -> & Hf)]].
    + reflexivity.
    + destruct img; reflexivity.
    + unfold extractFaceRegion. destruct img as [l|]; [|reflexivity].
      assert (E : (Box.width f <=? 0) || (Box.height f <=? 0) = true).
      { apply orb_true_iff. destruct Hf; [left|right]; apply Z.leb_le; assumption. }
      rewrite E. reflexivity.
Qed.

(** X14.  When [extractFaceRegion] returns a buffer, the buffer is new,
    the image is untouched, and its size is that of the box clamped to
    the image: the clamped origin lies in the image, the region fits in
    the image, and it is no wider or higher than the box and not empty.
    For a box that lies inside the image the region is the box itself. *)
Theorem extractFaceRegion_region
    (p5_copy : Raster -> Raster -> Z * Z * Z * Z -> Z * Z * Z * Z -> Res (list Z))
    (σ σ' : World) (l o : ref) (img : Raster) (face : Box.t) :
  heap σ !! l = Some img ->
  extractFaceRegion p5_copy (Some l) (Some face) σ = (σ', Ret (Some o)) ->
  let x := Z.max 0 (Z.min (Box.x face) (width img - 1)) in
  let y := Z.max 0 (Z.min (Box.y face) (height img - 1)) in
  heap σ !! o = None /\ heap σ' !! l = Some img /\
  exists out,
    heap σ' !! o = Some out /\
    width out = Z.min (Box.width face) (width img - x) /\
    height out = Z.min (Box.height face) (height img - y) /\
    0 <= x /\ 0 <= y /\
    x + width out <= width img /\ y + height out <= height img /\
    0 < width out <= Box.width face /\ 0 < height out <= Box.height face /\
    (in_frame (width img) (height img) face ->
     x = Box.x face /\ y = Box.y face /\
     width out = Box.width face /\ height out = Box.height face).
Proof.
  intros Hl. unfold extractFaceRegion.
  destruct ((Box.width face <=? 0) || (Box.height face <=? 0)) eqn:Hpos; [discriminate|].
  apply orb_false_iff in Hpos as [Hfw Hfh]. apply Z.leb_gt in Hfw, Hfh.
  unfold try_catch. unfold bind at 1. unfold deref. rewrite Hl. cbv zeta.
  set (x := Z.max 0 (Z.min (Box.x face) (width img - 1))).
  set (y := Z.max 0 (Z.min (Box.y face) (height img - 1))).
  set (w := Z.min (Box.width face) (width img - x)).
  set (h := Z.min (Box.height face) (height img - y)).
  destruct ((w <=? 0) || (h <=? 0)) eqn:Hwh; [discriminate|].
  apply orb_false_iff in Hwh as [Hw Hh]. apply Z.leb_gt in Hw, Hh.
  unfold bind at 1. unfold safeCreateGraphics, try_catch. unfold bind at 1.
  unfold createGraphics.
  destruct (gfx σ) as [|[|] rest] eqn:Hg; cbn [ret]; try discriminate.
  - unfold ret at 1. unfold bind at 1. unfold copy_into. cbn [heap gfx].
    rewrite lookup_insert_eq.
    destruct (p5_copy _ _ _ _) as [px|]; [|discriminate].
    unfold ret. intros [= <- <-]. cbn [heap].
    pose proof (fresh_not_in_heap (heap σ)) as Hf.
    split; [exact Hf|].
    split; [rewrite !lookup_insert_ne by congruence; exact Hl|].
    eexists. split; [apply lookup_insert_eq|]. cbn [width height blank].
    split; [reflexivity|]. split; [reflexivity|].
    unfold in_frame. fold w h. repeat split; try lia.
  - unfold ret at 1. unfold bind at 1. unfold copy_into. cbn [heap gfx].
    rewrite lookup_insert_eq.
    destruct (p5_copy _ _ _ _) as [px|]; [|discriminate].
    unfold ret. intros [= <- <-]. cbn [heap].
    pose proof (fresh_not_in_heap (heap σ)) as Hf.
    split; [exact Hf|].
    split; [rewrite !lookup_insert_ne by congruence; exact Hl|].
    eexists. split; [apply lookup_insert_eq|]. cbn [width height blank].
    split; [reflexivity|]. split; [reflexivity|].
    unfold in_frame. fold w h. repeat split; try lia.
Qed.

Lemma extractFaceRegion_region_witness :
  let copy := fun (dst _ : Raster) (_ _ : Z * Z * Z * Z) => Ret (pixels dst) in
  let σ := mkWorld {[ 0%nat := blank 4 4 ]} [] in
  exists σ' o out,
    extractFaceRegion copy (Some 0%nat) (Some (Box.mk 3 1 5 2)) σ = (σ', Ret (Some o)) /\
    heap σ' !! o = Some out /\ width out = 1 /\ height out = 2.
Proof.
  cbv zeta.
  set (copy := fun (dst _ : Raster) (_ _ : Z * Z * Z * Z) => Ret (pixels dst)).
  set (σ := mkWorld {[ 0%nat := blank 4 4 ]} []).
  set (σ1 := mkWorld (<[ 1%nat := blank 1 2 ]> {[ 0%nat := blank 4 4 ]}) []).
  assert (E : extractFaceRegion copy (Some 0%nat) (Some (Box.mk 3 1 5 2)) σ
              = (σ1, Ret (Some 1%nat))) by (vm_compute; reflexivity).
  destruct (extractFaceRegion_region copy σ σ1 0%nat 1%nat (blank 4 4) (Box.mk 3 1 5 2)
              eq_refl E) as (_ & _ & out & Hout & Hw & Hh & _).
  exists σ1, 1%nat, out. split; [exact E|]. split; [exact Hout|].
  split; [rewrite Hw|rewrite Hh]; reflexivity.
Defined.

(** ** The pixel-copy fallback *)

Lemma fallbackPixelCopy_loop_eq fi pf bbox cw ch :
  fallbackPixelCopy_loop fi pf bbox cw ch =
  for_loop 0 ch 1 (fun y dst =>
    for_loop 0 cw 1 (fun x dst =>
      if copy_guard fi pf bbox dst x y then copy_cell fi pf bbox dst x y else dst) dst)
    (pixels fi).
Proof. reflexivity. Qed.

(** An invariant of the copy loops. *)
Lemma fallbackPixelCopy_loop_inv fi pf bbox cw ch (P : list Z -> Prop) :
  P (pixels fi) ->
  (forall dst x y, P dst -> 0 <= x < cw -> 0 <= y < ch ->
     copy_guard fi pf bbox dst x y = true -> P (copy_cell fi pf bbox dst x y)) ->
  P (fallbackPixelCopy_loop fi pf bbox cw ch).
Proof.
  intros H0 Hstep. rewrite fallbackPixelCopy_loop_eq.
  apply for_loop_inv; [exact H0|]. intros y dst Hy Hd.
  apply for_loop_inv; [exact Hd|]. intros x dst' Hx Hd'.
  apply for_range_1 in Hx, Hy.
  destruct (copy_guard fi pf bbox dst' x y) eqn:G; [|exact Hd'].
  apply Hstep; assumption.
Qed.

(** A property that the iteration at [(x0, y0)] establishes. *)
Lemma fallbackPixelCopy_loop_establish fi pf bbox cw ch (I P : list Z -> Prop) x0 y0 :
  0 <= x0 < cw -> 0 <= y0 < ch ->
  I (pixels fi) ->
  (forall dst x y, I dst -> 0 <= x < cw -> 0 <= y < ch ->
     copy_guard fi pf bbox dst x y = true -> I (copy_cell fi pf bbox dst x y)) ->
  (forall dst, I dst ->
     copy_guard fi pf bbox dst x0 y0 = true /\ P (copy_cell fi pf bbox dst x0 y0)) ->
  (forall dst x y, I dst -> P dst -> 0 <= x < cw -> 0 <= y < ch ->
     copy_guard fi pf bbox dst x y = true -> P (copy_cell fi pf bbox dst x y)) ->
  P (fallbackPixelCopy_loop fi pf bbox cw ch).
Proof.
  intros Hx0 Hy0 HI0 HI He Hk. rewrite fallbackPixelCopy_loop_eq.
  set (inner := fun y dst =>
    for_loop 0 cw 1 (fun x dst =>
      if copy_guard fi pf bbox dst x y then copy_cell fi pf bbox dst x y else dst) dst).
  assert (HIinner : forall y dst, 0 <= y < ch -> I dst -> I (inner y dst)).
  { intros y dst Hy Hd. unfold inner. apply for_loop_inv; [exact Hd|].
    intros x dst' Hx Hd'. apply for_range_1 in Hx.
    destruct (copy_guard fi pf bbox dst' x y) eqn:G; [|exact Hd'].
    apply HI; assumption. }
  assert (HPinner : forall y dst, 0 <= y < ch -> I dst -> P dst -> P (inner y dst)).
  { intros y dst Hy Hd HPd. unfold inner.
    apply (for_loop_inv (fun d => I d /\ P d)); [split; assumption|].
    intros x dst' Hx [Hd' HP']. apply for_range_1 in Hx.
    destruct (copy_guard fi pf bbox dst' x y) eqn:G; [|split; assumption].
    split; [apply HI|apply Hk]; assumption. }
  apply (for_loop_establish I P 0 ch 1 inner (pixels fi) y0).
  - apply for_range_1. exact Hy0.
  - exact HI0.
  - intros y dst Hy Hd. apply for_range_1 in Hy. apply HIinner; assumption.
  - intros dst Hd. unfold inner.
    apply (for_loop_establish I P 0 cw 1 _ dst x0).
    + apply for_range_1. exact Hx0.
    + exact Hd.
    + intros x dst' Hx Hd'. apply for_range_1 in Hx.
      destruct (copy_guard fi pf bbox dst' x y0) eqn:G; [|exact Hd'].
      apply HI; assumption.
    + intros dst' Hd'. destruct (He dst' Hd') as [G HP]. rewrite G. exact HP.
    + intros x dst' Hx Hd' HP'. apply for_range_1 in Hx.
      destruct (copy_guard fi pf bbox dst' x y0) eqn:G; [|exact HP'].
      apply Hk; assumption.
  - intros y dst Hy Hd HPd. apply for_range_1 in Hy. apply HPinner; assumption.
Qed.

Lemma copy_cell_len fi pf bbox dst x y :
  len (copy_cell fi pf bbox dst x y) = len dst.
Proof. unfold copy_cell. cbv zeta. apply len_wr4. Qed.

(** Two pixels of a row-major array coincide only if their columns and
    rows do. *)
Lemma pixel_index_inj (W x1 y1 x2 y2 : Z) :
  0 <= x1 < W -> 0 <= x2 < W -> y1 * W + x1 = y2 * W + x2 -> x1 = x2 /\ y1 = y2.
Proof.
  intros H1 H2 E. assert (Hy : y1 = y2) by nia. subst y2. split; [lia|reflexivity].
Qed.

(** X15.  [fallbackPixelCopy] keeps the size of the canvas; with the box
    origin inside the canvas it changes no pixel outside the target
    rectangle [[x, x + copyWidth) x [y, y + copyHeight)]; and, unless
    [loadPixels] raises, every pixel of that rectangle that lies in the
    canvas and has a source pixel receives the four channels of its
    source pixel. *)
Theorem fallbackPixelCopy_copies
    (lpt : Raster -> bool) (faceImage processedFace : Raster) (faceBbox : Box.t)
    (copyWidth copyHeight : Z) :
  wf_raster faceImage -> wf_raster processedFace ->
  0 <= Box.x faceBbox -> 0 <= Box.y faceBbox ->
  let out := fallbackPixelCopy lpt faceImage processedFace faceBbox copyWidth copyHeight in
  width out = width faceImage /\ height out = height faceImage /\
  len (pixels out) = len (pixels faceImage) /\
  (forall X Y k,
     0 <= X < width faceImage -> 0 <= Y < height faceImage -> 0 <= k <= 3 ->
     ~ (Box.x faceBbox <= X < Box.x faceBbox + copyWidth /\
        Box.y faceBbox <= Y < Box.y faceBbox + copyHeight) ->
     rd (pixels out) ((Y * width faceImage + X) * 4 + k) =
     rd (pixels faceImage) ((Y * width faceImage + X) * 4 + k)) /\
  (lpt processedFace = false -> lpt faceImage = false ->
   forall x y k,
     0 <= x < copyWidth -> 0 <= y < copyHeight -> 0 <= k <= 3 ->
     x < width processedFace -> y < height processedFace ->
     Box.x faceBbox + x < width faceImage -> Box.y faceBbox + y < height faceImage ->
     rd (pixels out)
        (((Box.y faceBbox + y) * width faceImage + (Box.x faceBbox + x)) * 4 + k) =
     rd (pixels processedFace) ((y * width processedFace + x) * 4 + k)).
Proof.
  intros Hwf Hwfs Hbx Hby. cbv zeta.
  destruct Hwf as (HW & HH & HL & _).
  pose proof Hwfs as (Hws & Hhs & HLs & _).
  set (W := width faceImage) in * . set (H := height faceImage) in * .
  set (ws := width processedFace) in * . set (hs := height processedFace) in * .
  set (bx := Box.x faceBbox) in * . set (by_ := Box.y faceBbox) in * .
  assert (Hlen : len (fallbackPixelCopy_loop faceImage processedFace faceBbox
                        copyWidth copyHeight) = len (pixels faceImage)).
  { apply (fallbackPixelCopy_loop_inv _ _ _ _ _ (fun d => len d = len (pixels faceImage)));
      [reflexivity|].
    intros dst x y Hd _ _ _. rewrite copy_cell_len. exact Hd. }
  assert (Hguard : forall dst x y, copy_guard faceImage processedFace faceBbox dst x y = true ->
            bx + x < W /\ by_ + y < H).
  { intros dst x y G. unfold copy_guard in G.
    apply andb_true_iff in G as [G G4]. apply andb_true_iff in G as [G G3].
    apply Z.ltb_lt in G3, G4. fold bx W in G3. fold by_ H in G4. lia. }
  split; [unfold fallbackPixelCopy; destruct (_ || _); reflexivity|].
  split; [unfold fallbackPixelCopy; destruct (_ || _); reflexivity|].
  split; [unfold fallbackPixelCopy; destruct (_ || _); [reflexivity|exact Hlen]|].
  split.
  - intros X Y k HX HY Hk Hout.
    unfold fallbackPixelCopy. destruct (_ || _); [reflexivity|]. cbn [pixels].
    apply (fallbackPixelCopy_loop_inv _ _ _ _ _
             (fun d => rd d ((Y * W + X) * 4 + k) = rd (pixels faceImage) ((Y * W + X) * 4 + k)));
      [reflexivity|].
    intros dst x y Hd Hx Hy G. destruct (Hguard dst x y G) as [Gx Gy].
    unfold copy_cell. cbv zeta. fold W bx by_.
    rewrite rd_wr4_outside; [exact Hd|].
    assert (Hne : (by_ + y) * W + (bx + x) <> Y * W + X).
    { intros E. apply pixel_index_inj in E; lia. }
    lia.
  - intros Hl1 Hl2 x y k Hx Hy Hk Hxs Hys Hxd Hyd.
    unfold fallbackPixelCopy. rewrite Hl1, Hl2. cbn [orb pixels].
    set (j := ((by_ + y) * W + (bx + x)) * 4).
    set (sj := (y * ws + x) * 4).
    assert (Hcell : forall dst, len dst = len (pixels faceImage) ->
              rd (copy_cell faceImage processedFace faceBbox dst x y) (j + k)
              = rd (pixels processedFace) (sj + k)).
    { intros dst Hd. unfold copy_cell. cbv zeta. fold W ws bx by_ j sj.
      destruct (rd_wr4_inside dst j (rd (pixels processedFace) sj)
                  (rd (pixels processedFace) (sj + 1)) (rd (pixels processedFace) (sj + 2))
                  (rd (pixels processedFace) (sj + 3))) as (A0 & A1 & A2 & A3).
      { unfold j. nia. }
      { rewrite Hd. unfold len, j. nia. }
      rewrite !toUint8Clamped_byte in A0, A1, A2, A3
        by (apply wf_raster_byte; exact Hwfs).
      assert (Hk4 : k = 0 \/ k = 1 \/ k = 2 \/ k = 3) by lia.
      destruct Hk4 as [-> | [-> | [-> | ->]]]; rewrite ?Z.add_0_r; assumption. }
    apply (fallbackPixelCopy_loop_establish _ _ _ _ _
             (fun d => len d = len (pixels faceImage))
             (fun d => rd d (j + k) = rd (pixels processedFace) (sj + k)) x y Hx Hy).
    + reflexivity.
    + intros dst x' y' Hd _ _ _. rewrite copy_cell_len. exact Hd.
    + intros dst Hd. split; [|apply Hcell; exact Hd].
      unfold copy_guard. fold W H ws bx by_. rewrite Hd.
      repeat (apply andb_true_iff; split); apply Z.ltb_lt; unfold len; try lia.
      * fold hs in Hys. nia.
      * nia.
    + intros dst x' y' Hd HP Hx' Hy' G. destruct (Hguard dst x' y' G) as [Gx Gy].
      destruct (Z.eq_dec ((by_ + y') * W + (bx + x')) ((by_ + y) * W + (bx + x))) as [E|Hne].
      * apply pixel_index_inj in E; [|lia|lia].
        assert (x' = x) by lia. assert (y' = y) by lia. subst x' y'.
        apply Hcell. exact Hd.
      * unfold copy_cell. cbv zeta. fold W bx by_.
        rewrite rd_wr4_outside; [exact HP|]. unfold j. lia.
Qed.

Lemma fallbackPixelCopy_copies_witness :
  let out := fallbackPixelCopy (fun _ => false)
               (mkRaster 2 1 [1; 2; 3; 4; 5; 6; 7; 8]) (mkRaster 1 1 [9; 10; 11; 12])
               (Box.mk 1 0 1 1) 1 1 in
  rd (pixels out) 0 = 1 /\ rd (pixels out) 4 = 9 /\ rd (pixels out) 7 = 12.
Proof.
  cbv zeta.
  destruct (fallbackPixelCopy_copies (fun _ => false)
              (mkRaster 2 1 [1; 2; 3; 4; 5; 6; 7; 8]) (mkRaster 1 1 [9; 10; 11; 12])
              (Box.mk 1 0 1 1) 1 1) as (_ & _ & _ & Hframe & Hcopy).
  - repeat split; simpl; try lia. repeat constructor; lia.
  - repeat split; simpl; try lia. repeat constructor; lia.
  - simpl. lia.
  - simpl. lia.
  - split; [|split].
    + apply (Hframe 0 0 0); simpl; lia.
    + apply (Hcopy eq_refl eq_refl 0 0 0); simpl; lia.
    + apply (Hcopy eq_refl eq_refl 0 0 3); simpl; lia.
Defined.

(** ** Every box of the detector state lies in the frame *)

Lemma updateFaceHistory_in_frame fp face :
  history_in_frame fp ->
  (forall b, face = Some b -> in_frame imageProcessor_width imageProcessor_height b) ->
  history_in_frame (updateFaceHistory fp face).
Proof.
  intros [Hh Hl] Hb. unfold updateFaceHistory.
  destruct face as [b|]; [|split; assumption].
  destruct (isValidFaceSize b); [|split; assumption].
  specialize (Hb b eq_refl).
  assert (Happ : Forall (in_frame imageProcessor_width imageProcessor_height)
                   (faceTrackingHistory fp ++ [b])).
  { apply Forall_app. split; [exact Hh|]. constructor; [exact Hb|constructor]. }
  split; cbn [faceTrackingHistory lastKnownFacePosition].
  - destruct (_ >? _); [|exact Happ].
    destruct (faceTrackingHistory fp ++ [b]) as [|h t]; [constructor|].
    cbn [tail]. inversion Happ; assumption.
  - intros b' [= <-]. exact Hb.
Qed.


Lemma detectFaceManually_history
    Math_pow Math_sqrt lpt (Canvas : Type) (applyFaceFilter : Canvas -> Raster -> Box.t -> Canvas)
    fp fi ci :
  width ci = 160 -> height ci = 120 -> history_in_frame fp ->
  history_in_frame
    (fst (fst (detectFaceManually Math_pow Math_sqrt lpt Canvas applyFaceFilter
                 fp (Some fi) (Some ci)))).
Proof.
  intros Hw Hh Hfp. unfold detectFaceManually.
  assert (Hcenter : in_frame imageProcessor_width imageProcessor_height getDefaultCenterFace).
  { rewrite getDefaultCenterFace_value.
    unfold in_frame, imageProcessor_width, imageProcessor_height; cbn; lia. }
  destruct (detectBySkinTone lpt (Some ci)) as [s|] eqn:Hs; [|exact Hfp].
  destruct (trackByMotion lpt fp (Some ci)) as [m|] eqn:Hm; [|exact Hfp].
  destruct (scanForFaceRegions Math_pow Math_sqrt lpt (Some ci)) as [c|] eqn:Hc; [|exact Hfp].
  cbn [res_bind fst]. cbv zeta. cbn [fst].
  apply updateFaceHistory_in_frame; [exact Hfp|]. intros b [= <-].
  destruct s as [bs|].
  { apply (detectBySkinTone_in_frame_default lpt ci bs Hw Hh) in Hs as [H1 _]. exact H1. }
  destruct m as [bm|].
  { apply trackByMotion_in_frame in Hm as [H1 _]. rewrite Hw, Hh in H1. exact H1. }
  destruct c as [bc|]; [|exact Hcenter].
  apply scanForFaceRegions_in_frame in Hc as (H1 & _). rewrite Hw, Hh in H1. exact H1.
Qed.

(** *** Numbers of the detector that are integers *)

Lemma Qle_bool_inject_Z (a b : Z) : Qle_bool (inject_Z a) (inject_Z b) = (a <=? b).
Proof. unfold Qle_bool. cbn [Qnum Qden inject_Z]. rewrite !Z.mul_1_r. reflexivity. Qed.

Lemma Num_gtb_of_Z (a b : Z) : Num.gtb (Num.of_Z a) (Num.of_Z b) = (b <? a).
Proof.
  unfold Num.gtb, Num.of_Z, JS.gtb. rewrite Qle_bool_inject_Z.
  rewrite Z.ltb_antisym. reflexivity.
Qed.

Lemma Num_leb_of_Z (a b : Z) : Num.leb (Num.of_Z a) (Num.of_Z b) = (a <=? b).
Proof. unfold Num.leb, Num.of_Z, JS.leb. apply Qle_bool_inject_Z. Qed.

Lemma Num_Math_max_0_round (v : Num.value) :
  Num.Math_max (Num.of_Z 0) (Num.Math_round v) =
  match Num.ToNumber v with
  | Num.Fin q => Num.of_Z (Z.max 0 (JS.Math_round q))
  | Num.NaN => Num.NaN
  | Num.Infinity => Num.Infinity
  | Num.NegInfinity => Num.of_Z 0
  end.
Proof.
  unfold Num.Math_round. destruct (Num.ToNumber v) as [q| | |]; try reflexivity.
  unfold Num.Math_max, Num.of_Z, JS.Math_max. rewrite Qle_bool_inject_Z.
  destruct (0 <=? JS.Math_round q) eqn:E.
  - apply Z.leb_le in E. rewrite Z.max_r by lia. reflexivity.
  - apply Z.leb_gt in E. rewrite Z.max_l by lia. reflexivity.
Qed.

Lemma Num_Math_min_round (v : Num.value) (W : Z) :
  Num.Math_min (Num.Math_round v) (Num.of_Z W) =
  match Num.ToNumber v with
  | Num.Fin q => Num.of_Z (Z.min (JS.Math_round q) W)
  | Num.NaN => Num.NaN
  | Num.Infinity => Num.of_Z W
  | Num.NegInfinity => Num.NegInfinity
  end.
Proof.
  unfold Num.Math_round. destruct (Num.ToNumber v) as [q| | |]; try reflexivity.
  unfold Num.Math_min, Num.of_Z, JS.Math_min. rewrite Qle_bool_inject_Z.
  destruct (JS.Math_round q <=? W) eqn:E.
  - apply Z.leb_le in E. rewrite Z.min_l by lia. reflexivity.
  - apply Z.leb_gt in E. rewrite Z.min_r by lia. reflexivity.
Qed.

Lemma Num_Math_max_0_int (z : Z) :
  Num.Math_max (Num.of_Z 0) (Num.Math_round (Num.int z)) = Num.of_Z (Z.max 0 z).
Proof.
  rewrite Num_Math_max_0_round. unfold Num.int, Num.ToNumber, Num.of_Z.
  rewrite Math_round_Z. reflexivity.
Qed.

Lemma Num_Math_min_int (z W : Z) :
  Num.Math_min (Num.Math_round (Num.int z)) (Num.of_Z W) = Num.of_Z (Z.min z W).
Proof.
  rewrite Num_Math_min_round. unfold Num.int, Num.ToNumber, Num.of_Z.
  rewrite Math_round_Z. reflexivity.
Qed.

(** Rounding to a double moves a number by less than one part in 2^53. *)
Lemma fl_lower (y : Q) : (0 <= y)%Q -> (y * (1 - u53) <= JS.fl y)%Q.
Proof.
  intros Hy. pose proof (fl_err y) as E. rewrite (Qabs_pos y Hy) in E.
  apply Qabs_Qle_condition in E as [E _]. lra.
Qed.

Lemma fl_upper_neg (y : Q) : (y <= 0)%Q -> (JS.fl y <= y * (1 - u53))%Q.
Proof.
  intros Hy. pose proof (fl_err y) as E. rewrite (Qabs_neg y Hy) in E.
  apply Qabs_Qle_condition in E as [_ E]. lra.
Qed.

(** The sum of a coordinate and a size of the frame, compared with the
    frame: the rounding of the sum does not change the verdict. *)
Lemma fadd_int_cmp (x w W : Z) :
  0 <= x -> 0 <= w -> 0 <= W <= 255 ->
  Qle_bool (JS.fadd (inject_Z x) (inject_Z w)) (inject_Z W) = (x + w <=? W).
Proof.
  intros Hx Hw HW. unfold JS.fadd.
  rewrite (fl_proper _ (inject_Z (x + w))) by (rewrite inject_Z_plus; reflexivity).
  destruct (Z_le_gt_dec (x + w) 255) as [Hs|Hs].
  - rewrite fl_byte by lia. apply Qle_bool_inject_Z.
  - assert (Hy : (256 <= inject_Z (x + w))%Q).
    { change 256%Q with (inject_Z 256). rewrite <- Zle_Qle. lia. }
    pose proof (fl_lower (inject_Z (x + w)) ltac:(lra)) as L.
    assert (HWq : (inject_Z W <= 255)%Q).
    { change 255%Q with (inject_Z 255). rewrite <- Zle_Qle. lia. }
    transitivity false.
    + destruct (Qle_bool _ _) eqn:E; [|reflexivity].
      apply Qle_bool_iff in E. unfold u53 in L. exfalso. lra.
    + symmetry. apply Z.leb_gt. lia.
Qed.

Lemma Num_add_gtb (x w W : Z) :
  0 <= x -> 0 <= w -> 0 <= W <= 255 ->
  Num.gtb (Num.add (Num.of_Z x) (Num.of_Z w)) (Num.of_Z W) = (W <? x + w).
Proof.
  intros Hx Hw HW. unfold Num.add, Num.gtb, Num.of_Z, JS.gtb.
  rewrite fadd_int_cmp by assumption. rewrite Z.ltb_antisym. reflexivity.
Qed.

Lemma Num_add_leb (x w W : Z) :
  0 <= x -> 0 <= w -> 0 <= W <= 255 ->
  Num.leb (Num.add (Num.of_Z x) (Num.of_Z w)) (Num.of_Z W) = (x + w <=? W).
Proof.
  intros Hx Hw HW. unfold Num.add, Num.leb, Num.of_Z, JS.leb.
  apply fadd_int_cmp; assumption.
Qed.

(** The clamped size [W - x]: exact when the corner lies in the frame,
    negative when it lies beyond. *)
Lemma Num_sub_in_frame (W x : Z) :
  0 <= x <= W -> W <= 255 -> Num.sub (Num.of_Z W) (Num.of_Z x) = Num.of_Z (W - x).
Proof.
  intros Hx HW. unfold Num.sub, Num.of_Z, JS.fsub. f_equal.
  rewrite (fl_proper _ (inject_Z (W - x)))
    by (unfold Z.sub; rewrite inject_Z_plus, inject_Z_opp; reflexivity).
  apply fl_byte. lia.
Qed.

Lemma Num_sub_beyond (W x : Z) :
  W < x -> exists q, Num.sub (Num.of_Z W) (Num.of_Z x) = Num.Fin q /\ (q < 0)%Q.
Proof.
  intros Hx. unfold Num.sub, Num.of_Z, JS.fsub. eexists. split; [reflexivity|].
  assert (Hy : (inject_Z W - inject_Z x <= -1)%Q).
  { assert (E : (inject_Z W - inject_Z x == inject_Z (W - x))%Q)
      by (unfold Z.sub; rewrite inject_Z_plus, inject_Z_opp; reflexivity).
    rewrite E. change (-1)%Q with (inject_Z (-1)). rewrite <- Zle_Qle. lia. }
  assert (Hy0 : (inject_Z W - inject_Z x <= 0)%Q) by lra.
  pose proof (fl_upper_neg _ Hy0) as U. unfold u53 in U. lra.
Qed.

(** What [Math.max(0, Math.round(v))] and [Math.min(Math.round(v), W)]
    can be. *)
Lemma corner_cases (v : Num.value) :
  let x := Num.Math_max (Num.of_Z 0) (Num.Math_round v) in
  (exists xi, 0 <= xi /\ x = Num.of_Z xi) \/ x = Num.Infinity \/
  (Num.isNaN v = true /\ x = Num.NaN).
Proof.
  cbv zeta. rewrite Num_Math_max_0_round. unfold Num.isNaN.
  destruct (Num.ToNumber v) as [q| | |].
  - left. eexists. split; [|reflexivity]. lia.
  - right. right. split; reflexivity.
  - right. left. reflexivity.
  - left. exists 0. split; [lia|reflexivity].
Qed.

Lemma size_cases (v : Num.value) (W : Z) :
  let w := Num.Math_min (Num.Math_round v) (Num.of_Z W) in
  Num.gtb w (Num.of_Z 0) = true -> exists wi, 0 < wi <= W /\ w = Num.of_Z wi.
Proof.
  cbv zeta. rewrite Num_Math_min_round.
  destruct (Num.ToNumber v) as [q| | |]; try discriminate.
  - rewrite Num_gtb_of_Z. intros H. apply Z.ltb_lt in H.
    eexists. split; [|reflexivity]. lia.
  - rewrite Num_gtb_of_Z. intros H. apply Z.ltb_lt in H.
    exists W. split; [lia|reflexivity].
Qed.

(** One axis of the final bounds validation of [processFaceDetection]:
    if the clamped size is one that the history accepts, corner and
    size are integers and the box ends inside the frame. *)
Lemma clamp_axis_stored (x : Num.t) (wi W : Z) :
  0 < wi <= W -> W <= 255 ->
  (exists xi, 0 <= xi /\ x = Num.of_Z xi) \/ x = Num.Infinity ->
  let w' := if Num.gtb (Num.add x (Num.of_Z wi)) (Num.of_Z W)
            then Num.sub (Num.of_Z W) x else Num.of_Z wi in
  Num.geb w' (Num.of_Z minFaceSize) = true ->
  exists xi wi', x = Num.of_Z xi /\ w' = Num.of_Z wi' /\ 0 <= xi /\ xi + wi' <= W.
Proof.
  intros Hw HW [(xi & Hxi & ->) | ->]; cbv zeta.
  - rewrite Num_add_gtb by lia. destruct (W <? xi + wi) eqn:E.
    + destruct (Z_le_gt_dec xi W) as [Hin|Hout].
      * rewrite Num_sub_in_frame by lia. intros _. exists xi, (W - xi).
        repeat split; try reflexivity; lia.
      * destruct (Num_sub_beyond W xi ltac:(lia)) as (q & -> & Hq).
        unfold Num.geb, Num.leb, Num.of_Z, JS.leb. intros H.
        apply Qle_bool_iff in H. exfalso. unfold minFaceSize in H.
        change (inject_Z 30) with 30%Q in H. lra.
    + apply Z.ltb_ge in E. intros _. exists xi, wi.
      repeat split; try reflexivity; lia.
  - cbn. discriminate.
Qed.

(** One axis of the validation of [enableRealTimeFaceTracking]. *)
Lemma check_axis_accepted (x : Num.t) (wi W : Z) :
  0 < wi <= W -> W <= 255 ->
  (exists xi, 0 <= xi /\ x = Num.of_Z xi) \/ x = Num.Infinity \/ x = Num.NaN ->
  Num.leb (Num.add x (Num.of_Z wi)) (Num.of_Z W) = true ->
  exists xi, x = Num.of_Z xi /\ 0 <= xi /\ xi + wi <= W.
Proof.
  intros Hw HW [(xi & Hxi & ->) | [-> | ->]]; try discriminate.
  rewrite Num_add_leb by lia. intros H. apply Z.leb_le in H.
  exists xi. split; [reflexivity|]. split; lia.
Qed.

(** The two embeddings of [isValidFaceSize] and [updateFaceHistory]
    agree on integer boxes. *)
Lemma Reported_isValidFaceSize_of_box (b : Box.t) :
  Reported.isValidFaceSize (NumBox.of_box b) = isValidFaceSize b.
Proof.
  unfold Reported.isValidFaceSize, isValidFaceSize, NumBox.of_box, Num.geb.
  cbn [NumBox.width NumBox.height]. rewrite !Num_leb_of_Z, !Z.geb_leb. reflexivity.
Qed.

Lemma Reported_updateFaceHistory_of_box (fp : FaceProcessor) (b : Box.t) :
  Reported.updateFaceHistory (reported fp) (Some (NumBox.of_box b))
  = reported (updateFaceHistory fp (Some b)).
Proof.
  unfold Reported.updateFaceHistory, updateFaceHistory.
  rewrite Reported_isValidFaceSize_of_box.
  destruct (isValidFaceSize b); [|reflexivity].
  unfold reported. cbn [Reported.faceTrackingHistory lastKnownFacePosition
                        faceTrackingHistory option_map].
  f_equal.
  change (map NumBox.of_box (faceTrackingHistory fp) ++ [NumBox.of_box b])
    with (map NumBox.of_box (faceTrackingHistory fp) ++ map NumBox.of_box [b]).
  rewrite <- map_app, length_map.
  destruct (_ >? _); [|reflexivity].
  destruct (faceTrackingHistory fp ++ [b]); reflexivity.
Qed.

(** Both layouts give the same box. *)
Lemma ml_bbox_layouts (x y w h : Num.value) :
  ml_bbox (BoundingBoxForm (Some (x, y)) w h) = ml_bbox (BoxForm x y w h).
Proof. reflexivity. Qed.

(** The final bounds validation, axis by axis. *)
Lemma ml_accept_BoxForm (xMin yMin w h : Num.value) :
  let x := Num.Math_max (Num.of_Z 0) (Num.Math_round xMin) in
  let y := Num.Math_max (Num.of_Z 0) (Num.Math_round yMin) in
  let bw := Num.Math_min (Num.Math_round w) (Num.of_Z imageProcessor_width) in
  let bh := Num.Math_min (Num.Math_round h) (Num.of_Z imageProcessor_height) in
  ml_accept (BoxForm xMin yMin w h) =
  if Num.gtb bw (Num.of_Z 0) && Num.gtb bh (Num.of_Z 0) then
    Ret (Some (NumBox.mk x y
                 (if Num.gtb (Num.add x bw) (Num.of_Z imageProcessor_width)
                  then Num.sub (Num.of_Z imageProcessor_width) x else bw)
                 (if Num.gtb (Num.add y bh) (Num.of_Z imageProcessor_height)
                  then Num.sub (Num.of_Z imageProcessor_height) y else bh)))
  else Ret None.
Proof.
  cbv zeta. unfold ml_accept, ml_bbox. cbn [res_bind NumBox.x NumBox.y NumBox.width NumBox.height].
  destruct (_ && _); [|reflexivity].
  destruct (Num.gtb (Num.add _ _) (Num.of_Z imageProcessor_width));
    cbn [NumBox.x NumBox.y NumBox.width NumBox.height];
    destruct (Num.gtb (Num.add _ _) (Num.of_Z imageProcessor_height)); reflexivity.
Qed.

(** A box that [processFaceDetection] accepts and that the history
    takes is an integer box inside the frame, provided its corner was
    reported in numbers. *)
Lemma ml_accept_stored face nb :
  ml_accept face = Ret (Some nb) -> position_is_number face = true ->
  Reported.isValidFaceSize nb = true ->
  exists b, nb = NumBox.of_box b /\
            in_frame imageProcessor_width imageProcessor_height b.
Proof.
  assert (Hbox : forall xMin yMin w h,
            ml_accept (BoxForm xMin yMin w h) = Ret (Some nb) ->
            negb (Num.isNaN xMin) && negb (Num.isNaN yMin) = true ->
            Reported.isValidFaceSize nb = true ->
            exists b, nb = NumBox.of_box b /\
                      in_frame imageProcessor_width imageProcessor_height b).
  { intros xMin yMin w h E Hpos Hvalid.
    rewrite ml_accept_BoxForm in E. cbv zeta in E.
    destruct (Num.gtb _ (Num.of_Z 0)) eqn:Gw in E; [|discriminate].
    destruct (Num.gtb _ (Num.of_Z 0)) eqn:Gh in E; [|discriminate].
    cbn [andb] in E.
    apply size_cases in Gw as (wi & Hwi & Ew). apply size_cases in Gh as (hi & Hhi & Eh).
    rewrite Ew, Eh in E. injection E as <-.
    apply andb_true_iff in Hpos as [Hx Hy]. apply negb_true_iff in Hx, Hy.
    unfold Reported.isValidFaceSize in Hvalid.
    cbn [NumBox.width NumBox.height] in Hvalid.
    apply andb_true_iff in Hvalid as [Hvalid _].
    apply andb_true_iff in Hvalid as [Hvalid _].
    apply andb_true_iff in Hvalid as [Vw Vh].
    assert (Cx : (exists xi, 0 <= xi /\
                    Num.Math_max (Num.of_Z 0) (Num.Math_round xMin) = Num.of_Z xi) \/
                 Num.Math_max (Num.of_Z 0) (Num.Math_round xMin) = Num.Infinity).
    { destruct (corner_cases xMin) as [C | [C | [C _]]]; [left; exact C|right; exact C|congruence]. }
    assert (Cy : (exists yi, 0 <= yi /\
                    Num.Math_max (Num.of_Z 0) (Num.Math_round yMin) = Num.of_Z yi) \/
                 Num.Math_max (Num.of_Z 0) (Num.Math_round yMin) = Num.Infinity).
    { destruct (corner_cases yMin) as [C | [C | [C _]]]; [left; exact C|right; exact C|congruence]. }
    unfold imageProcessor_width, imageProcessor_height in * .
    destruct (clamp_axis_stored _ wi 160 Hwi ltac:(lia) Cx Vw) as (xi & wi' & Ex & Ew' & Hxi & Hxw).
    destruct (clamp_axis_stored _ hi 120 Hhi ltac:(lia) Cy Vh) as (yi & hi' & Ey & Eh' & Hyi & Hyh).
    exists (Box.mk xi yi wi' hi'). split.
    - unfold NumBox.of_box. cbn [Box.x Box.y Box.width Box.height].
      rewrite <- Ex, <- Ey, <- Ew', <- Eh'. reflexivity.
    - unfold in_frame. cbn [Box.x Box.y Box.width Box.height]. lia. }
  intros E Hpos Hvalid. destruct face as [xMin yMin w h | [[x y]|] w h | ].
  - exact (Hbox xMin yMin w h E Hpos Hvalid).
  - unfold ml_accept in E. rewrite ml_bbox_layouts in E. exact (Hbox x y w h E Hpos Hvalid).
  - discriminate.
  - discriminate.
Qed.

(** A box that [enableRealTimeFaceTracking] accepts is an integer box
    inside the frame, whatever was reported. *)
Lemma rt_accept_in_frame face nb :
  rt_accept face = Ret (Some nb) ->
  exists b, nb = NumBox.of_box b /\
            in_frame imageProcessor_width imageProcessor_height b.
Proof.
  assert (Hbox : forall xMin yMin w h,
            rt_accept (BoxForm xMin yMin w h) = Ret (Some nb) ->
            exists b, nb = NumBox.of_box b /\
                      in_frame imageProcessor_width imageProcessor_height b).
  { intros xMin yMin w h. unfold rt_accept, ml_bbox.
    cbn [res_bind NumBox.x NumBox.y NumBox.width NumBox.height].
    destruct (_ && _) eqn:G; [|discriminate]. intros [= <-].
    apply andb_true_iff in G as [G Gy]. apply andb_true_iff in G as [G Gx].
    apply andb_true_iff in G as [Gw Gh].
    apply size_cases in Gw as (wi & Hwi & Ew). apply size_cases in Gh as (hi & Hhi & Eh).
    rewrite Ew in Gx. rewrite Eh in Gy.
    assert (Cx : (exists xi, 0 <= xi /\
                    Num.Math_max (Num.of_Z 0) (Num.Math_round xMin) = Num.of_Z xi) \/
                 Num.Math_max (Num.of_Z 0) (Num.Math_round xMin) = Num.Infinity \/
                 Num.Math_max (Num.of_Z 0) (Num.Math_round xMin) = Num.NaN).
    { destruct (corner_cases xMin) as [C | [C | [_ C]]]; auto. }
    assert (Cy : (exists yi, 0 <= yi /\
                    Num.Math_max (Num.of_Z 0) (Num.Math_round yMin) = Num.of_Z yi) \/
                 Num.Math_max (Num.of_Z 0) (Num.Math_round yMin) = Num.Infinity \/
                 Num.Math_max (Num.of_Z 0) (Num.Math_round yMin) = Num.NaN).
    { destruct (corner_cases yMin) as [C | [C | [_ C]]]; auto. }
    unfold imageProcessor_width, imageProcessor_height in * .
    destruct (check_axis_accepted _ wi 160 Hwi ltac:(lia) Cx Gx) as (xi & Ex & Hxi & Hxw).
    destruct (check_axis_accepted _ hi 120 Hhi ltac:(lia) Cy Gy) as (yi & Ey & Hyi & Hyh).
    exists (Box.mk xi yi wi hi). split.
    - unfold NumBox.of_box. cbn [Box.x Box.y Box.width Box.height].
      rewrite <- Ex, <- Ey, <- Ew, <- Eh. reflexivity.
    - unfold in_frame. cbn [Box.x Box.y Box.width Box.height]. lia. }
  intros E. destruct face as [xMin yMin w h | [[x y]|] w h | ].
  - exact (Hbox xMin yMin w h E).
  - unfold rt_accept in E. rewrite ml_bbox_layouts in E. exact (Hbox x y w h E).
  - discriminate.
  - discriminate.
Qed.

(** X16.  The detector state keeps its boxes in the 160 x 120 frame.  If
    the tracking history and the last known position are integer boxes
    inside the frame, they still are after a round of real-time
    tracking, whatever the first result of the external detector holds:
    numbers of any size, NaN, infinities, missing fields.  The same
    holds after the detection callback on a captured frame of that size,
    provided the corner of the reported box is given by numbers (neither
    coordinate NaN or missing). *)
Theorem detector_history_in_frame
    (Math_pow : Q -> Q -> Q) (Math_sqrt : Q -> Q) (lpt : Raster -> bool)
    (Canvas : Type) (applyFaceFilter : Canvas -> Raster -> NumBox.t -> Canvas)
    (fp : FaceProcessor) :
  history_in_frame fp ->
  (forall ready results,
     exists fp', enableRealTimeFaceTracking ready results fp = reported fp' /\
                 history_in_frame fp') /\
  (forall faceImage capturedImage results,
     width capturedImage = 160 -> height capturedImage = 120 ->
     (forall face rest, results = Ret (Some (face :: rest)) ->
                        position_is_number face = true) ->
     exists fp',
       fst (detection_onload Math_pow Math_sqrt lpt Canvas applyFaceFilter
              fp faceImage capturedImage results) = reported fp' /\
       history_in_frame fp').
Proof.
  intros Hfp. split.
  - intros ready results. unfold enableRealTimeFaceTracking.
    assert (Hsame : exists fp', reported fp = reported fp' /\ history_in_frame fp').
    { exists fp. split; [reflexivity|exact Hfp]. }
    destruct ready; [|exact Hsame].
    destruct results as [[[|face rest]|]|]; try exact Hsame.
    destruct (rt_accept face) as [[nb|]|] eqn:E; try exact Hsame.
    destruct (rt_accept_in_frame face nb E) as (b & -> & Hb).
    rewrite Reported_updateFaceHistory_of_box.
    exists (updateFaceHistory fp (Some b)). split; [reflexivity|].
    apply updateFaceHistory_in_frame; [exact Hfp|]. intros b' [= <-]. exact Hb.
  - intros fi ci results Hw Hh Hpos. unfold detection_onload. cbv zeta.
    pose proof (detectFaceManually_history Math_pow Math_sqrt lpt Canvas
                  (fun faceImage capturedImage faceBbox =>
                     applyFaceFilter faceImage capturedImage (NumBox.of_box faceBbox))
                  fp fi ci Hw Hh Hfp) as Hman.
    destruct (detectFaceManually _ _ _ _ _ fp (Some fi) (Some ci)) as [[fpm fim] bm].
    cbn [fst] in Hman.
    assert (Hmanual : exists fp', fst (reported fpm, fim) = reported fp' /\
                                  history_in_frame fp').
    { exists fpm. split; [reflexivity|exact Hman]. }
    destruct results as [[[|face rest]|]|]; try exact Hmanual.
    specialize (Hpos face rest eq_refl).
    destruct (ml_accept face) as [[nb|]|] eqn:E; try exact Hmanual.
    cbn [fst]. destruct (Reported.isValidFaceSize nb) eqn:V.
    + destruct (ml_accept_stored face nb E Hpos V) as (b & -> & Hb).
      rewrite Reported_updateFaceHistory_of_box.
      exists (updateFaceHistory fp (Some b)). split; [reflexivity|].
      apply updateFaceHistory_in_frame; [exact Hfp|]. intros b' [= <-]. exact Hb.
    + unfold Reported.updateFaceHistory. rewrite V.
      exists fp. split; [reflexivity|exact Hfp].
Qed.

Lemma detector_history_in_frame_witness :
  history_in_frame newFaceProcessor /\
  (exists fp',
     enableRealTimeFaceTracking true
       (Ret (Some [BoxForm Num.Undefined (Num.Number Num.NaN) (Num.int 50) (Num.int 50)]))
       newFaceProcessor = reported fp' /\
     history_in_frame fp') /\
  (exists fp',
     fst (detection_onload (fun x _ => x) (fun x => x) (fun _ => false) unit
            (fun c _ _ => c) newFaceProcessor tt (blank 160 120)
            (Ret (Some [BoxForm (Num.int 200) (Num.int 10) (Num.int 50) (Num.int 50)])))
     = reported fp' /\
     history_in_frame fp').
Proof.
  assert (H0 : history_in_frame newFaceProcessor).
  { split; [constructor|]. intros b [=]. }
  split; [exact H0|].
  destruct (detector_history_in_frame (fun x _ => x) (fun x => x) (fun _ => false) unit
              (fun c _ _ => c) newFaceProcessor H0) as [Hrt Hcb].
  split; [apply Hrt|].
  apply Hcb; [reflexivity|reflexivity|].
  intros face rest [= <- <-]. reflexivity.
Defined.

(** ** The processing pipeline *)

Lemma keeps_extractColorChannels σ0 img :
  keeps σ0 (extractColorChannels img) (fun _ => True).
Proof.
  unfold extractColorChannels.
  eapply keeps_bind; [apply keeps_deref|]. intros i _.
  eapply keeps_bind; [apply keeps_createGraphics|]. intros o1 Ho1.
  eapply keeps_bind; [apply keeps_update_pixels; exact Ho1|]. intros _ _.
  eapply keeps_bind; [apply keeps_createGraphics|]. intros o2 Ho2.
  eapply keeps_bind; [apply keeps_update_pixels; exact Ho2|]. intros _ _.
  eapply keeps_bind; [apply keeps_createGraphics|]. intros o3 Ho3.
  eapply keeps_bind; [apply keeps_update_pixels; exact Ho3|]. intros _ _.
  apply keeps_ret. exact I.
Qed.

Lemma try_catch_ret_tt (m : M unit) σ : snd (try_catch m (ret tt) σ) = Ret tt.
Proof.
  unfold try_catch, ret. destruct (m σ) as [σ' [[]|]]; reflexivity.
Qed.

(** X17.  [processImages] never raises, whatever fails inside it, and it
    leaves every buffer that existed before it ran as it was (the
    captured image among them), provided the face detection step it ends
    with leaves them alone. *)
Theorem processImages_safe
    (Math_pow : Q -> Q -> Q) (processFaceDetection : M unit)
    (capturedImage : option ref)
    (redThreshold greenThreshold blueThreshold hsvThreshold labThreshold : Q)
    (σ : World) :
  (forall σ0, keeps σ0 processFaceDetection (fun _ => True)) ->
  snd (Pipeline.processImages Math_pow processFaceDetection capturedImage
         redThreshold greenThreshold blueThreshold hsvThreshold labThreshold σ) = Ret tt /\
  unchanged σ
    (fst (Pipeline.processImages Math_pow processFaceDetection capturedImage
            redThreshold greenThreshold blueThreshold hsvThreshold labThreshold σ)).
Proof.
  intros Hpfd. unfold Pipeline.processImages.
  destruct capturedImage as [l|]; [|split; [reflexivity|intros k r Hk; exact Hk]].
  split; [apply try_catch_ret_tt|].
  assert (Hid : unchanged σ σ) by (intros k r Hk; exact Hk).
  match goal with
  | |- unchanged σ (fst (?m σ)) =>
      enough (K : keeps σ m (fun _ => True)) by exact (proj1 (K σ Hid))
  end.
  apply keeps_try_catch; [|apply keeps_ret; exact I].
  eapply keeps_bind.
  { apply (keeps_safe_transform σ (Some l) None
             (fun o i => update_pixels o (grayscale_loop (pixels i)))).
    intros o i Ho. apply keeps_update_pixels. exact Ho. }
  intros _ _.
  eapply keeps_bind; [apply keeps_extractColorChannels|]. intros _ _.
  eapply keeps_bind; [apply (keeps_unsafe_transform σ (Some l)
     (fun i => channelThreshold_loop redThreshold 0 (pixels i)))|]. intros _ _.
  eapply keeps_bind; [apply (keeps_unsafe_transform σ (Some l)
     (fun i => channelThreshold_loop greenThreshold 1 (pixels i)))|]. intros _ _.
  eapply keeps_bind; [apply (keeps_unsafe_transform σ (Some l)
     (fun i => channelThreshold_loop blueThreshold 2 (pixels i)))|]. intros _ _.
  eapply keeps_bind; [apply (keeps_unsafe_transform σ (Some l)
     (fun i => hsv_loop (pixels i)))|]. intros hsvImage _.
  eapply keeps_bind; [apply (keeps_unsafe_transform σ (Some l)
     (fun i => lab_loop Math_pow (pixels i)))|]. intros labImage _.
  eapply keeps_bind; [apply (keeps_unsafe_transform σ (Some hsvImage)
     (fun i => colorSpaceThreshold_loop hsvThreshold (pixels i)))|]. intros _ _.
  eapply keeps_bind; [apply (keeps_unsafe_transform σ (Some labImage)
     (fun i => colorSpaceThreshold_loop labThreshold (pixels i)))|]. intros _ _.
  apply Hpfd.
Qed.

Lemma processImages_safe_witness :
  snd (Pipeline.processImages (fun x _ => x) (ret tt) (Some 1%nat)
         128 128 128 128 128
         (mkWorld {[ 1%nat := blank 2 2 ]} [true; false])) = Ret tt /\
  unchanged (mkWorld {[ 1%nat := blank 2 2 ]} [true; false])
    (fst (Pipeline.processImages (fun x _ => x) (ret tt) (Some 1%nat)
            128 128 128 128 128
            (mkWorld {[ 1%nat := blank 2 2 ]} [true; false]))).
Proof.
  apply processImages_safe.
  intros σ0. apply keeps_ret. exact I.
Defined.

(** ** The periodic tracker *)

Lemma tracker_step_inv s e :
  Tracker.intervals s = option_list (Tracker.faceTrackingInterval s) ->
  Tracker.intervals (Tracker.step s e) =
  option_list (Tracker.faceTrackingInterval (Tracker.step s e)).
Proof.
  intros H. destruct s as [ca fti ivs nt ps]. cbn in H. subst ivs.
  destruct e as [|on|modelReady]; cbn.
  - destruct ca; cbn; [destruct fti as [id|]; cbn; [|reflexivity]|reflexivity].
    destruct (decide (id <> id)) as [Hne|_]; [exfalso; apply Hne; reflexivity|].
    reflexivity.
  - reflexivity.
  - destruct ps as [|n]; cbn; [reflexivity|].
    destruct modelReady; [|reflexivity].
    destruct fti; reflexivity.
Qed.

Lemma tracker_run_inv es : forall s,
  Tracker.intervals s = option_list (Tracker.faceTrackingInterval s) ->
  Tracker.intervals (Tracker.run s es) =
  option_list (Tracker.faceTrackingInterval (Tracker.run s es)).
Proof.
  induction es as [|e es IH]; intros s H; [exact H|].
  apply (IH (Tracker.step s e)). apply tracker_step_inv. exact H.
Qed.

(** X18.  The periodic tracker never leaks a timer: after any sequence
    of camera toggles, camera state changes and start callbacks, the
    interval timers that are set and not cleared are exactly the one
    whose handle [faceTrackingInterval] holds (none when it is null), so
    there is at most one; and switching the camera off with
    [toggleCamera] leaves none. *)
Theorem periodic_tracking_single_timer (es : list Tracker.Event) :
  Tracker.intervals (Tracker.run Tracker.initial es) =
    option_list (Tracker.faceTrackingInterval (Tracker.run Tracker.initial es)) /\
  (length (Tracker.intervals (Tracker.run Tracker.initial es)) <= 1)%nat /\
  (Tracker.cameraActive (Tracker.run Tracker.initial es) = true ->
   Tracker.intervals (Tracker.toggleCamera (Tracker.run Tracker.initial es)) = [] /\
   Tracker.faceTrackingInterval (Tracker.toggleCamera (Tracker.run Tracker.initial es)) = None).
Proof.
  pose proof (tracker_run_inv es Tracker.initial eq_refl) as H.
  split; [exact H|]. split.
  - rewrite H. destruct (Tracker.faceTrackingInterval _); cbn; lia.
  - intros Hca.
    pose proof (tracker_step_inv _ Tracker.ToggleCamera H) as H'.
    cbn [Tracker.step] in H'.
    assert (Hn : Tracker.faceTrackingInterval
                   (Tracker.toggleCamera (Tracker.run Tracker.initial es)) = None).
    { unfold Tracker.toggleCamera. cbn. rewrite Hca. cbn.
      unfold Tracker.stopPeriodicFaceTracking. cbn.
      destruct (Tracker.faceTrackingInterval _); reflexivity. }
    rewrite H', Hn. split; reflexivity.
Qed.

(** ** Pixelation of any raster *)

Lemma for_from_1_seq fuel i stop :
  fuel = Z.to_nat (stop - i) ->
  for_from fuel i stop 1 = map (fun k => i + Z.of_nat k) (seq 0 fuel).
Proof.
  revert i. induction fuel as [|f IH]; intros i Hf; [reflexivity|].
  cbn [for_from]. destruct (Z.ltb_spec i stop) as [Hlt|Hge]; [|lia].
  rewrite (IH (i + 1)) by lia. cbn [seq map]. f_equal; [lia|].
  rewrite <- seq_shift, map_map. apply map_ext. intros k. lia.
Qed.

Lemma for_range_1_Zrange n : for_range 0 n 1 = Zrange 0 (Z.to_nat n).
Proof.
  unfold for_range, Zrange. rewrite Z.sub_0_r. apply for_from_1_seq. lia.
Qed.

(** A loop that adds [f j] to a total and 1 to a count. *)
Lemma sum_count_loop (f : Z -> Z) (l : list Z) (acc : Z * Z) :
  fold_left (fun a j => (fst a + f j, snd a + 1)) l acc =
  (fst acc + sumZ (map f l), snd acc + Z.of_nat (length l)).
Proof.
  revert acc. induction l as [|j l IH]; intros [t c]; cbn [fold_left].
  - cbn [fst snd map sumZ fold_right length]. f_equal; lia.
  - rewrite IH. unfold sumZ. cbn [fst snd map fold_right length]. f_equal; lia.
Qed.

Lemma sum_rows_loop (g : Z -> Z) (n : Z) (l : list Z) (acc : Z * Z) :
  fold_left (fun a j => (fst a + g j, snd a + n)) l acc =
  (fst acc + sumZ (map g l), snd acc + n * Z.of_nat (length l)).
Proof.
  revert acc. induction l as [|j l IH]; intros [t c]; cbn [fold_left].
  - cbn [fst snd map sumZ fold_right length]. f_equal; lia.
  - rewrite IH. unfold sumZ. cbn [fst snd map fold_right length]. f_equal; lia.
Qed.

Lemma length_Zrange lo n : length (Zrange lo n) = n.
Proof. unfold Zrange. rewrite length_map, length_seq. reflexivity. Qed.

(** The two accumulators of a block: the sum of channel 0 and the
    number of pixels. *)
Lemma block_total_count w h src x y :
  0 <= x < w -> 0 <= y < h ->
  for_loop 0 (Z.min blockSize (h - y)) 1 (fun by_ acc =>
    for_loop 0 (Z.min blockSize (w - x)) 1 (fun bx acc =>
      (fst acc + rd src (((y + by_) * w + (x + bx)) * 4), snd acc + 1)) acc) (0, 0)
  = (block_sum w src x y (Z.min blockSize (w - x)) (Z.min blockSize (h - y)),
     Z.min blockSize (w - x) * Z.min blockSize (h - y)).
Proof.
  intros Hx Hy. unfold for_loop. rewrite !for_range_1_Zrange. cbv zeta.
  set (bw := Z.min blockSize (w - x)). set (bh := Z.min blockSize (h - y)).
  assert (Hbw : 0 < bw) by (unfold bw, blockSize; lia).
  assert (Hbh : 0 < bh) by (unfold bh, blockSize; lia).
  rewrite (fold_left_ext _
             (fun a by_ =>
                (fst a + sumZ (map (fun bx => rd src (((y + by_) * w + (x + bx)) * 4))
                                   (Zrange 0 (Z.to_nat bw))),
                 snd a + bw))).
  - rewrite sum_rows_loop. rewrite length_Zrange. unfold block_sum. cbn [fst snd].
    f_equal; lia.
  - intros a by_.
    rewrite (sum_count_loop (fun bx => rd src (((y + by_) * w + (x + bx)) * 4))).
    rewrite length_Zrange. f_equal. lia.
Qed.

Lemma inject_Z_sub (a b : Z) : (inject_Z (a - b) == inject_Z a - inject_Z b)%Q.
Proof. unfold Z.sub. rewrite inject_Z_plus, inject_Z_opp. reflexivity. Qed.

(** Halves of small integers are doubles. *)
Lemma fl_half (m : Z) : 0 <= m <= 511 -> (JS.fl (inject_Z m / 2) == inject_Z m / 2)%Q.
Proof.
  intros Hm.
  pose (f := fun m : Z => Qeq_bool (JS.fl (inject_Z m / 2)) (inject_Z m / 2)).
  assert (H : forallb f (Zrange 0 512) = true) by (vm_compute; reflexivity).
  apply Qeq_bool_iff. change (f m = true).
  apply (forallb_Zrange f 0 512 H). lia.
Qed.

(** The mean of a block as the code computes it, in doubles, is the
    exact mean rounded to the nearest integer, halves upwards. *)
Lemma Math_round_mean (total count : Z) :
  0 < count <= 144 -> 0 <= total <= 255 * count ->
  JS.Math_round (inject_Z total /. inject_Z count) = rounded_mean total count /\
  0 <= rounded_mean total count <= 255.
Proof.
  intros Hc Ht. unfold rounded_mean.
  set (k := (2 * total + count) / (2 * count)).
  pose proof (Z.div_mod (2 * total + count) (2 * count) ltac:(lia)) as Hdm.
  pose proof (Z.mod_pos_bound (2 * total + count) (2 * count) ltac:(lia)) as Hmb.
  fold k in Hdm.
  set (d := (2 * total + count) mod (2 * count)) in * .
  assert (Hk : 0 <= k <= 255) by (split; nia).
  split; [|exact Hk].
  assert (HNq : (1 <= inject_Z count)%Q /\ (inject_Z count <= 144)%Q).
  { change 1%Q with (inject_Z 1). change 144%Q with (inject_Z 144).
    rewrite <- !Zle_Qle. lia. }
  destruct HNq as [HN1 HN2].
  assert (Hdq : (inject_Z d == 2 * inject_Z total + inject_Z count
                              - 2 * inject_Z count * inject_Z k)%Q).
  { assert (E : d = 2 * total + count - 2 * count * k) by lia.
    rewrite E. rewrite inject_Z_sub, inject_Z_plus, !inject_Z_mult.
    change (inject_Z 2) with 2%Q. ring. }
  set (q := (inject_Z total / inject_Z count)%Q).
  assert (Hq : (q == inject_Z k - (1 # 2) + inject_Z d / (2 * inject_Z count))%Q).
  { unfold q. rewrite Hdq. field. lra. }
  unfold JS.Math_round, JS.fdiv. fold q.
  apply Qfloor_unique.
  - destruct (Z.eq_dec d 0) as [Hd0|Hd0].
    + assert (Hq' : (q == inject_Z (2 * k - 1) / 2)%Q).
      { rewrite Hq, Hd0. rewrite inject_Z_sub, inject_Z_mult.
        change (inject_Z 2) with 2%Q. change (inject_Z 1) with 1%Q.
        change (inject_Z 0) with 0%Q. field. lra. }
      rewrite (fl_proper _ _ Hq'). rewrite fl_half by lia.
      rewrite inject_Z_sub, inject_Z_mult.
      change (inject_Z 2) with 2%Q. change (inject_Z 1) with 1%Q.
      assert (E : ((2 * inject_Z k - 1) / 2 + (1 # 2) == inject_Z k)%Q) by field.
      rewrite E. apply Qle_refl.
    + assert (Hd1 : (1 <= inject_Z d)%Q).
      { change 1%Q with (inject_Z 1). rewrite <- Zle_Qle. lia. }
      assert (Hfrac : ((1 # 288) <= inject_Z d / (2 * inject_Z count))%Q).
      { apply Qle_shift_div_l; lra. }
      destruct (fl_near q 255) as [F1 _].
      { apply Qabs_Qle_condition. split.
        - rewrite Hq. destruct (inject_Z_bounds k 0 255 Hk) as [K1 _].
          change (inject_Z 0) with 0%Q in K1. lra.
        - unfold q. apply Qle_shift_div_r; [lra|].
          change 255%Q with (inject_Z 255).
          rewrite <- inject_Z_mult. rewrite <- Zle_Qle. lia. }
      unfold u53 in F1. lra.
  - assert (Hd2 : (inject_Z d <= 2 * inject_Z count - 1)%Q).
    { change 2%Q with (inject_Z 2). change 1%Q with (inject_Z 1).
      rewrite <- inject_Z_mult, <- inject_Z_sub, <- Zle_Qle. lia. }
    assert (Hfrac : (inject_Z d / (2 * inject_Z count) <= 1 - (1 # 288))%Q).
    { apply Qle_shift_div_r; lra. }
    destruct (fl_near q 255) as [_ F2].
    { apply Qabs_Qle_condition. split.
      - assert (H0 : (0 <= q)%Q).
        { unfold q. apply Qle_shift_div_l; [lra|]. rewrite Qmult_0_l.
          change 0%Q with (inject_Z 0). rewrite <- Zle_Qle. lia. }
        lra.
      - unfold q. apply Qle_shift_div_r; [lra|].
        change 255%Q with (inject_Z 255).
        rewrite <- inject_Z_mult. rewrite <- Zle_Qle. lia. }
    unfold u53 in F2. lra.
Qed.

Lemma sumZ_bounds (f : Z -> Z) (B : Z) (l : list Z) :
  (forall j, 0 <= f j <= B) -> 0 <= sumZ (map f l) <= B * Z.of_nat (length l).
Proof.
  intros Hf. induction l as [|j l IH]; unfold sumZ in * ; cbn [map fold_right length].
  - lia.
  - specialize (Hf j). lia.
Qed.

Lemma block_sum_bounds w src x0 y0 bw bh :
  (forall i, 0 <= rd src i <= 255) -> 0 <= bw -> 0 <= bh ->
  0 <= block_sum w src x0 y0 bw bh <= 255 * (bw * bh).
Proof.
  intros Hb Hbw Hbh. unfold block_sum.
  pose proof (sumZ_bounds
    (fun by_ => sumZ (map (fun bx => rd src (((y0 + by_) * w + (x0 + bx)) * 4))
                          (Zrange 0 (Z.to_nat bw))))
    (255 * bw) (Zrange 0 (Z.to_nat bh))) as H.
  rewrite length_Zrange in H. rewrite Z2Nat.id in H by exact Hbh.
  replace (255 * (bw * bh)) with (255 * bw * bh) by ring. apply H.
  intros by_.
  pose proof (sumZ_bounds (fun bx => rd src (((y0 + by_) * w + (x0 + bx)) * 4))
                255 (Zrange 0 (Z.to_nat bw))) as H'.
  rewrite length_Zrange in H'. rewrite Z2Nat.id in H' by exact Hbw.
  apply H'. intros bx. apply Hb.
Qed.

(** One block of [pixelate_loop] on any raster of bytes: the length is
    kept, the pixels of the block receive the rounded mean of channel 0
    over the block, and no other pixel changes. *)
Lemma pixelate_block_mean w h src x0 y0 s :
  0 <= x0 < w -> 0 <= y0 < h ->
  (forall i, 0 <= rd src i <= 255) ->
  len s = 4 * (w * h) ->
  let bw := Z.min blockSize (w - x0) in
  let bh := Z.min blockSize (h - y0) in
  let avg := rounded_mean (block_sum w src x0 y0 bw bh) (bw * bh) in
  let s' :=
    (let '(totalIntensity, pixelCount) :=
       for_loop 0 (Z.min blockSize (h - y0)) 1 (fun by_ acc =>
         for_loop 0 (Z.min blockSize (w - x0)) 1 (fun bx acc =>
           let idx := ((y0 + by_) * w + (x0 + bx)) * 4 in
           let intensity := rd src idx in
           (fst acc + intensity, snd acc + 1)) acc) (0, 0) in
     let averageIntensity : Z := JS.Math_round (totalIntensity /. pixelCount) in
     for_loop 0 (Z.min blockSize (h - y0)) 1 (fun by_ out =>
       for_loop 0 (Z.min blockSize (w - x0)) 1 (fun bx out =>
         let idx := ((y0 + by_) * w + (x0 + bx)) * 4 in
         let out := wr out idx averageIntensity in
         let out := wr out (idx + 1) averageIntensity in
         let out := wr out (idx + 2) averageIntensity in
         wr out (idx + 3) 255) out) s) in
  0 <= avg <= 255 /\
  len s' = 4 * (w * h) /\
  (forall x y k, 0 <= x < w -> 0 <= y < h -> 0 <= k <= 3 ->
     ~ (x0 <= x < x0 + blockSize /\ y0 <= y < y0 + blockSize) ->
     rd s' ((y * w + x) * 4 + k) = rd s ((y * w + x) * 4 + k)) /\
  (forall x y, x0 <= x < x0 + blockSize -> x < w ->
               y0 <= y < y0 + blockSize -> y < h ->
               gray_at avg s' ((y * w + x) * 4)).
Proof.
  intros Hx0 Hy0 Hb Hlen. cbv zeta.
  rewrite (block_total_count w h src x0 y0 Hx0 Hy0).
  set (bw := Z.min blockSize (w - x0)). set (bh := Z.min blockSize (h - y0)).
  assert (Hbw : 0 < bw <= 12) by (unfold bw, blockSize; lia).
  assert (Hbh : 0 < bh <= 12) by (unfold bh, blockSize; lia).
  assert (Hbww : bw = Z.min 12 (w - x0)) by reflexivity.
  assert (Hbhh : bh = Z.min 12 (h - y0)) by reflexivity.
  pose proof (block_sum_bounds w src x0 y0 bw bh Hb ltac:(lia) ltac:(lia)) as HS.
  destruct (Math_round_mean (block_sum w src x0 y0 bw bh) (bw * bh)) as [Hround Havg];
    [nia|exact HS|].
  rewrite Hround.
  set (avg := rounded_mean (block_sum w src x0 y0 bw bh) (bw * bh)) in * .
  set (wrpx := fun by_ bx (out : list Z) =>
         wr4 out (((y0 + by_) * w + (x0 + bx)) * 4) avg avg avg 255).
  change (for_loop 0 bh 1 _ s)
    with (for_loop 0 bh 1 (fun by_ out =>
            for_loop 0 bw 1 (fun bx out => wrpx by_ bx out) out) s).
  set (I := fun out : list Z => len out = 4 * (w * h)).
  assert (HI : forall by_ bx out, I out -> I (wrpx by_ bx out)).
  { intros by_ bx out Ho. unfold I, wrpx. rewrite len_wr4. exact Ho. }
  assert (HIrow : forall by_ out, I out ->
            I (for_loop 0 bw 1 (fun bx out => wrpx by_ bx out) out)).
  { intros by_ out Ho. apply (for_loop_inv I); [exact Ho|].
    intros bx o _ Hoo. apply HI. exact Hoo. }
  (* a store at another pixel *)
  assert (Hother : forall j by_ bx out, 0 <= by_ < bh -> 0 <= bx < bw ->
            (j < ((y0 + by_) * w + (x0 + bx)) * 4 \/
             ((y0 + by_) * w + (x0 + bx)) * 4 + 3 < j) ->
            rd (wrpx by_ bx out) j = rd out j).
  { intros j by_ bx out Hby Hbx Hj. unfold wrpx. apply rd_wr4_outside. exact Hj. }
  (* the store at the pixel itself *)
  assert (Hset : forall by_ bx out, 0 <= by_ < bh -> 0 <= bx < bw -> I out ->
            gray_at avg (wrpx by_ bx out) (((y0 + by_) * w + (x0 + bx)) * 4)).
  { intros by_ bx out Hby Hbx Ho. unfold wrpx, gray_at.
    destruct (rd_wr4_inside out (((y0 + by_) * w + (x0 + bx)) * 4) avg avg avg 255)
      as (H0 & H1 & H2 & H3).
    { nia. }
    { rewrite Ho. nia. }
    rewrite H0, H1, H2, H3. rewrite !toUint8Clamped_byte by lia. auto. }
  split; [exact Havg|]. split; [|split].
  - apply (for_loop_inv I); [exact Hlen|]. intros by_ o _ Ho. apply HIrow. exact Ho.
  - intros x y k Hx Hy Hk Hout.
    apply (for_loop_inv (fun o => rd o ((y * w + x) * 4 + k) = rd s ((y * w + x) * 4 + k)));
      [reflexivity|].
    intros by_ o Hby Ho. apply for_range_1 in Hby.
    apply (for_loop_inv (fun o => rd o ((y * w + x) * 4 + k) = rd s ((y * w + x) * 4 + k)));
      [exact Ho|].
    intros bx o' Hbx Ho'. apply for_range_1 in Hbx.
    rewrite Hother; [exact Ho'|lia|lia|].
    assert (Hne : (y0 + by_) * w + (x0 + bx) <> y * w + x).
    { intros E. apply pixel_index_inj in E; [|lia|lia]. unfold blockSize in Hout. lia. }
    lia.
  - intros x y Hx Hxw Hy Hyh. unfold blockSize in Hx, Hy.
    set (j := (y * w + x) * 4).
    assert (Hkeep : forall by_ bx out, 0 <= by_ < bh -> 0 <= bx < bw -> I out ->
              gray_at avg out j -> gray_at avg (wrpx by_ bx out) j).
    { intros by_ bx out Hby Hbx Ho HP.
      destruct (Z.eq_dec ((y0 + by_) * w + (x0 + bx)) (y * w + x)) as [E|Hne].
      - unfold j. rewrite <- E. apply Hset; assumption.
      - unfold gray_at in * . rewrite !Hother by (try assumption; unfold j; lia).
        exact HP. }
    apply (for_loop_establish I (fun o => gray_at avg o j) 0 bh 1 _ s (y - y0)).
    + apply for_range_1. lia.
    + exact Hlen.
    + intros by_ o _ Ho. apply HIrow. exact Ho.
    + intros o Ho.
      apply (for_loop_establish I (fun o => gray_at avg o j) 0 bw 1 _ o (x - x0)).
      * apply for_range_1. lia.
      * exact Ho.
      * intros bx o' _ Ho'. apply HI. exact Ho'.
      * intros o' Ho'. unfold j.
        replace (y * w + x) with ((y0 + (y - y0)) * w + (x0 + (x - x0))) by lia.
        apply Hset; [lia|lia|exact Ho'].
      * intros bx o' Hbx Ho' HP. apply for_range_1 in Hbx.
        apply Hkeep; [lia|lia|exact Ho'|exact HP].
    + intros by_ o Hby Ho HP. apply for_range_1 in Hby.
      apply (for_loop_inv (fun o => I o /\ gray_at avg o j)); [split; assumption|].
      intros bx o' Hbx [Ho' HP']. apply for_range_1 in Hbx.
      split; [apply HI; exact Ho'|apply Hkeep; assumption].
Qed.

(** The origin of the block that holds column (or row) [x]. *)
Lemma block_origin_unique (x x0 : Z) :
  x0 mod blockSize = 0 -> x0 <= x < x0 + blockSize -> x0 = x - x mod blockSize.
Proof.
  unfold blockSize. intros Hm Hx.
  pose proof (Z.div_mod x0 12 ltac:(lia)) as E0.
  pose proof (Z.div_mod x 12 ltac:(lia)) as E.
  pose proof (Z.mod_pos_bound x 12 ltac:(lia)) as B. lia.
Qed.

Lemma block_origin_range (x w : Z) :
  0 <= x < w ->
  x - x mod blockSize ∈ for_range 0 w blockSize /\
  x - x mod blockSize <= x < x - x mod blockSize + blockSize.
Proof.
  intros Hx. unfold blockSize.
  pose proof (Z.mod_pos_bound x 12 ltac:(lia)).
  pose proof (Z.mod_le x 12 ltac:(lia) ltac:(lia)).
  split; [|lia].
  apply for_range_spec; [reflexivity|].
  split; [lia|]. rewrite Z.sub_0_r.
  rewrite Zminus_mod, Zmod_mod, Z.sub_diag. reflexivity.
Qed.

Lemma pixelate_loop_mean w h src out :
  (forall i, 0 <= rd src i <= 255) -> len out = 4 * (w * h) ->
  len (pixelate_loop w h src out) = 4 * (w * h) /\
  (forall x y, 0 <= x < w -> 0 <= y < h ->
     let x0 := x - x mod blockSize in
     let y0 := y - y mod blockSize in
     let bw := Z.min blockSize (w - x0) in
     let bh := Z.min blockSize (h - y0) in
     let avg := rounded_mean (block_sum w src x0 y0 bw bh) (bw * bh) in
     0 <= avg <= 255 /\ gray_at avg (pixelate_loop w h src out) ((y * w + x) * 4)).
Proof.
  intros Hb Hlen. unfold pixelate_loop.
  set (I := fun o : list Z => len o = 4 * (w * h)).
  set (block := fun (y x : Z) (out : list Z) =>
    let '(totalIntensity, pixelCount) :=
      for_loop 0 (Z.min blockSize (h - y)) 1 (fun by_ acc =>
        for_loop 0 (Z.min blockSize (w - x)) 1 (fun bx acc =>
          let idx := ((y + by_) * w + (x + bx)) * 4 in
          let intensity := rd src idx in
          (fst acc + intensity, snd acc + 1)) acc) (0, 0) in
    let averageIntensity : Z := JS.Math_round (totalIntensity /. pixelCount) in
    for_loop 0 (Z.min blockSize (h - y)) 1 (fun by_ out =>
      for_loop 0 (Z.min blockSize (w - x)) 1 (fun bx out =>
        let idx := ((y + by_) * w + (x + bx)) * 4 in
        let out := wr out idx averageIntensity in
        let out := wr out (idx + 1) averageIntensity in
        let out := wr out (idx + 2) averageIntensity in
        wr out (idx + 3) 255) out) out).
  change (for_loop 0 h blockSize _ out)
    with (for_loop 0 h blockSize (fun y out =>
            for_loop 0 w blockSize (fun x out => block y x out) out) out).
  set (mean := fun x0 y0 =>
         rounded_mean (block_sum w src x0 y0 (Z.min blockSize (w - x0))
                         (Z.min blockSize (h - y0)))
                      (Z.min blockSize (w - x0) * Z.min blockSize (h - y0))).
  assert (Hblock : forall y0 x0 s, y0 ∈ for_range 0 h blockSize ->
            x0 ∈ for_range 0 w blockSize -> I s ->
            0 <= mean x0 y0 <= 255 /\
            I (block y0 x0 s) /\
            (forall x y k, 0 <= x < w -> 0 <= y < h -> 0 <= k <= 3 ->
               ~ (x0 <= x < x0 + blockSize /\ y0 <= y < y0 + blockSize) ->
               rd (block y0 x0 s) ((y * w + x) * 4 + k) = rd s ((y * w + x) * 4 + k)) /\
            (forall x y, x0 <= x < x0 + blockSize -> x < w ->
                         y0 <= y < y0 + blockSize -> y < h ->
                         gray_at (mean x0 y0) (block y0 x0 s) ((y * w + x) * 4))).
  { intros y0 x0 s Hy0 Hx0 Hs.
    apply for_range_spec in Hy0 as [Hy0 _]; [|reflexivity].
    apply for_range_spec in Hx0 as [Hx0 _]; [|reflexivity].
    apply (pixelate_block_mean w h src x0 y0 s); assumption. }
  assert (Hrow_I : forall y0 s, y0 ∈ for_range 0 h blockSize -> I s ->
            I (for_loop 0 w blockSize (fun x out => block y0 x out) s)).
  { intros y0 s Hy0 Hs. apply (for_loop_inv I); [exact Hs|].
    intros x0 o Hx0 Ho. apply Hblock; assumption. }
  split.
  - apply (for_loop_inv I); [exact Hlen|].
    intros y0 o Hy0 Ho. apply Hrow_I; assumption.
  - intros x y Hx Hy. cbv zeta.
    destruct (block_origin_range x w Hx) as [Hx0 Hxin].
    destruct (block_origin_range y h Hy) as [Hy0 Hyin].
    set (X0 := x - x mod blockSize) in * . set (Y0 := y - y mod blockSize) in * .
    change (rounded_mean _ _) with (mean X0 Y0).
    set (j := (y * w + x) * 4).
    (* a block leaves the pixel at the level of its own block *)
    assert (Hkeep : forall y0 x0 s, y0 ∈ for_range 0 h blockSize ->
              x0 ∈ for_range 0 w blockSize -> I s ->
              gray_at (mean X0 Y0) s j -> gray_at (mean X0 Y0) (block y0 x0 s) j).
    { intros y0 x0 s Hy0' Hx0' Hs HP.
      destruct (Hblock y0 x0 s Hy0' Hx0' Hs) as (_ & _ & Hout & Hin).
      apply for_range_spec in Hy0' as [Hy0r Hy0m]; [|reflexivity].
      apply for_range_spec in Hx0' as [Hx0r Hx0m]; [|reflexivity].
      rewrite Z.sub_0_r in Hy0m, Hx0m.
      destruct (decide (x0 <= x < x0 + blockSize /\ y0 <= y < y0 + blockSize))
        as [[Hxb Hyb]|Hnot].
      - assert (x0 = X0) as -> by (apply block_origin_unique; assumption).
        assert (y0 = Y0) as -> by (apply block_origin_unique; assumption).
        apply Hin; lia.
      - unfold gray_at in * . unfold j in * .
        pose proof (Hout x y 0 Hx Hy ltac:(lia) Hnot) as E0.
        pose proof (Hout x y 1 Hx Hy ltac:(lia) Hnot) as E1.
        pose proof (Hout x y 2 Hx Hy ltac:(lia) Hnot) as E2.
        pose proof (Hout x y 3 Hx Hy ltac:(lia) Hnot) as E3.
        rewrite Z.add_0_r in E0. rewrite E0, E1, E2, E3. exact HP. }
    split; [apply (Hblock Y0 X0 out Hy0 Hx0 Hlen)|].
    apply (for_loop_establish I (fun o => gray_at (mean X0 Y0) o j)
             0 h blockSize _ out Y0).
    + exact Hy0.
    + exact Hlen.
    + intros y0 o Hy0' Ho. apply Hrow_I; assumption.
    + intros o Ho.
      apply (for_loop_establish I (fun o => gray_at (mean X0 Y0) o j)
               0 w blockSize _ o X0).
      * exact Hx0.
      * exact Ho.
      * intros x0 o' Hx0' Ho'. apply Hblock; assumption.
      * intros o' Ho'. destruct (Hblock Y0 X0 o' Hy0 Hx0 Ho') as (_ & _ & _ & H3).
        apply H3; lia.
      * intros x0 o' Hx0' Ho' HP. apply Hkeep; assumption.
    + intros y0 o Hy0' Ho HP.
      apply (for_loop_inv (fun o => I o /\ gray_at (mean X0 Y0) o j)); [split; assumption|].
      intros x0 o' Hx0' [Ho' HP']. split; [apply Hblock; assumption|].
      apply Hkeep; assumption.
Qed.

(** X19.  [pixelateImage] on any well-formed raster, when the output
    buffer can be allocated, returns a new buffer of the same size in
    which every pixel is the opaque gray level of its 12 x 12 block
    (cut off at the right and bottom edges): the mean of channel 0 of
    the input over the block, rounded to the nearest integer with halves
    upwards, exactly, although the code divides in floating point.  So
    the output is constant on every block.  The input is untouched. *)
Theorem pixelateImage_block_mean (σ : World) (l : ref) (img : Raster) :
  heap σ !! l = Some img -> wf_raster img -> head (gfx σ) <> Some false ->
  exists σ' o out,
    pixelateImage (Some l) σ = (σ', Ret (Some o)) /\
    heap σ !! o = None /\
    heap σ' !! o = Some out /\ heap σ' !! l = Some img /\
    width out = width img /\ height out = height img /\
    (forall x y, 0 <= x < width img -> 0 <= y < height img ->
       let x0 := x - x mod blockSize in
       let y0 := y - y mod blockSize in
       let bw := Z.min blockSize (width img - x0) in
       let bh := Z.min blockSize (height img - y0) in
       let avg := rounded_mean (block_sum (width img) (pixels img) x0 y0 bw bh) (bw * bh) in
       0 <= avg <= 255 /\
       pixel_at (pixels out) (y * width img + x) avg avg avg 255).
Proof.
  intros Hl Hwf Hg. pose proof Hwf as (Hw & Hh & Hlen & _).
  unfold pixelateImage, bind, deref. rewrite Hl.
  rewrite safeCreateGraphics_ok by exact Hg.
  unfold update_pixels, ret. cbn [heap gfx]. rewrite lookup_insert_eq.
  eexists _, _, _. split; [reflexivity|]. cbn [heap].
  split; [apply fresh_not_in_heap|].
  rewrite lookup_insert_eq. split; [reflexivity|].
  split.
  { rewrite !lookup_insert_ne; [exact Hl|..].
    all: intros E; pose proof (fresh_not_in_heap (heap σ)) as F;
      rewrite E in F; rewrite Hl in F; discriminate. }
  cbn [width height pixels blank]. split; [reflexivity|]. split; [reflexivity|].
  destruct (pixelate_loop_mean (width img) (height img) (pixels img)
              (replicate (Z.to_nat (4 * (width img * height img))) 0)) as [_ Hpx].
  { intros i. apply wf_raster_byte. exact Hwf. }
  { unfold len. rewrite length_replicate. nia. }
  intros x y Hx Hy. cbv zeta. destruct (Hpx x y Hx Hy) as [Ha Hgray].
  split; [exact Ha|]. unfold pixel_at. unfold gray_at in Hgray.
  replace (4 * (y * width img + x)) with ((y * width img + x) * 4) by ring.
  exact Hgray.
Qed.

Lemma pixelateImage_block_mean_witness :
  exists σ' o out,
    pixelateImage (Some 0%nat)
      (mkWorld {[ 0%nat := mkRaster 2 1 [10; 200; 30; 255; 13; 0; 0; 7] ]} [])
    = (σ', Ret (Some o)) /\
    pixel_at (pixels out) 0 12 12 12 255 /\ pixel_at (pixels out) 1 12 12 12 255.
Proof.
  destruct (pixelateImage_block_mean
              (mkWorld {[ 0%nat := mkRaster 2 1 [10; 200; 30; 255; 13; 0; 0; 7] ]} [])
              0%nat (mkRaster 2 1 [10; 200; 30; 255; 13; 0; 0; 7]))
    as (σ' & o & out & Hrun & _ & _ & _ & _ & _ & Hpx).
  - reflexivity.
  - repeat split; simpl; try lia. repeat constructor; lia.
  - simpl. discriminate.
  - exists σ', o, out. split; [exact Hrun|].
    split.
    + apply (Hpx 0 0); simpl; lia.
    + apply (Hpx 1 0); simpl; lia.
Defined.

(** ** Brightness of the grayscale transform *)

(** A literal times a byte. *)
Lemma lit_times_byte (x : Q) (R : Z) :
  (0 <= x)%Q -> (x <= 2)%Q -> 0 <= R <= 255 ->
  (x * inject_Z R - 512 * u53 <= lit x * inject_Z R)%Q /\
  (lit x * inject_Z R <= x * inject_Z R + 512 * u53)%Q.
Proof.
  intros Hx0 Hx2 HR. unfold lit.
  destruct (fl_near x 2) as [F1 F2].
  { apply Qabs_Qle_condition. split; lra. }
  destruct (inject_Z_bounds R 0 255 HR) as [R1 R2].
  change (inject_Z 0) with 0%Q in R1. change (inject_Z 255) with 255%Q in R2.
  set (r := inject_Z R) in * . set (A := JS.fl x) in * .
  assert (E1 : (0 <= (A - (x - 2 * u53)) * r)%Q).
  { apply Qmult_le_0_compat; lra. }
  assert (E2 : (0 <= (x + 2 * u53 - A) * r)%Q).
  { apply Qmult_le_0_compat; lra. }
  assert (E3 : (0 <= (2 * u53) * (255 - r))%Q).
  { apply Qmult_le_0_compat; [unfold u53|]; lra. }
  unfold u53 in * . split; lra.
Qed.

(** The brightened luminance of a pixel whose channels lie between [m]
    and [M] lies between [1.2 m] and [1.2 M], up to the rounding of the
    six operations. *)
Lemma brightenedGray_bounds (R G B m M : Z) :
  0 <= m -> M <= 255 -> m <= R <= M -> m <= G <= M -> m <= B <= M ->
  let v := (lit 0.299 *. R +. lit 0.587 *. G +. lit 0.114 *. B) *. lit 1.2 in
  ((12 # 10) * inject_Z m - (1 # 100) <= v)%Q /\
  (v <= (12 # 10) * inject_Z M + (1 # 100))%Q.
Proof.
  intros Hm HM HR HG HB. cbv zeta.
  destruct (lit_times_byte 0.299 R) as [A1 A2]; [lra|lra|lia|].
  destruct (lit_times_byte 0.587 G) as [B1 B2]; [lra|lra|lia|].
  destruct (lit_times_byte 0.114 B) as [C1 C2]; [lra|lra|lia|].
  destruct (inject_Z_bounds R m M HR) as [R1 R2].
  destruct (inject_Z_bounds G m M HG) as [G1 G2].
  destruct (inject_Z_bounds B m M HB) as [B1' B2'].
  destruct (inject_Z_bounds m 0 255 ltac:(lia)) as [m1 m2].
  destruct (inject_Z_bounds M 0 255 ltac:(lia)) as [M1 M2].
  change (inject_Z 0) with 0%Q in * . change (inject_Z 255) with 255%Q in * .
  set (r := inject_Z R) in * . set (g := inject_Z G) in * . set (b := inject_Z B) in * .
  set (mq := inject_Z m) in * . set (Mq := inject_Z M) in * .
  unfold JS.fmul, JS.fadd.
  set (x1 := (lit 0.299 * r)%Q) in * .
  set (x2 := (lit 0.587 * g)%Q) in * .
  set (x3 := (lit 0.114 * b)%Q) in * .
  unfold u53 in A1, A2, B1, B2, C1, C2.
  destruct (fl_near x1 512) as [T1 T1']; [apply Qabs_Qle_condition; split; lra|].
  destruct (fl_near x2 512) as [T2 T2']; [apply Qabs_Qle_condition; split; lra|].
  destruct (fl_near x3 512) as [T3 T3']; [apply Qabs_Qle_condition; split; lra|].
  unfold u53 in T1, T1', T2, T2', T3, T3'.
  set (t1 := JS.fl x1) in * . set (t2 := JS.fl x2) in * . set (t3 := JS.fl x3) in * .
  destruct (fl_near (t1 + t2) 512) as [S1 S1']; [apply Qabs_Qle_condition; split; lra|].
  unfold u53 in S1, S1'. set (s1 := JS.fl (t1 + t2)) in * .
  destruct (fl_near (s1 + t3) 512) as [S2 S2']; [apply Qabs_Qle_condition; split; lra|].
  unfold u53 in S2, S2'. set (s2 := JS.fl (s1 + t3)) in * .
  (* the luminance *)
  assert (L1 : (mq - (1 # 1000000) <= s2)%Q) by lra.
  assert (L2 : (s2 <= Mq + (1 # 1000000))%Q) by lra.
  (* times 1.2 *)
  change (lit 1.2) with (JS.fl 1.2).
  destruct (fl_near 1.2 2) as [K1 K2]; [apply Qabs_Qle_condition; split; lra|].
  unfold u53 in K1, K2. set (k := JS.fl 1.2) in * .
  assert (P1 : (0 <= (k - (1.2 - (1 # 1000000))) * (s2 + 1))%Q).
  { apply Qmult_le_0_compat; lra. }
  assert (P2 : (0 <= ((1.2 + (1 # 1000000)) - k) * (s2 + 1))%Q).
  { apply Qmult_le_0_compat; lra. }
  assert (P3 : (0 <= (1 # 1000000) * (257 - s2))%Q).
  { apply Qmult_le_0_compat; lra. }
  assert (P4 : (0 <= (1 # 1000000) * (s2 + 1))%Q).
  { apply Qmult_le_0_compat; lra. }
  destruct (fl_near (s2 * k) 512) as [V1 V2]; [apply Qabs_Qle_condition; split; lra|].
  unfold u53 in V1, V2. split; lra.
Qed.

(** The byte stored for a brightened luminance between [1.2 m] and
    [1.2 M]. *)
Lemma clampedGray_level (v : Q) (m M : Z) :
  0 <= m -> m <= M -> M <= 255 ->
  ((12 # 10) * inject_Z m - (1 # 100) <= v)%Q ->
  (v <= (12 # 10) * inject_Z M + (1 # 100))%Q ->
  Z.min 255 ((12 * m + 5) / 10) <= JS.toUint8Clamped (JS.Math_min 255 v)
  <= Z.min 255 ((12 * M + 5) / 10).
Proof.
  intros Hm HmM HM V1 V2.
  set (Km := (12 * m + 5) / 10). set (KM := (12 * M + 5) / 10).
  pose proof (Z.div_mod (12 * m + 5) 10 ltac:(lia)) as Em.
  pose proof (Z.mod_pos_bound (12 * m + 5) 10 ltac:(lia)) as Bm.
  pose proof (Z.div_mod (12 * M + 5) 10 ltac:(lia)) as EM.
  pose proof (Z.mod_pos_bound (12 * M + 5) 10 ltac:(lia)) as BM.
  fold Km in Em. fold KM in EM.
  assert (Hm1 : 10 * Km + 1 <= 12 * m + 5 <= 10 * Km + 9) by lia.
  assert (HM1 : 10 * KM + 1 <= 12 * M + 5 <= 10 * KM + 9) by lia.
  clear Em Bm EM BM.
  assert (Qm : (10 * inject_Z Km + 1 <= 12 * inject_Z m + 5)%Q).
  { destruct Hm1 as [H _]. rewrite Zle_Qle in H.
    rewrite !inject_Z_plus, !inject_Z_mult in H. exact H. }
  assert (QM : (12 * inject_Z M + 5 <= 10 * inject_Z KM + 9)%Q).
  { destruct HM1 as [_ H]. rewrite Zle_Qle in H.
    rewrite !inject_Z_plus, !inject_Z_mult in H. exact H. }
  unfold JS.Math_min. destruct (Qle_bool 255 v) eqn:E.
  - apply Qle_bool_iff in E.
    change 255%Q with (inject_Z 255) at 1 2. rewrite toUint8Clamped_byte by lia.
    assert (H213 : 213 <= M).
    { destruct (Z_le_gt_dec 213 M) as [H|H]; [exact H|exfalso].
      assert (H' : M <= 212) by lia. rewrite Zle_Qle in H'.
      change (inject_Z 212) with 212%Q in H'. lra. }
    lia.
  - assert (E' : (v < 255)%Q).
    { apply Qnot_le_lt. intros H. apply Qle_bool_iff in H. congruence. }
    destruct (round_half_even_err v) as [R1 R2].
    set (z := JS.round_half_even v) in * .
    assert (Hlo : Km <= z).
    { destruct (Z_le_gt_dec Km z) as [H|H]; [exact H|exfalso].
      assert (H' : z <= Km - 1) by lia. rewrite Zle_Qle in H'.
      rewrite inject_Z_sub in H'. change (inject_Z 1) with 1%Q in H'. lra. }
    assert (Hhi : z <= KM).
    { destruct (Z_le_gt_dec z KM) as [H|H]; [exact H|exfalso].
      assert (H' : KM + 1 <= z) by lia. rewrite Zle_Qle in H'.
      rewrite inject_Z_plus in H'. change (inject_Z 1) with 1%Q in H'. lra. }
    unfold JS.toUint8Clamped. fold z. lia.
Qed.

(** X20.  [createGrayscaleWithBrightness] brightens: in its output every
    pixel is an opaque gray level [g] that lies between [1.2 m] and
    [1.2 M] rounded to the nearest integer and capped at 255, where [m]
    and [M] are the smallest and the largest colour channel of the input
    pixel.  So [g] is never below the darkest channel, and a gray pixel
    of level [c] becomes exactly the level [min(255, round(1.2 c))]. *)
Theorem createGrayscaleWithBrightness_brightens
    (σ : World) (l : ref) (img : Raster) :
  heap σ !! l = Some img -> wf_raster img -> head (gfx σ) <> Some false ->
  exists σ' o out,
    createGrayscaleWithBrightness (Some l) σ = (σ', Ret (Some o)) /\
    heap σ' !! o = Some out /\
    (forall p, 0 <= p < width img * height img ->
       let R := rd (pixels img) (4 * p) in
       let G := rd (pixels img) (4 * p + 1) in
       let B := rd (pixels img) (4 * p + 2) in
       let m := Z.min R (Z.min G B) in
       let M := Z.max R (Z.max G B) in
       exists g,
         pixel_at (pixels out) p g g g 255 /\
         Z.min 255 ((12 * m + 5) / 10) <= g <= Z.min 255 ((12 * M + 5) / 10) /\
         m <= g /\
         (R = G -> G = B -> g = Z.min 255 ((12 * R + 5) / 10))).
Proof.
  intros Hl Hwf Hgfx. pose proof Hwf as (Hw & Hh & Hlen & _).
  unfold createGrayscaleWithBrightness, bind, deref. rewrite Hl.
  rewrite safeCreateGraphics_ok by exact Hgfx.
  unfold update_pixels, ret. cbn [heap gfx].
  rewrite lookup_insert_eq.
  eexists _, _, _. split; [reflexivity|]. cbn [heap].
  rewrite lookup_insert_eq. split; [reflexivity|].
  cbn [width height pixels blank].
  intros p Hp. cbv zeta.
  destruct (grayscale_loop_at (pixels img)
              (replicate (Z.to_nat (4 * (width img * height img))) 0) p)
    as (H0 & H1 & H2 & H3).
  { pose proof (len_blank (width img) (height img) Hw Hh) as Hb.
    unfold blank in Hb. cbn [pixels] in Hb. unfold len in Hb, Hlen |- * ; lia. }
  { lia. }
  { unfold len. lia. }
  cbv zeta in H0, H1, H2, H3.
  pose proof (wf_raster_byte img (4 * p) Hwf) as HR.
  pose proof (wf_raster_byte img (4 * p + 1) Hwf) as HG.
  pose proof (wf_raster_byte img (4 * p + 2) Hwf) as HB.
  set (R := rd (pixels img) (4 * p)) in * .
  set (G := rd (pixels img) (4 * p + 1)) in * .
  set (B := rd (pixels img) (4 * p + 2)) in * .
  set (m := Z.min R (Z.min G B)). set (M := Z.max R (Z.max G B)).
  assert (Hm : m = Z.min R (Z.min G B)) by reflexivity.
  assert (HM : M = Z.max R (Z.max G B)) by reflexivity.
  destruct (brightenedGray_bounds R G B m M) as [V1 V2]; try lia.
  cbv zeta in V1, V2.
  pose proof (clampedGray_level _ m M ltac:(lia) ltac:(lia) ltac:(lia) V1 V2) as Hg.
  match type of H0 with _ = ?g => exists g end.
  split; [unfold pixel_at; auto|]. split; [exact Hg|].
  assert (Hmk : m <= (12 * m + 5) / 10).
  { pose proof (Z.div_mod (12 * m + 5) 10 ltac:(lia)).
    pose proof (Z.mod_pos_bound (12 * m + 5) 10 ltac:(lia)). lia. }
  split; [lia|].
  intros E1 E2. assert (m = R) as Em by lia. assert (M = R) as EM by lia.
  rewrite Em, EM in Hg. lia.
Qed.

Lemma createGrayscaleWithBrightness_brightens_witness :
  exists σ' o out,
    createGrayscaleWithBrightness (Some 0%nat)
      (mkWorld {[ 0%nat := mkRaster 2 1 [100; 100; 100; 255; 250; 240; 230; 255] ]} [])
    = (σ', Ret (Some o)) /\
    heap σ' !! o = Some out /\
    pixel_at (pixels out) 0 120 120 120 255 /\ rd (pixels out) 4 = 255.
Proof.
  destruct (createGrayscaleWithBrightness_brightens
              (mkWorld {[ 0%nat := mkRaster 2 1 [100; 100; 100; 255; 250; 240; 230; 255] ]} [])
              0%nat (mkRaster 2 1 [100; 100; 100; 255; 250; 240; 230; 255]))
    as (σ' & o & out & Hrun & Hout & Hpx).
  - reflexivity.
  - repeat split; simpl; try lia. repeat constructor; lia.
  - simpl. discriminate.
  - exists σ', o, out. split; [exact Hrun|]. split; [exact Hout|].
    destruct (Hpx 0) as (g0 & P0 & _ & _ & E0); [simpl; lia|].
    destruct (Hpx 1) as (g1 & P1 & B1 & _); [simpl; lia|].
    specialize (E0 eq_refl eq_refl). subst g0.
    split; [exact P0|]. destruct P1 as (P1 & _). change (4 * 1) with 4 in P1.
    rewrite P1. destruct B1 as [B1 B1'].
    change (255 <= g1) in B1. change (g1 <= 255) in B1'. lia.
Defined.

(** ** The filter step *)

Lemma keeps_blurImage filter_BLUR σ0 img radius :
  keeps σ0 (blurImage filter_BLUR img radius)
    (fun res => res = img \/ exists o, res = Some o /\ heap σ0 !! o = None).
Proof.
  unfold blurImage.
  eapply keeps_bind; [apply keeps_deref|]. intros i _.
  eapply keeps_bind; [apply keeps_safeCreateGraphics|]. intros [o|] Ho.
  - specialize (Ho o eq_refl).
    eapply keeps_bind; [apply keeps_update_pixels; exact Ho|]. intros _ _.
    eapply keeps_bind; [apply keeps_update_pixels; exact Ho|]. intros _ _.
    apply keeps_ret. right. eauto.
  - apply keeps_ret. left. reflexivity.
Qed.

Lemma keeps_processFace filter_BLUR σ0 faceImg filterType :
  keeps σ0 (processFace filter_BLUR faceImg filterType) (filter_result σ0 faceImg).
Proof.
  unfold processFace. destruct faceImg as [l|]; [|apply keeps_ret; left; reflexivity].
  assert (Hret : keeps σ0 (ret (Some l)) (filter_result σ0 (Some l))).
  { apply keeps_ret. left. reflexivity. }
  assert (Hgray : keeps σ0 (createGrayscaleWithBrightness (Some l))
                    (fun res => res = None \/ exists o, res = Some o /\ heap σ0 !! o = None)).
  { unfold createGrayscaleWithBrightness.
    apply (keeps_safe_transform σ0 (Some l) None
             (fun o i => update_pixels o (grayscale_loop (pixels i)))).
    intros o i Ho. apply keeps_update_pixels. exact Ho. }
  apply keeps_try_catch; [|exact Hret].
  assert (H1 : keeps σ0 (createGrayscaleWithBrightness (Some l)) (filter_result σ0 (Some l))).
  { eapply keeps_weaken; [exact Hgray|]. intros res [->|H]; right; [left|right]; auto. }
  assert (H2 : keeps σ0 (let* blurredFace := blurImage filter_BLUR (Some l) 25 in
                         ret blurredFace) (filter_result σ0 (Some l))).
  { eapply keeps_bind; [apply keeps_blurImage|].
    intros res [->|H]; apply keeps_ret; [left|right; right]; auto. }
  assert (H3 : keeps σ0 (let* hsv := convertToHSV (Some l) in ret (Some hsv))
                 (filter_result σ0 (Some l))).
  { eapply keeps_bind.
    - unfold convertToHSV.
      apply (keeps_unsafe_transform σ0 (Some l) (fun i => hsv_loop (pixels i))).
    - intros o Ho. apply keeps_ret. right. right. eauto. }
  assert (H4 : keeps σ0 (let* grayscaleFace := createGrayscaleWithBrightness (Some l) in
                         let* pixelatedFace := pixelateImage grayscaleFace in
                         ret pixelatedFace) (filter_result σ0 (Some l))).
  { eapply keeps_bind; [exact Hgray|]. intros g Hg.
    eapply keeps_bind.
    - unfold pixelateImage.
      apply (keeps_safe_transform σ0 g g
               (fun o i => update_pixels o
                             (pixelate_loop (width i) (height i) (pixels i)))).
      intros o i Ho. apply keeps_update_pixels. exact Ho.
    - intros res Hres. apply keeps_ret.
      destruct Hres as [->|H]; [|right; right; exact H].
      destruct Hg as [->|H]; right; [left|right]; auto. }
  repeat match goal with
         | |- context [match ?p with _ => _ end] => destruct p
         end;
    first [exact Hret | exact H1 | exact H2 | exact H3 | exact H4].
Qed.

(** X21.  [processFace] never raises and changes no buffer that existed
    before the call; what it returns is its argument, null, or a buffer
    that did not exist before, never another existing buffer.  With a
    filter type outside 1..4, and with no face image, it returns its
    argument and does nothing. *)
Theorem processFace_safe
    (filter_BLUR : Z -> Raster -> list Z) (faceImg : option ref) (filterType : Z)
    (σ : World) :
  exists res,
    snd (processFace filter_BLUR faceImg filterType σ) = Ret res /\
    unchanged σ (fst (processFace filter_BLUR faceImg filterType σ)) /\
    (res = faceImg \/ res = None \/ exists o, res = Some o /\ heap σ !! o = None) /\
    (filterType < 1 \/ 4 < filterType \/ faceImg = None ->
     processFace filter_BLUR faceImg filterType σ = (σ, Ret faceImg)).
Proof.
  assert (Hid : unchanged σ σ) by (intros k r Hk; exact Hk).
  destruct (keeps_processFace filter_BLUR σ faceImg filterType σ Hid) as [Hun Hres].
  assert (Hnr : exists v, snd (processFace filter_BLUR faceImg filterType σ) = Ret v).
  { unfold processFace. destruct faceImg as [l|]; [|eexists; reflexivity].
    unfold try_catch.
    match goal with |- context [match ?m σ with _ => _ end] => destruct (m σ) as [σ1 [a|]] end;
      eexists; reflexivity. }
  destruct Hnr as [res Hr]. exists res. rewrite Hr in Hres.
  split; [exact Hr|]. split; [exact Hun|]. split; [exact Hres|].
  intros Hf. unfold processFace. destruct faceImg as [l|]; [|reflexivity].
  destruct Hf as [Hf|[Hf|Hf]]; [| |discriminate].
  - destruct filterType as [|p|p]; [reflexivity|lia|reflexivity].
  - destruct filterType as [|p|p]; [lia| |lia].
    destruct p as [[p|p|]|[p|p|]|]; try lia; try reflexivity.
    all: destruct p; try lia; reflexivity.
Qed.

(** ** Captures and their processing *)

Lemma captured_frames_snoc (Frame : Type) es e :
  captured_frames Frame (es ++ [e]) =
  captured_frames Frame es ++
    match e with CaptureClick _ true frame => [frame] | _ => [] end.
Proof.
  unfold captured_frames. rewrite omap_app. f_equal.
  destruct e as [[|] f| | |]; reflexivity.
Qed.

Lemma capture_inv_step (Frame : Type) es e a :
  capture_inv Frame es a -> capture_inv Frame (es ++ [e]) (step Frame a e).
Proof.
  intros (Hlast & Hsub & Hfly). unfold capture_inv.
  rewrite captured_frames_snoc.
  destruct a as [ci ic pt pr tr].
  cbn [capturedImage isCapturing pendingTimeouts processed] in * .
  destruct e as [[|] f| | |cameraActive videoReady];
    cbn [step capturedImage isCapturing pendingTimeouts processed].
  - (* a capture with the camera ready *)
    split; [rewrite last_snoc; reflexivity|].
    split; [apply sublist_inserts_r; exact Hsub|].
    intros _. split; [lia|]. exists f. split; [reflexivity|].
    apply sublist_app; [exact Hsub|reflexivity].
  - rewrite app_nil_r. auto.
  - rewrite app_nil_r. split; [exact Hlast|]. split; [exact Hsub|]. discriminate.
  - rewrite app_nil_r. destruct pt as [|n].
    + cbn [capturedImage isCapturing pendingTimeouts processed]. auto.
    + cbn [capturedImage isCapturing pendingTimeouts processed].
      destruct ic; cbn [capturedImage isCapturing pendingTimeouts processed].
      * destruct (Hfly eq_refl) as (_ & f & -> & Hf).
        unfold processImages. cbn [capturedImage isCapturing pendingTimeouts processed].
        split; [exact Hlast|]. split; [exact Hf|]. discriminate.
      * split; [exact Hlast|]. split; [exact Hsub|]. discriminate.
  - rewrite app_nil_r.
    destruct (cameraActive && videoReady && negb ic);
      cbn [capturedImage isCapturing pendingTimeouts processed]; auto.
Qed.

Lemma capture_inv_run (Frame : Type) es :
  capture_inv Frame es (run Frame (initialApp Frame) es).
Proof.
  induction es as [|e es IH] using rev_ind.
  - unfold capture_inv. cbn. split; [reflexivity|]. split; [constructor|]. discriminate.
  - unfold run. rewrite fold_left_app. cbn [fold_left].
    apply capture_inv_step. exact IH.
Qed.

(** X22.  In every run of the capture events from the initial state the
    frame held in [capturedImage] is the one captured last; the frames
    handed to [processImages] are captured frames, processed in the
    order of capture and each capture at most once; and whenever
    [isCapturing] is set, the callback that will clear it is pending and
    the frame captured last has not been processed yet. *)
Theorem capture_processing_invariant (Frame : Type) (es : list (Event Frame)) :
  let a := run Frame (initialApp Frame) es in
  capturedImage Frame a = last (captured_frames Frame es) /\
  processed Frame a `sublist_of` captured_frames Frame es /\
  (length (processed Frame a) <= length (captured_frames Frame es))%nat /\
  (isCapturing Frame a = true ->
   (0 < pendingTimeouts Frame a)%nat /\
   exists f, capturedImage Frame a = Some f /\
             (processed Frame a ++ [f]) `sublist_of` captured_frames Frame es).
Proof.
  cbv zeta. destruct (capture_inv_run Frame es) as (H1 & H2 & H3).
  split; [exact H1|]. split; [exact H2|]. split; [|exact H3].
  apply sublist_length. exact H2.
Qed.

(** ** Filter 4: grayscale, then pixelation *)

(** A transform that allocates with [safeCreateGraphics], when the
    allocation succeeds. *)
Lemma safe_transform_run σ l img dflt (loop : Raster -> list Z -> list Z) :
  heap σ !! l = Some img -> head (gfx σ) <> Some false ->
  (let* i := deref (Some l) in
   let* output := safeCreateGraphics (width i) (height i) in
   match output with
   | None => ret dflt
   | Some o => let* _ := update_pixels o (loop i) in ret (Some o)
   end) σ
  = (mkWorld (<[fresh (dom (heap σ)) :=
                  mkRaster (width img) (height img)
                    (loop img (pixels (blank (width img) (height img))))]> (heap σ))
             (tail (gfx σ)),
     Ret (Some (fresh (dom (heap σ))))).
Proof.
  intros Hl Hg. unfold bind at 1. unfold deref. rewrite Hl.
  unfold bind at 1. rewrite safeCreateGraphics_ok by exact Hg.
  unfold bind at 1. unfold update_pixels. cbn [heap gfx].
  rewrite lookup_insert_eq. rewrite insert_insert_eq. reflexivity.
Qed.

Lemma Forall_byte_wr (a : list Z) (i : Z) (v : Q) :
  Forall (fun v => 0 <= v <= 255) a -> Forall (fun v => 0 <= v <= 255) (wr a i v).
Proof.
  intros H. unfold wr. destruct (i <? 0); [exact H|].
  apply Forall_insert; [exact H|]. apply toUint8Clamped_range.
Qed.

Lemma rd_byte (a : list Z) (i : Z) :
  Forall (fun v => 0 <= v <= 255) a -> 0 <= rd a i <= 255.
Proof.
  intros H. unfold rd. destruct (i <? 0); [lia|].
  destruct (a !! Z.to_nat i) as [v|] eqn:E; cbn [default]; [|lia].
  rewrite Forall_forall in H. apply H. eapply list_elem_of_lookup_2. exact E.
Qed.

Lemma sumZ_const (c : Z) (l : list Z) :
  sumZ (map (fun _ => c) l) = c * Z.of_nat (length l).
Proof.
  induction l as [|j l IH]; unfold sumZ in * ; cbn [map fold_right length]; [lia|].
  rewrite IH. lia.
Qed.

Lemma sumZ_ext (f g : Z -> Z) (l : list Z) :
  (forall j, In j l -> f j = g j) -> sumZ (map f l) = sumZ (map g l).
Proof.
  intros H. f_equal. apply map_ext_in. exact H.
Qed.

Lemma Zrange_bounds lo n x : In x (Zrange lo n) -> lo <= x < lo + Z.of_nat n.
Proof.
  unfold Zrange. intros H. apply in_map_iff in H as (i & <- & Hi).
  apply in_seq in Hi. lia.
Qed.

(** The sum over a block whose pixels all hold [c]. *)
Lemma block_sum_uniform w h src c x0 y0 bw bh :
  0 <= x0 -> 0 <= y0 -> 0 <= bw -> 0 <= bh -> x0 + bw <= w -> y0 + bh <= h ->
  (forall p, 0 <= p < w * h -> rd src (p * 4) = c) ->
  block_sum w src x0 y0 bw bh = c * (bw * bh).
Proof.
  intros Hx0 Hy0 Hbw Hbh Hxw Hyh Hu. unfold block_sum.
  rewrite (sumZ_ext _ (fun _ => c * bw)).
  - rewrite sumZ_const, length_Zrange. rewrite Z2Nat.id by lia. ring.
  - intros by_ Hby. apply Zrange_bounds in Hby.
    rewrite (sumZ_ext _ (fun _ => c)).
    + rewrite sumZ_const, length_Zrange. rewrite Z2Nat.id by lia. ring.
    + intros bx Hbx. apply Zrange_bounds in Hbx. apply Hu. nia.
Qed.

Lemma rounded_mean_copies (c n : Z) : 0 < n -> rounded_mean (c * n) n = c.
Proof.
  intros Hn. unfold rounded_mean.
  symmetry. apply (Z.div_unique_pos _ _ c n); lia.
Qed.

(** X23.  Filter 4 composes the two transforms: with no allocation
    failure, [processFace] with filter 4 leaves the face image as it is,
    makes a grayscale buffer that holds the brightened gray level of
    every pixel of the face, and returns a third, new buffer of the same
    size in which every pixel holds the rounded mean of those gray
    levels over its 12 x 12 block.  On a face of one colour the result
    has that colour's gray level everywhere. *)
Theorem processFace_pixelate_composition
    (filter_BLUR : Z -> Raster -> list Z) (σ : World) (l : ref) (img : Raster) :
  heap σ !! l = Some img -> wf_raster img -> gfx σ = [] ->
  exists σ' g gray o out,
    processFace filter_BLUR (Some l) 4 σ = (σ', Ret (Some o)) /\
    heap σ !! g = None /\ heap σ !! o = None /\ g <> o /\
    heap σ' !! l = Some img /\ heap σ' !! g = Some gray /\ heap σ' !! o = Some out /\
    width out = width img /\ height out = height img /\
    (forall p, 0 <= p < width img * height img ->
       let c := brightened_level (rd (pixels img) (4 * p)) (rd (pixels img) (4 * p + 1))
                                 (rd (pixels img) (4 * p + 2)) in
       pixel_at (pixels gray) p c c c 255) /\
    (forall x y, 0 <= x < width img -> 0 <= y < height img ->
       let x0 := x - x mod blockSize in
       let y0 := y - y mod blockSize in
       let bw := Z.min blockSize (width img - x0) in
       let bh := Z.min blockSize (height img - y0) in
       let avg := rounded_mean (block_sum (width img) (pixels gray) x0 y0 bw bh) (bw * bh) in
       pixel_at (pixels out) (y * width img + x) avg avg avg 255) /\
    (forall r g' b, uniform img r g' b 255 ->
       uniform out (brightened_level r g' b) (brightened_level r g' b)
                   (brightened_level r g' b) 255).
Proof.
  intros Hl Hwf Hg. pose proof Hwf as (Hw & Hh & Hlen & _).
  set (W := width img) in * . set (H := height img) in * .
  set (g := fresh (dom (heap σ))).
  set (graypx := grayscale_loop (pixels img) (pixels (blank W H))).
  set (gray := mkRaster W H graypx).
  set (σ1 := mkWorld (<[g := gray]> (heap σ)) (tail (gfx σ))).
  set (o := fresh (dom (heap σ1))).
  set (outpx := pixelate_loop W H graypx (pixels (blank W H))).
  set (out := mkRaster W H outpx).
  set (σ2 := mkWorld (<[o := out]> (heap σ1)) (tail (gfx σ1))).
  assert (Hg1 : head (gfx σ) <> Some false) by (rewrite Hg; discriminate).
  assert (Hg2 : head (gfx σ1) <> Some false) by (unfold σ1; cbn [gfx]; rewrite Hg; discriminate).
  assert (Hgfresh : heap σ !! g = None) by apply fresh_not_in_heap.
  assert (Hofresh1 : heap σ1 !! o = None) by apply fresh_not_in_heap.
  assert (Hgl : g <> l) by (intros E; rewrite E in Hgfresh; congruence).
  assert (Hgo : g <> o).
  { intros E. unfold σ1 in Hofresh1. cbn [heap] in Hofresh1. rewrite <- E in Hofresh1.
    rewrite lookup_insert_eq in Hofresh1. discriminate. }
  assert (Hofresh : heap σ !! o = None).
  { unfold σ1 in Hofresh1. cbn [heap] in Hofresh1.
    rewrite lookup_insert_ne in Hofresh1 by exact Hgo. exact Hofresh1. }
  assert (Hol : o <> l) by (intros E; rewrite E in Hofresh; congruence).
  assert (Hrun1 : createGrayscaleWithBrightness (Some l) σ = (σ1, Ret (Some g))).
  { unfold createGrayscaleWithBrightness.
    apply (safe_transform_run σ l img None (fun i => grayscale_loop (pixels i)) Hl Hg1). }
  assert (Hgray1 : heap σ1 !! g = Some gray).
  { unfold σ1. cbn [heap]. apply lookup_insert_eq. }
  assert (Hrun2 : pixelateImage (Some g) σ1 = (σ2, Ret (Some o))).
  { unfold pixelateImage.
    apply (safe_transform_run σ1 g gray (Some g)
             (fun i => pixelate_loop (width i) (height i) (pixels i)) Hgray1 Hg2). }
  (* the gray levels *)
  assert (Hgraypx : forall p, 0 <= p < W * H ->
            pixel_at graypx p
              (brightened_level (rd (pixels img) (4 * p)) (rd (pixels img) (4 * p + 1))
                                (rd (pixels img) (4 * p + 2)))
              (brightened_level (rd (pixels img) (4 * p)) (rd (pixels img) (4 * p + 1))
                                (rd (pixels img) (4 * p + 2)))
              (brightened_level (rd (pixels img) (4 * p)) (rd (pixels img) (4 * p + 1))
                                (rd (pixels img) (4 * p + 2))) 255).
  { intros p Hp. destruct (wf_raster_pixel img p Hwf Hp) as [Hp0 Hp3].
    exact (grayscale_loop_at (pixels img) (pixels (blank W H)) p
             (len_blank_pixels img Hwf) ltac:(lia) Hp3). }
  assert (Hgraylen : len graypx = 4 * (W * H)).
  { unfold graypx, grayscale_loop.
    apply (for_loop_inv (fun o => len o = 4 * (W * H))); [apply len_blank; assumption|].
    intros i s _ Hs. cbv zeta. rewrite !len_wr. exact Hs. }
  assert (Hgraybyte : forall i, 0 <= rd graypx i <= 255).
  { intros i. apply rd_byte. unfold graypx, grayscale_loop.
    apply (for_loop_inv (Forall (fun v => 0 <= v <= 255))).
    - unfold blank. cbn [pixels]. apply Forall_replicate. lia.
    - intros j s _ Hs. cbv zeta. repeat apply Forall_byte_wr. exact Hs. }
  destruct (pixelate_loop_mean W H graypx (pixels (blank W H)) Hgraybyte
              (len_blank W H Hw Hh)) as [Houtlen Houtpx].
  exists σ2, g, gray, o, out.
  split.
  { unfold processFace, try_catch. unfold bind at 1. rewrite Hrun1.
    unfold bind at 1. rewrite Hrun2. reflexivity. }
  split; [exact Hgfresh|]. split; [exact Hofresh|]. split; [exact Hgo|].
  split.
  { unfold σ2, σ1. cbn [heap]. rewrite !lookup_insert_ne by congruence. exact Hl. }
  split.
  { unfold σ2. cbn [heap]. rewrite lookup_insert_ne by congruence. exact Hgray1. }
  split; [unfold σ2; cbn [heap]; apply lookup_insert_eq|].
  split; [reflexivity|]. split; [reflexivity|].
  split; [exact Hgraypx|].
  split.
  - intros x y Hx Hy. cbv zeta. destruct (Houtpx x y Hx Hy) as [_ Hgr].
    cbv zeta in Hgr. unfold pixel_at. unfold gray_at in Hgr. cbn [pixels].
    replace (4 * (y * W + x)) with ((y * W + x) * 4) by ring. exact Hgr.
  - intros r g' b Hu p Hp. change (0 <= p < W * H) in Hp.
    change (pixels out) with outpx.
    set (c := brightened_level r g' b).
    assert (Hgu : forall q, 0 <= q < W * H -> rd graypx (q * 4) = c).
    { intros q Hq. destruct (Hgraypx q Hq) as (P0 & _).
      destruct (Hu q Hq) as (U0 & U1 & U2 & _).
      replace (4 * q) with (q * 4) in P0 by ring. rewrite P0, U0, U1, U2. reflexivity. }
    assert (Hxy : 0 <= p mod W < W /\ 0 <= p / W < H /\ p = p / W * W + p mod W).
    { assert (HW : 0 < W) by nia.
      pose proof (Z.div_mod p W ltac:(lia)). pose proof (Z.mod_pos_bound p W HW).
      assert (0 <= p / W) by (apply Z.div_pos; lia).
      assert (p / W < H) by (apply Z.div_lt_upper_bound; nia).
      lia. }
    destruct Hxy as (Hx & Hy & Ep).
    destruct (Houtpx (p mod W) (p / W) Hx Hy) as [_ Hgr]. cbv zeta in Hgr.
    rewrite <- Ep in Hgr.
    set (x0 := p mod W - p mod W mod blockSize) in * .
    set (y0 := p / W - p / W mod blockSize) in * .
    assert (Hb : 0 <= x0 < W /\ 0 <= y0 < H).
    { unfold x0, y0, blockSize.
      pose proof (Z.mod_pos_bound (p mod W) 12 ltac:(lia)).
      pose proof (Z.mod_le (p mod W) 12 ltac:(lia) ltac:(lia)).
      pose proof (Z.mod_pos_bound (p / W) 12 ltac:(lia)).
      pose proof (Z.mod_le (p / W) 12 ltac:(lia) ltac:(lia)). lia. }
    rewrite (block_sum_uniform W H graypx c) in Hgr;
      [|unfold blockSize; lia..|exact Hgu].
    rewrite rounded_mean_copies in Hgr by (unfold blockSize; nia).
    exact Hgr.
Qed.

Lemma processFace_pixelate_composition_witness :
  exists σ' o out,
    processFace (fun _ r => pixels r) (Some 0%nat) 4
      (mkWorld {[ 0%nat := mkRaster 2 1 [200; 100; 50; 255; 200; 100; 50; 255] ]} [])
    = (σ', Ret (Some o)) /\
    heap σ' !! o = Some out /\ uniform out 149 149 149 255.
Proof.
  destruct (processFace_pixelate_composition (fun _ r => pixels r)
              (mkWorld {[ 0%nat := mkRaster 2 1 [200; 100; 50; 255; 200; 100; 50; 255] ]} [])
              0%nat (mkRaster 2 1 [200; 100; 50; 255; 200; 100; 50; 255]))
    as (σ' & g & gray & o & out & Hrun & _ & _ & _ & _ & _ & Hout & _ & _ & _ & _ & Hu).
  - reflexivity.
  - repeat split; simpl; try lia. repeat constructor; lia.
  - reflexivity.
  - exists σ', o, out. split; [exact Hrun|]. split; [exact Hout|].
    assert (E : brightened_level 200 100 50 = 149) by (vm_compute; reflexivity).
    rewrite <- E. apply (Hu 200 100 50).
    intros p Hp. simpl in Hp. assert (p = 0 \/ p = 1) as [-> | ->] by lia; repeat split.
Defined.

(** ** The edit distance of the voice commands *)

Lemma for_range_1_from lo hi :
  for_range lo hi 1 = Zrange lo (Z.to_nat (hi - lo)).
Proof. unfold for_range, Zrange. apply for_from_1_seq. reflexivity. Qed.

(** A loop with step 1 and an invariant that follows the index. *)
Lemma for_loop_indexed {St : Type} (P : Z -> St -> Prop) lo hi body (s : St) :
  lo <= hi -> P lo s ->
  (forall i s, lo <= i < hi -> P i s -> P (i + 1) (body i s)) ->
  P hi (for_loop lo hi 1 body s).
Proof.
  intros Hle H0 Hstep. unfold for_loop. rewrite for_range_1_from. unfold Zrange.
  assert (G : forall n s0 from, (0 <= from)%nat ->
            lo + Z.of_nat from + Z.of_nat n = hi ->
            P (lo + Z.of_nat from) s0 ->
            P hi (fold_left (fun s i => body i s)
                    (map (fun i => lo + Z.of_nat i) (seq from n)) s0)).
  { induction n as [|n IH]; intros s0 from _ Hn Hs0; cbn [seq map fold_left].
    - replace hi with (lo + Z.of_nat from) by lia. exact Hs0.
    - apply IH; [lia|lia|].
      replace (lo + Z.of_nat (S from)) with (lo + Z.of_nat from + 1) by lia.
      apply Hstep; [lia|exact Hs0]. }
  apply (G (Z.to_nat (hi - lo)) s 0%nat); [lia|lia|].
  replace (lo + Z.of_nat 0) with lo by lia. exact H0.
Qed.

Lemma for_loop_res_indexed {St : Type} (P : Z -> St -> Prop) lo hi body (s : St) :
  lo <= hi -> P lo s ->
  (forall i s, lo <= i < hi -> P i s -> exists s', body i s = Ret s' /\ P (i + 1) s') ->
  exists s', Voice.for_loop_res lo hi 1 body s = Ret s' /\ P hi s'.
Proof.
  intros Hle H0 Hstep. unfold Voice.for_loop_res.
  apply (for_loop_indexed (fun i r => exists s', r = Ret s' /\ P i s')); [exact Hle|eauto|].
  intros i r Hi (s' & -> & Hs'). cbn [res_bind]. apply Hstep; assumption.
Qed.

(** Stores and loads. *)
Lemma load_lookup {A} (a : list (option A)) (i : nat) (v : A) :
  a !! i = Some (Some v) -> Voice.load a (Z.of_nat i) = Some v.
Proof.
  intros H. unfold Voice.load. destruct (Z.ltb_spec (Z.of_nat i) 0); [lia|].
  rewrite Nat2Z.id, H. reflexivity.
Qed.

Lemma store_append {A} (a : list (option A)) (v : option A) :
  Voice.store a (Z.of_nat (length a)) v = a ++ [v].
Proof.
  unfold Voice.store. destruct (Z.ltb_spec (Z.of_nat (length a)) 0); [lia|].
  destruct (Z.ltb_spec (Z.of_nat (length a)) (Z.of_nat (length a))); [lia|].
  rewrite Nat2Z.id, Nat.sub_diag. reflexivity.
Qed.

Lemma store_inside {A} (a : list (option A)) (i : nat) (v : option A) :
  (i < length a)%nat -> Voice.store a (Z.of_nat i) v = <[i := v]> a.
Proof.
  intros H. unfold Voice.store. destruct (Z.ltb_spec (Z.of_nat i) 0); [lia|].
  destruct (Z.ltb_spec (Z.of_nat i) (Z.of_nat (length a))); [|lia].
  rewrite Nat2Z.id. reflexivity.
Qed.

Lemma row_ok_snoc (L : nat -> Z) (n : nat) row :
  Voice.row_ok L n row -> Voice.row_ok L (S n) (row ++ [Some (L n)]).
Proof.
  intros [Hlen Hrow]. split; [rewrite length_app; cbn; lia|].
  intros j Hj. destruct (decide (j < n)%nat) as [Hlt|Hge].
  - rewrite lookup_app_l by lia. apply Hrow. exact Hlt.
  - assert (j = n) as -> by lia. rewrite lookup_app_r by lia.
    rewrite Hlen, Nat.sub_diag. reflexivity.
Qed.

Lemma lev_table_0 a b i : Voice.lev_table a b i 0%nat = Z.of_nat i.
Proof. destruct i; reflexivity. Qed.

Lemma lev_table_S a b i j :
  Voice.lev_table a b (S i) (S j) =
  if decide (b !! i = a !! j) then Voice.lev_table a b i j
  else Z.min (Voice.lev_table a b i j + 1)
         (Z.min (Voice.lev_table a b (S i) j + 1) (Voice.lev_table a b i (S j) + 1)).
Proof. reflexivity. Qed.

Lemma charAt_eq (s t : Voice.str) (i j : nat) :
  Voice.charAt s (Z.of_nat i) = Voice.charAt t (Z.of_nat j) <-> s !! i = t !! j.
Proof.
  unfold Voice.charAt.
  destruct (Z.ltb_spec (Z.of_nat i) 0); [lia|]. destruct (Z.ltb_spec (Z.of_nat j) 0); [lia|].
  rewrite !Nat2Z.id. destruct (s !! i), (t !! j); split; congruence.
Qed.

(** Reading the table. *)
Lemma table_load2 a b i n matrix (k j : nat) :
  Voice.table_ok a b i n matrix -> (k <= length b)%nat ->
  (j < (if decide (k < i)%nat then S (length a)
        else if decide (k = i) then n else 1))%nat ->
  Voice.load2 matrix (Z.of_nat k) (Z.of_nat j) = Ret (Some (Voice.lev_table a b k j)).
Proof.
  intros [Hlen Hrows] Hk Hj. destruct (Hrows k Hk) as (row & Hrow & _ & Hcells).
  unfold Voice.load2. rewrite (load_lookup _ _ _ Hrow).
  rewrite (load_lookup _ _ _ (Hcells j Hj)). reflexivity.
Qed.

(** Appending the next entry to row [i]. *)
Lemma table_store2 a b i n matrix :
  Voice.table_ok a b i n matrix -> (i <= length b)%nat ->
  exists matrix',
    Voice.store2 matrix (Z.of_nat i) (Z.of_nat n) (Some (Voice.lev_table a b i n))
    = Ret matrix' /\
    Voice.table_ok a b i (S n) matrix'.
Proof.
  intros [Hlen Hrows] Hi. destruct (Hrows i Hi) as (row & Hrow & Hok).
  rewrite decide_False in Hok by lia. rewrite decide_True in Hok by reflexivity.
  unfold Voice.store2. rewrite (load_lookup _ _ _ Hrow).
  pose proof Hok as [Hrl _].
  assert (Est : Voice.store row (Z.of_nat n) (Some (Voice.lev_table a b i n))
                = row ++ [Some (Voice.lev_table a b i n)]).
  { rewrite <- Hrl. apply store_append. }
  rewrite Est. rewrite store_inside by lia.
  eexists. split; [reflexivity|]. split; [rewrite length_insert; exact Hlen|].
  intros k Hk. destruct (decide (k = i)) as [->|Hne].
  - exists (row ++ [Some (Voice.lev_table a b i n)]).
    split; [apply list_lookup_insert_eq; lia|].
    destruct (decide (i < i)%nat); [lia|].
    apply row_ok_snoc. exact Hok.
  - destruct (Hrows k Hk) as (row' & Hrow' & Hok').
    exists row'. split; [rewrite <- Hrow'; apply list_lookup_insert_ne; congruence|].
    destruct (decide (k < i)%nat); [exact Hok'|].
    rewrite decide_False in Hok' by exact Hne. exact Hok'.
Qed.

(** Storing again the first entry of a row changes nothing. *)
Lemma table_store2_first a b i n matrix :
  Voice.table_ok a b i n matrix -> (i <= length b)%nat -> (1 <= n)%nat ->
  Voice.store2 matrix (Z.of_nat i) 0 (Some (Voice.lev_table a b i 0)) = Ret matrix.
Proof.
  intros [Hlen Hrows] Hi Hn. destruct (Hrows i Hi) as (row & Hrow & Hok).
  rewrite decide_False in Hok by lia. rewrite decide_True in Hok by reflexivity.
  destruct Hok as [Hrl Hcells].
  unfold Voice.store2. rewrite (load_lookup _ _ _ Hrow).
  assert (E1 : Voice.store row 0 (Some (Voice.lev_table a b i 0)) = row).
  { change 0 with (Z.of_nat 0). rewrite (store_inside row 0) by lia.
    apply list_insert_id. apply Hcells. lia. }
  rewrite E1. rewrite (store_inside matrix i) by lia.
  f_equal. apply list_insert_id. exact Hrow.
Qed.

(** A complete row [i] is the start of row [i + 1]. *)
Lemma table_ok_next a b i matrix :
  Voice.table_ok a b i (S (length a)) matrix -> Voice.table_ok a b (S i) 1 matrix.
Proof.
  intros [Hlen Hrows]. split; [exact Hlen|]. intros k Hk.
  destruct (Hrows k Hk) as (row & Hrow & Hok). exists row. split; [exact Hrow|].
  destruct (decide (k < i)%nat).
  - rewrite decide_True by lia. exact Hok.
  - destruct (decide (k = i)) as [->|Hne].
    + rewrite decide_True by lia. exact Hok.
    + rewrite decide_False by lia.
      destruct (decide (k = S i)); exact Hok.
Qed.

(** The first loop: one row [[i]] for every [i] up to [b.length]. *)
Lemma first_column a b :
  Voice.table_ok a b 0 1
    (for_loop 0 (Z.of_nat (length b) + 1) 1
       (fun i matrix => Voice.store matrix i (Some [Some i])) []).
Proof.
  pose (P := fun (i : Z) (m : list (option (list (option Z)))) =>
    Z.of_nat (length m) = i /\
    forall k, (k < length m)%nat -> m !! k = Some (Some [Some (Z.of_nat k)])).
  assert (H : P (Z.of_nat (length b) + 1)
                (for_loop 0 (Z.of_nat (length b) + 1) 1
                   (fun i matrix => Voice.store matrix i (Some [Some i])) [])).
  { apply (for_loop_indexed P); [lia| |].
    - split; [reflexivity|]. intros k Hk. cbn in Hk. lia.
    - intros i m Hi [Hlen Hm]. subst i. rewrite store_append. split.
      + rewrite length_app. cbn. lia.
      + intros k Hk. rewrite length_app in Hk. cbn in Hk.
        destruct (decide (k < length m)%nat) as [Hlt|Hge].
        * rewrite lookup_app_l by lia. apply Hm. exact Hlt.
        * assert (k = length m) as -> by lia. rewrite lookup_app_r by lia.
          rewrite Nat.sub_diag. reflexivity. }
  destruct H as [Hlen Hm]. split; [lia|]. intros k Hk.
  exists [Some (Z.of_nat k)]. split; [apply Hm; lia|].
  assert (Hn : (if decide (k < 0)%nat then S (length a)
                else if decide (k = 0%nat) then 1%nat else 1%nat) = 1%nat).
  { destruct (decide (k < 0)%nat); [lia|]. destruct (decide (k = 0%nat)); reflexivity. }
  rewrite Hn. split; [reflexivity|]. intros j Hj. assert (j = 0%nat) as -> by lia.
  rewrite lev_table_0. reflexivity.
Qed.

(** The second loop: row 0 holds [0 .. a.length]. *)
Lemma first_row a b matrix :
  Voice.table_ok a b 0 1 matrix ->
  exists matrix',
    Voice.for_loop_res 0 (Z.of_nat (length a) + 1) 1
      (fun j matrix => Voice.store2 matrix 0 j (Some j)) matrix = Ret matrix' /\
    Voice.table_ok a b 1 1 matrix'.
Proof.
  intros H0.
  destruct (for_loop_res_indexed
              (fun j m => Voice.table_ok a b 0 (Nat.max 1 (Z.to_nat j)) m)
              0 (Z.of_nat (length a) + 1)
              (fun j matrix => Voice.store2 matrix 0 j (Some j)) matrix)
    as (m' & Hrun & Hm'); [lia|exact H0| |].
  - intros j m Hj Hm. destruct (Z.eq_dec j 0) as [->|Hne].
    + exists m. split; [|exact Hm].
      apply (table_store2_first a b 0 _ m Hm); lia.
    + replace (Nat.max 1 (Z.to_nat j)) with (Z.to_nat j) in Hm by lia.
      destruct (table_store2 a b 0 (Z.to_nat j) m Hm ltac:(lia)) as (m' & Hst & Hm').
      exists m'. split.
      * rewrite Z2Nat.id in Hst by lia. cbn [Voice.lev_table] in Hst.
        rewrite Z2Nat.id in Hst by lia. exact Hst.
      * replace (Nat.max 1 (Z.to_nat (j + 1))) with (S (Z.to_nat j)) by lia. exact Hm'.
  - exists m'. split; [exact Hrun|]. apply table_ok_next.
    replace (Nat.max 1 (Z.to_nat (Z.of_nat (length a) + 1))) with (S (length a)) in Hm' by lia.
    exact Hm'.
Qed.

(** One entry of the table. *)
Lemma table_entry a b (i j : Z) matrix :
  1 <= i <= Z.of_nat (length b) -> 1 <= j <= Z.of_nat (length a) ->
  Voice.table_ok a b (Z.to_nat i) (Z.to_nat j) matrix ->
  exists matrix',
    (if decide (Voice.charAt b (i - 1) = Voice.charAt a (j - 1)) then
       res_bind (Voice.load2 matrix (i - 1) (j - 1)) (fun v =>
       Voice.store2 matrix i j v)
     else
       res_bind (Voice.load2 matrix (i - 1) (j - 1)) (fun d =>
       res_bind (Voice.load2 matrix i (j - 1)) (fun l =>
       res_bind (Voice.load2 matrix (i - 1) j) (fun u =>
       Voice.store2 matrix i j
         (Voice.min3 (Voice.succ_num d) (Voice.succ_num l) (Voice.succ_num u))))))
    = Ret matrix' /\
    Voice.table_ok a b (Z.to_nat i) (Z.to_nat (j + 1)) matrix'.
Proof.
  intros Hi Hj Hm.
  destruct (Z.to_nat i) as [|I'] eqn:EI; [lia|].
  destruct (Z.to_nat j) as [|J'] eqn:EJ; [lia|].
  assert (Ei : i = Z.of_nat (S I')) by lia.
  assert (Ej : j = Z.of_nat (S J')) by lia.
  assert (E1 : i - 1 = Z.of_nat I') by lia.
  assert (E2 : j - 1 = Z.of_nat J') by lia.
  assert (Ld : Voice.load2 matrix (i - 1) (j - 1) = Ret (Some (Voice.lev_table a b I' J'))).
  { rewrite E1, E2. apply (table_load2 a b (S I') (S J') matrix I' J' Hm); [lia|].
    rewrite decide_True by lia. lia. }
  assert (Ll : Voice.load2 matrix i (j - 1) = Ret (Some (Voice.lev_table a b (S I') J'))).
  { rewrite E2, Ei.
    apply (table_load2 a b (S I') (S J') matrix (S I') J' Hm); [lia|].
    rewrite decide_False by lia. rewrite decide_True by reflexivity. lia. }
  assert (Lu : Voice.load2 matrix (i - 1) j = Ret (Some (Voice.lev_table a b I' (S J')))).
  { rewrite E1, Ej.
    apply (table_load2 a b (S I') (S J') matrix I' (S J') Hm); [lia|].
    rewrite decide_True by lia. lia. }
  destruct (table_store2 a b (S I') (S J') matrix Hm ltac:(lia)) as (m' & Hst & Hm').
  rewrite <- Ei, <- Ej in Hst. rewrite lev_table_S in Hst.
  exists m'. split.
  - rewrite Ld, Ll, Lu. cbn [res_bind Voice.succ_num Voice.min3 fmap option_fmap option_map].
    rewrite E1, E2.
    destruct (decide (Voice.charAt b (Z.of_nat I') = Voice.charAt a (Z.of_nat J'))) as [Hc|Hc].
    + rewrite decide_True in Hst by (apply charAt_eq; exact Hc). exact Hst.
    + rewrite decide_False in Hst by (intros E; apply Hc; apply charAt_eq; exact E).
      exact Hst.
  - replace (Z.to_nat (j + 1)) with (S (S J')) by lia. exact Hm'.
Qed.

(** What [levenshteinDistance] returns: the last entry of the table. *)
Lemma levenshteinDistance_run (a b : Voice.str) :
  Voice.levenshteinDistance a b =
  Ret (Some (Voice.lev_table a b (length b) (length a))).
Proof.
  unfold Voice.levenshteinDistance. cbv zeta.
  destruct (first_row a b _ (first_column a b)) as (m1 & Hrun1 & Hm1).
  rewrite Hrun1. cbn [res_bind].
  destruct (for_loop_res_indexed
              (fun i m => Voice.table_ok a b (Z.to_nat i) 1 m)
              1 (Z.of_nat (length b) + 1)
              (fun i matrix =>
                 Voice.for_loop_res 1 (Z.of_nat (length a) + 1) 1 (fun j matrix =>
                   if decide (Voice.charAt b (i - 1) = Voice.charAt a (j - 1)) then
                     res_bind (Voice.load2 matrix (i - 1) (j - 1)) (fun v =>
                     Voice.store2 matrix i j v)
                   else
                     res_bind (Voice.load2 matrix (i - 1) (j - 1)) (fun d =>
                     res_bind (Voice.load2 matrix i (j - 1)) (fun l =>
                     res_bind (Voice.load2 matrix (i - 1) j) (fun u =>
                     Voice.store2 matrix i j
                       (Voice.min3 (Voice.succ_num d) (Voice.succ_num l)
                                   (Voice.succ_num u)))))) matrix) m1)
    as (m2 & Hrun2 & Hm2); [lia|exact Hm1| |].
  - intros i m Hi Hm.
    destruct (for_loop_res_indexed
                (fun j m => Voice.table_ok a b (Z.to_nat i) (Z.to_nat j) m)
                1 (Z.of_nat (length a) + 1)
                (fun j matrix =>
                   if decide (Voice.charAt b (i - 1) = Voice.charAt a (j - 1)) then
                     res_bind (Voice.load2 matrix (i - 1) (j - 1)) (fun v =>
                     Voice.store2 matrix i j v)
                   else
                     res_bind (Voice.load2 matrix (i - 1) (j - 1)) (fun d =>
                     res_bind (Voice.load2 matrix i (j - 1)) (fun l =>
                     res_bind (Voice.load2 matrix (i - 1) j) (fun u =>
                     Voice.store2 matrix i j
                       (Voice.min3 (Voice.succ_num d) (Voice.succ_num l)
                                   (Voice.succ_num u)))))) m)
      as (m' & Hrun & Hm'); [lia|exact Hm| |].
    + intros j m0 Hj Hm0. apply table_entry; [lia|lia|exact Hm0].
    + exists m'. split; [exact Hrun|].
      replace (Z.to_nat (Z.of_nat (length a) + 1)) with (S (length a)) in Hm' by lia.
      replace (Z.to_nat (i + 1)) with (S (Z.to_nat i)) by lia.
      apply table_ok_next. exact Hm'.
  - rewrite Hrun2. cbn [res_bind].
    replace (Z.to_nat (Z.of_nat (length b) + 1)) with (S (length b)) in Hm2 by lia.
    apply (table_load2 a b _ _ m2 (length b) (length a) Hm2); [lia|].
    rewrite decide_True by lia. lia.
Qed.

(** *** The table, as a function of the two strings *)

Lemma lev_table_bounds (a b : Voice.str) i j :
  Z.abs (Z.of_nat i - Z.of_nat j) <= Voice.lev_table a b i j <= Z.max (Z.of_nat i) (Z.of_nat j).
Proof.
  revert j. induction i as [|i IHi]; intros j.
  - cbn [Voice.lev_table]. lia.
  - induction j as [|j IHj].
    + rewrite lev_table_0. lia.
    + rewrite lev_table_S.
      pose proof (IHi j). pose proof (IHi (S j)).
      destruct (decide (b !! i = a !! j)); lia.
Qed.

Lemma lev_table_sym (a b : Voice.str) i j : Voice.lev_table a b i j = Voice.lev_table b a j i.
Proof.
  revert j. induction i as [|i IHi]; intros j.
  - rewrite lev_table_0. reflexivity.
  - induction j as [|j IHj].
    + rewrite lev_table_0. reflexivity.
    + rewrite !lev_table_S. rewrite (IHi j), (IHi (S j)), IHj.
      destruct (decide (b !! i = a !! j)) as [E|E].
      * rewrite decide_True by (symmetry; exact E). reflexivity.
      * rewrite decide_False by (intros E'; apply E; symmetry; exact E').
        f_equal. apply Z.min_comm.
Qed.

Lemma lev_table_diag (a : Voice.str) i : Voice.lev_table a a i i = 0.
Proof.
  induction i as [|i IH]; [reflexivity|].
  rewrite lev_table_S. rewrite decide_True by reflexivity. exact IH.
Qed.

Lemma lev_table_zero (a b : Voice.str) i j :
  (i <= length b)%nat -> (j <= length a)%nat ->
  Voice.lev_table a b i j = 0 -> i = j /\ take i b = take j a.
Proof.
  revert j. induction i as [|i IHi]; intros j Hi Hj.
  - cbn [Voice.lev_table]. intros H. assert (j = 0%nat) as -> by lia. auto.
  - induction j as [|j IHj].
    + rewrite lev_table_0. lia.
    + rewrite lev_table_S.
      pose proof (lev_table_bounds a b i j). pose proof (lev_table_bounds a b (S i) j).
      pose proof (lev_table_bounds a b i (S j)).
      destruct (decide (b !! i = a !! j)) as [E|E]; [|intros Hz; exfalso; lia].
      intros Hz. destruct (IHi j ltac:(lia) ltac:(lia) Hz) as [-> Ht].
      split; [reflexivity|]. unfold Voice.str in * .
      destruct (lookup_lt_is_Some_2 b j ltac:(lia)) as [c Hc].
      rewrite Hc in E. symmetry in E.
      rewrite (take_S_r b j c Hc), (take_S_r a j c E), Ht. reflexivity.
Qed.

(** X24.  [levenshteinDistance] always returns a number (it never
    raises and never gives [NaN]); the number is the same in both
    directions, lies between the difference of the two lengths and the
    larger length, and is 0 exactly for equal strings. *)
Theorem levenshteinDistance_facts (a b : Voice.str) :
  exists d,
    Voice.levenshteinDistance a b = Ret (Some d) /\
    Voice.levenshteinDistance b a = Ret (Some d) /\
    Z.abs (Z.of_nat (length a) - Z.of_nat (length b)) <= d
      <= Z.max (Z.of_nat (length a)) (Z.of_nat (length b)) /\
    (d = 0 <-> a = b).
Proof.
  exists (Voice.lev_table a b (length b) (length a)).
  split; [apply levenshteinDistance_run|].
  split; [rewrite levenshteinDistance_run, lev_table_sym; reflexivity|].
  pose proof (lev_table_bounds a b (length b) (length a)) as Hb.
  split; [lia|]. split.
  - intros H0. destruct (lev_table_zero a b _ _ (le_n _) (le_n _) H0) as [_ Ht].
    rewrite !firstn_all in Ht. symmetry. exact Ht.
  - intros ->. apply lev_table_diag.
Qed.

(** ** Fuzzy matching of voice commands *)

Lemma startsWith_refl (w : Voice.str) : Voice.startsWith w w = true.
Proof.
  induction w as [|c w IH]; [reflexivity|].
  cbn [Voice.startsWith]. rewrite bool_decide_eq_true_2 by reflexivity. exact IH.
Qed.

Lemma includes_refl (w : Voice.str) : Voice.includes w w = true.
Proof. destruct w; cbn [Voice.includes]; rewrite startsWith_refl; reflexivity. Qed.

Lemma includes_empty (w : Voice.str) : Voice.includes w [] = true.
Proof. destruct w; reflexivity. Qed.

Lemma split_nonempty (s : Voice.str) : (1 <= length (Voice.split s))%nat.
Proof.
  induction s as [|c s IH]; cbn [Voice.split]; [cbn; lia|].
  destruct (decide (c = Voice.space)); [cbn; lia|].
  destruct (Voice.split s); cbn; lia.
Qed.

Lemma word_matches_spec (word inputWord : Voice.str) :
  Voice.word_matches word inputWord = Ret (Voice.word_close word inputWord).
Proof.
  unfold Voice.word_matches, Voice.word_close.
  destruct (Voice.includes inputWord word); [reflexivity|].
  destruct (Voice.includes word inputWord); [reflexivity|].
  rewrite levenshteinDistance_run. reflexivity.
Qed.

Lemma word_close_iff (word inputWord : Voice.str) :
  Voice.word_close word inputWord = true <-> Voice.close word inputWord.
Proof.
  unfold Voice.word_close, Voice.close. rewrite !orb_true_iff, Z.leb_le. split.
  - intros [[H|H]|H]; [left; exact H|right; left; exact H|right; right].
    eexists. split; [apply levenshteinDistance_run|exact H].
  - intros [H|[H|(d & Hd & Hle)]]; [left; left; exact H|left; right; exact H|right].
    rewrite levenshteinDistance_run in Hd. injection Hd as <-. exact Hle.
Qed.

Lemma some_spec {A} (f : A -> Res bool) (g : A -> bool) (l : list A) :
  (forall x, f x = Ret (g x)) -> Voice.some f l = Ret (existsb g l).
Proof.
  intros H. induction l as [|x l IH]; [reflexivity|].
  cbn [Voice.some existsb]. rewrite H. cbn [res_bind].
  destruct (g x); [reflexivity|exact IH].
Qed.

(** The count of the command words that an input word matches. *)
Lemma matches_loop (inputWords commandWords : list Voice.str) (m0 : Z) :
  fold_left (fun r word =>
     res_bind r (fun matches : Z =>
     res_bind (Voice.some (Voice.word_matches word) inputWords) (fun found =>
     Ret (if found then matches + 1 else matches))))
    commandWords (Ret m0)
  = Ret (m0 + Z.of_nat (length (List.filter
                 (fun word => existsb (Voice.word_close word) inputWords) commandWords))).
Proof.
  revert m0. induction commandWords as [|w ws IH]; intros m0; cbn [fold_left List.filter].
  - cbn. f_equal. lia.
  - cbn [res_bind]. rewrite (some_spec _ (Voice.word_close w)) by apply word_matches_spec.
    cbn [res_bind]. destruct (existsb (Voice.word_close w) inputWords).
    + rewrite IH. cbn [length]. f_equal. lia.
    + apply IH.
Qed.

Lemma fuzzyMatch_run (input command : Voice.str) :
  Voice.fuzzyMatch input command =
  Ret (lit 0.6 <=.
       (inject_Z (Z.of_nat (length (List.filter
                   (fun word => existsb (Voice.word_close word) (Voice.split input))
                   (Voice.split command))))
        /. inject_Z (Z.of_nat (length (Voice.split command))))).
Proof.
  unfold Voice.fuzzyMatch. cbv zeta. rewrite matches_loop. cbn [res_bind].
  rewrite Z.add_0_l. reflexivity.
Qed.

Lemma filter_all {A} (p : A -> bool) (l : list A) :
  (forall x, In x l -> p x = true) -> List.filter p l = l.
Proof.
  induction l as [|x l IH]; intros H; [reflexivity|].
  cbn [List.filter]. rewrite (H x (or_introl eq_refl)). f_equal.
  apply IH. intros y Hy. apply H. right. exact Hy.
Qed.

Lemma filter_none {A} (p : A -> bool) (l : list A) :
  (forall x, In x l -> p x = false) -> List.filter p l = [].
Proof.
  induction l as [|x l IH]; intros H; [reflexivity|].
  cbn [List.filter]. rewrite (H x (or_introl eq_refl)).
  apply IH. intros y Hy. apply H. right. exact Hy.
Qed.

Lemma fuzzyMatch_all (input command : Voice.str) :
  (forall w, In w (Voice.split command) ->
     existsb (Voice.word_close w) (Voice.split input) = true) ->
  Voice.fuzzyMatch input command = Ret true.
Proof.
  intros H. rewrite fuzzyMatch_run. rewrite filter_all by exact H.
  pose proof (split_nonempty command) as Hn.
  set (n := Z.of_nat (length (Voice.split command))) in * .
  unfold JS.fdiv. rewrite (fl_proper (inject_Z n / inject_Z n) (inject_Z 1)).
  - rewrite (fl_byte 1) by lia. vm_compute. reflexivity.
  - assert (Hq : (0 < inject_Z n)%Q).
    { change 0%Q with (inject_Z 0). rewrite <- Zlt_Qlt. unfold n, Voice.str in * . lia. }
    change (inject_Z 1) with 1%Q. field. lra.
Qed.

Lemma fuzzyMatch_none (input command : Voice.str) :
  (forall w, In w (Voice.split command) ->
     existsb (Voice.word_close w) (Voice.split input) = false) ->
  Voice.fuzzyMatch input command = Ret false.
Proof.
  intros H. rewrite fuzzyMatch_run. rewrite filter_none by exact H.
  pose proof (split_nonempty command) as Hn.
  set (n := Z.of_nat (length (Voice.split command))) in * .
  cbn [length]. unfold JS.fdiv.
  rewrite (fl_proper (inject_Z (Z.of_nat 0) / inject_Z n) (inject_Z 0)).
  - rewrite (fl_byte 0) by lia. vm_compute. reflexivity.
  - assert (Hq : (0 < inject_Z n)%Q).
    { change 0%Q with (inject_Z 0). rewrite <- Zlt_Qlt. unfold n, Voice.str in * . lia. }
    change (inject_Z (Z.of_nat 0)) with 0%Q. change (inject_Z 0) with 0%Q.
    field. lra.
Qed.

(** X25.  [fuzzyMatch] never raises.  It accepts when every word of the
    command is matched by some word of the input (one contains the
    other, or their edit distance is at most 2), and rejects when no word
    of the command is matched.  So a command always matches itself; and
    an input with an empty word in it (two spaces in a row: the empty
    string is part of every word) matches every command. *)
Theorem fuzzyMatch_facts (input command : Voice.str) :
  (exists r, Voice.fuzzyMatch input command = Ret r) /\
  ((forall w, w ∈ Voice.split command ->
      exists x, x ∈ Voice.split input /\ Voice.close w x) ->
   Voice.fuzzyMatch input command = Ret true) /\
  ((forall w x, w ∈ Voice.split command -> x ∈ Voice.split input ->
      ~ Voice.close w x) ->
   Voice.fuzzyMatch input command = Ret false) /\
  Voice.fuzzyMatch command command = Ret true /\
  ([] ∈ Voice.split input -> Voice.fuzzyMatch input command = Ret true).
Proof.
  split; [rewrite fuzzyMatch_run; eexists; reflexivity|].
  split; [|split; [|split]].
  - intros H. apply fuzzyMatch_all. intros w Hw.
    destruct (H w ltac:(apply list_elem_of_In; exact Hw)) as (x & Hx & Hc).
    apply existsb_exists. exists x. split; [apply list_elem_of_In; exact Hx|].
    apply word_close_iff. exact Hc.
  - intros H. apply fuzzyMatch_none. intros w Hw.
    destruct (existsb (Voice.word_close w) (Voice.split input)) eqn:E; [|reflexivity].
    apply existsb_exists in E as (x & Hx & Hc). exfalso.
    apply (H w x); [apply list_elem_of_In; exact Hw|apply list_elem_of_In; exact Hx|].
    apply word_close_iff. exact Hc.
  - apply fuzzyMatch_all. intros w Hw. apply existsb_exists. exists w.
    split; [exact Hw|]. unfold Voice.word_close. rewrite includes_refl. reflexivity.
  - intros He. apply fuzzyMatch_all. intros w Hw. apply existsb_exists. exists [].
    split; [apply list_elem_of_In; exact He|].
    unfold Voice.word_close. rewrite includes_empty. apply orb_true_iff. left.
    apply orb_true_r.
Qed.

(** ** The edit distance is the least number of edits *)

Lemma take_S_eq {A} (l l' : list A) (i : nat) :
  take (S i) l = take (S i) l' -> take i l = take i l' /\ l !! i = l' !! i.
Proof.
  intros H. split.
  - assert (E : forall k : list A, take i k = take i (take (S i) k)).
    { intros k. rewrite take_take. f_equal. lia. }
    rewrite (E l), (E l'), H. reflexivity.
  - rewrite <- (lookup_take_lt l (S i) i), <- (lookup_take_lt l' (S i) i) by lia.
    rewrite H. reflexivity.
Qed.

(** An entry of the table depends on the prefixes only. *)
Lemma lev_table_prefix (a b a' b' : list N) i j :
  take j a = take j a' -> take i b = take i b' ->
  Voice.lev_table a b i j = Voice.lev_table a' b' i j.
Proof.
  revert j. induction i as [|i IHi]; intros j Ha Hb; [reflexivity|].
  destruct (take_S_eq b b' i Hb) as [Hb' Hbi].
  induction j as [|j IHj]; [rewrite !lev_table_0; reflexivity|].
  destruct (take_S_eq a a' j Ha) as [Ha' Haj].
  rewrite !lev_table_S. unfold Voice.str in * .
  rewrite (IHi j Ha' Hb'), (IHi (S j) Ha Hb'), (IHj Ha'), Hbi, Haj. reflexivity.
Qed.

(** Neighbouring entries of the table differ by at most one. *)
Lemma lev_table_right (a b : list N) i :
  forall j, Voice.lev_table a b i (S j) <= Voice.lev_table a b i j + 1.
Proof.
  induction i as [|i IHi]; intros j.
  - cbn [Voice.lev_table]. lia.
  - assert (Hdown : forall k, Voice.lev_table a b i k <= Voice.lev_table a b (S i) k + 1).
    { intros k. induction k as [|k IHk].
      - rewrite !lev_table_0. lia.
      - rewrite lev_table_S. unfold Voice.str in * . pose proof (IHi k).
        destruct (decide (b !! i = a !! k)); lia. }
    rewrite lev_table_S. unfold Voice.str in * . pose proof (Hdown j).
    destruct (decide (b !! i = a !! j)); lia.
Qed.

Lemma lev_table_down (a b : list N) i j :
  Voice.lev_table a b (S i) j <= Voice.lev_table a b i j + 1.
Proof.
  rewrite (lev_table_sym a b (S i) j), (lev_table_sym a b i j).
  apply lev_table_right.
Qed.

(** The distance of two strings, as the last entry of their table. *)
Lemma lev_table_snoc_l (a b : list N) (c : N) :
  Voice.lev_table (a ++ [c]) b (length b) (length a) =
  Voice.lev_table a b (length b) (length a).
Proof.
  apply lev_table_prefix; [|reflexivity].
  rewrite take_app_length. rewrite take_ge by lia. reflexivity.
Qed.

Lemma lev_table_snoc_r (a b : list N) (d : N) :
  Voice.lev_table a (b ++ [d]) (length b) (length a) =
  Voice.lev_table a b (length b) (length a).
Proof.
  apply lev_table_prefix; [reflexivity|].
  rewrite take_app_length. rewrite take_ge by lia. reflexivity.
Qed.

Lemma lev_table_snoc (a b : list N) (c d : N) :
  Voice.lev_table (a ++ [c]) (b ++ [d]) (S (length b)) (S (length a)) =
  if decide (d = c) then Voice.lev_table a b (length b) (length a)
  else Z.min (Voice.lev_table a b (length b) (length a) + 1)
         (Z.min (Voice.lev_table a (b ++ [d]) (S (length b)) (length a) + 1)
                (Voice.lev_table (a ++ [c]) b (length b) (S (length a)) + 1)).
Proof.
  rewrite lev_table_S. unfold Voice.str in * .
  rewrite !(list_lookup_middle _ [] _ _ eq_refl).
  assert (E0 : Voice.lev_table (a ++ [c]) (b ++ [d]) (length b) (length a)
               = Voice.lev_table a b (length b) (length a)).
  { apply lev_table_prefix; rewrite take_app_length; rewrite take_ge by lia; reflexivity. }
  assert (E1 : Voice.lev_table (a ++ [c]) (b ++ [d]) (S (length b)) (length a)
               = Voice.lev_table a (b ++ [d]) (S (length b)) (length a)).
  { apply lev_table_prefix; [|reflexivity].
    rewrite take_app_length. rewrite take_ge by lia. reflexivity. }
  assert (E2 : Voice.lev_table (a ++ [c]) (b ++ [d]) (length b) (S (length a))
               = Voice.lev_table (a ++ [c]) b (length b) (S (length a))).
  { apply lev_table_prefix; [reflexivity|].
    rewrite take_app_length. rewrite take_ge by lia. reflexivity. }
  rewrite E0, E1, E2.
  destruct (decide (d = c)) as [->|Hne].
  - rewrite decide_True by reflexivity. reflexivity.
  - rewrite decide_False by congruence. reflexivity.
Qed.

(** No sequence of edits is shorter than the entry of the table. *)
Lemma edits_lower_bound (a b : Voice.str) (n : nat) :
  Voice.edits a b n ->
  Voice.lev_table a b (length b) (length a) <= Z.of_nat n.
Proof.
  induction 1 as [|c a b n _ IH|c d a b n _ IH|c a b n _ IH|d a b n _ IH].
  - cbn. lia.
  - rewrite !length_app. cbn [length]. rewrite !Nat.add_1_r.
    rewrite lev_table_snoc. rewrite decide_True by reflexivity. exact IH.
  - rewrite !length_app. cbn [length]. rewrite !Nat.add_1_r.
    rewrite lev_table_snoc. destruct (decide (d = c)); lia.
  - rewrite length_app. cbn [length]. rewrite Nat.add_1_r.
    pose proof (lev_table_right (a ++ [c]) b (length b) (length a)) as H.
    rewrite lev_table_snoc_l in H. lia.
  - rewrite length_app. cbn [length]. rewrite Nat.add_1_r.
    pose proof (lev_table_down a (b ++ [d]) (length b) (length a)) as H.
    rewrite lev_table_snoc_r in H. lia.
Qed.

(** The entry of the table is reached by a sequence of edits. *)
Lemma edits_reach (a b : Voice.str) (i j : nat) :
  (i <= length b)%nat -> (j <= length a)%nat ->
  Voice.edits (take j a) (take i b) (Z.to_nat (Voice.lev_table a b i j)).
Proof.
  revert j. induction i as [|i IHi]; intros j Hi Hj.
  - cbn [Voice.lev_table take]. rewrite Nat2Z.id. clear Hi.
    induction j as [|j IHj]; [constructor|].
    destruct (lookup_lt_is_Some_2 a j ltac:(lia)) as [c Hc].
    rewrite (take_S_r a j c Hc). apply Voice.edits_delete. apply IHj. lia.
  - destruct (lookup_lt_is_Some_2 b i ltac:(lia)) as [d Hd].
    induction j as [|j IHj].
    + rewrite lev_table_0. rewrite Nat2Z.id. rewrite (take_S_r b i d Hd).
      apply Voice.edits_insert.
      specialize (IHi 0%nat ltac:(lia) ltac:(lia)).
      rewrite lev_table_0, Nat2Z.id in IHi. exact IHi.
    + destruct (lookup_lt_is_Some_2 a j ltac:(lia)) as [c Hc].
      pose proof (lev_table_bounds a b i j) as B1.
      pose proof (lev_table_bounds a b (S i) j) as B2.
      pose proof (lev_table_bounds a b i (S j)) as B3.
      rewrite lev_table_S. unfold Voice.str in * . rewrite Hd, Hc.
      destruct (decide (Some d = Some c)) as [E|E].
      * injection E as ->.
        rewrite (take_S_r b i c Hd), (take_S_r a j c Hc).
        apply Voice.edits_keep. apply IHi; lia.
      * set (x := Voice.lev_table a b i j) in * .
        set (y := Voice.lev_table a b (S i) j) in * .
        set (z := Voice.lev_table a b i (S j)) in * .
        destruct (Z.min_spec (x + 1) (Z.min (y + 1) (z + 1))) as [[_ ->]|[_ ->]].
        -- replace (Z.to_nat (x + 1)) with (S (Z.to_nat x)) by lia.
           rewrite (take_S_r b i d Hd), (take_S_r a j c Hc).
           apply Voice.edits_substitute. apply IHi; lia.
        -- destruct (Z.min_spec (y + 1) (z + 1)) as [[_ ->]|[_ ->]].
           ++ replace (Z.to_nat (y + 1)) with (S (Z.to_nat y)) by lia.
              rewrite (take_S_r a j c Hc).
              apply Voice.edits_delete. apply IHj. lia.
           ++ replace (Z.to_nat (z + 1)) with (S (Z.to_nat z)) by lia.
              rewrite (take_S_r b i d Hd).
              apply Voice.edits_insert. apply IHi; lia.
Qed.

(** X26.  The number that [levenshteinDistance] returns is the edit
    distance of the two strings: some sequence of that many
    single-character insertions, deletions and substitutions turns the
    first string into the second, and no sequence of fewer does. *)
Theorem levenshteinDistance_optimal (a b : Voice.str) :
  exists d : nat,
    Voice.levenshteinDistance a b = Ret (Some (Z.of_nat d)) /\
    Voice.edits a b d /\
    forall n, Voice.edits a b n -> (d <= n)%nat.
Proof.
  pose proof (lev_table_bounds a b (length b) (length a)) as B.
  exists (Z.to_nat (Voice.lev_table a b (length b) (length a))).
  split; [rewrite levenshteinDistance_run, Z2Nat.id by lia; reflexivity|].
  split.
  - pose proof (edits_reach a b (length b) (length a) (le_n _) (le_n _)) as H.
    rewrite !firstn_all in H. exact H.
  - intros n Hn. apply edits_lower_bound in Hn. lia.
Qed.

(** ** A reported box without a corner *)

(** X27.  The precondition on the corner is needed.  When the reported
    box has [xMin] (or [topLeft.x]) NaN or missing, a [yMin] and a size
    in integers that the history accepts (30 to 100 on each side, ending
    inside the frame), the detection callback takes the box as the
    detection: its test of width and height passes, the comparison of
    [NaN + width] with the frame width is false, and [updateFaceHistory]
    looks at sizes only.  The box with [x = NaN] becomes the last known
    position and the newest entry of the history, so the state is no
    longer one of integer boxes. *)
Theorem detection_onload_NaN_corner
    (Math_pow : Q -> Q -> Q) (Math_sqrt : Q -> Q) (lpt : Raster -> bool)
    (Canvas : Type) (applyFaceFilter : Canvas -> Raster -> NumBox.t -> Canvas)
    (fp : FaceProcessor) (faceImage : Canvas) (capturedImage : Raster)
    (face : DetectionResult) (rest : list DetectionResult)
    (xMin : Num.value) (y w h : Z) :
  Num.isNaN xMin = true ->
  0 <= y -> 30 <= w <= 100 -> 30 <= h <= 100 -> y + h <= 120 ->
  face = BoxForm xMin (Num.int y) (Num.int w) (Num.int h) \/
  face = BoundingBoxForm (Some (xMin, Num.int y)) (Num.int w) (Num.int h) ->
  let nb := NumBox.mk Num.NaN (Num.of_Z y) (Num.of_Z w) (Num.of_Z h) in
  let fp' := fst (detection_onload Math_pow Math_sqrt lpt Canvas applyFaceFilter
                    fp faceImage capturedImage (Ret (Some (face :: rest)))) in
  Reported.lastKnownFacePosition fp' = Some nb /\
  last (Reported.faceTrackingHistory fp') = Some nb /\
  forall fp0, fp' <> reported fp0.
Proof.
  intros Hnan Hy Hw Hh Hyh Hface nb fp'.
  assert (E : ml_accept face = Ret (Some nb)).
  { assert (EB : ml_accept (BoxForm xMin (Num.int y) (Num.int w) (Num.int h))
                 = Ret (Some nb)).
    { rewrite ml_accept_BoxForm. cbv zeta.
      rewrite Num_Math_max_0_int, !Num_Math_min_int, Num_Math_max_0_round.
      unfold Num.isNaN in Hnan.
      destruct (Num.ToNumber xMin) eqn:EN; try discriminate.
      unfold imageProcessor_width, imageProcessor_height.
      rewrite (Z.max_r 0 y), (Z.min_l w 160), (Z.min_l h 120) by lia.
      rewrite !Num_gtb_of_Z.
      destruct (Z.ltb_spec 0 w); [|lia]. destruct (Z.ltb_spec 0 h); [|lia].
      cbn [andb Num.add Num.gtb].
      rewrite Num_add_gtb by lia.
      destruct (Z.ltb_spec 120 (y + h)); [lia|]. reflexivity. }
    destruct Hface as [-> | ->]; [exact EB|].
    unfold ml_accept. rewrite ml_bbox_layouts. exact EB. }
  assert (V : Reported.isValidFaceSize nb = true).
  { unfold Reported.isValidFaceSize, nb, Num.geb. cbn [NumBox.width NumBox.height].
    rewrite !Num_leb_of_Z. unfold minFaceSize, maxFaceSize.
    repeat (apply andb_true_iff; split); apply Z.leb_le; lia. }
  assert (Efp : fp' = Reported.updateFaceHistory (reported fp) (Some nb)).
  { unfold fp', detection_onload. cbv zeta. rewrite E. reflexivity. }
  assert (Hlast : Reported.lastKnownFacePosition fp' = Some nb).
  { rewrite Efp. unfold Reported.updateFaceHistory. rewrite V. reflexivity. }
  split; [exact Hlast|]. split.
  - rewrite Efp. unfold Reported.updateFaceHistory. rewrite V.
    cbn [Reported.faceTrackingHistory].
    destruct (_ >? _) eqn:G; [|apply last_snoc].
    destruct (Reported.faceTrackingHistory (reported fp)) as [|a l]; [discriminate|].
    cbn [app tail]. apply last_snoc.
  - intros fp0 Heq. rewrite Heq in Hlast. unfold reported in Hlast.
    cbn [Reported.lastKnownFacePosition] in Hlast.
    destruct (lastKnownFacePosition fp0); discriminate.
Qed.

Lemma detection_onload_NaN_corner_witness :
  let nb := NumBox.mk Num.NaN (Num.of_Z 10) (Num.of_Z 50) (Num.of_Z 50) in
  let fp' := fst (detection_onload (fun x _ => x) (fun x => x) (fun _ => false) unit
                    (fun c _ _ => c) newFaceProcessor tt (blank 160 120)
                    (Ret (Some [BoxForm Num.Undefined (Num.int 10) (Num.int 50) (Num.int 50)]))) in
  Reported.lastKnownFacePosition fp' = Some nb /\
  last (Reported.faceTrackingHistory fp') = Some nb /\
  forall fp0, fp' <> reported fp0.
Proof.
  apply (detection_onload_NaN_corner (fun x _ => x) (fun x => x) (fun _ => false) unit
           (fun c _ _ => c) newFaceProcessor tt (blank 160 120)
           (BoxForm Num.Undefined (Num.int 10) (Num.int 50) (Num.int 50)) []
           Num.Undefined 10 50 50);
    [reflexivity|lia|lia|lia|lia|left; reflexivity].
Defined.
